(** * A shallow embedding of the BPE tokenizer (src/tokenStrategy/BPE.tsx)

    Strings are sequences of code units.  The embedding covers texts whose
    code units lie in the Latin-1 range (0..255), so a code unit is an
    [ascii]; [toLowerCase], the white-space class [\s] and the word class
    [\w] are written out for that range.  The numbers of a configuration
    ([vocabSize], [minFreq], [maxMerges]) are finite and need not be whole:
    each is held as a fraction, which every finite double is.  NaN and the
    infinities are outside the embedding (with an infinite [maxMerges] the
    merge loop of [train] need not end).  Wall-clock readings
    ([performance.now]) are not part of the model.

    The character tokenizer (src/tokenStrategy/CharBased.tsx) and the word
    tokenizer are embedded in the modules [CharacterTokenizer] and
    [SimpleTokenizer] further down. *)

From Stdlib Require Import Ascii String DecimalString DecimalPos DecimalN Floats Uint63.
From Stdlib Require Import ZArith NArith QArith Qround Bool Lia Permutation Sorted List.
Import ListNotations.

Local Close Scope Q_scope.
Local Open Scope char_scope.
Local Open Scope list_scope.

(* ================================================================== *)
(** ** Strings *)

Module Str.

Definition str := list ascii.

(** A literal. *)
Definition lit (s : string) : str := list_ascii_of_string s.

Definition code (c : ascii) : N := N_of_ascii c.

Definition in_range (lo hi : N) (c : ascii) : bool :=
  (N.leb lo (code c) && N.leb (code c) hi)%bool.

Fixpoint eqb (a b : str) : bool :=
  match a, b with
  | [], [] => true
  | x :: a', y :: b' => (Ascii.eqb x y && eqb a' b')%bool
  | _, _ => false
  end.

(** [String.prototype.toLowerCase] on Latin-1: A-Z and the accented capitals
    U+00C0..U+00DE (U+00D7, the multiplication sign, excepted) move up by 32. *)
Definition toLowerChar (c : ascii) : ascii :=
  if (in_range 65 90 c || (in_range 192 222 c && negb (N.eqb (code c) 215)))%bool
  then ascii_of_N (code c + 32) else c.

Definition toLowerCase (s : str) : str := map toLowerChar s.

(** White space as [\s] and [trim] see it (Latin-1 part): TAB, LF, VT, FF, CR,
    SPACE and NBSP. *)
Definition is_ws (c : ascii) : bool :=
  (in_range 9 13 c || N.eqb (code c) 32 || N.eqb (code c) 160)%bool.

(** Word characters of [\b] and [\w]: [A-Za-z0-9_]. *)
Definition is_word_char (c : ascii) : bool :=
  (in_range 48 57 c || in_range 65 90 c || N.eqb (code c) 95 || in_range 97 122 c)%bool.

Fixpoint dropWhile (p : ascii -> bool) (s : str) : str :=
  match s with
  | [] => []
  | c :: s' => if p c then dropWhile p s' else s
  end.

(** [String.prototype.trim]. *)
Definition trim (s : str) : str :=
  rev (dropWhile is_ws (rev (dropWhile is_ws s))).

(** [s.replace(/\s+/g, ' ')]: every maximal run of white space becomes one
    space.  [inrun] tells that the previous code unit was white space. *)
Fixpoint collapse_ws (inrun : bool) (s : str) : str :=
  match s with
  | [] => []
  | c :: s' =>
      if is_ws c
      then (if inrun then collapse_ws true s' else " " :: collapse_ws true s')
      else c :: collapse_ws false s'
  end.

(** [s.split(/\s+/)]: the pieces between maximal runs of white space; a
    leading or trailing run gives an empty first or last piece, and the empty
    string gives one empty piece. *)
Fixpoint split_ws (inrun : bool) (s : str) : list str :=
  match s with
  | [] => [[]]
  | c :: s' =>
      if is_ws c
      then (if inrun then split_ws true s' else [] :: split_ws true s')
      else match split_ws false s' with
           | p :: ps => (c :: p) :: ps
           | [] => [[c]]
           end
  end.

(** [s.split(sep)] for a one-unit separator. *)
Fixpoint split_on (sep : ascii) (s : str) : list str :=
  match s with
  | [] => [[]]
  | c :: s' =>
      if Ascii.eqb c sep then [] :: split_on sep s'
      else match split_on sep s' with
           | p :: ps => (c :: p) :: ps
           | [] => [[c]]
           end
  end.

(** [s.split('')]: the code units, each as a string. *)
Definition split_chars (s : str) : list str := map (fun c => [c]) s.

(** [parts.join(sep)]. *)
Fixpoint join (sep : str) (parts : list str) : str :=
  match parts with
  | [] => []
  | [p] => p
  | p :: ps => p ++ sep ++ join sep ps
  end.

Definition nonempty (s : str) : bool := negb (Nat.eqb (length s) 0).

(** Comparison of the default [Array.prototype.sort]: code units, left to
    right, a proper prefix first. *)
Fixpoint ltb (a b : str) : bool :=
  match a, b with
  | _, [] => false
  | [], _ :: _ => true
  | x :: a', y :: b' =>
      if N.ltb (code x) (code y) then true
      else if N.ltb (code y) (code x) then false
      else ltb a' b'
  end.

Fixpoint insert_sorted (x : str) (l : list str) : list str :=
  match l with
  | [] => [x]
  | y :: l' => if ltb x y then x :: l else y :: insert_sorted x l'
  end.

(** [Array.prototype.sort()] without a comparator, on strings. *)
Definition sort (l : list str) : list str := fold_right insert_sorted [] l.

(** [String(n)] and a property key made from a number: decimal digits. *)
Definition of_number (n : N) : str :=
  list_ascii_of_string (NilZero.string_of_uint (N.to_uint n)).

(** [Number(k)] on a key of decimal digits.  Keys that are not numerals
    (NaN in the source) do not arise from [of_number] and read as 0 here. *)
Definition to_number (k : str) : N :=
  match NilZero.uint_of_string (string_of_list_ascii k) with
  | Some d => N.of_uint d
  | None => 0%N
  end.

End Str.

Import Str.

(* ================================================================== *)
(** ** The regular expressions the tokenizer builds *)

Module Regex.

(** The atoms that occur in [\bLEFT RIGHT\b] once LEFT and RIGHT are escaped:
    the word-boundary assertion and literal code units. *)
Inductive atom : Type :=
  | ABoundary : atom
  | AChar : ascii -> atom.

(** The syntax characters of a pattern; these are the ones [escapeRegex]
    protects. *)
Definition is_syntax_char (c : ascii) : bool :=
  existsb (Ascii.eqb c) (lit ".*+?^${}()|[]\").

(** [escapeRegex(str)]: [str.replace(/[.*+?^${}()|[\]\\]/g, '\\$&')]. *)
Definition escapeRegex (s : str) : str :=
  flat_map (fun c => if is_syntax_char c then ["\"; c] else [c]) s.

(** Reading a pattern source.  Only what the tokenizer's patterns contain is
    understood: [\b], an escaped syntax character, and plain code units; any
    other construct gives [None]. *)
Fixpoint parse_pattern (src : str) : option (list atom) :=
  match src with
  | [] => Some []
  | c :: r =>
      if Ascii.eqb c "\" then
        match r with
        | d :: r' =>
            if Ascii.eqb d "b" then option_map (cons ABoundary) (parse_pattern r')
            else if is_syntax_char d then option_map (cons (AChar d)) (parse_pattern r')
            else None
        | [] => None
        end
      else if is_syntax_char c then None
      else option_map (cons (AChar c)) (parse_pattern r)
  end.

Definition is_word_opt (o : option ascii) : bool :=
  match o with Some c => is_word_char c | None => false end.

(** [\b] holds between [prev] and [next] when exactly one is a word
    character; the ends of the string count as non-word. *)
Definition word_boundary (prev next : option ascii) : bool :=
  xorb (is_word_opt prev) (is_word_opt next).

(** Matching the atoms at the current position; the result is the length
    of the match. *)
Fixpoint match_atoms (atoms : list atom) (prev : option ascii) (rest : str)
  : option nat :=
  match atoms with
  | [] => Some 0%nat
  | ABoundary :: atoms' =>
      if word_boundary prev (hd_error rest) then match_atoms atoms' prev rest
      else None
  | AChar c :: atoms' =>
      match rest with
      | d :: rest' =>
          if Ascii.eqb c d then option_map S (match_atoms atoms' (Some d) rest')
          else None
      | [] => None
      end
  end.

(** The replacement template of [String.prototype.replace]: [$$], [$&],
    [$`] and [$'] are expanded; with no capture group in the pattern every
    other [$] stays as it is. *)
Fixpoint expand_replacement (matched before after tpl : str) : str :=
  match tpl with
  | [] => []
  | c :: r =>
      if Ascii.eqb c "$" then
        match r with
        | d :: r' =>
            if Ascii.eqb d "$" then "$" :: expand_replacement matched before after r'
            else if Ascii.eqb d "&" then matched ++ expand_replacement matched before after r'
            else if Ascii.eqb d "`" then before ++ expand_replacement matched before after r'
            else if Ascii.eqb d "'" then after ++ expand_replacement matched before after r'
            else c :: expand_replacement matched before after r
        | [] => [c]
        end
      else c :: expand_replacement matched before after r
  end.

(** [s.replace(re, tpl)] for a global [re]: scan left to right, replace
    each match, resume after it (one unit further after an empty match).
    [before_rev] is the text already passed, reversed; [skip] counts the
    units of the current match still to pass. *)
Fixpoint replace_go (atoms : list atom) (tpl : str)
    (before_rev : str) (skip : nat) (rest : str) : str :=
  match rest with
  | [] =>
      match skip with
      | O =>
          match match_atoms atoms (hd_error before_rev) [] with
          | Some _ => expand_replacement [] (rev before_rev) [] tpl
          | None => []
          end
      | S _ => []
      end
  | c :: rest' =>
      match skip with
      | S k => replace_go atoms tpl (c :: before_rev) k rest'
      | O =>
          match match_atoms atoms (hd_error before_rev) rest with
          | Some O =>
              expand_replacement [] (rev before_rev) rest tpl
              ++ c :: replace_go atoms tpl (c :: before_rev) 0 rest'
          | Some (S n) =>
              expand_replacement (firstn (S n) rest) (rev before_rev)
                                 (skipn (S n) rest) tpl
              ++ replace_go atoms tpl (c :: before_rev) n rest'
          | None => c :: replace_go atoms tpl (c :: before_rev) 0 rest'
          end
      end
  end.

Definition replace_all (atoms : list atom) (tpl s : str) : str :=
  replace_go atoms tpl [] 0 s.

(** The source text of [new RegExp(`\\b${esc(first)} ${esc(second)}\\b`, 'g')]. *)
Definition merge_pattern_source (first second : str) : str :=
  lit "\b" ++ escapeRegex first ++ " " :: escapeRegex second ++ lit "\b".

(** [word.replace(pattern, `${first}${second}`)] with that pattern.  The
    pattern always parses ([parse_merge_pattern] below); the [None] branch
    is never taken. *)
Definition replace_merge (first second s : str) : str :=
  match parse_pattern (merge_pattern_source first second) with
  | Some atoms => replace_all atoms (first ++ second) s
  | None => s
  end.

End Regex.

Import Regex.

(* ================================================================== *)
(** ** [Map], [Set] and plain objects *)

(** Keys compared as [Map] compares them. *)
Class KeyEq (K : Type) := { keqb : K -> K -> bool }.

#[global] Instance KeyEq_str : KeyEq str := {| keqb := Str.eqb |}.
#[global] Instance KeyEq_N : KeyEq N := {| keqb := N.eqb |}.

(** The comparison decides equality. *)
Class KeyEqLaws (K : Type) `{KeyEq K} := {
  keqb_eq : forall x y : K, keqb x y = true <-> x = y
}.

Module JsMap.

(** A [Map] is its entries in insertion order; a key occurs once. *)
Definition t (K V : Type) := list (K * V).

Section Ops.
Context {K V : Type} `{KeyEq K}.

Fixpoint get (m : t K V) (k : K) : option V :=
  match m with
  | [] => None
  | (k', v) :: m' => if keqb k' k then Some v else get m' k
  end.

Definition has (m : t K V) (k : K) : bool :=
  match get m k with Some _ => true | None => false end.

(** [m.set(k, v)]: a present key keeps its place, a new one goes last. *)
Fixpoint set (m : t K V) (k : K) (v : V) : t K V :=
  match m with
  | [] => [(k, v)]
  | (k', v') :: m' =>
      if keqb k' k then (k', v) :: m' else (k', v') :: set m' k v
  end.

Definition size (m : t K V) : nat := length m.

Definition keys (m : t K V) : list K := map fst m.
End Ops.

End JsMap.

Module JsSet.
(** A [Set] of strings: members in insertion order. *)
Definition add (s : list str) (x : str) : list str :=
  if existsb (Str.eqb x) s then s else s ++ [x].
End JsSet.

Module JsObject.

(** An ordinary object is its own properties in enumeration order: array
    indices first, ascending, then the other keys in creation order. *)
Definition t (V : Type) := list (str * V).

(** A key is an array index when it is the canonical numeral of an integer
    below 2^32 - 1. *)
Definition is_array_index (k : str) : bool :=
  (Str.eqb (of_number (to_number k)) k && N.ltb (to_number k) 4294967295)%bool.

Section Ops.
Context {V : Type}.

(** Place of a new array index: after the smaller indices. *)
Fixpoint insert_index (k : str) (v : V) (o : t V) : t V :=
  match o with
  | [] => [(k, v)]
  | (k', v') :: o' =>
      if (is_array_index k' && N.ltb (to_number k') (to_number k))%bool
      then (k', v') :: insert_index k v o'
      else (k, v) :: o
  end.

(** Defining the data property [k]. *)
Definition define (o : t V) (k : str) (v : V) : t V :=
  if JsMap.has o k then JsMap.set o k v
  else if is_array_index k then insert_index k v o
  else o ++ [(k, v)].

(** [Object.fromEntries(entries)]. *)
Definition fromEntries (es : list (str * V)) : t V :=
  fold_left (fun o e => define o (fst e) (snd e)) es [].

(** [Object.entries(o)]. *)
Definition entries (o : t V) : list (str * V) := o.
End Ops.

End JsObject.

(** Numbers that are counts, as floating-point values. *)
Definition float_of_nat (n : nat) : float :=
  PrimFloat.of_uint63 (Uint63.of_Z (Z.of_nat n)).

(* ================================================================== *)
(** ** Numbers of a configuration *)

Module Num.

(** A finite number, whole or not, as a fraction.  Comparisons are those of
    the values, as they are between doubles. *)
Definition number : Type := Q.

Definition of_Z (z : Z) : number := inject_Z z.

Definition of_nat (n : nat) : number := inject_Z (Z.of_nat n).

(** [a < b] and [a >= b]. *)
Definition ltb (a b : number) : bool := negb (Qle_bool b a).

Definition geb (a b : number) : bool := Qle_bool b a.

(** Zero is the one finite number that [||] and [!] read as false. *)
Definition falsy (a : number) : bool := Qeq_bool a 0%Q.

(** The least whole number that is not below [a].  A whole count is below
    [a] exactly when it is below [ceiling a] ([ltb_ceiling] further down). *)
Definition ceiling (a : number) : Z := Qceiling a.

End Num.

(* ================================================================== *)
(** ** The tokenizer *)

Module BPE.

Record TokenizerConfig : Type := {
  vocabSize : Num.number;
  specialTokens : list str;
  unknownToken : str;
  padToken : str;
  minFreq : option Num.number;
  maxMerges : option Num.number
}.

(** [Partial<TokenizerConfig>]: what the constructor is given. *)
Record PartialConfig : Type := {
  p_vocabSize : option Num.number;
  p_specialTokens : option (list str);
  p_unknownToken : option str;
  p_padToken : option str;
  p_minFreq : option Num.number;
  p_maxMerges : option Num.number
}.

Definition no_options : PartialConfig :=
  {| p_vocabSize := None; p_specialTokens := None; p_unknownToken := None;
     p_padToken := None; p_minFreq := None; p_maxMerges := None |}.

(** The statistics [train] records; the elapsed time is left out. *)
Record TrainingStats : Type := {
  vocabularySize : nat;
  mergeOperations : nat;
  uniqueWords : nat;
  totalWords : nat;
  compressionRatio : float
}.

Record BPETokenizer : Type := {
  vocabulary : JsMap.t str N;
  reverseVocabulary : JsMap.t N str;
  merges : list (str * str);
  config : TokenizerConfig;
  trainingStats : option TrainingStats
}.

Definition or_default {A} (o : option A) (d : A) : A :=
  match o with Some a => a | None => d end.

(** [constructor(config = {})]: the defaults, overridden by [config]. *)
Definition constructor (c : PartialConfig) : BPETokenizer :=
  {| vocabulary := [];
     reverseVocabulary := [];
     merges := [];
     config :=
       {| vocabSize := or_default (p_vocabSize c) 1000%Q;
          specialTokens := or_default (p_specialTokens c)
                             [lit "<pad>"; lit "<unk>"; lit "<s>"; lit "</s>"];
          unknownToken := or_default (p_unknownToken c) (lit "<unk>");
          padToken := or_default (p_padToken c) (lit "<pad>");
          minFreq := Some (or_default (p_minFreq c) 2%Q);
          maxMerges := Some (or_default (p_maxMerges c) 500%Q) |};
     trainingStats := None |}.

(** [x || d] on an optional number: absent and 0 both give [d]. *)
Definition or_number (o : option Num.number) (d : Num.number) : Num.number :=
  match o with
  | Some z => if Num.falsy z then d else z
  | None => d
  end.

(** The least whole numbers that are not below [this.config.minFreq || 2]
    and [this.config.maxMerges || 500]: the counts the loop compares with
    these numbers are whole, so a count reaches [minFreq || 2] exactly when it
    reaches [minFreq_of], and is below [maxMerges || 500] exactly when it is
    below [maxMerges_of] ([geb_ceiling], [ltb_ceiling], [loop_cond_counts]). *)
Definition minFreq_of (c : TokenizerConfig) : Z :=
  Num.ceiling (or_number (minFreq c) 2%Q).
Definition maxMerges_of (c : TokenizerConfig) : Z :=
  Num.ceiling (or_number (maxMerges c) 500%Q).

Inductive error : Type :=
  | InvalidInput   (* Error('Training text cannot be empty') *)
  | NotTrained.    (* Error('Tokenizer not trained. Call train() first.') *)

(** [`${error}`]. *)
Definition error_text (e : error) : str :=
  match e with
  | InvalidInput => lit "Error: Training text cannot be empty"
  | NotTrained => lit "Error: Tokenizer not trained. Call train() first."
  end.

Inductive outcome (A : Type) : Type :=
  | Ok : A -> outcome A
  | Throw : error -> outcome A.
Arguments Ok {A} _.
Arguments Throw {A} _.

Definition marker : str := lit "</w>".

(** [(m.get(k) || 0)]. *)
Definition get0 (m : JsMap.t str Z) (k : str) : Z :=
  or_default (JsMap.get m k) 0%Z.

(** [`${a} ${b}`]. *)
Definition pair_key (a b : str) : str := a ++ " " :: b.

(** [getPairs(word)]. *)
Fixpoint getPairs_from (word : list str) (pairs : JsMap.t str Z) : JsMap.t str Z :=
  match word with
  | a :: ((b :: _) as tl) =>
      getPairs_from tl (JsMap.set pairs (pair_key a b) (get0 pairs (pair_key a b) + 1)%Z)
  | _ => pairs
  end.

Definition getPairs (word : list str) : JsMap.t str Z := getPairs_from word [].

(** [countPairs(words)]. *)
Definition countPairs (words : JsMap.t str Z) : JsMap.t str Z :=
  fold_left
    (fun pairCounts wf =>
       fold_left
         (fun pc pf => JsMap.set pc (fst pf) (get0 pc (fst pf) + snd wf * snd pf)%Z)
         (getPairs (split_on " " (fst wf))) pairCounts)
    words [].

(** [applyMerge(words, merge)]. *)
Definition applyMerge (words : JsMap.t str Z) (merge : str * str) : JsMap.t str Z :=
  fold_left
    (fun newWords wf =>
       JsMap.set newWords (replace_merge (fst merge) (snd merge) (fst wf)) (snd wf))
    words [].

(** [pair.split(' ') as [string, string]]: the two symbols of a pair key.
    A key made by [getPairs] has exactly one space ([split_pair_key]). *)
Definition split_pair (pair : str) : str * str :=
  let parts := split_on " " pair in (nth 0 parts [], nth 1 parts []).

(** The scan for the most frequent pair: [(maxCount, bestPair)] after the
    [for] over [pairCounts.entries()]. *)
Definition select_best (minF : Num.number) (pairCounts : JsMap.t str Z)
  : Z * option (str * str) :=
  fold_left
    (fun acc pc =>
       if (Z.ltb (fst acc) (snd pc) && Num.geb (Num.of_Z (snd pc)) minF)%bool
       then (snd pc, Some (split_pair (fst pc)))
       else acc)
    pairCounts (0%Z, None).

(** The variables of [train] that live across the merge loop. *)
Record TrainLoop : Type := {
  l_vocabulary : JsMap.t str N;
  l_reverseVocabulary : JsMap.t N str;
  l_merges : list (str * str);
  l_tokenId : N;
  l_currentWords : JsMap.t str Z;
  l_mergeCount : Z
}.

(** [if (!vocabulary.has(token)) { vocabulary.set(token, tokenId);
    reverseVocabulary.set(tokenId, token); tokenId++ }] *)
Definition add_if_new (vri : JsMap.t str N * JsMap.t N str * N) (token : str)
  : JsMap.t str N * JsMap.t N str * N :=
  let '(v, r, i) := vri in
  if JsMap.has v token then vri
  else (JsMap.set v token i, JsMap.set r i token, (i + 1)%N).

(** The same without the test, as for the special tokens. *)
Definition add_always (vri : JsMap.t str N * JsMap.t N str * N) (token : str)
  : JsMap.t str N * JsMap.t N str * N :=
  let '(v, r, i) := vri in
  (JsMap.set v token i, JsMap.set r i token, (i + 1)%N).

(** One pass through the body of the [while]; [None] is a [break]. *)
Definition train_step (cfg : TokenizerConfig) (s : TrainLoop) : option TrainLoop :=
  let pairCounts := countPairs (l_currentWords s) in
  if Nat.eqb (JsMap.size pairCounts) 0 then None
  else
    let '(maxCount, bestPair) := select_best (or_number (minFreq cfg) 2%Q) pairCounts in
    match bestPair with
    | None => None
    | Some bp =>
        if Num.ltb (Num.of_Z maxCount) (or_number (minFreq cfg) 2%Q) then None
        else
          let '(v, r, i) :=
            add_if_new (l_vocabulary s, l_reverseVocabulary s, l_tokenId s)
                       (fst bp ++ snd bp) in
          Some {| l_vocabulary := v;
                  l_reverseVocabulary := r;
                  l_merges := l_merges s ++ [bp];
                  l_tokenId := i;
                  l_currentWords := applyMerge (l_currentWords s) bp;
                  l_mergeCount := (l_mergeCount s + 1)%Z |}
    end.

(** The condition of the [while]. *)
Definition loop_cond (cfg : TokenizerConfig) (s : TrainLoop) : bool :=
  (Num.ltb (Num.of_nat (JsMap.size (l_vocabulary s))) (vocabSize cfg)
   && Num.ltb (Num.of_Z (l_mergeCount s)) (or_number (maxMerges cfg) 500%Q))%bool.

(** The [while] loop.  Every pass adds one to [mergeCount], which stays below
    [maxMerges || 500], so [maxMerges_of cfg] passes are enough
    ([train_loop_exit]). *)
Fixpoint train_loop (fuel : nat) (cfg : TokenizerConfig) (s : TrainLoop) : TrainLoop :=
  match fuel with
  | O => s
  | S fuel' =>
      if loop_cond cfg s then
        match train_step cfg s with
        | Some s' => train_loop fuel' cfg s'
        | None => s
        end
      else s
  end.

(** [text.toLowerCase().replace(/\s+/g,' ').trim().split(/\s+/).filter(w => w.length > 0)] *)
Definition wordList_of (text : str) : list str :=
  filter nonempty (split_ws false (trim (collapse_ws false (toLowerCase text)))).

(** [word.split('').join(' ') + ' </w>'] *)
Definition processedWord (word : str) : str :=
  join [" "] (split_chars word) ++ lit " </w>".

(** The word frequency table. *)
Definition count_words (wordList : list str) : JsMap.t str Z :=
  fold_left
    (fun words w => JsMap.set words (processedWord w) (get0 words (processedWord w) + 1)%Z)
    wordList [].

(** The set [allChars]. *)
Definition collect_chars (words : JsMap.t str Z) : list str :=
  fold_left
    (fun allChars word =>
       fold_left
         (fun ac ch =>
            if (negb (Str.eqb ch marker) && nonempty ch)%bool then JsSet.add ac ch else ac)
         (split_on " " word) allChars)
    (JsMap.keys words) [].

(** Vocabulary, inverse vocabulary and next id once the special tokens, the
    characters and the end-of-word marker are in. *)
Definition seed (cfg : TokenizerConfig) (words : JsMap.t str Z)
  : JsMap.t str N * JsMap.t N str * N :=
  let s1 := fold_left add_always (specialTokens cfg) ([], [], 0%N) in
  let s2 := fold_left add_if_new (Str.sort (collect_chars words)) s1 in
  add_if_new s2 marker.

Definition reset (t : BPETokenizer) : BPETokenizer :=
  {| vocabulary := []; reverseVocabulary := []; merges := [];
     config := config t; trainingStats := trainingStats t |}.

(** The variables of the merge loop when it is entered. *)
Definition train_init (cfg : TokenizerConfig) (text : str) : TrainLoop :=
  let words := count_words (wordList_of text) in
  let '(v, r, i) := seed cfg words in
  {| l_vocabulary := v; l_reverseVocabulary := r; l_merges := [];
     l_tokenId := i; l_currentWords := words; l_mergeCount := 0%Z |}.

(** [train(text)]: the tokenizer afterwards, and the error thrown if any. *)
Definition train (t : BPETokenizer) (text : str) : BPETokenizer * outcome unit :=
  let t0 := reset t in
  if (negb (nonempty text) || Nat.eqb (length (trim text)) 0)%bool
  then (t0, Throw InvalidInput)
  else
    let cfg := config t in
    let s := train_loop (Z.to_nat (maxMerges_of cfg)) cfg (train_init cfg text) in
    ({| vocabulary := l_vocabulary s;
        reverseVocabulary := l_reverseVocabulary s;
        merges := l_merges s;
        config := cfg;
        trainingStats :=
          Some {| vocabularySize := JsMap.size (l_vocabulary s);
                  mergeOperations := length (l_merges s);
                  uniqueWords := JsMap.size (count_words (wordList_of text));
                  totalWords := length (wordList_of text);
                  compressionRatio :=
                    PrimFloat.div (float_of_nat (length text))
                                  (float_of_nat (JsMap.size (l_vocabulary s))) |} |},
     Ok tt).

(** The symbols of one word after every merge rule, in training order. *)
Definition apply_merges (ms : list (str * str)) (wordTokens : str) : str :=
  fold_left (fun w m => replace_merge (fst m) (snd m) w) ms wordTokens.

(** The ids of one word. *)
Definition word_ids (t : BPETokenizer) (word : str) : list N :=
  let wordTokens := apply_merges (merges t) (processedWord word) in
  flat_map
    (fun part =>
       match JsMap.get (vocabulary t) part with
       | Some tokenId => [tokenId]
       | None =>
           match JsMap.get (vocabulary t) (unknownToken (config t)) with
           | Some unkId => [unkId]
           | None => []
           end
       end)
    (filter nonempty (split_on " " wordTokens)).

(** [tokenize(text)]. *)
Definition tokenize (t : BPETokenizer) (text : str) : outcome (list N) :=
  if Nat.eqb (JsMap.size (vocabulary t)) 0 then Throw NotTrained
  else if negb (nonempty text) then Ok []
  else
    Ok (flat_map (word_ids t)
          (filter nonempty (split_ws false (toLowerCase text)))).

(** [specialTokens.includes(token)]. *)
Definition includes (l : list str) (x : str) : bool := existsb (Str.eqb x) l.

(** The body of the [for] in [detokenize], on [(words, currentWord)]. *)
Definition detokenize_step (t : BPETokenizer) (st : list str * str) (tokenId : N)
  : list str * str :=
  let '(words, currentWord) := st in
  match JsMap.get (reverseVocabulary t) tokenId with
  | None => st
  | Some token =>
      if negb (nonempty token) then st
      else if Str.eqb token marker then
        (if nonempty currentWord then (words ++ [currentWord], []) else st)
      else if negb (includes (specialTokens (config t)) token) then
        (words, currentWord ++ token)
      else st
  end.

(** [detokenize(tokens)]. *)
Definition detokenize (t : BPETokenizer) (tokens : list N) : str :=
  if Nat.eqb (length tokens) 0 then []
  else
    let '(words, currentWord) := fold_left (detokenize_step t) tokens ([], []) in
    join [" "] (if nonempty currentWord then words ++ [currentWord] else words).

Record ValidationResult : Type := {
  isValid : bool;
  originalText : str;
  reconstructedText : str;
  tokensMatch : bool;
  errors : list str
}.

(** [validateRoundTrip(text)]. *)
Definition validateRoundTrip (t : BPETokenizer) (text : str) : ValidationResult :=
  match tokenize t text with
  | Ok tokens =>
      let reconstructed := detokenize t tokens in
      let valid := Str.eqb text reconstructed in
      {| isValid := valid;
         originalText := text;
         reconstructedText := reconstructed;
         tokensMatch := forallb (fun id => JsMap.has (reverseVocabulary t) id) tokens;
         errors := if valid then [] else [lit "Round-trip validation failed"] |}
  | Throw e =>
      {| isValid := false;
         originalText := text;
         reconstructedText := [];
         tokensMatch := false;
         errors := [lit "Validation error: " ++ error_text e] |}
  end.

(** What [benchmark] returns; the two timing averages are left out. *)
Record BenchmarkResult : Type := {
  totalTexts : nat;
  averageCompressionRatio : float;
  roundTripAccuracy : float;
  b_errors : list str
}.

(** The running values of [benchmark]'s loop. *)
Record BenchLoop : Type := {
  b_tokenizer : BPETokenizer;
  b_totalCompressionRatio : float;
  b_successfulRoundTrips : nat;
  b_errs : list str
}.

(** The body of [benchmark]'s [for], with its [try]/[catch]. *)
Definition benchmark_step (b : BenchLoop) (text : str) : BenchLoop :=
  let failed t e :=
    {| b_tokenizer := t;
       b_totalCompressionRatio := b_totalCompressionRatio b;
       b_successfulRoundTrips := b_successfulRoundTrips b;
       b_errs := b_errs b ++ [lit "Error processing text: " ++ error_text e] |} in
  match train (b_tokenizer b) text with
  | (t, Throw e) => failed t e
  | (t, Ok _) =>
      match tokenize t text with
      | Throw e => failed t e
      | Ok tokens =>
          let total :=
            PrimFloat.add (b_totalCompressionRatio b)
              (PrimFloat.div (float_of_nat (length text)) (float_of_nat (length tokens))) in
          let validation := validateRoundTrip t text in
          if isValid validation then
            {| b_tokenizer := t;
               b_totalCompressionRatio := total;
               b_successfulRoundTrips := S (b_successfulRoundTrips b);
               b_errs := b_errs b |}
          else
            {| b_tokenizer := t;
               b_totalCompressionRatio := total;
               b_successfulRoundTrips := b_successfulRoundTrips b;
               b_errs := b_errs b
                 ++ [lit "Round-trip failed for text: " ++ firstn 50 text ++ lit "..."] |}
      end
  end.

(** [benchmark(texts)]: the tokenizer afterwards and the result. *)
Definition benchmark (t : BPETokenizer) (texts : list str)
  : BPETokenizer * BenchmarkResult :=
  let b := fold_left benchmark_step texts
             {| b_tokenizer := t; b_totalCompressionRatio := 0%float;
                b_successfulRoundTrips := 0; b_errs := [] |} in
  (b_tokenizer b,
   {| totalTexts := length texts;
      averageCompressionRatio :=
        PrimFloat.div (b_totalCompressionRatio b) (float_of_nat (length texts));
      roundTripAccuracy :=
        PrimFloat.mul
          (PrimFloat.div (float_of_nat (b_successfulRoundTrips b))
                         (float_of_nat (length texts)))
          100%float;
      b_errors := b_errs b |}).

(** What [exportVocabulary] returns. *)
Record Exported : Type := {
  x_vocabulary : JsObject.t N;
  x_reverseVocabulary : JsObject.t str;
  x_merges : list (str * str);
  x_config : TokenizerConfig;
  x_stats : option TrainingStats
}.

(** [exportVocabulary()]. *)
Definition exportVocabulary (t : BPETokenizer) : Exported :=
  {| x_vocabulary := JsObject.fromEntries (vocabulary t);
     x_reverseVocabulary :=
       JsObject.fromEntries (map (fun e => (of_number (fst e), snd e)) (reverseVocabulary t));
     x_merges := merges t;
     x_config := config t;
     x_stats := trainingStats t |}.

(** [new Map(entries)]. *)
Definition map_of_entries {K V} `{KeyEq K} (es : list (K * V)) : JsMap.t K V :=
  fold_left (fun m e => JsMap.set m (fst e) (snd e)) es [].

(** [{ ...a, ...b }] on configurations: an optional field absent from [b]
    keeps its value from [a]. *)
Definition spread_config (a b : TokenizerConfig) : TokenizerConfig :=
  {| vocabSize := vocabSize b;
     specialTokens := specialTokens b;
     unknownToken := unknownToken b;
     padToken := padToken b;
     minFreq := match minFreq b with Some z => Some z | None => minFreq a end;
     maxMerges := match maxMerges b with Some z => Some z | None => maxMerges a end |}.

(** [importVocabulary(data)]. *)
Definition importVocabulary (t : BPETokenizer) (data : Exported) : BPETokenizer :=
  {| vocabulary := map_of_entries (JsObject.entries (x_vocabulary data));
     reverseVocabulary :=
       map_of_entries
         (map (fun e => (to_number (fst e), snd e))
              (JsObject.entries (x_reverseVocabulary data)));
     merges := x_merges data;
     config := spread_config (config t) (x_config data);
     trainingStats := x_stats data |}.

End BPE.

Import BPE.


(* ================================================================== *)
(** ** Notions used to state the properties *)

(** The text is empty or made of white space only. *)
Definition blank (text : str) : bool := forallb is_ws text.

(** Two decoded texts put side by side: one space between them when both
    are non-empty. *)
Definition beside (a b : str) : str :=
  match a, b with
  | [], _ => b
  | _, [] => a
  | _, _ => a ++ " " :: b
  end.

(** The words of a decoding state once the word being built is closed, and
    the text they give. *)
Definition flushed (st : list str * str) : list str :=
  if nonempty (snd st) then fst st ++ [snd st] else fst st.

Definition finish (st : list str * str) : str := join [" "] (flushed st).

(** [p] is a prefix of [s]. *)
Fixpoint starts_with (p s : str) : bool :=
  match p, s with
  | [], _ => true
  | c :: p', d :: s' => (Ascii.eqb c d && starts_with p' s')%bool
  | _ :: _, [] => false
  end.

(** The code unit before the position reached after passing [u]. *)
Definition last_or (u : str) (prev : option ascii) : option ascii :=
  fold_left (fun _ c => Some c) u prev.

(** The literal text [l] stands at the current position between two word
    boundaries. *)
Definition literal_matches (l : str) (prev : option ascii) (rest : str) : bool :=
  (word_boundary prev (hd_error rest)
   && starts_with l rest
   && word_boundary (last_or l prev) (hd_error (skipn (length l) rest)))%bool.

(** Replacing every match of [\bl\b] by the plain text [tpl], left to
    right; [skip] counts the units of the current match still to pass. *)
Fixpoint scan (l tpl : str) (prev : option ascii) (skip : nat) (rest : str) : str :=
  match rest with
  | [] => []
  | c :: rest' =>
      match skip with
      | S k => scan l tpl (Some c) k rest'
      | O =>
          if literal_matches l prev rest
          then tpl ++ scan l tpl (Some c) (length l - 1) rest'
          else c :: scan l tpl (Some c) 0 rest'
      end
  end.

(** The rewriting the specification describes, on a sequence of symbols:
    left to right, each adjacent pair of whole symbols [(f, s)] becomes the
    one symbol [f ++ s], and the scan resumes after it. *)
Fixpoint merge_adjacent (f s : str) (xs : list str) : list str :=
  match xs with
  | [] => []
  | a :: tl =>
      match tl with
      | [] => [a]
      | b :: rest =>
          if (Str.eqb a f && Str.eqb b s)%bool
          then (f ++ s) :: merge_adjacent f s rest
          else a :: merge_adjacent f s tl
      end
  end.

(** The text of a word whose symbols are [xs]: the symbols and the
    end-of-word marker, one space apart. *)
Definition word_text (xs : list str) : str := join [" "] (xs ++ [marker]).

(** A non-empty symbol all of whose code units are in the class [A]. *)
Definition sym_of (A : ascii -> bool) (x : str) : Prop :=
  x <> [] /\ forallb A x = true.

Definition sym_or_marker (A : ascii -> bool) (x : str) : Prop :=
  sym_of A x \/ x = marker.

(** The adjacent pairs of a symbol sequence, left to right. *)
Fixpoint adjacent_pairs (word : list str) : list (str * str) :=
  match word with
  | [] => []
  | a :: tl =>
      match tl with
      | [] => []
      | b :: _ => (a, b) :: adjacent_pairs tl
      end
  end.

Definition pair_keys (word : list str) : list str :=
  map (fun p => pair_key (fst p) (snd p)) (adjacent_pairs word).

(** How often the pair [(a, b)] occurs in a symbol sequence. *)
Definition pair_occurrences (a b : str) (word : list str) : Z :=
  Z.of_nat (length (filter (fun p => (Str.eqb (fst p) a && Str.eqb (snd p) b)%bool)
                           (adjacent_pairs word))).

(** The aggregated count of a pair: over the words of the table, the
    word's frequency times the occurrences of the pair in the word. *)
Definition weighted_count (words : JsMap.t str Z) (a b : str) : Z :=
  fold_right
    (fun wf acc => (snd wf * pair_occurrences a b (split_on " " (fst wf)) + acc)%Z)
    0%Z words.

(** The pair keys of the whole table in the order [countPairs] meets them. *)
Definition pair_keys_of_table (words : JsMap.t str Z) : list str :=
  flat_map (fun wf => pair_keys (split_on " " (fst wf))) words.

(** A sequence without its repetitions, each member where it first occurs. *)
Definition first_occurrences (l : list str) : list str := fold_left JsSet.add l [].

(** How often a key occurs in a list of keys. *)
Definition count_key (k : str) (l : list str) : Z :=
  Z.of_nat (length (filter (Str.eqb k) l)).

(** The inner loop of [countPairs], for one word of frequency [fq]. *)
Definition add_pairs (fq : Z) (pairs pairCounts : JsMap.t str Z) : JsMap.t str Z :=
  fold_left
    (fun pc pf => JsMap.set pc (fst pf) (get0 pc (fst pf) + fq * snd pf)%Z)
    pairs pairCounts.

(** [countPairs] from a table of counts already made. *)
Definition countPairs_from (words pairCounts : JsMap.t str Z) : JsMap.t str Z :=
  fold_left
    (fun pc wf => add_pairs (snd wf) (getPairs (split_on " " (fst wf))) pc)
    words pairCounts.

(** Every word of the table has a positive frequency. *)
Definition positive_freqs (words : JsMap.t str Z) : Prop :=
  forall e, In e words -> (0 < snd e)%Z.

(** The vocabulary before the first merge: special tokens, characters of
    the text, end-of-word marker. *)
Definition seed_vocabulary (cfg : TokenizerConfig) (text : str) : JsMap.t str N :=
  fst (fst (seed cfg (count_words (wordList_of text)))).

(** The two maps are inverse to each other and hold only ids below the
    next one. *)
Definition maps_wf (vri : JsMap.t str N * JsMap.t N str * N) : Prop :=
  let '(v, r, i) := vri in
  NoDup (JsMap.keys v) /\ NoDup (JsMap.keys r)
  /\ (forall id, In id (JsMap.keys r) -> (id < i)%N)
  /\ (forall tok id, JsMap.get v tok = Some id -> JsMap.get r id = Some tok).

(** The text contains an uppercase letter: a code unit that [toLowerCase]
    changes. *)
Definition has_uppercase (text : str) : bool :=
  existsb (fun c => negb (Ascii.eqb (toLowerChar c) c)) text.

(** Two white-space units in a row. *)
Fixpoint has_ws_run (text : str) : bool :=
  match text with
  | [] => false
  | c :: tl =>
      match tl with
      | [] => false
      | d :: _ => ((is_ws c && is_ws d) || has_ws_run tl)%bool
      end
  end.

Definition is_ws_opt (o : option ascii) : bool :=
  match o with Some c => is_ws c | None => false end.

(** White space other than single spaces between words: at the start, at
    the end, a unit that is not the space, or two units in a row. *)
Definition irregular_whitespace (text : str) : bool :=
  (is_ws_opt (hd_error text)
   || is_ws_opt (last_or text None)
   || existsb (fun c => is_ws c && negb (Ascii.eqb c " ")) text
   || has_ws_run text)%bool.

(** A code unit of a learned token: no white space, no uppercase letter. *)
Definition clean_char (c : ascii) : bool :=
  (negb (is_ws c) && Ascii.eqb (toLowerChar c) c)%bool.

(** A token of the inverse vocabulary is a special token or is clean. *)
Definition tokens_clean (cfg : TokenizerConfig) (r : JsMap.t N str) : Prop :=
  forall id tok, JsMap.get r id = Some tok ->
                 includes (specialTokens cfg) tok = true \/ forallb clean_char tok = true.

(** A code unit of a word of the table: clean, or the space between symbols. *)
Definition char_ok (c : ascii) : Prop := clean_char c = true \/ c = " ".

(** A decoded word: not empty, and clean. *)
Definition word_ok (w : str) : Prop := w <> [] /\ forallb clean_char w = true.

(** What training keeps true when the words of the text are made of code
    units of the class [A]: every word of the table is a sequence of such
    symbols with its marker, and every rule learned is made of such symbols
    or the marker and has its merged token in the vocabulary. *)
Definition train_inv (A : ascii -> bool) (st : TrainLoop) : Prop :=
  (forall e, In e (l_currentWords st) ->
             exists xs, Forall (sym_of A) xs /\ fst e = word_text xs)
  /\ (forall f s, In (f, s) (l_merges st) ->
                  sym_or_marker A f /\ sym_or_marker A s
                  /\ JsMap.has (l_vocabulary st) (f ++ s) = true).

(** A lowercase letter, and a non-empty word of lowercase letters. *)
Definition is_lower_letter (c : ascii) : bool := in_range 97 122 c.

Definition lowercase_word (w : str) : Prop := sym_of is_lower_letter w.


(* ================================================================== *)
(** ** Further notions: symbols of any text *)

(** A non-empty string of word characters. *)
Definition is_word_string (x : str) : bool :=
  (nonempty x && forallb is_word_char x)%bool.

Definition wsym (x : str) : Prop := sym_of is_word_char x.

(** One code unit that is neither a word character nor the space. *)
Definition psym (x : str) : Prop :=
  exists c, x = [c] /\ is_word_char c = false /\ c <> " ".

(** The symbols a word of any text is made of during training and
    encoding: strings of word characters, and single other characters. *)
Definition gsym (x : str) : Prop := wsym x \/ psym x.

Definition gsym_or_marker (x : str) : Prop := gsym x \/ x = marker.

(** What the pattern of a rule does to a sequence of symbols: it rewrites
    the adjacent pairs of whole symbols when both symbols of the rule are
    strings of word characters, and nothing otherwise. *)
Definition merge_by_pattern (f s : str) (xs : list str) : list str :=
  if (is_word_string f && is_word_string s)%bool then merge_adjacent f s xs else xs.

(** The normal form of a text: its lowercased words, one space apart. *)
Definition normalized (text : str) : str := join [" "] (wordList_of text).

(** What training keeps true on any text: every word of the table is a
    sequence of known symbols with its marker; every rule learned is made of
    known symbols and has its merged token in the vocabulary; the marker is
    in the vocabulary. *)
Definition train_inv_g (st : TrainLoop) : Prop :=
  (forall e, In e (l_currentWords st) ->
             exists xs, Forall gsym xs
                        /\ Forall (fun x => JsMap.has (l_vocabulary st) x = true) xs
                        /\ fst e = word_text xs)
  /\ (forall f s, In (f, s) (l_merges st) ->
                  gsym_or_marker f /\ gsym_or_marker s
                  /\ JsMap.has (l_vocabulary st) f = true
                  /\ JsMap.has (l_vocabulary st) s = true
                  /\ JsMap.has (l_vocabulary st) (f ++ s) = true)
  /\ JsMap.has (l_vocabulary st) marker = true.

(** [x] is a symbol a word of a text can be made of: a non-empty string of
    word characters, or one other character that is not the space. *)
Definition is_symbol (x : str) : bool :=
  (is_word_string x
   || match x with
      | [c] => negb (is_word_char c) && negb (Ascii.eqb c " ")
      | _ => false
      end)%bool.

(** Every character of [text'], lowercased, is white space or occurs in the
    lowercased [text]. *)
Definition covers (text text' : str) : bool :=
  forallb (fun c => is_ws c || existsb (Ascii.eqb (toLowerChar c)) (toLowerCase text))%bool
          text'.

(** A text that is not blank and is its own normal form. *)
Definition normal (text : str) : bool :=
  (negb (blank text) && Str.eqb text (normalized text))%bool.

(** What [benchmark] reports for one text: an error for a blank text, a
    failed round trip for a text that is not its own normal form. *)
Definition benchmark_messages (text : str) : list str :=
  if blank text then [lit "Error processing text: " ++ error_text InvalidInput]
  else if Str.eqb text (normalized text) then []
  else [lit "Round-trip failed for text: " ++ firstn 50 text ++ lit "..."].

(** The ids of the inverse vocabulary are 0, 1, ... up to the next id, in
    the order of insertion. *)
Definition ids_dense (vri : JsMap.t str N * JsMap.t N str * N) : Prop :=
  let '(v, r, i) := vri in
  JsMap.keys r = map N.of_nat (seq 0 (N.to_nat i)).

(** An entry of the vocabulary turned into one of the inverse vocabulary. *)
Definition swap_entry (e : str * N) : N * str := (snd e, fst e).

(** The two maps have grown together: entry for entry, the inverse
    vocabulary is the vocabulary turned round. *)
Definition lockstep (vri : JsMap.t str N * JsMap.t N str * N) : Prop :=
  let '(v, r, i) := vri in r = map swap_entry v.

(** The variables of the merge loop after the rule [bp] has been recorded
    and applied: the end of one pass through the body of the [while]. *)
Definition merged_state (s : TrainLoop) (bp : str * str) : TrainLoop :=
  let '(v, r, i) :=
    add_if_new (l_vocabulary s, l_reverseVocabulary s, l_tokenId s)
               (fst bp ++ snd bp) in
  {| l_vocabulary := v;
     l_reverseVocabulary := r;
     l_merges := l_merges s ++ [bp];
     l_tokenId := i;
     l_currentWords := applyMerge (l_currentWords s) bp;
     l_mergeCount := (l_mergeCount s + 1)%Z |}.

(* ================================================================== *)
(** ** The reports of the BPE tokenizer *)

(** An integer as a floating-point value (for integers below 2^63 in
    absolute value, which the counts are). *)
Definition float_of_Z (z : Z) : float :=
  match z with
  | Z0 => 0%float
  | Zpos p => float_of_nat (Pos.to_nat p)
  | Zneg p => PrimFloat.opp (float_of_nat (Pos.to_nat p))
  end.

(** A number of the configuration as a floating-point value: the quotient,
    rounded to the nearest double, of numerator and denominator (for a
    numerator and a denominator that doubles hold exactly, below 2^63). *)
Definition float_of_number (x : Num.number) : float :=
  PrimFloat.div (float_of_Z (Qnum x)) (float_of_Z (Zpos (Qden x))).

(** The [stats] of a [TokenizerResult]; the two times are left out. *)
Record ResultStats : Type := {
  s_compressionRatio : float;
  s_vocabularyEfficiency : float
}.

Record TokenizerResult : Type := {
  r_tokens : list N;
  r_vocabulary : JsMap.t str N;
  r_reverseVocabulary : JsMap.t N str;
  r_merges : list (str * str);
  r_stats : ResultStats
}.

(** [getTokenizerResult(text)]. *)
Definition getTokenizerResult (t : BPETokenizer) (text : str) : outcome TokenizerResult :=
  match tokenize t text with
  | Throw e => Throw e
  | Ok tokens =>
      Ok {| r_tokens := tokens;
            r_vocabulary := vocabulary t;
            r_reverseVocabulary := reverseVocabulary t;
            r_merges := merges t;
            r_stats :=
              {| s_compressionRatio :=
                   PrimFloat.div (float_of_nat (length text))
                                 (float_of_nat (length tokens));
                 s_vocabularyEfficiency :=
                   PrimFloat.div (float_of_nat (JsMap.size (vocabulary t)))
                                 (float_of_number (vocabSize (config t))) |} |}
  end.

(** What [getVocabularyAnalysis] returns. *)
Record VocabularyAnalysis : Type := {
  totalTokens : nat;
  a_specialTokens : nat;
  characterTokens : nat;
  subwordTokens : nat;
  a_mergeOperations : nat;
  averageTokenLength : float;
  tokenDistribution : JsMap.t N nat
}.

(** The values the loop of [getVocabularyAnalysis] updates. *)
Record AnalysisLoop : Type := {
  al_totalLength : nat;
  al_characterTokens : nat;
  al_subwordTokens : nat;
  al_tokenDistribution : JsMap.t N nat
}.

(** The body of the [for] over [this.vocabulary.entries()]. *)
Definition analysis_step (cfg : TokenizerConfig) (st : AnalysisLoop) (entry : str * N)
  : AnalysisLoop :=
  let token := fst entry in
  if includes (specialTokens cfg) token then st
  else
    let len := N.of_nat (length token) in
    {| al_totalLength := al_totalLength st + length token;
       al_characterTokens :=
         if Nat.eqb (length token) 1 then S (al_characterTokens st)
         else al_characterTokens st;
       al_subwordTokens :=
         if Nat.eqb (length token) 1 then al_subwordTokens st
         else S (al_subwordTokens st);
       al_tokenDistribution :=
         JsMap.set (al_tokenDistribution st) len
                   (or_default (JsMap.get (al_tokenDistribution st) len) 0 + 1) |}.

(** [getVocabularyAnalysis()]. *)
Definition getVocabularyAnalysis (t : BPETokenizer) : VocabularyAnalysis :=
  let st := fold_left (analysis_step (config t)) (vocabulary t)
              {| al_totalLength := 0; al_characterTokens := 0;
                 al_subwordTokens := 0; al_tokenDistribution := [] |} in
  {| totalTokens := JsMap.size (vocabulary t);
     a_specialTokens := length (specialTokens (config t));
     characterTokens := al_characterTokens st;
     subwordTokens := al_subwordTokens st;
     a_mergeOperations := length (merges t);
     averageTokenLength :=
       PrimFloat.div
         (float_of_nat (al_totalLength st))
         (float_of_Z (Z.of_nat (JsMap.size (vocabulary t))
                      - Z.of_nat (length (specialTokens (config t)))));
     tokenDistribution := al_tokenDistribution st |}.

(** The tokens [getVocabularyAnalysis] counts: those of the vocabulary that
    are not special tokens. *)
Definition counted_tokens (t : BPETokenizer) : list str :=
  filter (fun tok => negb (includes (specialTokens (config t)) tok))
         (JsMap.keys (vocabulary t)).

(** The distinct characters of a text that are not white space, lowercased
    and in the order training meets them. *)
Definition text_chars (text : str) : list str :=
  collect_chars (count_words (wordList_of text)).

(* ================================================================== *)
(** ** The character and the word tokenizers *)

(** [[...new Set(tokens)].sort()]: the distinct tokens in code unit order. *)
Definition unique_sorted (tokens : list str) : list str :=
  Str.sort (fold_left JsSet.add tokens []).

(** [uniqueTokens.forEach((token, index) => { vocabulary.set(token, index);
    reverseVocabulary.set(index, token); })] on two cleared maps. *)
Definition index_tokens (uniqueTokens : list str) : JsMap.t str N * JsMap.t N str :=
  fst (fold_left add_always uniqueTokens ([], [], 0%N)).

Module CharacterTokenizer.
(** * The character tokenizer (src/tokenStrategy/CharBased.tsx)

    The class [charBased] that follows [BPETokenizer] in
    src/tokenStrategy/BPE.tsx has the same code under other names
    ([distributeTokens], [deTokenize], [mapping], [reverseMapping]). *)

Record t : Type := {
  vocabulary : JsMap.t str N;
  reverseVocabulary : JsMap.t N str
}.

(** The two maps as the field initialisers make them. *)
Definition empty : t := {| vocabulary := []; reverseVocabulary := [] |}.

(** [train(text)]: both maps are cleared first, so the tokenizer before
    does not matter. *)
Definition train (this : t) (text : str) : t :=
  let uniqueChars := unique_sorted (split_chars text) in
  let '(v, r) := index_tokens uniqueChars in
  {| vocabulary := v; reverseVocabulary := r |}.

(** [Array.from(text).map(char => this.vocabulary.get(char) || 0)] *)
Definition tokenize (this : t) (text : str) : list N :=
  map (fun char => or_default (JsMap.get (vocabulary this) char) 0%N) (split_chars text).

(** [tokenIds.map(id => this.reverseVocabulary.get(id) || '').join('')] *)
Definition detokenize (this : t) (tokenIds : list N) : str :=
  concat (map (fun id => or_default (JsMap.get (reverseVocabulary this) id) []) tokenIds).

End CharacterTokenizer.

Module SimpleTokenizer.
(** * The word tokenizer (class [SimpleTokenizer])

    The class [WordTokenizer] has the same code under other names
    ([mapTokens], [deTokenize], [mapping], [reverseMapping]). *)

Record t : Type := {
  vocabulary : JsMap.t str N;
  reverseVocabulary : JsMap.t N str
}.

Definition empty : t := {| vocabulary := []; reverseVocabulary := [] |}.

(** The word being read, closed. *)
Definition flush (cur : str) : list str := if nonempty cur then [cur] else [].

(** [s.match(/\w+|[^\w\s]/g) || []]: left to right, every maximal run of
    word characters is a match, and so is every other character that is not
    white space.  [cur] is the run of word characters being read. *)
Fixpoint match_tokens (cur : str) (s : str) : list str :=
  match s with
  | [] => flush cur
  | c :: s' =>
      if is_word_char c then match_tokens (cur ++ [c]) s'
      else flush cur ++ (if is_ws c then [] else [[c]]) ++ match_tokens [] s'
  end.

(** [text.toLowerCase().match(/\w+|[^\w\s]/g) || []] *)
Definition tokens_of (text : str) : list str := match_tokens [] (toLowerCase text).

(** [train(text)]. *)
Definition train (this : t) (text : str) : t :=
  let uniqueTokens := unique_sorted (tokens_of text) in
  let '(v, r) := index_tokens uniqueTokens in
  {| vocabulary := v; reverseVocabulary := r |}.

(** [tokens.map(token => this.vocabulary.get(token) || 0)] *)
Definition tokenize (this : t) (text : str) : list N :=
  map (fun token => or_default (JsMap.get (vocabulary this) token) 0%N) (tokens_of text).

(** [s.replace(/\s+([^\w\s])/g, '$1')]: a run of white space goes when the
    character after it is neither a word character nor white space.
    [pending] is the run of white space being read. *)
Fixpoint remove_space_before_punctuation (pending : str) (s : str) : str :=
  match s with
  | [] => pending
  | c :: s' =>
      if is_ws c then remove_space_before_punctuation (pending ++ [c]) s'
      else if is_word_char c then pending ++ c :: remove_space_before_punctuation [] s'
      else c :: remove_space_before_punctuation [] s'
  end.

(** [detokenize(tokenIds)]. *)
Definition detokenize (this : t) (tokenIds : list N) : str :=
  remove_space_before_punctuation []
    (join [" "]
       (map (fun id => or_default (JsMap.get (reverseVocabulary this) id) []) tokenIds)).

End SimpleTokenizer.

(** A token of the word tokenizer: a non-empty string of word characters,
    or one character that is neither a word character nor white space; and
    no character of it is an uppercase letter. *)
Definition word_token (x : str) : Prop :=
  (is_word_string x = true
   \/ exists c, x = [c] /\ is_word_char c = false /\ is_ws c = false)
  /\ Forall (fun c => toLowerChar c = c) x.

(** What a character decodes to after [train(text)] of the character
    tokenizer: itself when the text has it; otherwise what id 0 stands for. *)
Definition decoded_char (text : str) (c : ascii) : str :=
  if existsb (Ascii.eqb c) text then [c]
  else hd [] (unique_sorted (split_chars text)).

(** The decoded text of the tokens that follow another token: a space
    before every token made of word characters, none before the others. *)
Fixpoint spaced (toks : list str) : str :=
  match toks with
  | [] => []
  | x :: rest => (if is_word_string x then " " :: x else x) ++ spaced rest
  end.

(** What is left of a word when the characters that do not occur in the
    lowercased training text are taken out, and the text that decoding
    gives for [text'] after training on [text]: the words of [text'] so
    reduced, those that are left empty dropped, one space apart. *)
Definition known_part (text : str) (w : str) : str :=
  filter (fun c => existsb (Ascii.eqb c) (toLowerCase text)) w.

Definition decoded_text (text text' : str) : str :=
  join [" "] (filter nonempty (map (known_part text) (wordList_of text'))).


(* ================================================================== *)
(** * Properties *)

(** ** Code units *)

Ltac each_ascii c :=
  destruct c as [[] [] [] [] [] [] [] []]; vm_compute; try reflexivity;
  try discriminate; try congruence; auto.

Lemma space_is_ws : is_ws " " = true.
Proof. reflexivity. Qed.

Lemma ws_not_word : forall c, is_ws c = true -> is_word_char c = false.
Proof. intros c; each_ascii c. Qed.

Lemma toLowerChar_idem : forall c, toLowerChar (toLowerChar c) = toLowerChar c.
Proof. intros c; each_ascii c. Qed.

Lemma toLowerChar_ws : forall c, is_ws (toLowerChar c) = is_ws c.
Proof. intros c; each_ascii c. Qed.

(** ** Keys *)

#[global] Instance KeyEqLaws_str : KeyEqLaws str.
Proof.
  constructor.
  induction x as [|a x IH]; destruct y as [|b y]; simpl; split; intro E;
    try reflexivity; try discriminate.
  - apply andb_true_iff in E as [E1 E2].
    apply Ascii.eqb_eq in E1. apply IH in E2. congruence.
  - injection E as -> ->. rewrite Ascii.eqb_refl. simpl. now apply IH.
Qed.

#[global] Instance KeyEqLaws_N : KeyEqLaws N.
Proof. constructor. intros x y. apply N.eqb_eq. Qed.

Section KeyFacts.
Context {K : Type} `{KeyEqLaws K}.

Lemma keqb_refl : forall x : K, keqb x x = true.
Proof. intros x. now apply keqb_eq. Qed.

Lemma keqb_neq : forall x y : K, keqb x y = false <-> x <> y.
Proof.
  intros x y. split.
  - intros E ->. rewrite keqb_refl in E. discriminate.
  - intros N. destruct (keqb x y) eqn:E; [|reflexivity].
    apply keqb_eq in E. contradiction.
Qed.

Lemma keqb_dec : forall x y : K, {x = y} + {x <> y}.
Proof.
  intros x y. destruct (keqb x y) eqn:E.
  - left. now apply keqb_eq.
  - right. now apply keqb_neq.
Qed.
End KeyFacts.

Lemma str_eqb_eq : forall a b : str, Str.eqb a b = true <-> a = b.
Proof. exact (@keqb_eq str _ _). Qed.

Lemma str_eqb_refl : forall a : str, Str.eqb a a = true.
Proof. intros a. now apply str_eqb_eq. Qed.

Lemma str_eqb_neq : forall a b : str, Str.eqb a b = false <-> a <> b.
Proof. exact (@keqb_neq str _ _). Qed.

Lemma nonempty_true : forall s : str, nonempty s = true <-> s <> [].
Proof.
  destruct s; unfold nonempty; simpl; split; intro E;
    try discriminate; try reflexivity. now elim E.
Qed.

Lemma nonempty_false : forall s : str, nonempty s = false <-> s = [].
Proof.
  destruct s; unfold nonempty; simpl; split; intro E;
    try discriminate; try reflexivity.
Qed.

(** ** Maps *)

Section MapFacts.
Context {K V : Type} `{KeyEqLaws K}.
Implicit Types (m : JsMap.t K V) (k : K) (v : V).

Lemma get_set_same : forall m k v, JsMap.get (JsMap.set m k v) k = Some v.
Proof.
  induction m as [|[k' v'] m IH]; intros k v; simpl.
  - now rewrite keqb_refl.
  - destruct (keqb k' k) eqn:E; simpl; rewrite E; auto.
Qed.

Lemma get_set_other : forall m k k' v,
    k' <> k -> JsMap.get (JsMap.set m k v) k' = JsMap.get m k'.
Proof.
  induction m as [|[k0 v0] m IH]; intros k k' v N; simpl.
  - assert (keqb k k' = false) as -> by (apply keqb_neq; congruence). reflexivity.
  - destruct (keqb k0 k) eqn:E; simpl.
    + apply keqb_eq in E. subst k0.
      assert (keqb k k' = false) as -> by (apply keqb_neq; congruence). reflexivity.
    + destruct (keqb k0 k'); auto.
Qed.

Lemma get_set : forall m k k' v,
    JsMap.get (JsMap.set m k v) k' = if keqb k k' then Some v else JsMap.get m k'.
Proof.
  intros m k k' v. destruct (keqb k k') eqn:E.
  - apply keqb_eq in E. subst. apply get_set_same.
  - apply get_set_other. apply keqb_neq in E. congruence.
Qed.

Lemma has_set : forall m k k' v,
    JsMap.has (JsMap.set m k v) k' = (keqb k k' || JsMap.has m k')%bool.
Proof.
  intros. unfold JsMap.has. rewrite get_set. destruct (keqb k k'); reflexivity.
Qed.

Lemma get_In : forall m k v, JsMap.get m k = Some v -> In (k, v) m.
Proof.
  induction m as [|[k' v'] m IH]; intros k v E; simpl in *; [discriminate|].
  destruct (keqb k' k) eqn:Ek.
  - apply keqb_eq in Ek. injection E as ->. subst. now left.
  - right. now apply IH.
Qed.

Lemma get_None_keys : forall m k, JsMap.get m k = None <-> ~ In k (JsMap.keys m).
Proof.
  induction m as [|[k' v'] m IH]; intros k; simpl.
  - tauto.
  - destruct (keqb k' k) eqn:Ek.
    + apply keqb_eq in Ek. split; [discriminate|]. intros N. exfalso. apply N. now left.
    + apply keqb_neq in Ek. rewrite IH. tauto.
Qed.

Lemma In_get : forall m k v,
    NoDup (JsMap.keys m) -> In (k, v) m -> JsMap.get m k = Some v.
Proof.
  induction m as [|[k' v'] m IH]; intros k v ND I; simpl in *; [contradiction|].
  inversion ND as [|? ? Hn ND']; subst.
  destruct I as [E|I].
  - injection E as -> ->. now rewrite keqb_refl.
  - destruct (keqb k' k) eqn:Ek.
    + apply keqb_eq in Ek. subst. exfalso. apply Hn.
      change (In (fst (k, v)) (map fst m)). now apply in_map.
    + now apply IH.
Qed.

Lemma keys_set : forall m k v,
    JsMap.keys (JsMap.set m k v)
    = if JsMap.has m k then JsMap.keys m else JsMap.keys m ++ [k].
Proof.
  induction m as [|[k' v'] m IH]; intros k v; simpl; [reflexivity|].
  unfold JsMap.has. simpl. destruct (keqb k' k) eqn:E; simpl.
  - reflexivity.
  - rewrite IH. unfold JsMap.has. destruct (JsMap.get m k); reflexivity.
Qed.

Lemma has_true_keys : forall m k, JsMap.has m k = true <-> In k (JsMap.keys m).
Proof.
  intros m k. unfold JsMap.has. destruct (JsMap.get m k) eqn:E.
  - split; [intros _|reflexivity].
    apply get_In in E. change k with (fst (k, v)). now apply in_map.
  - split; [discriminate|]. intros I. apply get_None_keys in E. contradiction.
Qed.

Lemma has_false_keys : forall m k, JsMap.has m k = false <-> ~ In k (JsMap.keys m).
Proof.
  intros m k. rewrite <- has_true_keys. destruct (JsMap.has m k); split; congruence.
Qed.

Lemma NoDup_keys_set : forall m k v,
    NoDup (JsMap.keys m) -> NoDup (JsMap.keys (JsMap.set m k v)).
Proof.
  intros m k v ND. rewrite keys_set. destruct (JsMap.has m k) eqn:E; [assumption|].
  apply has_false_keys in E.
  apply NoDup_rev in ND. rewrite <- (rev_involutive (JsMap.keys m ++ [k])).
  apply NoDup_rev. rewrite rev_app_distr. simpl. constructor; [|assumption].
  now rewrite <- in_rev.
Qed.

Lemma size_set : forall m k v,
    JsMap.size (JsMap.set m k v)
    = if JsMap.has m k then JsMap.size m else S (JsMap.size m).
Proof.
  intros m k v. unfold JsMap.size.
  rewrite <- (length_map fst (JsMap.set m k v)), <- (length_map fst m).
  change (map fst (JsMap.set m k v)) with (JsMap.keys (JsMap.set m k v)).
  rewrite keys_set. destruct (JsMap.has m k); [reflexivity|].
  rewrite length_app. simpl. unfold JsMap.keys. lia.
Qed.

Lemma In_set : forall m k v e,
    In e (JsMap.set m k v) -> e = (k, v) \/ In e m.
Proof.
  induction m as [|[k' v'] m IH]; intros k v e I; simpl in *.
  - destruct I as [<-|[]]. now left.
  - destruct (keqb k' k) eqn:E.
    + apply keqb_eq in E. subst. destruct I as [<-|I]; [now left|right; now right].
    + destruct I as [<-|I]; [right; now left|].
      apply IH in I. destruct I; [now left|right; now right].
Qed.
End MapFacts.

(** ** White space at the ends *)

Lemma dropWhile_all : forall p s, forallb p s = true -> dropWhile p s = [].
Proof.
  induction s as [|c s IH]; simpl; intros E; [reflexivity|].
  apply andb_true_iff in E as [-> E]. auto.
Qed.

Lemma trim_blank : forall text, blank text = true -> trim text = [].
Proof.
  intros text B. unfold trim. rewrite (dropWhile_all _ _ B). reflexivity.
Qed.

Lemma dropWhile_nil_all : forall p s, dropWhile p s = [] -> forallb p s = true.
Proof.
  induction s as [|c s IH]; simpl; intros E; [reflexivity|].
  destruct (p c); [auto|discriminate].
Qed.

Lemma trim_nil_blank : forall text, trim text = [] -> blank text = true.
Proof.
  intros text E. unfold trim in E.
  assert (E1 : dropWhile is_ws (rev (dropWhile is_ws text)) = []).
  { rewrite <- (rev_involutive (dropWhile _ (rev _))). rewrite E. reflexivity. }
  apply dropWhile_nil_all in E1.
  destruct (dropWhile is_ws text) as [|c r] eqn:E2.
  - now apply dropWhile_nil_all.
  - exfalso. clear E.
    assert (is_ws c = false).
    { clear E1. revert c r E2. induction text as [|d t IH]; simpl; intros c r E2; [discriminate|].
      destruct (is_ws d) eqn:Ed; [eauto|]. injection E2 as <- _. assumption. }
    simpl in E1. rewrite forallb_app in E1. apply andb_true_iff in E1 as [_ E1].
    simpl in E1. rewrite H in E1. discriminate.
Qed.

(** [train] throws exactly on blank text. *)
Lemma train_throws_iff : forall t text,
    blank text = true <-> snd (train t text) = Throw InvalidInput.
Proof.
  intros t text. unfold train.
  destruct (negb (nonempty text) || Nat.eqb (length (trim text)) 0)%bool eqn:G.
  - simpl. split; [reflexivity|intros _].
    apply orb_true_iff in G as [G|G].
    + apply negb_true_iff, nonempty_false in G. now subst.
    + apply Nat.eqb_eq in G. apply trim_nil_blank.
      destruct (trim text); [reflexivity|discriminate].
  - split.
    + intros B. rewrite (trim_blank _ B) in G. simpl in G.
      rewrite orb_true_r in G. discriminate.
    + simpl. discriminate.
Qed.

(** C6.  Training on a text that is empty or white space only throws the
    invalid-input error, and leaves the vocabulary, its inverse and the merge
    list empty: the reset has happened and nothing was added after it. *)
Theorem train_blank_text_rejected : forall (t : BPETokenizer) (text : str),
    blank text = true ->
    snd (train t text) = Throw InvalidInput
    /\ vocabulary (fst (train t text)) = []
    /\ reverseVocabulary (fst (train t text)) = []
    /\ merges (fst (train t text)) = [].
Proof.
  intros t text B. unfold train. rewrite (trim_blank _ B). simpl.
  rewrite orb_true_r. simpl. repeat split.
Qed.

Lemma train_blank_text_rejected_witness :
  blank (lit "  ") = true
  /\ snd (train (fst (train (constructor no_options) (lit "hello world"))) (lit "  "))
     = Throw InvalidInput
  /\ vocabulary (fst (train (fst (train (constructor no_options) (lit "hello world"))) (lit "  "))) = [].
Proof.
  split; [reflexivity|].
  pose proof (train_blank_text_rejected
                (fst (train (constructor no_options) (lit "hello world"))) (lit "  ")
                eq_refl) as P.
  split; [exact (proj1 P)|exact (proj1 (proj2 P))].
Defined.

(** C7.  [tokenize] throws the not-trained error exactly when the vocabulary is
    empty, whatever the text (the empty text included); with a non-empty
    vocabulary it returns a sequence, and the empty sequence on the empty
    text. *)
Theorem tokenize_not_trained_iff : forall (t : BPETokenizer) (text : str),
    (tokenize t text = Throw NotTrained <-> vocabulary t = [])
    /\ (vocabulary t <> [] -> exists ids, tokenize t text = Ok ids)
    /\ (vocabulary t <> [] -> tokenize t [] = Ok []).
Proof.
  intros t text. unfold tokenize, JsMap.size.
  destruct (vocabulary t) as [|e v]; simpl.
  - repeat split; intros; congruence.
  - split; [|split].
    + split; [|discriminate]. destruct (negb (nonempty text)); discriminate.
    + intros _. destruct (negb (nonempty text)); eauto.
    + reflexivity.
Qed.

Lemma tokenize_not_trained_iff_witness :
  tokenize (constructor no_options) [] = Throw NotTrained
  /\ tokenize (fst (train (constructor no_options) (lit "hello world"))) [] = Ok [].
Proof.
  split.
  - apply (proj1 (tokenize_not_trained_iff (constructor no_options) [])). reflexivity.
  - apply (proj2 (proj2 (tokenize_not_trained_iff
             (fst (train (constructor no_options) (lit "hello world"))) []))).
    vm_compute. discriminate.
Defined.

(** ** Decoding *)

Section Detokenize.
Variable t : BPETokenizer.

Let run := fold_left (detokenize_step t).

Lemma detokenize_run : forall ids, detokenize t ids = finish (run ids ([], [])).
Proof.
  intros ids. unfold detokenize, finish, run. destruct ids as [|i ids]; [reflexivity|].
  cbn [length Nat.eqb]. destruct (fold_left _ _ _) as [w c]. reflexivity.
Qed.

Lemma step_prefix : forall W words cur id,
    detokenize_step t (W ++ words, cur) id
    = (W ++ fst (detokenize_step t (words, cur) id),
       snd (detokenize_step t (words, cur) id)).
Proof.
  intros W words cur id. unfold detokenize_step.
  destruct (JsMap.get _ id) as [tok|]; [|reflexivity].
  destruct (negb (nonempty tok)); [reflexivity|].
  destruct (Str.eqb tok marker).
  - destruct (nonempty cur); simpl; [now rewrite app_assoc|reflexivity].
  - destruct (negb _); reflexivity.
Qed.

Lemma run_prefix : forall ids W words cur,
    run ids (W ++ words, cur)
    = (W ++ fst (run ids (words, cur)), snd (run ids (words, cur))).
Proof.
  unfold run. induction ids as [|i ids IH]; intros W words cur; [reflexivity|].
  cbn [fold_left]. rewrite step_prefix.
  destruct (detokenize_step t (words, cur) i) as [w c]. cbn [fst snd]. apply IH.
Qed.

Lemma step_words_nonempty : forall words cur id,
    Forall (fun w => w <> []) words ->
    Forall (fun w => w <> []) (fst (detokenize_step t (words, cur) id)).
Proof.
  intros words cur id F. unfold detokenize_step.
  destruct (JsMap.get _ id) as [tok|]; [|assumption].
  destruct (negb (nonempty tok)); [assumption|].
  destruct (Str.eqb tok marker).
  - destruct (nonempty cur) eqn:E; [|assumption]. cbn [fst].
    apply Forall_app. split; [assumption|]. constructor; [|constructor].
    now apply nonempty_true.
  - destruct (negb _); assumption.
Qed.

Lemma run_words_nonempty : forall ids words cur,
    Forall (fun w => w <> []) words ->
    Forall (fun w => w <> []) (fst (run ids (words, cur))).
Proof.
  unfold run. induction ids as [|i ids IH]; intros words cur F; [assumption|].
  cbn [fold_left].
  pose proof (step_words_nonempty words cur i F) as F'.
  destruct (detokenize_step t (words, cur) i) as [w c]. now apply IH.
Qed.

Lemma join_nil_iff : forall ws : list str,
    Forall (fun w => w <> []) ws -> (join [" "] ws = [] <-> ws = []).
Proof.
  intros ws F. split; [|intros ->; reflexivity].
  destruct ws as [|w ws]; [reflexivity|]. inversion F; subst.
  destruct w; [congruence|]. destruct ws; simpl; discriminate.
Qed.

Lemma join_cons : forall (w : str) ws,
    ws <> [] -> join [" "] (w :: ws) = w ++ " " :: join [" "] ws.
Proof. intros w [|x ws] N; [congruence|reflexivity]. Qed.

Lemma join_app_beside : forall A B : list str,
    Forall (fun w => w <> []) A -> Forall (fun w => w <> []) B ->
    join [" "] (A ++ B) = beside (join [" "] A) (join [" "] B).
Proof.
  induction A as [|a A IH]; intros B FA FB; [reflexivity|].
  inversion FA as [|? ? Na FA']; subst.
  destruct B as [|b B].
  - rewrite app_nil_r. change (join [" "] []) with (@nil ascii).
    destruct (join [" "] (a :: A)); reflexivity.
  - assert (NB : join [" "] (b :: B) <> []).
    { intros E. apply join_nil_iff in E; [discriminate|assumption]. }
    destruct A as [|a' A].
    + change ([a] ++ b :: B) with (a :: b :: B).
      rewrite join_cons by discriminate.
      change (join [" "] [a]) with a.
      destruct (join [" "] (b :: B)); [congruence|].
      destruct a; [congruence|reflexivity].
    + change ((a :: a' :: A) ++ b :: B) with (a :: ((a' :: A) ++ b :: B)).
      rewrite join_cons by discriminate. rewrite IH by assumption.
      rewrite (join_cons a (a' :: A)) by discriminate.
      assert (NA : join [" "] (a' :: A) <> []).
      { intros E. apply join_nil_iff in E; [discriminate|assumption]. }
      destruct (join [" "] (a' :: A)) as [|x X]; [congruence|].
      destruct (join [" "] (b :: B)) as [|y Y]; [congruence|].
      destruct a as [|z Z]; [congruence|].
      cbn [beside app]. rewrite <- app_assoc. reflexivity.
Qed.

Lemma flushed_nonempty : forall st,
    Forall (fun w => w <> []) (fst st) -> Forall (fun w => w <> []) (flushed st).
Proof.
  intros [w c] F. unfold flushed. cbn [fst snd].
  destruct (nonempty c) eqn:E; [|assumption].
  apply Forall_app. split; [assumption|]. constructor; [|constructor].
  now apply nonempty_true.
Qed.

(** An id without a token is passed over. *)
Lemma detokenize_skip_absent : forall ids1 id ids2,
    JsMap.get (reverseVocabulary t) id = None ->
    detokenize t (ids1 ++ id :: ids2) = detokenize t (ids1 ++ ids2).
Proof.
  intros ids1 id ids2 E. rewrite !detokenize_run. unfold run.
  rewrite !fold_left_app. cbn [fold_left].
  destruct (fold_left _ ids1 _) as [w c].
  unfold detokenize_step at 2. rewrite E. reflexivity.
Qed.

(** A special token other than the marker adds nothing. *)
Lemma detokenize_skip_special : forall ids1 id tok ids2,
    JsMap.get (reverseVocabulary t) id = Some tok ->
    tok <> marker ->
    includes (specialTokens (config t)) tok = true ->
    detokenize t (ids1 ++ id :: ids2) = detokenize t (ids1 ++ ids2).
Proof.
  intros ids1 id tok ids2 E N S. rewrite !detokenize_run. unfold run.
  rewrite !fold_left_app. cbn [fold_left].
  destruct (fold_left _ ids1 _) as [w c].
  unfold detokenize_step at 2. rewrite E.
  apply str_eqb_neq in N. rewrite N, S. cbn [negb].
  destruct (negb (nonempty tok)); reflexivity.
Qed.

(** Ordinary tokens are appended to the word being built. *)
Lemma run_text : forall ids toks words cur,
    Forall2 (fun id tok =>
               JsMap.get (reverseVocabulary t) id = Some tok
               /\ tok <> marker
               /\ includes (specialTokens (config t)) tok = false) ids toks ->
    run ids (words, cur) = (words, cur ++ concat toks).
Proof.
  unfold run. intros ids toks words cur F. revert cur.
  induction F as [|id tok ids toks (E & N & S) F IH]; intros cur.
  - cbn. now rewrite app_nil_r.
  - cbn [fold_left concat]. unfold detokenize_step at 2. rewrite E.
    apply str_eqb_neq in N. rewrite N, S. cbn [negb].
    destruct (negb (nonempty tok)) eqn:Et.
    + apply negb_true_iff, nonempty_false in Et. subst tok.
      rewrite IH. reflexivity.
    + rewrite IH. now rewrite <- app_assoc.
Qed.

Lemma detokenize_text : forall ids toks,
    Forall2 (fun id tok =>
               JsMap.get (reverseVocabulary t) id = Some tok
               /\ tok <> marker
               /\ includes (specialTokens (config t)) tok = false) ids toks ->
    detokenize t ids = concat toks.
Proof.
  intros ids toks F. rewrite detokenize_run, (run_text _ _ _ _ F).
  unfold finish. cbn [fst snd app].
  destruct (concat toks) eqn:E; reflexivity.
Qed.

(** The end-of-word marker closes the word being built. *)
Lemma detokenize_marker : forall ids1 id ids2,
    JsMap.get (reverseVocabulary t) id = Some marker ->
    detokenize t (ids1 ++ id :: ids2)
    = beside (detokenize t ids1) (detokenize t ids2).
Proof.
  intros ids1 id ids2 E. rewrite !detokenize_run. unfold run.
  rewrite fold_left_app. cbn [fold_left].
  pose proof (run_words_nonempty ids1 [] [] (Forall_nil _)) as F1.
  pose proof (run_words_nonempty ids2 [] [] (Forall_nil _)) as F2.
  unfold run in F1, F2.
  destruct (fold_left _ ids1 _) as [w1 c1] eqn:R1.
  assert (S : detokenize_step t (w1, c1) id = (flushed (w1, c1), [])).
  { unfold detokenize_step. rewrite E. cbn. unfold flushed. cbn [fst snd].
    destruct (nonempty c1) eqn:Ec; [reflexivity|].
    apply nonempty_false in Ec. now subst. }
  rewrite S.
  pose proof (run_prefix ids2 (flushed (w1, c1)) [] []) as P. unfold run in P.
  rewrite app_nil_r in P.
  match goal with
  | |- finish ?x = _ =>
      replace x with (flushed (w1, c1) ++ fst (fold_left (detokenize_step t) ids2 ([], [])),
                      snd (fold_left (detokenize_step t) ids2 ([], [])))
        by (symmetry; exact P)
  end.
  destruct (fold_left _ ids2 _) as [w2 c2] eqn:R2.
  unfold finish. cbn [fst snd] in *.
  fold (flushed (w1, c1)). fold (flushed (w2, c2)).
  rewrite <- join_app_beside.
  - f_equal. generalize (flushed (w1, c1)). intros W.
    unfold flushed. cbn [fst snd].
    destruct (nonempty c2); [now rewrite app_assoc|reflexivity].
  - now apply flushed_nonempty.
  - now apply flushed_nonempty.
Qed.
End Detokenize.

(** C8.  What [detokenize] does with an id sequence: the empty sequence
    gives the empty string; an id with no token is passed over; a special
    token other than the marker adds nothing; ordinary tokens are appended to
    the word being built, which is flushed at the end; the end-of-word marker
    closes the word being built, and the words are joined by one space; and
    on a tokenizer trained on "hello world" the sequence [999999] gives the
    empty string. *)
Theorem detokenize_behaviour : forall t : BPETokenizer,
    detokenize t [] = []
    /\ (forall ids1 id ids2,
          JsMap.get (reverseVocabulary t) id = None ->
          detokenize t (ids1 ++ id :: ids2) = detokenize t (ids1 ++ ids2))
    /\ (forall ids1 id ids2,
          JsMap.get (reverseVocabulary t) id = Some marker ->
          detokenize t (ids1 ++ id :: ids2)
          = beside (detokenize t ids1) (detokenize t ids2))
    /\ (forall ids1 id tok ids2,
          JsMap.get (reverseVocabulary t) id = Some tok ->
          tok <> marker ->
          includes (specialTokens (config t)) tok = true ->
          detokenize t (ids1 ++ id :: ids2) = detokenize t (ids1 ++ ids2))
    /\ (forall ids toks,
          Forall2 (fun id tok =>
                     JsMap.get (reverseVocabulary t) id = Some tok
                     /\ tok <> marker
                     /\ includes (specialTokens (config t)) tok = false) ids toks ->
          detokenize t ids = concat toks)
    /\ detokenize (fst (train (constructor no_options) (lit "hello world")))
                  [999999%N] = [].
Proof.
  intros t. split; [reflexivity|].
  split; [apply detokenize_skip_absent|].
  split; [apply detokenize_marker|].
  split; [apply detokenize_skip_special|].
  split; [apply detokenize_text|].
  vm_compute. reflexivity.
Qed.

Lemma detokenize_behaviour_witness :
  let t := fst (train (constructor no_options) (lit "hello world")) in
  detokenize t [6; 999999; 5; 11; 1; 10; 8]%N = lit "he wo".
Proof.
  intros t.
  destruct (detokenize_behaviour t) as (_ & Habsent & Hmarker & Hspecial & Htext & _).
  change (detokenize t ([6] ++ 999999 :: [5; 11; 1; 10; 8])%N = lit "he wo").
  rewrite (Habsent [6%N] 999999%N [5; 11; 1; 10; 8]%N eq_refl).
  change (detokenize t ([6; 5] ++ 11 :: [1; 10; 8])%N = lit "he wo").
  rewrite (Hmarker [6; 5]%N 11%N [1; 10; 8]%N eq_refl).
  change (detokenize t [1; 10; 8]%N) with (detokenize t ([] ++ 1 :: [10; 8])%N).
  rewrite (Hspecial [] 1%N (lit "<unk>") [10; 8]%N eq_refl
             ltac:(discriminate) eq_refl).
  rewrite (Htext [6; 5]%N [lit "h"; lit "e"]).
  2:{ repeat constructor; discriminate. }
  change (detokenize t ([] ++ [10; 8])%N) with (detokenize t [10; 8]%N).
  rewrite (Htext [10; 8]%N [lit "w"; lit "o"]).
  2:{ repeat constructor; discriminate. }
  reflexivity.
Defined.

(** ** The merge pattern *)

Lemma syntax_char_not_b : forall c, is_syntax_char c = true -> Ascii.eqb c "b" = false.
Proof. intros c; each_ascii c. Qed.

Lemma backslash_is_syntax : forall c, Ascii.eqb c "\" = true -> is_syntax_char c = true.
Proof. intros c E. apply Ascii.eqb_eq in E. subst. reflexivity. Qed.

Lemma parse_escaped : forall f rest atoms,
    parse_pattern rest = Some atoms ->
    parse_pattern (escapeRegex f ++ rest) = Some (map AChar f ++ atoms).
Proof.
  induction f as [|c f IH]; intros rest atoms P; [assumption|].
  unfold escapeRegex in *. cbn [flat_map map].
  destruct (is_syntax_char c) eqn:S.
  - cbn [app parse_pattern]. rewrite Ascii.eqb_refl.
    rewrite (syntax_char_not_b _ S), S.
    rewrite (IH _ _ P). reflexivity.
  - cbn [app parse_pattern].
    destruct (Ascii.eqb c "\") eqn:B.
    + apply backslash_is_syntax in B. congruence.
    + rewrite S. rewrite (IH _ _ P). reflexivity.
Qed.

(** The pattern built for a merge rule is the literal text of the pair
    between two word boundaries, whatever the symbols contain. *)
Lemma parse_merge_pattern : forall first second,
    parse_pattern (merge_pattern_source first second)
    = Some (ABoundary :: map AChar (pair_key first second) ++ [ABoundary]).
Proof.
  intros first second. unfold merge_pattern_source, pair_key.
  change (lit "\b" ++ escapeRegex first ++ " " :: escapeRegex second ++ lit "\b")
    with ("\" :: "b" :: (escapeRegex first ++ " " :: escapeRegex second ++ lit "\b")).
  cbn [parse_pattern]. rewrite Ascii.eqb_refl. cbn [Ascii.eqb Bool.eqb].
  rewrite (parse_escaped first _ (AChar " " :: map AChar second ++ [ABoundary])).
  - cbn [option_map]. rewrite map_app. cbn [map]. rewrite <- app_assoc. reflexivity.
  - change (" " :: escapeRegex second ++ lit "\b")
      with ([" "] ++ escapeRegex second ++ lit "\b").
    cbn [app parse_pattern]. cbn [Ascii.eqb Bool.eqb].
    change (is_syntax_char " ") with false. cbv iota.
    rewrite (parse_escaped second _ [ABoundary]); reflexivity.
Qed.

Lemma match_chars : forall l tail prev rest,
    match_atoms (map AChar l ++ tail) prev rest
    = if starts_with l rest
      then option_map (Nat.add (length l))
             (match_atoms tail (last_or l prev) (skipn (length l) rest))
      else None.
Proof.
  induction l as [|c l IH]; intros tail prev rest.
  - cbn. destruct (match_atoms tail prev rest); reflexivity.
  - cbn [map app match_atoms starts_with length skipn].
    destruct rest as [|d rest]; [reflexivity|].
    destruct (Ascii.eqb c d) eqn:E; [|reflexivity].
    apply Ascii.eqb_eq in E. subst d. cbn [andb].
    rewrite IH. unfold last_or. cbn [fold_left].
    destruct (starts_with l rest); [|reflexivity].
    destruct (match_atoms tail _ _); reflexivity.
Qed.

Lemma match_literal : forall l prev rest,
    match_atoms (ABoundary :: map AChar l ++ [ABoundary]) prev rest
    = if literal_matches l prev rest then Some (length l) else None.
Proof.
  intros l prev rest. cbn [match_atoms]. unfold literal_matches.
  destruct (word_boundary prev (hd_error rest)); [|reflexivity].
  rewrite match_chars. cbn [andb].
  destruct (starts_with l rest); [|reflexivity].
  cbn [match_atoms andb].
  destruct (word_boundary _ _); [|reflexivity].
  cbn [option_map]. now rewrite Nat.add_0_r.
Qed.

Lemma starts_with_app : forall l rest,
    starts_with l rest = true <-> exists r, rest = l ++ r.
Proof.
  induction l as [|c l IH]; intros rest; cbn [starts_with].
  - split; [intros _; now exists rest|reflexivity].
  - destruct rest as [|d rest].
    + split; [discriminate|]. intros [r E]. discriminate.
    + rewrite andb_true_iff, Ascii.eqb_eq, IH. split.
      * intros [-> [r ->]]. now exists r.
      * intros [r E]. injection E as -> ->. split; [reflexivity|now exists r].
Qed.

Lemma expand_plain : forall matched before after tpl,
    ~ In "$" tpl -> expand_replacement matched before after tpl = tpl.
Proof.
  intros matched before after tpl. induction tpl as [|c tpl IH]; intros N; [reflexivity|].
  cbn [expand_replacement].
  destruct (Ascii.eqb c "$") eqn:E.
  - apply Ascii.eqb_eq in E. subst. exfalso. apply N. now left.
  - rewrite IH; [reflexivity|]. intros I. apply N. now right.
Qed.

(** With a template free of [$] the replacement is the scan by [scan]. *)
Lemma replace_go_scan : forall l tpl,
    l <> [] -> ~ In "$" tpl ->
    forall rest before_rev skip,
      replace_go (ABoundary :: map AChar l ++ [ABoundary]) tpl before_rev skip rest
      = scan l tpl (hd_error before_rev) skip rest.
Proof.
  intros l tpl Nl Nd. induction rest as [|c rest IH]; intros br skip.
  - cbn [replace_go scan]. destruct skip; [|reflexivity].
    rewrite match_literal. unfold literal_matches.
    destruct l; [congruence|]. cbn [starts_with]. rewrite andb_false_r. reflexivity.
  - cbn [replace_go scan]. destruct skip as [|k].
    + rewrite match_literal.
      destruct (literal_matches l (hd_error br) (c :: rest)).
      * destruct l as [|x l]; [congruence|]. cbn [length].
        rewrite expand_plain by assumption. rewrite IH. cbn [hd_error].
        replace (S (length l) - 1)%nat with (length l) by lia. reflexivity.
      * rewrite IH. reflexivity.
    + rewrite IH. reflexivity.
Qed.

Lemma replace_merge_scan : forall f s w,
    ~ In "$" (f ++ s) ->
    replace_merge f s w = scan (pair_key f s) (f ++ s) None 0 w.
Proof.
  intros f s w N. unfold replace_merge. rewrite parse_merge_pattern.
  unfold replace_all. rewrite replace_go_scan; [reflexivity| |assumption].
  unfold pair_key. destruct f; discriminate.
Qed.

(** The pattern at work: adjacent letters are merged left to right without
    overlap; a pair that ends in the marker is not; and neither is a pair
    whose left symbol starts with a non-word character. *)
Example replace_merge_letters :
  replace_merge (lit "l") (lit "l") (lit "h e l l o </w>") = lit "h e ll o </w>".
Proof. reflexivity. Qed.

Example replace_merge_no_overlap :
  replace_merge (lit "a") (lit "a") (lit "a a a a a </w>") = lit "aa aa a </w>".
Proof. reflexivity. Qed.

Example replace_merge_marker_pair :
  replace_merge (lit "o") (lit "</w>") (lit "h e l l o </w>") = lit "h e l l o </w>".
Proof. reflexivity. Qed.

Example replace_merge_punctuation :
  replace_merge (lit "!") (lit "a") (lit "! a </w>") = lit "! a </w>".
Proof. reflexivity. Qed.

Example replace_merge_inside_symbol :
  replace_merge (lit "b") (lit "c") (lit "a b c </w>") = lit "a bc </w>"
  /\ replace_merge (lit "b") (lit "c") (lit "ab c </w>") = lit "ab c </w>".
Proof. split; reflexivity. Qed.

(** ** What the pattern does to the pair ending a word *)

(** C2.  [applyMerge] does not rewrite every adjacent pair of whole symbols:
    the pair (b, </w>) in the word [b </w>] is left as it is, where the
    rewriting of whole symbols gives the one symbol [b</w>]; training on
    "b b b" therefore records this same rule 500 times while the word never
    changes, and encoding "b b b" never produces the id of [b</w>]. *)
Theorem applyMerge_leaves_marker_pair :
  let t := fst (train (constructor no_options) (lit "b b b")) in
  applyMerge [(lit "b </w>", 3%Z)] (lit "b", lit "</w>") = [(lit "b </w>", 3%Z)]
  /\ join [" "] (merge_adjacent (lit "b") (lit "</w>") (split_on " " (lit "b </w>")))
     = lit "b</w>"
  /\ merges t = repeat (lit "b", lit "</w>") 500
  /\ JsMap.get (vocabulary t) (lit "b</w>") = Some 6%N
  /\ tokenize t (lit "b b b") = Ok [4; 5; 4; 5; 4; 5]%N.
Proof. vm_compute. repeat split. Qed.

(** ** The two benchmark samples *)

(** C5.  On a tokenizer with the default configuration, [benchmark] of the
    two texts "a" and "b b b" reports no error and a round-trip accuracy of
    100. *)
Theorem benchmark_two_samples :
  let r := snd (benchmark (constructor no_options) [lit "a"; lit "b b b"]) in
  length (b_errors r) = 0%nat /\ roundTripAccuracy r = 100%float.
Proof. vm_compute. split; reflexivity. Qed.

(** ** Scanning a word made of word-character symbols *)

Lemma scan_skip : forall l tpl u v prev,
    scan l tpl prev (length u) (u ++ v) = scan l tpl (last_or u prev) 0 v.
Proof.
  intros l tpl. induction u as [|c u IH]; intros v prev; [reflexivity|].
  cbn [length app scan]. rewrite IH. reflexivity.
Qed.

Lemma scan_copy : forall l tpl u v prev,
    (forall u1 u2, u = u1 ++ u2 -> u2 <> [] ->
                   literal_matches l (last_or u1 prev) (u2 ++ v) = false) ->
    scan l tpl prev 0 (u ++ v) = u ++ scan l tpl (last_or u prev) 0 v.
Proof.
  intros l tpl. induction u as [|c u IH]; intros v prev Hn; [reflexivity|].
  cbn [app scan].
  pose proof (Hn [] (c :: u) eq_refl ltac:(discriminate)) as M0.
  unfold last_or in M0. cbn [fold_left app] in M0. rewrite M0.
  cbn [app]. f_equal. apply IH. intros u1 u2 E N.
  apply (Hn (c :: u1) u2); [now rewrite E|assumption].
Qed.

Lemma scan_at_match : forall l tpl prev v,
    literal_matches l prev (l ++ v) = true -> l <> [] ->
    scan l tpl prev 0 (l ++ v) = tpl ++ scan l tpl (last_or l prev) 0 v.
Proof.
  intros l tpl prev v M N. destruct l as [|c l]; [congruence|].
  cbn [app scan]. cbn [app] in M. rewrite M.
  replace (length (c :: l) - 1)%nat with (length l) by (cbn [length]; lia).
  rewrite scan_skip. reflexivity.
Qed.

Lemma literal_matches_inv : forall l prev rest,
    literal_matches l prev rest = true ->
    word_boundary prev (hd_error rest) = true
    /\ exists r, rest = l ++ r /\ word_boundary (last_or l prev) (hd_error r) = true.
Proof.
  intros l prev rest M. unfold literal_matches in M.
  apply andb_true_iff in M as [M M3]. apply andb_true_iff in M as [M1 M2].
  split; [assumption|]. apply starts_with_app in M2 as [r ->].
  exists r. split; [reflexivity|].
  rewrite skipn_app, skipn_all, Nat.sub_diag in M3. exact M3.
Qed.

Lemma literal_matches_intro : forall l prev r,
    word_boundary prev (hd_error (l ++ r)) = true ->
    word_boundary (last_or l prev) (hd_error r) = true ->
    literal_matches l prev (l ++ r) = true.
Proof.
  intros l prev r B1 B2. unfold literal_matches. rewrite B1.
  rewrite (proj2 (starts_with_app l (l ++ r))) by (now exists r).
  rewrite skipn_app, skipn_all, Nat.sub_diag. exact B2.
Qed.

Lemma last_or_app : forall u v p, last_or (u ++ v) p = last_or v (last_or u p).
Proof. intros. unfold last_or. apply fold_left_app. Qed.

Lemma last_or_In : forall u p c, last_or u p = Some c -> u <> [] -> In c u.
Proof.
  intros u p c E N. destruct (exists_last N) as (u' & x & ->).
  rewrite last_or_app in E. cbn in E. injection E as ->.
  apply in_or_app. right. now left.
Qed.

Lemma last_or_some : forall u p, u <> [] -> exists c, last_or u p = Some c /\ In c u.
Proof.
  intros u p N. destruct (exists_last N) as (u' & x & ->).
  exists x. rewrite last_or_app. split; [reflexivity|].
  apply in_or_app. right. now left.
Qed.

Lemma space_split : forall x y X Y,
    ~ In " " x -> ~ In " " y -> x ++ " " :: X = y ++ " " :: Y -> x = y /\ X = Y.
Proof.
  induction x as [|c x IH]; intros y X Y Nx Ny E.
  - destruct y as [|d y]; cbn in E.
    + injection E as ->. now split.
    + injection E as <- _. exfalso. apply Ny. now left.
  - destruct y as [|d y]; cbn in E.
    + injection E as -> _. exfalso. apply Nx. now left.
    + injection E as -> E.
      destruct (IH y X Y) as [-> ->]; try assumption.
      * intros I. apply Nx. now right.
      * intros I. apply Ny. now right.
      * now split.
Qed.

Lemma marker_no_space : ~ In " " marker.
Proof. cbn. intros [E|[E|[E|[E|[]]]]]; discriminate. Qed.

Lemma marker_no_dollar : ~ In "$" marker.
Proof. cbn. intros [E|[E|[E|[E|[]]]]]; discriminate. Qed.

Lemma no_space_no_match : forall f s prev rest,
    ~ In " " rest -> literal_matches (pair_key f s) prev rest = false.
Proof.
  intros f s prev rest N.
  destruct (literal_matches _ prev rest) eqn:M; [|reflexivity].
  apply literal_matches_inv in M as (_ & r & -> & _).
  exfalso. apply N. unfold pair_key. rewrite <- app_assoc.
  apply in_or_app. right. now left.
Qed.

Lemma In_suffix : forall (c : ascii) u1 u2, In c u2 -> In c (u1 ++ u2).
Proof. intros. apply in_or_app. now right. Qed.

Lemma word_text_nil : word_text [] = marker.
Proof. reflexivity. Qed.

Lemma word_text_cons : forall a xs, word_text (a :: xs) = a ++ " " :: word_text xs.
Proof.
  intros a xs. unfold word_text. cbn [app]. apply join_cons.
  destruct xs; discriminate.
Qed.

Section WordSymbols.
Variable A : ascii -> bool.
Hypothesis A_word : forall c, A c = true -> is_word_char c = true.

Lemma sym_chars_word : forall x c, sym_of A x -> In c x -> is_word_char c = true.
Proof.
  intros x c [_ F] I. apply A_word. rewrite forallb_forall in F. now apply F.
Qed.

Lemma sym_no_space : forall x, sym_of A x -> ~ In " " x.
Proof. intros x S I. pose proof (sym_chars_word x _ S I). discriminate. Qed.

Lemma sym_no_dollar : forall x, sym_of A x -> ~ In "$" x.
Proof. intros x S I. pose proof (sym_chars_word x _ S I). discriminate. Qed.

Lemma sym_not_marker : forall x, sym_of A x -> x <> marker.
Proof.
  intros x S ->. assert (I : In "<" marker) by (now left).
  pose proof (sym_chars_word _ _ S I). discriminate.
Qed.

Lemma sym_or_marker_no_space : forall x, sym_or_marker A x -> ~ In " " x.
Proof. intros x [S| ->]; [now apply sym_no_space|apply marker_no_space]. Qed.

Lemma sym_or_marker_no_dollar : forall x, sym_or_marker A x -> ~ In "$" x.
Proof. intros x [S| ->]; [now apply sym_no_dollar|apply marker_no_dollar]. Qed.

Lemma sym_or_marker_nonempty : forall x, sym_or_marker A x -> x <> [].
Proof. intros x [[N _]| ->]; [assumption|discriminate]. Qed.

Lemma sym_app : forall x y, sym_of A x -> sym_of A y -> sym_of A (x ++ y).
Proof.
  intros x y [Nx Fx] [Ny Fy]. split.
  - destruct x; [congruence|discriminate].
  - rewrite forallb_app, Fx, Fy. reflexivity.
Qed.

Lemma sym_hd_word : forall x r, sym_of A x -> is_word_opt (hd_error (x ++ r)) = true.
Proof.
  intros x r S. destruct x as [|c x]; [destruct S; congruence|].
  cbn. apply (sym_chars_word _ c S). now left.
Qed.

Lemma sym_last_word : forall x p, sym_of A x -> is_word_opt (last_or x p) = true.
Proof.
  intros x p S. destruct (last_or_some x p (proj1 S)) as (c & -> & I).
  cbn. now apply (sym_chars_word x).
Qed.

Lemma word_text_hd : forall xs,
    Forall (sym_of A) xs ->
    (exists c r, word_text xs = c :: r /\ (is_word_char c = true \/ c = "<")).
Proof.
  intros [|a xs] F.
  - exists "<", (lit "/w>"). split; [reflexivity|now right].
  - inversion F as [|? ? Sa F']; subst. rewrite word_text_cons.
    destruct a as [|c a]; [destruct Sa; congruence|].
    exists c, (a ++ " " :: word_text xs). split; [reflexivity|left].
    apply (sym_chars_word _ c Sa). now left.
Qed.

Section Rule.
Variables f s : str.
Hypothesis Hf : sym_or_marker A f.
Hypothesis Hs : sym_or_marker A s.

Let l := pair_key f s.
Let tpl := f ++ s.

Lemma pair_last : forall p, last_or (pair_key f s) p = last_or s (Some " ").
Proof.
  intros p. unfold pair_key. rewrite last_or_app. cbn. reflexivity.
Qed.

Lemma no_match_at_space : forall prev v,
    literal_matches l prev (" " :: v) = false.
Proof.
  intros prev v. destruct (literal_matches l prev (" " :: v)) eqn:M; [|reflexivity].
  apply literal_matches_inv in M as (_ & r & E & _).
  unfold l, pair_key in E. exfalso.
  destruct f as [|c f'] eqn:Ef.
  - now apply (sym_or_marker_nonempty f); [rewrite Ef|].
  - cbn in E. injection E as <- _.
    apply (sym_or_marker_no_space f); [now rewrite Ef|]. rewrite Ef. now left.
Qed.

(** A match that starts where a symbol starts covers that symbol and the
    next one, which are the two symbols of the rule. *)
Lemma match_at_symbol : forall a xs prev,
    sym_of A a -> Forall (sym_of A) xs ->
    literal_matches l prev (a ++ " " :: word_text xs) = true ->
    a = f /\ exists xs', xs = s :: xs'.
Proof.
  intros a xs prev Sa F M.
  apply literal_matches_inv in M as (_ & r & E & B).
  unfold l in E, B. rewrite pair_last in B. unfold pair_key in E.
  rewrite <- app_assoc in E. cbn [app] in E.
  apply space_split in E as [<- E];
    [|now apply sym_no_space|now apply sym_or_marker_no_space].
  split; [reflexivity|].
  destruct xs as [|b xs].
  - (* the marker follows: no rule fits *)
    exfalso. rewrite word_text_nil in E.
    destruct Hs as [Ss| ->].
    + pose proof (sym_hd_word s r Ss) as W. rewrite <- E in W. discriminate.
    + assert (r = []) as ->.
      { apply (f_equal (@length ascii)) in E. rewrite length_app in E.
        destruct r; [reflexivity|cbn in E; lia]. }
      discriminate.
  - inversion F as [|? ? Sb F']; subst. rewrite word_text_cons in E.
    destruct Hs as [Ss| ->].
    + apply app_eq_app in E as [t [[Eb Er]|[Es Er]]].
      * (* the next symbol is longer than [s] or equal to it *)
        destruct t as [|c t].
        -- rewrite app_nil_r in Eb. subst b. now exists xs.
        -- exfalso. cbn [app] in Er. subst r. cbn [hd_error] in B.
           unfold word_boundary in B. rewrite (sym_last_word s _ Ss) in B.
           assert (Wc : is_word_char c = true).
           { apply (sym_chars_word b c Sb). rewrite Eb. apply in_or_app. right. now left. }
           cbn [is_word_opt] in B. rewrite Wc in B. discriminate.
      * (* [s] would contain the space *)
        destruct t as [|c t].
        -- rewrite app_nil_r in Es. subst b. now exists xs.
        -- exfalso. cbn [app] in Er. injection Er as <- _.
           apply (sym_no_space s Ss). rewrite Es. apply in_or_app. right. now left.
    + exfalso. pose proof (sym_hd_word b (" " :: word_text xs) Sb) as W.
      rewrite E in W. discriminate.
Qed.

Lemma match_at_rule : forall xs prev,
    sym_of A f -> sym_of A s -> is_word_opt prev = false ->
    literal_matches l prev (f ++ " " :: s ++ " " :: word_text xs) = true.
Proof.
  intros xs prev Sf Ss P.
  replace (f ++ " " :: s ++ " " :: word_text xs) with (l ++ " " :: word_text xs).
  2:{ unfold l, pair_key. rewrite <- app_assoc. reflexivity. }
  apply literal_matches_intro.
  - unfold l, pair_key. rewrite <- !app_assoc.
    unfold word_boundary. rewrite P, (sym_hd_word f _ Sf). reflexivity.
  - unfold l. rewrite pair_last. unfold word_boundary.
    rewrite (sym_last_word s _ Ss). reflexivity.
Qed.

Lemma scan_marker : forall prev, scan l tpl prev 0 marker = marker.
Proof.
  intros prev. rewrite <- (app_nil_r marker) at 1.
  rewrite scan_copy; [now rewrite app_nil_r|].
  intros u1 u2 E _. apply no_space_no_match. rewrite app_nil_r.
  intros I. apply marker_no_space. rewrite E. now apply In_suffix.
Qed.

(** Past a symbol that does not start a match, and the space after it. *)
Lemma scan_past_symbol : forall a v prev,
    sym_of A a -> is_word_opt prev = false ->
    literal_matches l prev (a ++ " " :: v) = false ->
    scan l tpl prev 0 (a ++ " " :: v) = a ++ " " :: scan l tpl (Some " ") 0 v.
Proof.
  intros a v prev Sa P M.
  replace (a ++ " " :: v) with ((a ++ [" "]) ++ v) by (now rewrite <- app_assoc).
  rewrite scan_copy.
  - rewrite last_or_app. cbn. rewrite <- app_assoc. reflexivity.
  - intros u1 u2 E N.
    destruct (exists_last N) as (u2' & x & ->).
    rewrite app_assoc in E. apply app_inj_tail in E as [Ea <-].
    destruct u2' as [|c u2'].
    + apply no_match_at_space.
    + destruct u1 as [|d u1].
      * cbn [app] in Ea. subst a. cbn [last_or fold_left].
        rewrite <- app_assoc. exact M.
      * unfold literal_matches.
        assert (B : word_boundary (last_or (d :: u1) prev)
                      (hd_error (((c :: u2') ++ [" "]) ++ v)) = false).
        { cbn [app hd_error]. unfold word_boundary.
          destruct (last_or_some (d :: u1) prev ltac:(discriminate)) as (e & -> & I).
          cbn [is_word_opt].
          rewrite (sym_chars_word a e Sa), (sym_chars_word a c Sa); [reflexivity| |].
          - rewrite Ea. apply in_or_app. right. now left.
          - rewrite Ea. apply in_or_app. now left. }
        rewrite B. reflexivity.
Qed.

(** On a word of word-character symbols the pattern rewrites exactly the
    adjacent pairs of whole symbols; the pair that the marker ends is never
    rewritten. *)
Lemma scan_word_text : forall n xs prev,
    (length xs <= n)%nat -> Forall (sym_of A) xs -> is_word_opt prev = false ->
    scan l tpl prev 0 (word_text xs) = word_text (merge_adjacent f s xs).
Proof.
  induction n as [|n IH]; intros xs prev Hn F P.
  - destruct xs; [|cbn in Hn; lia]. apply scan_marker.
  - destruct xs as [|a xs]; [apply scan_marker|].
    inversion F as [|? ? Sa F']; subst. cbn [length] in Hn.
    rewrite word_text_cons.
    destruct xs as [|b xs].
    + (* the last symbol before the marker *)
      cbn [merge_adjacent]. rewrite scan_past_symbol; try assumption.
      * rewrite word_text_nil, scan_marker. reflexivity.
      * destruct (literal_matches l prev _) eqn:M; [|reflexivity].
        apply match_at_symbol in M as (_ & xs' & E); try assumption. discriminate.
    + inversion F' as [|? ? Sb F'']; subst. cbn [merge_adjacent].
      destruct (Str.eqb a f && Str.eqb b s)%bool eqn:T.
      * apply andb_true_iff in T as [Ta Tb].
        apply str_eqb_eq in Ta, Tb. subst a b.
        rewrite !word_text_cons.
        pose proof (match_at_rule xs prev Sa Sb P) as M.
        replace (f ++ " " :: s ++ " " :: word_text xs)
          with (l ++ " " :: word_text xs) in *
          by (unfold l, pair_key; now rewrite <- app_assoc).
        rewrite scan_at_match;
          [|exact M|unfold l, pair_key; destruct f; discriminate].
        cbn [scan]. rewrite no_match_at_space.
        rewrite IH; try assumption; [|cbn [length] in Hn; lia|reflexivity].
        reflexivity.
      * rewrite scan_past_symbol; try assumption.
        -- rewrite IH; try assumption; [|lia|reflexivity].
           rewrite (word_text_cons a). reflexivity.
        -- destruct (literal_matches l prev _) eqn:M; [|reflexivity].
           apply match_at_symbol in M as (-> & xs' & E); try assumption.
           injection E as -> _. rewrite !str_eqb_refl in T. discriminate.
Qed.

(** The pattern replacement on such a word is the rewriting of adjacent
    whole symbols. *)
Lemma replace_merge_word_text : forall xs,
    Forall (sym_of A) xs ->
    replace_merge f s (word_text xs) = word_text (merge_adjacent f s xs).
Proof.
  intros xs F. rewrite replace_merge_scan.
  - apply (scan_word_text (length xs)); auto.
  - intros I. apply in_app_or in I as [I|I];
      [now apply (sym_or_marker_no_dollar f)|now apply (sym_or_marker_no_dollar s)].
Qed.

End Rule.

Lemma merge_adjacent_absent : forall f s xs,
    ~ In s xs -> merge_adjacent f s xs = xs.
Proof.
  intros f s xs. induction xs as [|a xs IH]; intros N; [reflexivity|].
  destruct xs as [|b xs]; [reflexivity|].
  change (merge_adjacent f s (a :: b :: xs))
    with (if (Str.eqb a f && Str.eqb b s)%bool
          then (f ++ s) :: merge_adjacent f s xs
          else a :: merge_adjacent f s (b :: xs)).
  assert (Str.eqb b s = false) as ->.
  { apply str_eqb_neq. intros ->. apply N. right. now left. }
  rewrite andb_false_r. f_equal. apply IH. intros I. apply N. now right.
Qed.

(** The pattern never rewrites the pair that the end-of-word marker ends. *)
Lemma marker_pair_never_merged : forall f xs,
    sym_or_marker A f -> Forall (sym_of A) xs ->
    replace_merge f marker (word_text xs) = word_text xs.
Proof.
  intros f xs Hf F. rewrite replace_merge_word_text; try assumption; [|now right].
  rewrite merge_adjacent_absent; [reflexivity|].
  intros I. rewrite Forall_forall in F. now apply (sym_not_marker marker (F _ I)).
Qed.
End WordSymbols.

(** ** Splitting on the space *)

Lemma split_on_nonnil : forall sep w, split_on sep w <> [].
Proof.
  intros sep w. destruct w as [|c w]; cbn; [discriminate|].
  destruct (Ascii.eqb c sep); [discriminate|].
  destruct (split_on sep w); discriminate.
Qed.

Lemma split_on_no_sep : forall sep w x, In x (split_on sep w) -> ~ In sep x.
Proof.
  intros sep. induction w as [|c w IH]; intros x I; cbn in I.
  - destruct I as [<-|[]]. auto.
  - destruct (Ascii.eqb c sep) eqn:E.
    + destruct I as [<-|I]; [auto|now apply IH].
    + destruct (split_on sep w) as [|p ps] eqn:S.
      * destruct I as [<-|[]]. intros [->|[]]. now rewrite Ascii.eqb_refl in E.
      * destruct I as [<-|I].
        -- intros [->|I]; [now rewrite Ascii.eqb_refl in E|].
           apply (IH p); [now left|assumption].
        -- apply IH. now right.
Qed.

Lemma split_on_plain : forall sep x, ~ In sep x -> split_on sep x = [x].
Proof.
  intros sep. induction x as [|c x IH]; intros N; [reflexivity|].
  cbn. destruct (Ascii.eqb c sep) eqn:E.
  - apply Ascii.eqb_eq in E. subst. exfalso. apply N. now left.
  - rewrite IH; [reflexivity|]. intros I. apply N. now right.
Qed.

Lemma split_on_app : forall sep x rest,
    ~ In sep x -> split_on sep (x ++ sep :: rest) = x :: split_on sep rest.
Proof.
  intros sep. induction x as [|c x IH]; intros rest N.
  - cbn. now rewrite Ascii.eqb_refl.
  - cbn. destruct (Ascii.eqb c sep) eqn:E.
    + apply Ascii.eqb_eq in E. subst. exfalso. apply N. now left.
    + rewrite IH; [reflexivity|]. intros I. apply N. now right.
Qed.

Lemma split_on_join : forall parts,
    parts <> [] -> Forall (fun x => ~ In " " x) parts ->
    split_on " " (join [" "] parts) = parts.
Proof.
  induction parts as [|x parts IH]; intros N F; [congruence|].
  inversion F as [|? ? Nx F']; subst.
  destruct parts as [|y parts].
  - cbn [join]. now apply split_on_plain.
  - rewrite join_cons by discriminate. rewrite split_on_app by assumption.
    rewrite IH; [reflexivity|discriminate|assumption].
Qed.

Lemma split_pair_key : forall a b,
    ~ In " " a -> ~ In " " b -> split_pair (pair_key a b) = (a, b).
Proof.
  intros a b Na Nb. unfold split_pair, pair_key.
  rewrite split_on_app by assumption. rewrite split_on_plain by assumption.
  reflexivity.
Qed.

Lemma pair_key_inj : forall a b a' b',
    ~ In " " a -> ~ In " " a' -> pair_key a b = pair_key a' b' -> a = a' /\ b = b'.
Proof. intros a b a' b' Na Na' E. now apply space_split in E. Qed.

Lemma adjacent_pairs_In : forall word a b,
    In (a, b) (adjacent_pairs word) -> In a word /\ In b word.
Proof.
  induction word as [|x word IH]; intros a b I; [contradiction|].
  cbn [adjacent_pairs] in I. destruct word as [|y word]; [contradiction|].
  destruct I as [E|I].
  - injection E as -> ->. split; [now left|right; now left].
  - apply IH in I as [I1 I2]. split; now right.
Qed.

(** ** Counting pairs *)

Lemma has_existsb : forall {V} (m : JsMap.t str V) k,
    JsMap.has m k = existsb (Str.eqb k) (JsMap.keys m).
Proof.
  intros V m k. destruct (existsb (Str.eqb k) (JsMap.keys m)) eqn:E.
  - apply existsb_exists in E as (x & I & E). apply str_eqb_eq in E. subst x.
    now apply has_true_keys.
  - apply has_false_keys. intros I.
    assert (existsb (Str.eqb k) (JsMap.keys m) = true).
    { apply existsb_exists. exists k. split; [assumption|apply str_eqb_refl]. }
    congruence.
Qed.

Lemma keys_set_add : forall {V} (m : JsMap.t str V) k v,
    JsMap.keys (JsMap.set m k v) = JsSet.add (JsMap.keys m) k.
Proof.
  intros V m k v. rewrite keys_set, has_existsb. reflexivity.
Qed.

Lemma get0_set : forall (m : JsMap.t str Z) k k' v,
    get0 (JsMap.set m k v) k' = if Str.eqb k k' then v else get0 m k'.
Proof.
  intros. unfold get0. rewrite get_set. change (keqb k k') with (Str.eqb k k').
  destruct (Str.eqb k k'); reflexivity.
Qed.

Lemma add_In : forall l k x, In x (JsSet.add l k) <-> In x l \/ x = k.
Proof.
  intros l k x. unfold JsSet.add. destruct (existsb (Str.eqb k) l) eqn:E.
  - split; [now left|]. intros [I| ->]; [assumption|].
    apply existsb_exists in E as (y & I & E). apply str_eqb_eq in E. now subst.
  - rewrite in_app_iff. cbn. intuition congruence.
Qed.

Lemma fold_add_In : forall l acc x,
    In x (fold_left JsSet.add l acc) <-> In x acc \/ In x l.
Proof.
  induction l as [|k l IH]; intros acc x; cbn [fold_left].
  - cbn. tauto.
  - rewrite IH, add_In. cbn. intuition congruence.
Qed.

Lemma first_occurrences_In : forall l x, In x (first_occurrences l) <-> In x l.
Proof. intros. unfold first_occurrences. rewrite fold_add_In. cbn. tauto. Qed.

Lemma add_absorbed : forall l k, In k l -> JsSet.add l k = l.
Proof.
  intros l k I. unfold JsSet.add.
  assert (existsb (Str.eqb k) l = true) as ->; [|reflexivity].
  apply existsb_exists. exists k. split; [assumption|apply str_eqb_refl].
Qed.

Lemma fold_add_add : forall pre acc k,
    fold_left JsSet.add (JsSet.add pre k) acc
    = JsSet.add (fold_left JsSet.add pre acc) k.
Proof.
  intros pre acc k.
  destruct (existsb (Str.eqb k) pre) eqn:E.
  - replace (JsSet.add pre k) with pre by (unfold JsSet.add; now rewrite E).
    symmetry. apply add_absorbed. apply fold_add_In. right.
    apply existsb_exists in E as (y & I & E). apply str_eqb_eq in E. now subst.
  - replace (JsSet.add pre k) with (pre ++ [k]) by (unfold JsSet.add; now rewrite E).
    rewrite fold_left_app. reflexivity.
Qed.

Lemma fold_add_fold : forall l pre acc,
    fold_left JsSet.add (fold_left JsSet.add l pre) acc
    = fold_left JsSet.add l (fold_left JsSet.add pre acc).
Proof.
  induction l as [|k l IH]; intros pre acc; cbn [fold_left]; [reflexivity|].
  rewrite IH, fold_add_add. reflexivity.
Qed.

Lemma getPairs_from_keys : forall word pairs,
    JsMap.keys (getPairs_from word pairs)
    = fold_left JsSet.add (pair_keys word) (JsMap.keys pairs).
Proof.
  induction word as [|a word IH]; intros pairs; [reflexivity|].
  destruct word as [|b word]; [reflexivity|].
  change (getPairs_from (a :: b :: word) pairs)
    with (getPairs_from (b :: word)
            (JsMap.set pairs (pair_key a b) (get0 pairs (pair_key a b) + 1)%Z)).
  rewrite IH, keys_set_add. reflexivity.
Qed.

Lemma count_key_cons : forall k x l,
    count_key k (x :: l) = ((if Str.eqb k x then 1 else 0) + count_key k l)%Z.
Proof.
  intros k x l. unfold count_key. cbn [filter].
  destruct (Str.eqb k x); cbn [length]; lia.
Qed.

Lemma str_eqb_sym : forall a b, Str.eqb a b = Str.eqb b a.
Proof.
  intros a b. destruct (Str.eqb b a) eqn:E.
  - apply str_eqb_eq in E. subst. apply str_eqb_refl.
  - apply str_eqb_neq. apply str_eqb_neq in E. congruence.
Qed.

Lemma getPairs_from_get0 : forall word pairs k,
    get0 (getPairs_from word pairs) k
    = (get0 pairs k + count_key k (pair_keys word))%Z.
Proof.
  induction word as [|a word IH]; intros pairs k.
  - cbn. unfold count_key. cbn. lia.
  - destruct word as [|b word].
    + cbn. unfold count_key. cbn. lia.
    + change (getPairs_from (a :: b :: word) pairs)
        with (getPairs_from (b :: word)
                (JsMap.set pairs (pair_key a b) (get0 pairs (pair_key a b) + 1)%Z)).
      rewrite IH, get0_set.
      change (pair_keys (a :: b :: word)) with (pair_key a b :: pair_keys (b :: word)).
      rewrite count_key_cons, (str_eqb_sym k).
      destruct (Str.eqb (pair_key a b) k) eqn:E; [|lia].
      apply str_eqb_eq in E. subst k. lia.
Qed.

Lemma getPairs_from_NoDup : forall word pairs,
    NoDup (JsMap.keys pairs) -> NoDup (JsMap.keys (getPairs_from word pairs)).
Proof.
  induction word as [|a word IH]; intros pairs ND; [assumption|].
  destruct word as [|b word]; [assumption|].
  change (getPairs_from (a :: b :: word) pairs)
    with (getPairs_from (b :: word)
            (JsMap.set pairs (pair_key a b) (get0 pairs (pair_key a b) + 1)%Z)).
  apply IH. now apply NoDup_keys_set.
Qed.

Lemma get0_cons : forall k0 v0 (m : JsMap.t str Z) k,
    get0 ((k0, v0) :: m) k = if Str.eqb k0 k then v0 else get0 m k.
Proof.
  intros. unfold get0. cbn [JsMap.get]. change (keqb k0 k) with (Str.eqb k0 k).
  destruct (Str.eqb k0 k); reflexivity.
Qed.

Lemma add_pairs_cons : forall fq k0 v0 pairs pc,
    add_pairs fq ((k0, v0) :: pairs) pc
    = add_pairs fq pairs (JsMap.set pc k0 (get0 pc k0 + fq * v0)%Z).
Proof. reflexivity. Qed.

Lemma countPairs_from_cons : forall w fq words pc,
    countPairs_from ((w, fq) :: words) pc
    = countPairs_from words (add_pairs fq (getPairs (split_on " " w)) pc).
Proof. reflexivity. Qed.

Lemma add_pairs_get0 : forall fq pairs pc k,
    NoDup (JsMap.keys pairs) ->
    get0 (add_pairs fq pairs pc) k = (get0 pc k + fq * get0 pairs k)%Z.
Proof.
  intros fq. induction pairs as [|[k0 v0] pairs IH]; intros pc k ND.
  - unfold add_pairs. cbn [fold_left].
    change (get0 [] k) with 0%Z. lia.
  - inversion ND as [|? ? Hn ND']; subst.
    rewrite add_pairs_cons, IH by assumption. rewrite get0_set, get0_cons.
    destruct (Str.eqb k0 k) eqn:E.
    + apply str_eqb_eq in E. subst k0.
      assert (G : get0 pairs k = 0%Z).
      { unfold get0. apply get_None_keys in Hn. now rewrite Hn. }
      rewrite G. lia.
    + reflexivity.
Qed.

Lemma add_pairs_keys : forall fq pairs pc,
    JsMap.keys (add_pairs fq pairs pc)
    = fold_left JsSet.add (JsMap.keys pairs) (JsMap.keys pc).
Proof.
  intros fq. induction pairs as [|[k0 v0] pairs IH]; intros pc; [reflexivity|].
  rewrite add_pairs_cons, IH, keys_set_add. reflexivity.
Qed.

Lemma add_pairs_NoDup : forall fq pairs pc,
    NoDup (JsMap.keys pc) -> NoDup (JsMap.keys (add_pairs fq pairs pc)).
Proof.
  intros fq. induction pairs as [|[k0 v0] pairs IH]; intros pc ND; [assumption|].
  rewrite add_pairs_cons. apply IH. now apply NoDup_keys_set.
Qed.

Lemma countPairs_unfold : forall words, countPairs words = countPairs_from words [].
Proof. reflexivity. Qed.

Lemma getPairs_get0 : forall word k, get0 (getPairs word) k = count_key k (pair_keys word).
Proof. intros. unfold getPairs. rewrite getPairs_from_get0. reflexivity. Qed.

Lemma countPairs_from_get0 : forall words pc k,
    get0 (countPairs_from words pc) k
    = (get0 pc k
       + fold_right
           (fun wf acc => snd wf * count_key k (pair_keys (split_on " " (fst wf))) + acc)
           0 words)%Z.
Proof.
  induction words as [|[w fq] words IH]; intros pc k.
  - cbn. lia.
  - rewrite countPairs_from_cons. cbn [fold_right fst snd].
    rewrite IH, add_pairs_get0, getPairs_get0; [lia|].
    apply getPairs_from_NoDup. constructor.
Qed.

Lemma countPairs_from_keys : forall words pc,
    JsMap.keys (countPairs_from words pc)
    = fold_left JsSet.add (pair_keys_of_table words) (JsMap.keys pc).
Proof.
  induction words as [|[w fq] words IH]; intros pc; [reflexivity|].
  rewrite countPairs_from_cons.
  rewrite IH, add_pairs_keys. unfold getPairs. rewrite getPairs_from_keys.
  unfold pair_keys_of_table. cbn [flat_map fst]. rewrite fold_left_app.
  cbn [JsMap.keys map]. rewrite fold_add_fold. reflexivity.
Qed.

Lemma countPairs_NoDup : forall words, NoDup (JsMap.keys (countPairs words)).
Proof.
  intros words. rewrite countPairs_unfold.
  assert (G : forall ws pc, NoDup (JsMap.keys pc) ->
                            NoDup (JsMap.keys (countPairs_from ws pc))).
  { induction ws as [|[w fq] ws IH]; intros pc ND; [assumption|].
    rewrite countPairs_from_cons. apply IH.
    now apply add_pairs_NoDup. }
  apply G. constructor.
Qed.

(** The keys of the pair counts are the pair keys of the table, each where
    it is first met. *)
Lemma countPairs_keys : forall words,
    JsMap.keys (countPairs words) = first_occurrences (pair_keys_of_table words).
Proof. intros. rewrite countPairs_unfold, countPairs_from_keys. reflexivity. Qed.

Lemma count_key_pair_occurrences : forall a b word,
    ~ In " " a -> Forall (fun x => ~ In " " x) word ->
    count_key (pair_key a b) (pair_keys word) = pair_occurrences a b word.
Proof.
  intros a b word Na F. unfold count_key, pair_occurrences, pair_keys. f_equal.
  induction word as [|x word IH]; [reflexivity|].
  inversion F as [|? ? Nx F']; subst.
  cbn [adjacent_pairs]. destruct word as [|y word]; [reflexivity|].
  cbn [map filter fst snd].
  assert (E : Str.eqb (pair_key a b) (pair_key x y)
              = (Str.eqb x a && Str.eqb y b)%bool).
  { destruct (Str.eqb x a && Str.eqb y b)%bool eqn:T.
    - apply andb_true_iff in T as [T1 T2]. apply str_eqb_eq in T1, T2. subst.
      apply str_eqb_refl.
    - apply str_eqb_neq. intros K. apply pair_key_inj in K as [-> ->]; try assumption.
      rewrite !str_eqb_refl in T. discriminate. }
  rewrite E. destruct (Str.eqb x a && Str.eqb y b)%bool; cbn [length]; now rewrite IH.
Qed.

(** The count [countPairs] holds for a pair is its aggregated count. *)
Lemma countPairs_weighted : forall words a b,
    ~ In " " a ->
    get0 (countPairs words) (pair_key a b) = weighted_count words a b.
Proof.
  intros words a b Na. rewrite countPairs_unfold, countPairs_from_get0.
  unfold get0 at 1. cbn [JsMap.get or_default]. rewrite Z.add_0_l.
  unfold weighted_count. induction words as [|[w fq] words IH]; [reflexivity|].
  cbn [fold_right fst snd]. rewrite IH. rewrite count_key_pair_occurrences; auto.
  apply Forall_forall. intros x I. now apply (split_on_no_sep " " w).
Qed.

Lemma pair_keys_In : forall word k,
    In k (pair_keys word) ->
    exists a b, In (a, b) (adjacent_pairs word) /\ k = pair_key a b.
Proof.
  intros word k I. unfold pair_keys in I. apply in_map_iff in I as ([a b] & E & I).
  exists a, b. split; [assumption|now symmetry].
Qed.

(** Every key of the pair counts is the key of two adjacent symbols of a
    word of the table. *)
Lemma countPairs_key_origin : forall words k,
    In k (JsMap.keys (countPairs words)) ->
    exists w fq a b,
      In (w, fq) words /\ In (a, b) (adjacent_pairs (split_on " " w))
      /\ k = pair_key a b /\ ~ In " " a /\ ~ In " " b.
Proof.
  intros words k I. rewrite countPairs_keys in I.
  apply (proj1 (first_occurrences_In _ _)) in I. unfold pair_keys_of_table in I.
  apply (proj1 (in_flat_map _ _ _)) in I as ([w fq] & Iw & I). cbn [fst] in I.
  apply pair_keys_In in I as (a & b & Iab & ->).
  exists w, fq, a, b. repeat split; try assumption.
  - apply (split_on_no_sep " " w). now apply (adjacent_pairs_In _ a b).
  - apply (split_on_no_sep " " w). now apply (adjacent_pairs_In _ a b).
Qed.

(** ** Counts against the numbers of the configuration *)

(** A whole count is below a number exactly when it is below the least
    whole number that is not below that number. *)
Lemma ltb_ceiling : forall (n : Z) (x : Num.number),
    Num.ltb (Num.of_Z n) x = Z.ltb n (Num.ceiling x).
Proof.
  intros n x. unfold Num.ltb, Num.of_Z, Num.ceiling.
  destruct (Z.ltb n (Qceiling x)) eqn:L.
  - apply Z.ltb_lt in L. apply negb_true_iff.
    destruct (Qle_bool x (inject_Z n)) eqn:B; [|reflexivity].
    apply Qle_bool_iff in B. apply Qceiling_resp_le in B.
    rewrite Qceiling_Z in B. lia.
  - apply Z.ltb_ge in L. apply negb_false_iff. apply Qle_bool_iff.
    apply Qle_trans with (inject_Z (Qceiling x)); [apply Qle_ceiling|].
    rewrite <- Zle_Qle. assumption.
Qed.

(** And it reaches the number exactly when it reaches that whole number. *)
Lemma geb_ceiling : forall (n : Z) (x : Num.number),
    Num.geb (Num.of_Z n) x = Z.leb (Num.ceiling x) n.
Proof.
  intros n x. pose proof (ltb_ceiling n x) as H. unfold Num.ltb in H.
  unfold Num.geb. rewrite Z.leb_antisym, <- H. now rewrite negb_involutive.
Qed.

(** A whole number is its own ceiling. *)
Lemma ceiling_of_Z : forall z, Num.ceiling (Num.of_Z z) = z.
Proof. intros z. apply Qceiling_Z. Qed.

(** The condition of the loop, on whole numbers. *)
Lemma loop_cond_counts : forall cfg s,
    loop_cond cfg s
    = (Z.ltb (Z.of_nat (JsMap.size (l_vocabulary s))) (Num.ceiling (vocabSize cfg))
       && Z.ltb (l_mergeCount s) (maxMerges_of cfg))%bool.
Proof.
  intros cfg s. unfold loop_cond, maxMerges_of, Num.of_nat.
  change (inject_Z (Z.of_nat (JsMap.size (l_vocabulary s))))
    with (Num.of_Z (Z.of_nat (JsMap.size (l_vocabulary s)))).
  now rewrite !ltb_ceiling.
Qed.

(** ** Choosing the pair to merge *)

Lemma select_best_snoc : forall thr pcs e,
    select_best thr (pcs ++ [e])
    = (if (Z.ltb (fst (select_best thr pcs)) (snd e)
           && Z.leb (Num.ceiling thr) (snd e))%bool
       then (snd e, Some (split_pair (fst e)))
       else select_best thr pcs).
Proof.
  intros. unfold select_best. rewrite fold_left_app. cbn [fold_left].
  now rewrite geb_ceiling.
Qed.

(** The scan keeps the first entry whose count is the highest, provided
    that count reaches the threshold. *)
Lemma select_best_spec : forall thr pcs,
    match select_best thr pcs with
    | (m, Some bp) =>
        exists pre k post,
          pcs = pre ++ (k, m) :: post /\ bp = split_pair k
          /\ (Num.ceiling thr <= m)%Z /\ (0 < m)%Z
          /\ (forall e, In e pre -> (snd e < m)%Z)
          /\ (forall e, In e post -> (snd e <= m)%Z)
    | (m, None) =>
        m = 0%Z
        /\ forall e, In e pcs -> (snd e <= 0)%Z \/ (snd e < Num.ceiling thr)%Z
    end.
Proof.
  intros thr. induction pcs as [|e pcs IH] using rev_ind.
  - cbn. split; [reflexivity|]. intros e [].
  - rewrite select_best_snoc.
    destruct (select_best thr pcs) as [m [bp|]]; cbn [fst].
    + destruct IH as (pre & k & post & E & Eb & Ht & Hp & Hpre & Hpost).
      destruct (Z.ltb m (snd e) && Z.leb (Num.ceiling thr) (snd e))%bool eqn:T.
      * apply andb_true_iff in T as [T1 T2].
        apply Z.ltb_lt in T1. apply Z.leb_le in T2.
        exists pcs, (fst e), []. destruct e as [ke ce]. cbn [fst snd] in *.
        repeat split; try lia; try reflexivity.
        -- intros x I. subst pcs. apply in_app_or in I as [I|[<-|I]].
           ++ specialize (Hpre _ I). lia.
           ++ cbn. lia.
           ++ specialize (Hpost _ I). lia.
        -- intros x [].
      * exists pre, k, (post ++ [e]). subst pcs.
        repeat split; try assumption.
        -- rewrite <- app_assoc. reflexivity.
        -- intros x I. apply in_app_or in I as [I|[<-|[]]]; [auto|].
           apply andb_false_iff in T as [T|T].
           ++ apply Z.ltb_ge in T. assumption.
           ++ apply Z.leb_gt in T. lia.
    + destruct IH as (-> & Hall).
      destruct (Z.ltb 0 (snd e) && Z.leb (Num.ceiling thr) (snd e))%bool eqn:T.
      * apply andb_true_iff in T as [T1 T2].
        apply Z.ltb_lt in T1. apply Z.leb_le in T2.
        exists pcs, (fst e), []. destruct e as [ke ce]. cbn [fst snd] in *.
        repeat split; try lia; try reflexivity.
        -- intros x I. destruct (Hall _ I); lia.
        -- intros x [].
      * split; [reflexivity|]. intros x I.
        apply in_app_or in I as [I|[<-|[]]]; [auto|].
        apply andb_false_iff in T as [T|T].
        -- apply Z.ltb_ge in T. now left.
        -- apply Z.leb_gt in T. now right.
Qed.

Lemma entry_key_In : forall {K V} (m : JsMap.t K V) k v,
    In (k, v) m -> In k (JsMap.keys m).
Proof. intros K V m k v I. change k with (fst (k, v)). now apply in_map. Qed.

(** What one pass of the loop body does when it does not break. *)
Lemma train_step_some : forall cfg st st',
    train_step cfg st = Some st' ->
    exists pre a b m post w fq,
      countPairs (l_currentWords st) = pre ++ (pair_key a b, m) :: post
      /\ ~ In " " a /\ ~ In " " b
      /\ In (w, fq) (l_currentWords st)
      /\ In (a, b) (adjacent_pairs (split_on " " w))
      /\ (minFreq_of cfg <= m)%Z /\ (0 < m)%Z
      /\ (forall e, In e pre -> (snd e < m)%Z)
      /\ (forall e, In e post -> (snd e <= m)%Z)
      /\ l_merges st' = l_merges st ++ [(a, b)]
      /\ l_currentWords st' = applyMerge (l_currentWords st) (a, b)
      /\ l_mergeCount st' = (l_mergeCount st + 1)%Z
      /\ (l_vocabulary st', l_reverseVocabulary st', l_tokenId st')
         = add_if_new (l_vocabulary st, l_reverseVocabulary st, l_tokenId st) (a ++ b).
Proof.
  intros cfg st st' E. unfold train_step in E.
  destruct (Nat.eqb _ 0); [discriminate|].
  pose proof (select_best_spec (or_number (minFreq cfg) 2%Q)
                               (countPairs (l_currentWords st))) as S.
  destruct (select_best _ _) as [m [bp|]]; [|discriminate].
  destruct S as (pre & k & post & Ec & Eb & Ht & Hp & Hpre & Hpost).
  fold (minFreq_of cfg) in Ht.
  destruct (Num.ltb (Num.of_Z m) _); [discriminate|].
  assert (Ik : In k (JsMap.keys (countPairs (l_currentWords st)))).
  { rewrite Ec. apply (entry_key_In _ k m). apply in_or_app. right. now left. }
  apply countPairs_key_origin in Ik as (w & fq & a & b & Iw & Iab & -> & Na & Nb).
  rewrite split_pair_key in Eb by assumption. subst bp. cbn [fst snd] in E.
  destruct (add_if_new _ _) as [[v r] i] eqn:Ea.
  injection E as <-.
  cbn [l_merges l_currentWords l_mergeCount l_vocabulary l_reverseVocabulary l_tokenId].
  exists pre, a, b, m, post, w, fq.
  repeat split; try assumption; try reflexivity. now symmetry.
Qed.

Lemma train_step_none : forall cfg st,
    train_step cfg st = None ->
    forall e, In e (countPairs (l_currentWords st)) ->
              (snd e <= 0)%Z \/ (snd e < minFreq_of cfg)%Z.
Proof.
  intros cfg st E e I. unfold train_step in E.
  destruct (Nat.eqb _ 0) eqn:Z0.
  { apply Nat.eqb_eq in Z0. unfold JsMap.size in Z0.
    destruct (countPairs _); [contradiction|discriminate]. }
  pose proof (select_best_spec (or_number (minFreq cfg) 2%Q)
                               (countPairs (l_currentWords st))) as S.
  fold (minFreq_of cfg) in S.
  destruct (select_best _ _) as [m [bp|]].
  - destruct S as (pre & k & post & Ec & Eb & Ht & Hp & Hpre & Hpost).
    destruct (Num.ltb (Num.of_Z m) _) eqn:T.
    + rewrite ltb_ceiling in T. apply Z.ltb_lt in T. fold (minFreq_of cfg) in T. lia.
    + destruct (add_if_new _ _) as [[v r] i]. discriminate.
  - now apply (proj2 S).
Qed.

(** Induction over the passes of the loop. *)
Lemma train_loop_ind : forall cfg (P : TrainLoop -> Prop),
    (forall st st', P st -> loop_cond cfg st = true ->
                    train_step cfg st = Some st' -> P st') ->
    forall fuel st, P st -> P (train_loop fuel cfg st).
Proof.
  intros cfg P Hstep. induction fuel as [|fuel IH]; intros st H0; [assumption|].
  cbn [train_loop]. destruct (loop_cond cfg st) eqn:C; [|assumption].
  destruct (train_step cfg st) as [st'|] eqn:E; [|assumption].
  apply IH. now apply (Hstep st).
Qed.

(** ** The tables of words *)

Lemma fold_set_In : forall {V} (f : str * V -> str) (g : str * V -> V) es acc e,
    In e (fold_left (fun m x => JsMap.set m (f x) (g x)) es acc) ->
    In e acc \/ exists x, In x es /\ e = (f x, g x).
Proof.
  intros V f g. induction es as [|x es IH]; intros acc e I; cbn [fold_left] in I.
  - now left.
  - apply IH in I as [I|(y & Iy & ->)].
    + apply In_set in I as [->|I]; [|now left].
      right. exists x. split; [now left|reflexivity].
    + right. exists y. split; [now right|reflexivity].
Qed.

Lemma applyMerge_In : forall words m e,
    In e (applyMerge words m) ->
    exists w, In (w, snd e) words /\ fst e = replace_merge (fst m) (snd m) w.
Proof.
  intros words m e I. unfold applyMerge in I.
  apply (fold_set_In (fun wf => replace_merge (fst m) (snd m) (fst wf)) snd) in I
    as [[]|([w fq] & Iw & ->)].
  exists w. cbn. split; [assumption|reflexivity].
Qed.

Lemma count_words_In : forall wordList e,
    In e (count_words wordList) ->
    (exists w, In w wordList /\ fst e = processedWord w) /\ (1 <= snd e)%Z.
Proof.
  intros wordList. unfold count_words.
  induction wordList as [|w wl IH] using rev_ind; intros e I; [contradiction|].
  rewrite fold_left_app in I. cbn [fold_left] in I.
  apply In_set in I as [->|I].
  - cbn [fst snd]. split.
    + exists w. split; [apply in_or_app; right; now left|reflexivity].
    + unfold get0.
      destruct (JsMap.get _ (processedWord w)) as [c|] eqn:G; cbn [or_default]; [|lia].
      apply get_In in G. apply IH in G as [_ G]. cbn in G. lia.
  - apply IH in I as [(x & Ix & E) H1]. split; [|assumption].
    exists x. split; [apply in_or_app; now left|assumption].
Qed.

Lemma train_init_words : forall cfg text,
    l_currentWords (train_init cfg text) = count_words (wordList_of text).
Proof.
  intros. unfold train_init. destruct (seed _ _) as [[v r] i]. reflexivity.
Qed.

Lemma train_loop_positive : forall cfg text fuel,
    positive_freqs (l_currentWords (train_loop fuel cfg (train_init cfg text))).
Proof.
  intros cfg text fuel. apply train_loop_ind.
  - intros st st' P _ E e I.
    apply train_step_some in E
      as (pre & a & b & m & post & w & fq & _ & _ & _ & _ & _ & _ & _ & _ & _ & _ & Ew & _).
    rewrite Ew in I. apply applyMerge_In in I as (w' & I & _).
    apply (P (w', snd e)). assumption.
  - rewrite train_init_words. intros e I. apply count_words_In in I as [_ I]. lia.
Qed.

Lemma count_key_nonneg : forall k l, (0 <= count_key k l)%Z.
Proof. intros. unfold count_key. lia. Qed.

Lemma count_key_In : forall k l, In k l -> (1 <= count_key k l)%Z.
Proof.
  intros k l I. unfold count_key.
  assert (In k (filter (Str.eqb k) l)).
  { apply filter_In. split; [assumption|apply str_eqb_refl]. }
  destruct (filter (Str.eqb k) l); [contradiction|cbn [length]; lia].
Qed.

(** With positive frequencies every pair met has a positive count. *)
Lemma countPairs_positive : forall words e,
    positive_freqs words -> In e (countPairs words) -> (0 < snd e)%Z.
Proof.
  intros words [k c] P I. cbn [snd].
  assert (G : get0 (countPairs words) k = c).
  { unfold get0. rewrite (In_get _ k c (countPairs_NoDup words) I). reflexivity. }
  rewrite <- G. rewrite countPairs_unfold, countPairs_from_get0.
  change (get0 [] k) with 0%Z. rewrite Z.add_0_l.
  apply entry_key_In in I. rewrite countPairs_keys in I.
  apply (proj1 (first_occurrences_In _ _)) in I. unfold pair_keys_of_table in I.
  clear G. induction words as [|[w fq] words IH]; [contradiction|].
  cbn [flat_map fst] in I. cbn [fold_right fst snd].
  assert (Pw : (0 < fq)%Z) by (apply (P (w, fq)); now left).
  assert (Pt : positive_freqs words) by (intros x Ix; apply P; now right).
  assert (T : (0 <= fold_right
                 (fun wf acc => snd wf * count_key k (pair_keys (split_on " " (fst wf))) + acc)
                 0 words)%Z).
  { clear -Pt. induction words as [|[w' fq'] ws IH]; cbn [fold_right fst snd]; [lia|].
    assert (0 < fq')%Z by (apply (Pt (w', fq')); now left).
    assert (0 <= fold_right
                 (fun wf acc => snd wf * count_key k (pair_keys (split_on " " (fst wf))) + acc)
                 0 ws)%Z by (apply IH; intros x Ix; apply Pt; now right).
    pose proof (count_key_nonneg k (pair_keys (split_on " " w'))). nia. }
  apply in_app_or in I as [I|I].
  - pose proof (count_key_In _ _ I). nia.
  - specialize (IH Pt I). pose proof (count_key_nonneg k (pair_keys (split_on " " w))). nia.
Qed.

Lemma get0_entry : forall (m : JsMap.t str Z) k c,
    NoDup (JsMap.keys m) -> In (k, c) m -> get0 m k = c.
Proof. intros m k c ND I. unfold get0. now rewrite (In_get m k c ND I). Qed.

Lemma get0_absent : forall (m : JsMap.t str Z) k,
    ~ In k (JsMap.keys m) -> get0 m k = 0%Z.
Proof. intros m k N. unfold get0. apply get_None_keys in N. now rewrite N. Qed.

Lemma key_entry : forall {V} (m : JsMap.t str V) k,
    In k (JsMap.keys m) -> exists v, In (k, v) m.
Proof.
  intros V m k I. unfold JsMap.keys in I. apply in_map_iff in I as ([k' v] & E & I).
  cbn in E. subst. now exists v.
Qed.

(** C4.  In every pass of the training loop: the counts are the aggregated
    weighted counts, their order is the order in which the pairs are first
    met in the table; when the pass merges, the merged pair has a count that
    reaches the threshold, that no pair exceeds, and that no pair met earlier
    equals; when the pass breaks, no pair exists or every count is below the
    threshold. *)
Theorem train_step_takes_most_frequent : forall cfg text fuel,
    let st := train_loop fuel cfg (train_init cfg text) in
    let words := l_currentWords st in
    let counts := countPairs words in
    (forall a b, ~ In " " a ->
                 get0 counts (pair_key a b) = weighted_count words a b)
    /\ JsMap.keys counts = first_occurrences (pair_keys_of_table words)
    /\ match train_step cfg st with
       | Some st' =>
           exists pre a b post,
             l_merges st' = l_merges st ++ [(a, b)]
             /\ JsMap.keys counts = pre ++ pair_key a b :: post
             /\ ~ In " " a /\ ~ In " " b
             /\ (minFreq_of cfg <= weighted_count words a b)%Z
             /\ (forall a' b', ~ In " " a' ->
                    (weighted_count words a' b' <= weighted_count words a b)%Z)
             /\ (forall k, In k pre -> (get0 counts k < weighted_count words a b)%Z)
       | None =>
           (forall k, In k (JsMap.keys counts) -> (get0 counts k < minFreq_of cfg)%Z)
           /\ (forall more, train_loop more cfg st = st)
       end.
Proof.
  intros cfg text fuel st words counts.
  assert (ND : NoDup (JsMap.keys counts)) by apply countPairs_NoDup.
  split; [intros a b Na; now apply countPairs_weighted|].
  split; [apply countPairs_keys|].
  destruct (train_step cfg st) as [st'|] eqn:E.
  - apply train_step_some in E
      as (pre & a & b & m & post & w & fq & Ec & Na & Nb & _ & _ & Ht & Hp
          & Hpre & Hpost & Em & _).
    fold words counts in Ec.
    assert (Em' : weighted_count words a b = m).
    { rewrite <- (countPairs_weighted words a b Na). fold counts.
      apply get0_entry; [assumption|]. rewrite Ec. apply in_or_app. right. now left. }
    exists (JsMap.keys pre), a, b, (JsMap.keys post).
    rewrite Em'. repeat split; try assumption.
    + rewrite Ec. unfold JsMap.keys. rewrite map_app. reflexivity.
    + intros a' b' Na'. rewrite <- (countPairs_weighted words a' b' Na'). fold counts.
      destruct (in_dec (@keqb_dec str _ _) (pair_key a' b') (JsMap.keys counts)) as [I|N].
      * apply key_entry in I as [c I]. rewrite (get0_entry _ _ c ND I).
        rewrite Ec in I. apply in_app_or in I as [I|[I|I]].
        -- specialize (Hpre _ I). cbn in Hpre. lia.
        -- injection I as _ <-. lia.
        -- specialize (Hpost _ I). cbn in Hpost. lia.
      * rewrite (get0_absent _ _ N). lia.
    + intros k I. apply key_entry in I as [c I].
      assert (Ic : In (k, c) counts) by (rewrite Ec; apply in_or_app; now left).
      rewrite (get0_entry _ _ c ND Ic). apply (Hpre _ I).
  - split; [|intros [|more]; [reflexivity|]; cbn [train_loop]; rewrite E;
              now destruct (loop_cond cfg st)].
    intros k I. apply key_entry in I as [c I].
    rewrite (get0_entry _ _ c ND I).
    pose proof (train_step_none cfg st E _ I) as T.
    pose proof (countPairs_positive words (k, c)
                  (train_loop_positive cfg text fuel) I) as Pc.
    cbn [snd] in *. lia.
Qed.

Lemma train_step_takes_most_frequent_witness :
  let cfg := config (constructor no_options) in
  exists st',
    train_step cfg (train_init cfg (lit "aaabdaaabac")) = Some st'
    /\ l_merges st' = [(lit "a", lit "a")]
    /\ weighted_count (l_currentWords (train_init cfg (lit "aaabdaaabac")))
         (lit "a") (lit "a") = 4%Z.
Proof.
  intros cfg.
  pose proof (train_step_takes_most_frequent cfg (lit "aaabdaaabac") 0) as (Hw & _ & _).
  cbn [train_loop] in Hw.
  eexists. split; [vm_compute; reflexivity|]. split; [reflexivity|].
  rewrite <- Hw by (cbn; intros [E|[]]; discriminate).
  vm_compute. reflexivity.
Defined.

(** ** Training: sizes *)

Lemma train_ok : forall t text t',
    train t text = (t', Ok tt) ->
    blank text = false
    /\ exists st,
        st = train_loop (Z.to_nat (maxMerges_of (config t))) (config t)
                        (train_init (config t) text)
        /\ vocabulary t' = l_vocabulary st
        /\ reverseVocabulary t' = l_reverseVocabulary st
        /\ merges t' = l_merges st
        /\ config t' = config t.
Proof.
  intros t text t' E.
  assert (B : blank text = false).
  { destruct (blank text) eqn:B; [|reflexivity].
    apply (train_throws_iff t) in B. rewrite E in B. discriminate. }
  split; [assumption|]. unfold train in E.
  destruct (negb (nonempty text) || Nat.eqb (length (trim text)) 0)%bool;
    [discriminate|].
  injection E as <-. eexists. split; [reflexivity|]. cbn. repeat split.
Qed.

Lemma train_blank_or_ok : forall t text,
    blank text = false -> snd (train t text) = Ok tt.
Proof.
  intros t text B. unfold train.
  destruct (negb (nonempty text) || Nat.eqb (length (trim text)) 0)%bool eqn:G;
    [|reflexivity].
  exfalso. apply orb_true_iff in G as [G|G].
  - apply negb_true_iff, nonempty_false in G. subst. discriminate.
  - apply Nat.eqb_eq in G. assert (T : trim text = []) by (destruct (trim text); [reflexivity|discriminate]).
    apply trim_nil_blank in T. congruence.
Qed.

(** The loop leaves by its own condition or by a [break]: the passes allowed
    are enough. *)
Lemma train_loop_exit : forall cfg fuel st,
    (maxMerges_of cfg - l_mergeCount st <= Z.of_nat fuel)%Z ->
    loop_cond cfg (train_loop fuel cfg st) = false
    \/ train_step cfg (train_loop fuel cfg st) = None.
Proof.
  intros cfg. induction fuel as [|fuel IH]; intros st H.
  - left. cbn [train_loop]. rewrite loop_cond_counts.
    assert (Z.ltb (l_mergeCount st) (maxMerges_of cfg) = false) as ->
        by (apply Z.ltb_ge; lia).
    apply andb_false_r.
  - cbn [train_loop]. destruct (loop_cond cfg st) eqn:C; [|now left].
    destruct (train_step cfg st) as [st'|] eqn:E; [|now right].
    apply IH. apply train_step_some in E
      as (pre & a & b & m & post & w & fq & _ & _ & _ & _ & _ & _ & _ & _ & _ & _ & _ & Ec & _).
    rewrite Ec. lia.
Qed.

Lemma add_if_new_size : forall v r i tok v' r' i',
    add_if_new (v, r, i) tok = (v', r', i') ->
    (JsMap.size v' <= S (JsMap.size v))%nat /\ (JsMap.size v <= JsMap.size v')%nat.
Proof.
  intros v r i tok v' r' i' E. unfold add_if_new in E.
  destruct (JsMap.has v tok) eqn:H.
  - injection E as <- _ _. lia.
  - injection E as <- _ _. rewrite size_set, H. lia.
Qed.

Lemma train_loop_vocab_size : forall cfg fuel st0,
    (Z.of_nat (JsMap.size (l_vocabulary (train_loop fuel cfg st0)))
     <= Z.max (Num.ceiling (vocabSize cfg))
              (Z.of_nat (JsMap.size (l_vocabulary st0))))%Z.
Proof.
  intros cfg fuel st0. apply train_loop_ind; [|lia].
  intros st st' P C E. rewrite loop_cond_counts in C.
  apply andb_true_iff in C as [C _].
  apply Z.ltb_lt in C.
  apply train_step_some in E
    as (pre & a & b & m & post & w & fq & _ & _ & _ & _ & _ & _ & _ & _ & _ & _ & _ & _ & Ea).
  symmetry in Ea. apply add_if_new_size in Ea. lia.
Qed.

Lemma train_loop_merges_length : forall cfg fuel st0,
    Z.of_nat (length (l_merges st0)) = l_mergeCount st0 ->
    (l_mergeCount st0 <= Z.max 0 (maxMerges_of cfg))%Z ->
    let st := train_loop fuel cfg st0 in
    Z.of_nat (length (l_merges st)) = l_mergeCount st
    /\ (l_mergeCount st <= Z.max 0 (maxMerges_of cfg))%Z.
Proof.
  intros cfg fuel st0 H1 H2. cbv zeta.
  apply (train_loop_ind cfg (fun st =>
    Z.of_nat (length (l_merges st)) = l_mergeCount st
    /\ (l_mergeCount st <= Z.max 0 (maxMerges_of cfg))%Z)); [|now split].
  intros st st' [P1 P2] C E. rewrite loop_cond_counts in C.
  apply andb_true_iff in C as [_ C].
  apply Z.ltb_lt in C.
  apply train_step_some in E
    as (pre & a & b & m & post & w & fq & _ & _ & _ & _ & _ & _ & _ & _ & _ & Em & _ & Ec & _).
  rewrite Em, Ec, length_app. cbn [length]. lia.
Qed.

Lemma train_init_fields : forall cfg text,
    l_merges (train_init cfg text) = []
    /\ l_mergeCount (train_init cfg text) = 0%Z
    /\ l_vocabulary (train_init cfg text) = seed_vocabulary cfg text.
Proof.
  intros. unfold train_init, seed_vocabulary.
  destruct (seed _ _) as [[v r] i]. repeat split.
Qed.

(** [train] runs its loop to the end. *)
Lemma train_loop_complete : forall cfg text,
    let st := train_loop (Z.to_nat (maxMerges_of cfg)) cfg (train_init cfg text) in
    loop_cond cfg st = false \/ train_step cfg st = None.
Proof.
  intros cfg text. cbv zeta. apply train_loop_exit.
  destruct (train_init_fields cfg text) as (_ & -> & _). lia.
Qed.

Lemma add_always_size : forall v r i tok,
    (JsMap.size (fst (fst (add_always (v, r, i) tok))) <= S (JsMap.size v))%nat.
Proof.
  intros v r i tok. cbn [add_always fst]. rewrite size_set.
  destruct (JsMap.has v tok); lia.
Qed.

Lemma fold_size_bound :
  forall (f : JsMap.t str N * JsMap.t N str * N -> str
              -> JsMap.t str N * JsMap.t N str * N),
    (forall vri tok, (JsMap.size (fst (fst (f vri tok)))
                      <= S (JsMap.size (fst (fst vri))))%nat) ->
    forall l vri,
      (JsMap.size (fst (fst (fold_left f l vri)))
       <= JsMap.size (fst (fst vri)) + length l)%nat.
Proof.
  intros f Hf. induction l as [|x l IH]; intros vri; cbn [fold_left length]; [lia|].
  specialize (IH (f vri x)). specialize (Hf vri x). lia.
Qed.

Lemma sort_length : forall l, length (Str.sort l) = length l.
Proof.
  assert (Ins : forall x l, length (insert_sorted x l) = S (length l)).
  { intros x. induction l as [|y l IH]; [reflexivity|].
    cbn. destruct (Str.ltb x y); cbn; [reflexivity|now rewrite IH]. }
  unfold Str.sort. induction l as [|x l IH]; [reflexivity|].
  cbn [fold_right length]. now rewrite Ins, IH.
Qed.

(** The seed holds at most the special tokens, the distinct characters of
    the text and the marker. *)
Lemma seed_vocabulary_size : forall cfg text,
    (JsMap.size (seed_vocabulary cfg text)
     <= length (specialTokens cfg)
        + length (collect_chars (count_words (wordList_of text))) + 1)%nat.
Proof.
  intros cfg text. unfold seed_vocabulary, seed.
  set (s1 := fold_left add_always (specialTokens cfg) ([], [], 0%N)).
  set (cs := Str.sort (collect_chars (count_words (wordList_of text)))).
  assert (B1 : (JsMap.size (fst (fst s1)) <= length (specialTokens cfg))%nat).
  { pose proof (fold_size_bound add_always) as G.
    specialize (G (fun vri tok => match vri with (v, r, i) => add_always_size v r i tok end)).
    specialize (G (specialTokens cfg) ([], [], 0%N)). exact G. }
  assert (Hif : forall vri tok, (JsMap.size (fst (fst (add_if_new vri tok)))
                                 <= S (JsMap.size (fst (fst vri))))%nat).
  { intros [[v r] i] tok. destruct (add_if_new (v, r, i) tok) as [[v' r'] i'] eqn:E.
    apply add_if_new_size in E. cbn [fst]. lia. }
  pose proof (fold_size_bound add_if_new Hif cs s1) as B2.
  pose proof (Hif (fold_left add_if_new cs s1) marker) as B3.
  unfold cs in B2 at 2. rewrite sort_length in B2. lia.
Qed.

(** The cap of the merge loop for a configured [maxMerges] that is not 0,
    and with none configured. *)
Lemma maxMerges_of_configured : forall cfg m,
    maxMerges cfg = Some m -> Num.falsy m = false ->
    maxMerges_of cfg = Num.ceiling m.
Proof. intros cfg m E F. unfold maxMerges_of, or_number. now rewrite E, F. Qed.

Lemma maxMerges_of_default : forall cfg,
    maxMerges cfg = None -> maxMerges_of cfg = 500%Z.
Proof. intros cfg E. unfold maxMerges_of, or_number. now rewrite E. Qed.

Lemma train_merges_length : forall t text t',
    train t text = (t', Ok tt) ->
    (Z.of_nat (length (merges t')) <= Z.max 0 (maxMerges_of (config t)))%Z.
Proof.
  intros t text t' E.
  apply train_ok in E as (_ & st & Est & _ & _ & Em & _).
  destruct (train_init_fields (config t) text) as (I1 & I2 & _).
  rewrite Em, Est.
  destruct (train_loop_merges_length (config t) (Z.to_nat (maxMerges_of (config t)))
              (train_init (config t) text)) as [L1 L2].
  - now rewrite I1, I2.
  - rewrite I2. lia.
  - rewrite L1. exact L2.
Qed.

(** C3, as the code has it.  After a successful [train]: the vocabulary has
    at most [vocabSize] entries, rounded up to a whole number, or, when the
    seed (special tokens, characters of the text, end-of-word marker) is
    already larger, as many as the seed; with a [maxMerges] configured that
    is not 0 the merge list is no longer than [maxMerges] rounded up to a
    whole number (and empty when [maxMerges] is negative), and with none
    configured it is no longer than 500. *)
Theorem train_size_bounds : forall t text t',
    train t text = (t', Ok tt) ->
    (Z.of_nat (JsMap.size (vocabulary t'))
     <= Z.max (Num.ceiling (vocabSize (config t)))
              (Z.of_nat (JsMap.size (seed_vocabulary (config t) text))))%Z
    /\ (forall m, maxMerges (config t) = Some m -> Num.falsy m = false ->
                  (Z.of_nat (length (merges t')) <= Z.max 0 (Num.ceiling m))%Z)
    /\ (maxMerges (config t) = None ->
        (Z.of_nat (length (merges t')) <= 500)%Z).
Proof.
  intros t text t' E.
  pose proof (train_merges_length t text t' E) as M.
  apply train_ok in E as (_ & st & Est & Ev & _ & _ & _).
  destruct (train_init_fields (config t) text) as (_ & _ & I3).
  split; [|split].
  - rewrite Ev, Est, <- I3. apply train_loop_vocab_size.
  - intros m Hm Hz. now rewrite (maxMerges_of_configured _ m Hm Hz) in M.
  - intros Hn. rewrite (maxMerges_of_default _ Hn) in M. lia.
Qed.

(** With [vocabSize] 12 and [maxMerges] 2 on "abcd abcd": the seed has 9
    entries, the two merges allowed add [ab] and [abc]. *)
Lemma train_size_bounds_witness :
  let t := constructor {| p_vocabSize := Some 12%Q; p_specialTokens := None;
                          p_unknownToken := None; p_padToken := None;
                          p_minFreq := None; p_maxMerges := Some 2%Q |} in
  let t' := fst (train t (lit "abcd abcd")) in
  merges t' = [(lit "a", lit "b"); (lit "ab", lit "c")]
  /\ JsMap.size (vocabulary t') = 11%nat
  /\ (Z.of_nat (JsMap.size (vocabulary t')) <= Z.max 12 9)%Z
  /\ (Z.of_nat (length (merges t')) <= Z.max 0 2)%Z.
Proof.
  intros t t'.
  pose proof (train_size_bounds t (lit "abcd abcd") t' eq_refl) as (B1 & B2 & _).
  specialize (B2 2%Q eq_refl eq_refl).
  split; [vm_compute; reflexivity|]. split; [vm_compute; reflexivity|].
  split.
  - etransitivity; [exact B1|]. vm_compute. discriminate.
  - exact B2.
Defined.

(** C3 as stated fails.  With [vocabSize] 5 the seed for "abc" alone has 8
    entries.  With [vocabSize] 6.5 the seed for "aa aa" has 6 entries and
    the one pass the loop makes adds a seventh.  With [maxMerges] 2.5 the
    loop makes three passes on "abcd abcd".  With [maxMerges] -1 the merge
    list is empty, which is above -1. *)
Lemma train_exceeds_configured_sizes :
  let sized := fun v => {| p_vocabSize := Some v; p_specialTokens := None;
                           p_unknownToken := None; p_padToken := None;
                           p_minFreq := None; p_maxMerges := None |} in
  let capped := fun m => {| p_vocabSize := None; p_specialTokens := None;
                            p_unknownToken := None; p_padToken := None;
                            p_minFreq := None; p_maxMerges := Some m |} in
  let t1 := train (constructor (sized 5%Q)) (lit "abc") in
  let t2 := train (constructor (sized 6.5%Q)) (lit "aa aa") in
  let t3 := train (constructor (capped 2.5%Q)) (lit "abcd abcd") in
  let t4 := train (constructor (capped (-1)%Q)) (lit "ab ab") in
  (snd t1 = Ok tt
   /\ vocabSize (config (fst t1)) = 5%Q
   /\ JsMap.size (vocabulary (fst t1)) = 8%nat
   /\ Num.ltb (vocabSize (config (fst t1)))
              (Num.of_nat (JsMap.size (vocabulary (fst t1)))) = true)
  /\ (snd t2 = Ok tt
      /\ vocabSize (config (fst t2)) = 6.5%Q
      /\ JsMap.size (seed_vocabulary (config (fst t2)) (lit "aa aa")) = 6%nat
      /\ JsMap.size (vocabulary (fst t2)) = 7%nat
      /\ Num.ltb (vocabSize (config (fst t2)))
                 (Num.of_nat (JsMap.size (vocabulary (fst t2)))) = true)
  /\ (snd t3 = Ok tt
      /\ maxMerges (config (fst t3)) = Some 2.5%Q
      /\ length (merges (fst t3)) = 3%nat
      /\ Num.ltb 2.5%Q (Num.of_nat (length (merges (fst t3)))) = true)
  /\ (snd t4 = Ok tt
      /\ maxMerges (config (fst t4)) = Some (-1)%Q
      /\ length (merges (fst t4)) = 0%nat
      /\ Num.ltb (-1)%Q (Num.of_nat (length (merges (fst t4)))) = true).
Proof. vm_compute. repeat split. Qed.

(** The case C3 leaves out: a configured [maxMerges] of 0 is read by
    [maxMerges || 500] as no cap configured, and "b b b", whose only pair
    never merges, then records its rule 500 times. *)
Lemma train_reads_zero_cap_as_absent :
  let capless := {| p_vocabSize := None; p_specialTokens := None;
                    p_unknownToken := None; p_padToken := None;
                    p_minFreq := None; p_maxMerges := Some 0%Q |} in
  maxMerges (config (fst (train (constructor capless) (lit "b b b")))) = Some 0%Q
  /\ maxMerges_of (config (constructor capless)) = 500%Z
  /\ length (merges (fst (train (constructor capless) (lit "b b b")))) = 500%nat.
Proof. vm_compute. repeat split. Qed.

(** ** Export and import *)

Lemma to_number_of_number : forall n, to_number (of_number n) = n.
Proof.
  intros n. unfold to_number, of_number.
  rewrite string_of_list_ascii_of_string.
  rewrite NilZero.usu.
  - apply DecimalN.Unsigned.of_to.
  - destruct n; [discriminate|]. apply DecimalPos.Unsigned.to_uint_nonnil.
Qed.

Lemma of_number_inj : forall n n', of_number n = of_number n' -> n = n'.
Proof.
  intros n n' E. rewrite <- (to_number_of_number n), <- (to_number_of_number n').
  now rewrite E.
Qed.

Section Entries.
Context {K V : Type} `{KeyEqLaws K}.

Lemma fold_set_fresh : forall (es acc : list (K * V)),
    NoDup (JsMap.keys (acc ++ es)) ->
    fold_left (fun m e => JsMap.set m (fst e) (snd e)) es acc = acc ++ es.
Proof.
  induction es as [|[k v] es IH]; intros acc ND; cbn [fold_left].
  - now rewrite app_nil_r.
  - assert (S : JsMap.set acc k v = acc ++ [(k, v)]).
    { assert (N : ~ In k (JsMap.keys acc)).
      { unfold JsMap.keys in *. rewrite map_app in ND. cbn [map fst] in ND.
        apply NoDup_remove_2 in ND. intros I. apply ND. apply in_or_app. now left. }
      clear -N H0. induction acc as [|[k' v'] acc IHa]; [reflexivity|].
      cbn [JsMap.set]. cbn in N.
      assert (keqb k' k = false) as -> by (apply keqb_neq; intros ->; apply N; now left).
      cbn [app]. f_equal. apply IHa. intros I. apply N. now right. }
    cbn [fst snd]. rewrite S. rewrite IH.
    + rewrite <- app_assoc. reflexivity.
    + rewrite <- app_assoc. exact ND.
Qed.

(** [new Map(entries)] keeps entries whose keys are distinct as they are. *)
Lemma map_of_entries_NoDup : forall es : list (K * V),
    NoDup (JsMap.keys es) -> map_of_entries es = es.
Proof. intros es ND. unfold map_of_entries. now rewrite fold_set_fresh. Qed.

Lemma get_Permutation : forall (m m' : JsMap.t K V) k,
    NoDup (JsMap.keys m) -> Permutation m m' -> JsMap.get m k = JsMap.get m' k.
Proof.
  intros m m' k ND P.
  assert (ND' : NoDup (JsMap.keys m')).
  { unfold JsMap.keys in *. eapply Permutation_NoDup; [|exact ND].
    now apply Permutation_map. }
  destruct (JsMap.get m k) as [v|] eqn:G.
  - symmetry. apply In_get; [assumption|].
    eapply Permutation_in; [exact P|]. now apply get_In.
  - destruct (JsMap.get m' k) as [v'|] eqn:G'; [|reflexivity].
    apply get_In in G'. apply Permutation_sym in P.
    pose proof (Permutation_in _ P G') as I.
    rewrite (In_get _ _ _ ND I) in G. discriminate.
Qed.
End Entries.

Section ObjectFacts.
Context {V : Type}.

Lemma insert_index_perm : forall k (v : V) o,
    Permutation (JsObject.insert_index k v o) ((k, v) :: o).
Proof.
  intros k v. induction o as [|[k' v'] o IH]; cbn [JsObject.insert_index]; [reflexivity|].
  destruct (JsObject.is_array_index k' && N.ltb (to_number k') (to_number k))%bool.
  - rewrite IH. apply perm_swap.
  - reflexivity.
Qed.

Lemma define_fresh_perm : forall (o : JsObject.t V) k v,
    ~ In k (JsMap.keys o) -> Permutation (JsObject.define o k v) ((k, v) :: o).
Proof.
  intros o k v N. unfold JsObject.define.
  apply has_false_keys in N. rewrite N.
  destruct (JsObject.is_array_index k).
  - apply insert_index_perm.
  - rewrite Permutation_app_comm. reflexivity.
Qed.

Lemma fold_define_perm : forall (es : list (str * V)) o,
    NoDup (JsMap.keys (o ++ es)) ->
    Permutation (fold_left (fun o e => JsObject.define o (fst e) (snd e)) es o) (o ++ es).
Proof.
  induction es as [|[k v] es IH]; intros o ND; cbn [fold_left].
  - now rewrite app_nil_r.
  - cbn [fst snd].
    assert (N : ~ In k (JsMap.keys o)).
    { unfold JsMap.keys in *. rewrite map_app in ND. cbn [map fst] in ND.
      apply NoDup_remove_2 in ND. intros I. apply ND. apply in_or_app. now left. }
    pose proof (define_fresh_perm o k v N) as P.
    rewrite IH.
    + rewrite P. rewrite (Permutation_middle o es (k, v)). reflexivity.
    + unfold JsMap.keys in *. eapply Permutation_NoDup; [|exact ND].
      apply Permutation_map. rewrite P.
      rewrite (Permutation_middle o es (k, v)). reflexivity.
Qed.

(** An object made from entries with distinct keys holds exactly those
    entries, in its own order. *)
Lemma fromEntries_perm : forall es : list (str * V),
    NoDup (JsMap.keys es) -> Permutation (JsObject.fromEntries es) es.
Proof. intros es ND. unfold JsObject.fromEntries. now apply (fold_define_perm es []). Qed.
End ObjectFacts.

Lemma spread_config_same : forall c, spread_config c c = c.
Proof.
  intros [vs sp un pd mf mm]. unfold spread_config. cbn.
  destruct mf, mm; reflexivity.
Qed.

Lemma keys_Permutation_NoDup : forall {K V} (m m' : JsMap.t K V),
    Permutation m m' -> NoDup (JsMap.keys m') -> NoDup (JsMap.keys m).
Proof.
  intros K V m m' P ND. unfold JsMap.keys in *.
  eapply Permutation_NoDup; [|exact ND]. apply Permutation_map. now symmetry.
Qed.

(** Export then import on maps whose keys are distinct, as the keys of a
    [Map] are. *)
Lemma export_import_maps : forall t,
    NoDup (JsMap.keys (vocabulary t)) ->
    NoDup (JsMap.keys (reverseVocabulary t)) ->
    let t' := importVocabulary t (exportVocabulary t) in
    Permutation (vocabulary t') (vocabulary t)
    /\ Permutation (reverseVocabulary t') (reverseVocabulary t)
    /\ merges t' = merges t
    /\ config t' = config t.
Proof.
  intros t NDv NDr t'. unfold t', importVocabulary, exportVocabulary.
  cbn [vocabulary reverseVocabulary merges config x_vocabulary x_reverseVocabulary
       x_merges x_config JsObject.entries].
  split; [|split; [|split]].
  - pose proof (fromEntries_perm (vocabulary t) NDv) as P.
    rewrite map_of_entries_NoDup; [exact P|].
    now apply (keys_Permutation_NoDup _ _ P).
  - set (es := map (fun e => (of_number (fst e), snd e)) (reverseVocabulary t)).
    assert (NDe : NoDup (JsMap.keys es)).
    { unfold es, JsMap.keys. rewrite map_map. cbn [fst].
      rewrite <- (map_map fst of_number).
      apply Finite.Injective_map_NoDup; [|exact NDr].
      intros x y. apply of_number_inj. }
    pose proof (fromEntries_perm es NDe) as P.
    assert (Back : map (fun e : str * str => (to_number (fst e), snd e)) es
                   = reverseVocabulary t).
    { unfold es. rewrite map_map. cbn [fst snd].
      rewrite <- (map_id (reverseVocabulary t)) at 2.
      apply map_ext. intros [n x]. cbn. now rewrite to_number_of_number. }
    assert (P' : Permutation
                   (map (fun e : str * str => (to_number (fst e), snd e))
                        (JsObject.fromEntries es))
                   (reverseVocabulary t)).
    { rewrite <- Back. now apply Permutation_map. }
    rewrite map_of_entries_NoDup; [exact P'|].
    now apply (keys_Permutation_NoDup _ _ P').
  - reflexivity.
  - apply spread_config_same.
Qed.

(** ** Training: the two maps *)

Lemma maps_wf_add : forall v r i tok,
    maps_wf (v, r, i) ->
    maps_wf (JsMap.set v tok i, JsMap.set r i tok, (i + 1)%N).
Proof.
  intros v r i tok (NDv & NDr & Hlt & Hinv).
  assert (Fresh : ~ In i (JsMap.keys r)).
  { intros I. specialize (Hlt _ I). lia. }
  repeat split.
  - now apply NoDup_keys_set.
  - now apply NoDup_keys_set.
  - intros id I. rewrite keys_set in I.
    apply has_false_keys in Fresh. rewrite Fresh in I.
    apply in_app_or in I as [I|[<-|[]]]; [specialize (Hlt _ I)|]; lia.
  - intros tok' id G. rewrite get_set in G. rewrite get_set.
    destruct (keqb tok tok') eqn:E.
    + injection G as <-. rewrite keqb_refl. apply keqb_eq in E. now subst.
    + destruct (keqb i id) eqn:Ei.
      * apply keqb_eq in Ei. subst id. apply Hinv in G.
        exfalso. apply Fresh. apply get_In in G. now apply (entry_key_In _ i tok').
      * now apply Hinv.
Qed.

Lemma maps_wf_add_always : forall vri tok, maps_wf vri -> maps_wf (add_always vri tok).
Proof. intros [[v r] i] tok W. now apply maps_wf_add. Qed.

Lemma maps_wf_add_if_new : forall vri tok, maps_wf vri -> maps_wf (add_if_new vri tok).
Proof.
  intros [[v r] i] tok W. unfold add_if_new.
  destruct (JsMap.has v tok); [assumption|now apply maps_wf_add].
Qed.

Lemma fold_preserves : forall {A B} (P : A -> Prop) (f : A -> B -> A) l a,
    (forall a b, P a -> P (f a b)) -> P a -> P (fold_left f l a).
Proof.
  intros A B P f. induction l as [|b l IH]; intros a Hf Ha; [assumption|].
  cbn [fold_left]. apply IH; auto.
Qed.

Lemma maps_wf_seed : forall cfg words, maps_wf (seed cfg words).
Proof.
  intros cfg words. unfold seed. apply maps_wf_add_if_new.
  apply fold_preserves; [apply maps_wf_add_if_new|].
  apply fold_preserves; [apply maps_wf_add_always|].
  repeat split; try constructor; try contradiction; discriminate.
Qed.

Lemma train_loop_maps_wf : forall cfg text fuel,
    let st := train_loop fuel cfg (train_init cfg text) in
    maps_wf (l_vocabulary st, l_reverseVocabulary st, l_tokenId st).
Proof.
  intros cfg text fuel. cbv zeta.
  apply (train_loop_ind cfg (fun st =>
    maps_wf (l_vocabulary st, l_reverseVocabulary st, l_tokenId st))).
  - intros st st' W _ E.
    apply train_step_some in E
      as (pre & a & b & m & post & w & fq & _ & _ & _ & _ & _ & _ & _ & _ & _ & _ & _ & _ & Ea).
    rewrite Ea. now apply maps_wf_add_if_new.
  - pose proof (maps_wf_seed cfg (count_words (wordList_of text))) as W.
    unfold train_init. destruct (seed _ _) as [[v r] i]. exact W.
Qed.

Lemma train_maps_wf : forall t text t',
    train t text = (t', Ok tt) ->
    NoDup (JsMap.keys (vocabulary t')) /\ NoDup (JsMap.keys (reverseVocabulary t'))
    /\ (forall tok id, JsMap.get (vocabulary t') tok = Some id ->
                       JsMap.get (reverseVocabulary t') id = Some tok).
Proof.
  intros t text t' E. apply train_ok in E as (_ & st & Est & Ev & Er & _ & _).
  pose proof (train_loop_maps_wf (config t) text (Z.to_nat (maxMerges_of (config t)))) as W.
  cbv zeta in W. rewrite <- Est in W. rewrite Ev, Er.
  destruct W as (W1 & W2 & _ & W4). repeat split; assumption.
Qed.

(** [importVocabulary] takes nothing from the receiving tokenizer but the
    configuration fields the data leave out. *)
Lemma importVocabulary_receiver : forall r r' data,
    vocabulary (importVocabulary r data) = vocabulary (importVocabulary r' data)
    /\ reverseVocabulary (importVocabulary r data)
       = reverseVocabulary (importVocabulary r' data)
    /\ merges (importVocabulary r data) = x_merges data
    /\ trainingStats (importVocabulary r data) = x_stats data
    /\ config (importVocabulary r data) = spread_config (config r) (x_config data).
Proof. intros r r' data. repeat split. Qed.

(** A configuration whose optional fields are set overrides every field. *)
Lemma spread_config_complete : forall a b,
    minFreq b <> None -> maxMerges b <> None -> spread_config a b = b.
Proof.
  intros a [vs sp un pd mf mm] Hf Hm. unfold spread_config. cbn in *.
  destruct mf; [|contradiction]. destruct mm; [|contradiction]. reflexivity.
Qed.

(** The constructor sets them. *)
Lemma constructor_config_complete : forall c,
    minFreq (config (constructor c)) <> None
    /\ maxMerges (config (constructor c)) <> None.
Proof. intros c. split; discriminate. Qed.

(** C9.  For a trained tokenizer [t], importing what it exports, into [t]
    itself or into any other tokenizer [r], gives the vocabulary of [t] (the
    same tokens with the same ids, nothing renumbered), the inverse
    vocabulary of [t], its merge list and its training statistics.  The
    configuration is that of [t] laid over that of [r]: it is the
    configuration of [t] as soon as [minFreq] and [maxMerges] are set in it,
    which they are in every tokenizer the constructor has made, and when [r]
    has the configuration of [t], as [t] itself has. *)
Theorem export_import_roundtrip : forall t0 text t r,
    train t0 text = (t, Ok tt) ->
    let t' := importVocabulary r (exportVocabulary t) in
    (forall tok, JsMap.get (vocabulary t') tok = JsMap.get (vocabulary t) tok)
    /\ Permutation (vocabulary t') (vocabulary t)
    /\ (forall id, JsMap.get (reverseVocabulary t') id = JsMap.get (reverseVocabulary t) id)
    /\ Permutation (reverseVocabulary t') (reverseVocabulary t)
    /\ merges t' = merges t
    /\ trainingStats t' = trainingStats t
    /\ config t' = spread_config (config r) (config t)
    /\ (minFreq (config t) <> None -> maxMerges (config t) <> None ->
        config t' = config t)
    /\ (forall c, config t0 = config (constructor c) -> config t' = config t)
    /\ (config r = config t -> config t' = config t).
Proof.
  intros t0 text t r E t'.
  destruct (train_maps_wf _ _ _ E) as (NDv & NDr & _).
  destruct (export_import_maps t NDv NDr) as (Pv & Pr & _ & _).
  destruct (importVocabulary_receiver r t (exportVocabulary t))
    as (Rv & Rr & Rm & Rs & Rc).
  fold t' in Rv, Rr, Rm, Rs, Rc. cbv zeta in Pv, Pr.
  rewrite <- Rv in Pv. rewrite <- Rr in Pr.
  cbn [exportVocabulary x_merges x_stats x_config] in Rm, Rs, Rc.
  split; [|split; [|split; [|split; [|split; [|split; [|split; [|split; [|split]]]]]]]];
    try assumption.
  - intros tok. symmetry. apply get_Permutation; [assumption|now symmetry].
  - intros id. symmetry. apply get_Permutation; [assumption|now symmetry].
  - intros Hf Hm. rewrite Rc. now apply spread_config_complete.
  - intros c Hc. rewrite Rc.
    apply train_ok in E as (_ & st & _ & _ & _ & _ & Ec).
    destruct (constructor_config_complete c) as [Hf Hm].
    apply spread_config_complete; rewrite Ec, Hc; assumption.
  - intros Hr. rewrite Rc, Hr. apply spread_config_same.
Qed.

(** The tokenizer trained on "b 1 1" with the default options exports into a
    tokenizer made with other options and trained on another text. *)
Lemma export_import_roundtrip_witness :
  let t := fst (train (constructor no_options) (lit "b 1 1")) in
  let r := fst (train (constructor {| p_vocabSize := Some 500%Q;
                                      p_specialTokens := Some [lit "<s>"];
                                      p_unknownToken := None; p_padToken := None;
                                      p_minFreq := Some 3%Q;
                                      p_maxMerges := Some 7%Q |})
                      (lit "zz zz zz")) in
  let t' := importVocabulary r (exportVocabulary t) in
  JsMap.get (vocabulary r) (lit "1") = None
  /\ JsMap.get (vocabulary t') (lit "1") = Some 4%N
  /\ JsMap.get (reverseVocabulary t') 4%N = Some (lit "1")
  /\ merges r <> merges t
  /\ merges t' = merges t
  /\ config r <> config t
  /\ config t' = config t
  /\ trainingStats t' = trainingStats t.
Proof.
  intros t r t'.
  destruct (export_import_roundtrip (constructor no_options) (lit "b 1 1") t r eq_refl)
    as (Hv & _ & Hr & _ & Hm & Hs & _ & _ & Hc & _).
  fold t' in Hv, Hr, Hm, Hs, Hc.
  split; [vm_compute; reflexivity|].
  split; [rewrite Hv; vm_compute; reflexivity|].
  split; [rewrite Hr; vm_compute; reflexivity|].
  split; [vm_compute; discriminate|].
  split; [exact Hm|].
  split; [vm_compute; discriminate|].
  split; [exact (Hc no_options eq_refl)|exact Hs].
Defined.

(** ** Code units that survive the rewriting *)

Section Preserved.
Variable P : ascii -> Prop.

Lemma expand_Forall : forall matched before after,
    Forall P matched -> Forall P before -> Forall P after ->
    forall n tpl, (length tpl <= n)%nat -> Forall P tpl ->
                  Forall P (expand_replacement matched before after tpl).
Proof.
  intros matched before after Fm Fb Fa. induction n as [|n IH]; intros tpl L F.
  - destruct tpl; [constructor|cbn in L; lia].
  - destruct tpl as [|c r]; [constructor|].
    inversion F as [|? ? Pc Fr]; subst. cbn [length] in L.
    cbn [expand_replacement].
    destruct (Ascii.eqb c "$").
    + destruct r as [|d r']; [now constructor|].
      inversion Fr as [|? ? Pd Fr']; subst. cbn [length] in L.
      assert (R' : Forall P (expand_replacement matched before after r'))
        by (apply IH; [lia|assumption]).
      assert (R : Forall P (expand_replacement matched before after (d :: r')))
        by (apply IH; [cbn [length]; lia|assumption]).
      destruct (Ascii.eqb d "$") eqn:E;
        [constructor; [apply Ascii.eqb_eq in E; now subst|assumption]|].
      destruct (Ascii.eqb d "&"); [now apply Forall_app|].
      destruct (Ascii.eqb d "`"); [now apply Forall_app|].
      destruct (Ascii.eqb d "'"); [now apply Forall_app|].
      now constructor.
    + constructor; [assumption|]. apply IH; [lia|assumption].
Qed.

Lemma Forall_firstn_skipn : forall n (l : str),
    Forall P l -> Forall P (firstn n l) /\ Forall P (skipn n l).
Proof.
  intros n l F. rewrite <- (firstn_skipn n l) in F. now apply Forall_app in F.
Qed.

Lemma replace_go_Forall : forall atoms tpl,
    Forall P tpl ->
    forall rest before_rev skip,
      Forall P rest -> Forall P before_rev ->
      Forall P (replace_go atoms tpl before_rev skip rest).
Proof.
  intros atoms tpl Ft. induction rest as [|c rest IH]; intros br skip Fr Fb.
  - cbn [replace_go]. destruct skip; [|constructor].
    destruct (match_atoms _ _ _); [|constructor].
    apply (expand_Forall _ _ _ (Forall_nil _) (Forall_rev Fb) (Forall_nil _)
             (length tpl)); auto.
  - inversion Fr as [|? ? Pc Fr']; subst. cbn [replace_go].
    assert (Fb' : Forall P (c :: br)) by now constructor.
    destruct skip as [|k]; [|now apply IH].
    destruct (match_atoms _ _ _) as [[|n]|].
    + apply Forall_app. split.
      * apply (expand_Forall _ _ _ (Forall_nil _) (Forall_rev Fb) Fr (length tpl)); auto.
      * constructor; [assumption|now apply IH].
    + apply Forall_app. split.
      * destruct (Forall_firstn_skipn (S n) _ Fr) as [F1 F2].
        apply (expand_Forall _ _ _ F1 (Forall_rev Fb) F2 (length tpl)); auto.
      * now apply IH.
    + constructor; [assumption|now apply IH].
Qed.

Lemma replace_merge_Forall : forall f s w,
    Forall P f -> Forall P s -> Forall P w -> Forall P (replace_merge f s w).
Proof.
  intros f s w Ff Fs Fw. unfold replace_merge.
  destruct (parse_pattern _); [|assumption].
  unfold replace_all. apply replace_go_Forall; auto.
  now apply Forall_app.
Qed.

Lemma split_on_Forall : forall sep w x,
    Forall P w -> In x (split_on sep w) -> Forall P x.
Proof.
  intros sep. induction w as [|c w IH]; intros x F I; cbn in I.
  - destruct I as [<-|[]]. constructor.
  - inversion F as [|? ? Pc F']; subst.
    destruct (Ascii.eqb c sep).
    + destruct I as [<-|I]; [constructor|now apply IH].
    + destruct (split_on sep w) as [|p ps] eqn:S.
      * destruct I as [<-|[]]. now repeat constructor.
      * destruct I as [<-|I].
        -- constructor; [assumption|]. apply IH; [assumption|now left].
        -- apply IH; [assumption|now right].
Qed.

Lemma split_ws_Forall : forall w inrun x,
    Forall P w -> In x (split_ws inrun w) -> Forall P x.
Proof.
  induction w as [|c w IH]; intros inrun x F I; cbn in I.
  - destruct I as [<-|[]]. constructor.
  - inversion F as [|? ? Pc F']; subst.
    destruct (is_ws c).
    + destruct inrun.
      * now apply (IH true).
      * destruct I as [<-|I]; [constructor|now apply (IH true)].
    + destruct (split_ws false w) as [|p ps] eqn:S.
      * destruct I as [<-|[]]. now repeat constructor.
      * destruct I as [<-|I].
        -- constructor; [assumption|]. apply (IH false); [assumption|].
           rewrite S. now left.
        -- apply (IH false); [assumption|]. rewrite S. now right.
Qed.

Lemma dropWhile_Forall : forall q w, Forall P w -> Forall P (dropWhile q w).
Proof.
  intros q. induction w as [|c w IH]; intros F; [constructor|].
  inversion F; subst. cbn. destruct (q c); auto.
Qed.

Lemma trim_Forall : forall w, Forall P w -> Forall P (trim w).
Proof.
  intros w F. unfold trim. apply Forall_rev. apply dropWhile_Forall.
  apply Forall_rev. now apply dropWhile_Forall.
Qed.

Lemma collapse_ws_Forall : forall w inrun,
    P " " -> Forall P w -> Forall P (collapse_ws inrun w).
Proof.
  induction w as [|c w IH]; intros inrun Ps F; [constructor|].
  inversion F; subst. cbn. destruct (is_ws c).
  - destruct inrun; [auto|constructor; auto].
  - constructor; auto.
Qed.

Lemma join_Forall : forall sep parts,
    Forall P sep -> Forall (Forall P) parts -> Forall P (join sep parts).
Proof.
  intros sep. induction parts as [|x parts IH]; intros Fs F; [constructor|].
  inversion F as [|? ? Fx F']; subst.
  destruct parts as [|y parts]; [assumption|].
  change (join sep (x :: y :: parts)) with (x ++ sep ++ join sep (y :: parts)).
  apply Forall_app. split; [assumption|]. apply Forall_app. split; auto.
Qed.
End Preserved.

Lemma split_ws_no_ws : forall w inrun x,
    In x (split_ws inrun w) -> Forall (fun c => is_ws c = false) x.
Proof.
  induction w as [|c w IH]; intros inrun x I; cbn in I.
  - destruct I as [<-|[]]. constructor.
  - destruct (is_ws c) eqn:W.
    + destruct inrun.
      * now apply (IH true).
      * destruct I as [<-|I]; [constructor|now apply (IH true)].
    + destruct (split_ws false w) as [|p ps] eqn:S.
      * destruct I as [<-|[]]. now repeat constructor.
      * destruct I as [<-|I].
        -- constructor; [assumption|]. apply (IH false). rewrite S. now left.
        -- apply (IH false). rewrite S. now right.
Qed.

(** ** What the tokens are made of *)

Lemma clean_char_spec : forall c,
    clean_char c = true <-> is_ws c = false /\ toLowerChar c = c.
Proof.
  intros c. unfold clean_char. rewrite andb_true_iff, negb_true_iff, Ascii.eqb_eq.
  tauto.
Qed.

Lemma wordList_clean : forall text w,
    In w (wordList_of text) -> w <> [] /\ forallb clean_char w = true.
Proof.
  intros text w I. unfold wordList_of in I. apply filter_In in I as [I Ne].
  split; [now apply nonempty_true|].
  apply forallb_forall. intros c Ic. apply clean_char_spec. split.
  - pose proof (split_ws_no_ws _ _ _ I) as F. rewrite Forall_forall in F. now apply F.
  - assert (F : Forall (fun c => toLowerChar c = c)
                  (trim (collapse_ws false (toLowerCase text)))).
    { apply trim_Forall. apply collapse_ws_Forall; [reflexivity|].
      unfold toLowerCase. apply Forall_forall. intros x Ix.
      apply in_map_iff in Ix as (y & <- & _). apply toLowerChar_idem. }
    pose proof (split_ws_Forall _ _ _ _ F I) as Fw.
    rewrite Forall_forall in Fw. now apply Fw.
Qed.

Lemma processedWord_chars : forall w,
    forallb clean_char w = true -> Forall char_ok (processedWord w).
Proof.
  intros w C. unfold processedWord. apply Forall_app. split.
  - apply join_Forall; [constructor; [now right|constructor]|].
    unfold split_chars. apply Forall_forall. intros x Ix.
    apply in_map_iff in Ix as (c & <- & Ic). constructor; [|constructor]. left.
    rewrite forallb_forall in C. now apply C.
  - repeat (constructor; [unfold char_ok; (now right) || (now left)|]). constructor.
Qed.

Lemma symbol_clean : forall w x,
    Forall char_ok w -> In x (split_on " " w) -> forallb clean_char x = true.
Proof.
  intros w x F I. pose proof (split_on_Forall char_ok " " w x F I) as Fx.
  pose proof (split_on_no_sep " " w x I) as N.
  apply forallb_forall. intros c Ic. rewrite Forall_forall in Fx.
  destruct (Fx c Ic) as [C| ->]; [assumption|contradiction].
Qed.

Lemma clean_chars_ok : forall x, forallb clean_char x = true -> Forall char_ok x.
Proof.
  intros x C. apply Forall_forall. intros c Ic. left.
  rewrite forallb_forall in C. now apply C.
Qed.

Lemma includes_In : forall l x, includes l x = true <-> In x l.
Proof.
  intros l x. unfold includes. rewrite existsb_exists. split.
  - intros (y & I & E). apply str_eqb_eq in E. now subst.
  - intros I. exists x. split; [assumption|apply str_eqb_refl].
Qed.

Lemma tokens_clean_set : forall cfg r i tok,
    tokens_clean cfg r ->
    includes (specialTokens cfg) tok = true \/ forallb clean_char tok = true ->
    tokens_clean cfg (JsMap.set r i tok).
Proof.
  intros cfg r i tok T Htok id tok' G. rewrite get_set in G.
  destruct (keqb i id); [injection G as <-; assumption|now apply (T id)].
Qed.

Lemma add_if_new_clean : forall cfg v r i tok,
    tokens_clean cfg r ->
    includes (specialTokens cfg) tok = true \/ forallb clean_char tok = true ->
    tokens_clean cfg (snd (fst (add_if_new (v, r, i) tok))).
Proof.
  intros cfg v r i tok T Htok. unfold add_if_new.
  destruct (JsMap.has v tok); cbn [fst snd]; [assumption|now apply tokens_clean_set].
Qed.

Lemma count_words_chars : forall text e,
    In e (count_words (wordList_of text)) -> Forall char_ok (fst e).
Proof.
  intros text e I. apply count_words_In in I as [(w & Iw & ->) _].
  apply processedWord_chars. now apply wordList_clean in Iw.
Qed.

Lemma collect_chars_In : forall words ch,
    In ch (collect_chars words) ->
    exists w, In w (JsMap.keys words) /\ In ch (split_on " " w).
Proof.
  intros words ch. unfold collect_chars.
  assert (G : forall ks acc,
             In ch (fold_left
                      (fun allChars word =>
                         fold_left
                           (fun ac c =>
                              if (negb (Str.eqb c marker) && nonempty c)%bool
                              then JsSet.add ac c else ac)
                           (split_on " " word) allChars) ks acc) ->
             In ch acc \/ exists w, In w ks /\ In ch (split_on " " w)).
  { induction ks as [|k ks IH]; intros acc I; cbn [fold_left] in I; [now left|].
    apply IH in I as [I|(w & Iw & Ic)]; [|right; exists w; split; [now right|assumption]].
    assert (G2 : forall cs acc0,
               In ch (fold_left
                        (fun ac c =>
                           if (negb (Str.eqb c marker) && nonempty c)%bool
                           then JsSet.add ac c else ac) cs acc0) ->
               In ch acc0 \/ In ch cs).
    { induction cs as [|c cs IHc]; intros acc0 I0; cbn [fold_left] in I0; [now left|].
      apply IHc in I0 as [I0|I0]; [|right; now right].
      destruct (negb (Str.eqb c marker) && nonempty c)%bool; [|now left].
      apply add_In in I0 as [I0| ->]; [now left|right; now left]. }
    apply G2 in I as [I|I]; [now left|].
    right. exists k. split; [now left|assumption]. }
  intros I. apply G in I as [[]|I]. exact I.
Qed.

Lemma sort_In : forall l x, In x (Str.sort l) <-> In x l.
Proof.
  assert (Ins : forall y l x, In x (insert_sorted y l) <-> x = y \/ In x l).
  { intros y. induction l as [|z l IH]; intros x; cbn.
    - intuition.
    - destruct (Str.ltb y z); cbn; [intuition|]. rewrite IH. intuition. }
  induction l as [|y l IH]; intros x; cbn; [tauto|].
  rewrite Ins, IH. intuition.
Qed.

Lemma marker_clean : forallb clean_char marker = true.
Proof. reflexivity. Qed.

Lemma seed_clean : forall cfg text,
    tokens_clean cfg (snd (fst (seed cfg (count_words (wordList_of text))))).
Proof.
  intros cfg text. unfold seed.
  set (words := count_words (wordList_of text)).
  assert (S1 : tokens_clean cfg
                 (snd (fst (fold_left add_always (specialTokens cfg) ([], [], 0%N))))).
  { assert (G : forall l vri,
               (forall x, In x l -> In x (specialTokens cfg)) ->
               tokens_clean cfg (snd (fst vri)) ->
               tokens_clean cfg (snd (fst (fold_left add_always l vri)))).
    { induction l as [|x l IH]; intros [[v r] i] Sub T; [assumption|].
      cbn [fold_left]. apply IH; [intros y Iy; apply Sub; now right|].
      cbn [add_always fst snd]. apply tokens_clean_set; [assumption|].
      left. apply includes_In. apply Sub. now left. }
    apply G; [auto|]. intros id tok G0. discriminate. }
  assert (S2 : tokens_clean cfg
                 (snd (fst (fold_left add_if_new (Str.sort (collect_chars words))
                              (fold_left add_always (specialTokens cfg) ([], [], 0%N)))))).
  { assert (G : forall l vri,
               (forall x, In x l -> forallb clean_char x = true) ->
               tokens_clean cfg (snd (fst vri)) ->
               tokens_clean cfg (snd (fst (fold_left add_if_new l vri)))).
    { induction l as [|x l IH]; intros [[v r] i] Cl T; [assumption|].
      cbn [fold_left]. apply IH; [intros y Iy; apply Cl; now right|].
      destruct (add_if_new (v, r, i) x) as [[v' r'] i'] eqn:E.
      pose proof (add_if_new_clean cfg v r i x T) as A. rewrite E in A.
      apply A. right. apply Cl. now left. }
    apply G; [|assumption].
    intros x Ix. apply (proj1 (sort_In _ _)) in Ix.
    apply collect_chars_In in Ix as (w & Iw & Ix).
    apply key_entry in Iw as [fq Iw].
    apply (symbol_clean w); [|assumption].
    apply (count_words_chars text (w, fq)). exact Iw. }
  destruct (fold_left add_if_new _ _) as [[v r] i].
  apply add_if_new_clean; [assumption|]. right. apply marker_clean.
Qed.

Lemma train_loop_clean : forall cfg text fuel,
    let st := train_loop fuel cfg (train_init cfg text) in
    tokens_clean cfg (l_reverseVocabulary st)
    /\ (forall e, In e (l_currentWords st) -> Forall char_ok (fst e)).
Proof.
  intros cfg text fuel. cbv zeta.
  apply (train_loop_ind cfg (fun st =>
    tokens_clean cfg (l_reverseVocabulary st)
    /\ (forall e, In e (l_currentWords st) -> Forall char_ok (fst e)))).
  - intros st st' [T W] _ E.
    apply train_step_some in E
      as (pre & a & b & m & post & w & fq & _ & _ & _ & Iw & Iab & _ & _ & _ & _ & _
          & Ew & _ & Ea).
    apply adjacent_pairs_In in Iab as [Ia Ib].
    pose proof (symbol_clean w a (W _ Iw) Ia) as Ca.
    pose proof (symbol_clean w b (W _ Iw) Ib) as Cb.
    split.
    + pose proof (add_if_new_clean cfg (l_vocabulary st) (l_reverseVocabulary st)
                    (l_tokenId st) (a ++ b) T) as A.
      rewrite <- Ea in A. apply A. right. rewrite forallb_app, Ca, Cb. reflexivity.
    + intros e I. rewrite Ew in I. apply applyMerge_In in I as (w' & I & ->).
      apply replace_merge_Forall; try (now apply clean_chars_ok).
      apply (W _ I).
  - split.
    + pose proof (seed_clean cfg text) as S. unfold train_init.
      destruct (seed _ _) as [[v r] i]. exact S.
    + rewrite train_init_words. apply count_words_chars.
Qed.

Lemma train_tokens_clean : forall t text t',
    train t text = (t', Ok tt) -> tokens_clean (config t') (reverseVocabulary t').
Proof.
  intros t text t' E. apply train_ok in E as (_ & st & Est & _ & Er & _ & Ec).
  rewrite Er, Ec, Est. apply train_loop_clean.
Qed.

(** ** What decoding can produce *)

Section DecodedText.
Variable t : BPETokenizer.
Hypothesis Hclean : tokens_clean (config t) (reverseVocabulary t).

Lemma step_clean : forall words cur id,
    Forall word_ok words -> forallb clean_char cur = true ->
    Forall word_ok (fst (detokenize_step t (words, cur) id))
    /\ forallb clean_char (snd (detokenize_step t (words, cur) id)) = true.
Proof.
  intros words cur id Fw Fc. unfold detokenize_step.
  destruct (JsMap.get _ id) as [tok|] eqn:G; [|now split].
  destruct (negb (nonempty tok)); [now split|].
  destruct (Str.eqb tok marker).
  - destruct (nonempty cur) eqn:Ne; [|now split]. cbn [fst snd]. split; [|reflexivity].
    apply Forall_app. split; [assumption|]. constructor; [|constructor].
    split; [now apply nonempty_true|assumption].
  - destruct (includes (specialTokens (config t)) tok) eqn:S; cbn [negb fst snd];
      [now split|].
    split; [assumption|]. rewrite forallb_app, Fc.
    destruct (Hclean id tok G) as [C|C]; [congruence|assumption].
Qed.

Lemma run_clean : forall ids words cur,
    Forall word_ok words -> forallb clean_char cur = true ->
    Forall word_ok (fst (fold_left (detokenize_step t) ids (words, cur)))
    /\ forallb clean_char (snd (fold_left (detokenize_step t) ids (words, cur))) = true.
Proof.
  induction ids as [|id ids IH]; intros words cur Fw Fc; [now split|].
  cbn [fold_left]. destruct (step_clean words cur id Fw Fc) as [F1 F2].
  destruct (detokenize_step t (words, cur) id) as [w c]. now apply IH.
Qed.

(** Whatever the ids, the decoded text is clean words one space apart. *)
Lemma detokenize_words : forall ids,
    exists ws, Forall word_ok ws /\ detokenize t ids = join [" "] ws.
Proof.
  intros ids. rewrite detokenize_run.
  destruct (run_clean ids [] [] (Forall_nil _) eq_refl) as [F1 F2].
  destruct (fold_left _ ids _) as [w c]. cbn [fst snd] in *.
  exists (flushed (w, c)). split; [|reflexivity].
  unfold flushed. cbn [fst snd]. destruct (nonempty c) eqn:Ne; [|assumption].
  apply Forall_app. split; [assumption|]. constructor; [|constructor].
  split; [now apply nonempty_true|assumption].
Qed.
End DecodedText.

Lemma word_ok_chars : forall w c, word_ok w -> In c w -> clean_char c = true.
Proof. intros w c [_ F] I. rewrite forallb_forall in F. now apply F. Qed.

Lemma clean_not_ws : forall c, clean_char c = true -> is_ws c = false.
Proof. intros c C. now apply clean_char_spec in C. Qed.

Lemma word_ok_hd : forall w r, word_ok w ->
    exists c, hd_error (w ++ r) = Some c /\ is_ws c = false.
Proof.
  intros [|c w] r W; [destruct W; congruence|].
  exists c. split; [reflexivity|]. apply clean_not_ws. apply (word_ok_chars _ c W). now left.
Qed.

Lemma joined_hd : forall ws, Forall word_ok ws -> is_ws_opt (hd_error (join [" "] ws)) = false.
Proof.
  intros [|w ws] F; [reflexivity|]. inversion F as [|? ? W F']; subst.
  destruct ws as [|w' ws].
  - cbn [join]. rewrite <- (app_nil_r w).
    destruct (word_ok_hd w [] W) as (c & -> & Hc). exact Hc.
  - rewrite join_cons by discriminate.
    destruct (word_ok_hd w (" " :: join [" "] (w' :: ws)) W) as (c & -> & Hc). exact Hc.
Qed.

Lemma joined_last : forall ws p,
    ws <> [] -> Forall word_ok ws ->
    is_ws_opt (last_or (join [" "] ws) p) = false.
Proof.
  induction ws as [|w ws IH]; intros p N F; [congruence|].
  inversion F as [|? ? W F']; subst.
  destruct ws as [|w' ws].
  - cbn [join]. destruct (last_or_some w p (proj1 W)) as (c & -> & I).
    cbn. apply clean_not_ws. now apply (word_ok_chars w).
  - rewrite join_cons by discriminate. rewrite last_or_app.
    change (last_or (" " :: join [" "] (w' :: ws)) (last_or w p))
      with (last_or (join [" "] (w' :: ws)) (Some " ")).
    apply IH; [discriminate|assumption].
Qed.

Lemma joined_chars : forall ws, Forall word_ok ws -> Forall char_ok (join [" "] ws).
Proof.
  intros ws F. apply join_Forall.
  - constructor; [now right|constructor].
  - apply Forall_forall. intros w I. rewrite Forall_forall in F.
    apply Forall_forall. intros c Ic. left. now apply (word_ok_chars w c (F w I)).
Qed.

Lemma ws_run_skip : forall w r,
    Forall (fun c => is_ws c = false) w -> has_ws_run (w ++ r) = has_ws_run r.
Proof.
  induction w as [|c w IH]; intros r F; [reflexivity|].
  inversion F as [|? ? Hc F']; subst. rewrite <- (IH r F').
  cbn [app has_ws_run]. destruct (w ++ r); [reflexivity|].
  rewrite Hc. reflexivity.
Qed.

Lemma has_ws_run_cons : forall c tl,
    has_ws_run (c :: tl) = ((is_ws c && is_ws_opt (hd_error tl)) || has_ws_run tl)%bool.
Proof.
  intros c [|d tl]; [|reflexivity]. cbn. now rewrite andb_false_r.
Qed.

Lemma joined_no_run : forall ws, Forall word_ok ws -> has_ws_run (join [" "] ws) = false.
Proof.
  induction ws as [|w ws IH]; intros F; [reflexivity|].
  inversion F as [|? ? W F']; subst.
  assert (Fw : Forall (fun c => is_ws c = false) w).
  { apply Forall_forall. intros c I. apply clean_not_ws. now apply (word_ok_chars w). }
  destruct ws as [|w' ws].
  - cbn [join]. rewrite <- (app_nil_r w). now rewrite ws_run_skip.
  - rewrite join_cons by discriminate. rewrite ws_run_skip by assumption.
    rewrite has_ws_run_cons, (joined_hd (w' :: ws) F'), (IH F').
    now rewrite andb_false_r.
Qed.

Lemma joined_regular : forall ws,
    Forall word_ok ws ->
    has_uppercase (join [" "] ws) = false /\ irregular_whitespace (join [" "] ws) = false.
Proof.
  intros ws F. pose proof (joined_chars ws F) as Fc. rewrite Forall_forall in Fc.
  split.
  - unfold has_uppercase. destruct (existsb _ _) eqn:E; [|reflexivity].
    apply existsb_exists in E as (c & I & E). apply negb_true_iff in E.
    destruct (Fc c I) as [C| ->]; [|discriminate].
    apply clean_char_spec in C as [_ C]. rewrite C, Ascii.eqb_refl in E. discriminate.
  - unfold irregular_whitespace. rewrite (joined_hd ws F), (joined_no_run ws F).
    assert (L : is_ws_opt (last_or (join [" "] ws) None) = false).
    { destruct ws as [|w ws']; [reflexivity|]. apply joined_last; [discriminate|assumption]. }
    rewrite L. cbn [orb]. rewrite orb_false_r.
    destruct (existsb _ _) eqn:E; [|reflexivity].
    apply existsb_exists in E as (c & I & E). apply andb_true_iff in E as [E1 E2].
    destruct (Fc c I) as [C| ->]; [|discriminate].
    apply clean_not_ws in C. congruence.
Qed.

(** C10.  [validateRoundTrip] returns a result in every case: when its own
    encoding throws, the result is not valid and carries an error; when it
    does not, the result is valid exactly when the decoded text is the
    original text, unit for unit, and carries no error exactly when it is
    valid; so on a tokenizer trained on a text with an uppercase letter or
    with irregular white space, validating that text reports failure. *)
Theorem validateRoundTrip_behaviour : forall (t : BPETokenizer) (text : str),
    let r := validateRoundTrip t text in
    (forall e, tokenize t text = Throw e -> isValid r = false /\ errors r <> [])
    /\ (forall ids, tokenize t text = Ok ids ->
                    reconstructedText r = detokenize t ids
                    /\ (isValid r = true <-> detokenize t ids = text)
                    /\ (errors r = [] <-> isValid r = true))
    /\ (forall t0, train t0 text = (t, Ok tt) ->
                   has_uppercase text = true \/ irregular_whitespace text = true ->
                   isValid r = false /\ errors r <> []).
Proof.
  intros t text r.
  assert (A : forall e, tokenize t text = Throw e -> isValid r = false /\ errors r <> []).
  { intros e E. unfold r, validateRoundTrip. rewrite E. cbn. split; [reflexivity|discriminate]. }
  assert (B : forall ids, tokenize t text = Ok ids ->
                reconstructedText r = detokenize t ids
                /\ (isValid r = true <-> detokenize t ids = text)
                /\ (errors r = [] <-> isValid r = true)).
  { intros ids E. unfold r, validateRoundTrip. rewrite E. cbn.
    split; [reflexivity|]. split.
    - rewrite str_eqb_eq. split; congruence.
    - destruct (Str.eqb text (detokenize t ids)); split; congruence. }
  split; [exact A|]. split; [exact B|].
  intros t0 Et Hirr.
  destruct (tokenize t text) as [ids|e] eqn:E; [|now apply (A e)].
  destruct (B ids eq_refl) as (_ & Hv & He).
  destruct (isValid r) eqn:V.
  - exfalso. pose proof (proj1 Hv eq_refl) as Vd.
    destruct (detokenize_words t (train_tokens_clean _ _ _ Et) ids) as (ws & F & D).
    destruct (joined_regular ws F) as [U W].
    rewrite <- D, Vd in U, W. destruct Hirr; congruence.
  - split; [reflexivity|]. intros N. apply He in N. congruence.
Qed.

Lemma validateRoundTrip_behaviour_witness :
  let t := fst (train (constructor no_options) (lit "Hello  world")) in
  isValid (validateRoundTrip t (lit "Hello  world")) = false
  /\ isValid (validateRoundTrip (constructor no_options) (lit "a")) = false.
Proof.
  intros t. split.
  - destruct (validateRoundTrip_behaviour t (lit "Hello  world")) as (_ & _ & H).
    apply (H (constructor no_options) eq_refl). left. reflexivity.
  - destruct (validateRoundTrip_behaviour (constructor no_options) (lit "a")) as (H & _ & _).
    apply (H NotTrained eq_refl).
Defined.

(** ** Texts that are clean words one space apart *)

Lemma word_ok_no_ws : forall w, word_ok w -> Forall (fun c => is_ws c = false) w.
Proof.
  intros w W. apply Forall_forall. intros c I.
  apply clean_not_ws. now apply (word_ok_chars w).
Qed.

Lemma joined_lower : forall ws, Forall word_ok ws -> toLowerCase (join [" "] ws) = join [" "] ws.
Proof.
  intros ws F. unfold toLowerCase.
  rewrite <- (map_id (join [" "] ws)) at 2. apply map_ext_in.
  intros c I. pose proof (joined_chars ws F) as Fc. rewrite Forall_forall in Fc.
  destruct (Fc c I) as [C| ->]; [|reflexivity]. now apply clean_char_spec in C.
Qed.

Lemma collapse_ws_word : forall w r b,
    w <> [] -> Forall (fun c => is_ws c = false) w ->
    collapse_ws b (w ++ r) = w ++ collapse_ws false r.
Proof.
  induction w as [|c w IH]; intros r b N F; [congruence|].
  inversion F as [|? ? Hc F']; subst. cbn [app collapse_ws]. rewrite Hc. f_equal.
  destruct w as [|d w]; [reflexivity|]. apply IH; [discriminate|assumption].
Qed.

Lemma joined_collapse : forall ws b,
    Forall word_ok ws -> collapse_ws b (join [" "] ws) = join [" "] ws.
Proof.
  induction ws as [|w ws IH]; intros b F; [reflexivity|].
  inversion F as [|? ? W F']; subst.
  destruct ws as [|w' ws].
  - cbn [join]. rewrite <- (app_nil_r w) at 1.
    rewrite collapse_ws_word; [apply app_nil_r|apply W|now apply word_ok_no_ws].
  - rewrite join_cons by discriminate.
    rewrite collapse_ws_word; [|apply W|now apply word_ok_no_ws].
    cbn [collapse_ws]. rewrite space_is_ws. now rewrite IH.
Qed.

Lemma dropWhile_hd : forall s,
    is_ws_opt (hd_error s) = false -> dropWhile is_ws s = s.
Proof. intros [|c s] H; [reflexivity|]. cbn in *. now rewrite H. Qed.

Lemma hd_rev_last : forall s : str, hd_error (rev s) = last_or s None.
Proof.
  intros s. destruct s as [|c s] using rev_ind; [reflexivity|].
  rewrite rev_app_distr, last_or_app. reflexivity.
Qed.

Lemma joined_trim : forall ws, Forall word_ok ws -> trim (join [" "] ws) = join [" "] ws.
Proof.
  intros ws F. unfold trim.
  rewrite (dropWhile_hd (join [" "] ws)) by now apply joined_hd.
  rewrite dropWhile_hd; [apply rev_involutive|].
  rewrite hd_rev_last. destruct ws as [|w ws]; [reflexivity|].
  apply joined_last; [discriminate|assumption].
Qed.

Lemma split_ws_word : forall w r b,
    w <> [] -> Forall (fun c => is_ws c = false) w ->
    split_ws b (w ++ r)
    = match split_ws false r with
      | p :: ps => (w ++ p) :: ps
      | [] => [w]
      end.
Proof.
  induction w as [|c w IH]; intros r b N F; [congruence|].
  inversion F as [|? ? Hc F']; subst. cbn [app split_ws]. rewrite Hc.
  destruct w as [|d w].
  - cbn [app]. destruct (split_ws false r); reflexivity.
  - rewrite (IH r false); [|discriminate|assumption].
    destruct (split_ws false r); reflexivity.
Qed.

Lemma joined_split : forall ws b,
    ws <> [] -> Forall word_ok ws -> split_ws b (join [" "] ws) = ws.
Proof.
  induction ws as [|w ws IH]; intros b N F; [congruence|].
  inversion F as [|? ? W F']; subst.
  destruct ws as [|w' ws].
  - cbn [join]. rewrite <- (app_nil_r w) at 1.
    rewrite split_ws_word; [|apply W|now apply word_ok_no_ws].
    cbn. now rewrite app_nil_r.
  - rewrite join_cons by discriminate.
    rewrite split_ws_word; [|apply W|now apply word_ok_no_ws].
    cbn [split_ws]. rewrite space_is_ws.
    rewrite IH; [|discriminate|assumption]. now rewrite app_nil_r.
Qed.

Lemma filter_nonempty_words : forall ws, Forall word_ok ws -> filter nonempty ws = ws.
Proof.
  induction ws as [|w ws IH]; intros F; [reflexivity|].
  inversion F as [|? ? W F']; subst. cbn [filter].
  rewrite (proj2 (nonempty_true w) (proj1 W)). now rewrite IH.
Qed.

(** The words [train] and [tokenize] see in such a text are its words. *)
Lemma joined_wordList : forall ws,
    ws <> [] -> Forall word_ok ws -> wordList_of (join [" "] ws) = ws.
Proof.
  intros ws N F. unfold wordList_of.
  rewrite joined_lower, joined_collapse, joined_trim, joined_split by assumption.
  now apply filter_nonempty_words.
Qed.

Lemma joined_not_blank : forall ws,
    ws <> [] -> Forall word_ok ws -> blank (join [" "] ws) = false.
Proof.
  intros [|w ws] N F; [congruence|]. inversion F as [|? ? W F']; subst.
  destruct w as [|c w]; [destruct W; congruence|].
  assert (Hc : is_ws c = false).
  { apply clean_not_ws. apply (word_ok_chars _ c W). now left. }
  destruct ws as [|w' ws].
  - cbn. now rewrite Hc.
  - rewrite join_cons by discriminate. cbn. now rewrite Hc.
Qed.

(** ** Rewriting symbol sequences *)

Lemma list_ind2 : forall {X} (P : list X -> Prop),
    P [] -> (forall a, P [a]) ->
    (forall a b l, P l -> P (b :: l) -> P (a :: b :: l)) ->
    forall l, P l.
Proof.
  intros X P H0 H1 H2.
  assert (G : forall l, P l /\ forall a, P (a :: l)).
  { induction l as [|b l [IH1 IH2]]; [split; [exact H0|exact H1]|].
    split; [apply IH2|]. intros a. apply H2; [assumption|apply IH2]. }
  intros l. apply G.
Qed.

Lemma merge_adjacent_cons2 : forall f s a b l,
    merge_adjacent f s (a :: b :: l)
    = if (Str.eqb a f && Str.eqb b s)%bool
      then (f ++ s) :: merge_adjacent f s l
      else a :: merge_adjacent f s (b :: l).
Proof. reflexivity. Qed.

Lemma merge_adjacent_concat : forall f s xs,
    concat (merge_adjacent f s xs) = concat xs.
Proof.
  intros f s. induction xs as [|a|a b l IH1 IH2] using list_ind2; try reflexivity.
  rewrite merge_adjacent_cons2.
  destruct (Str.eqb a f && Str.eqb b s)%bool eqn:T.
  - apply andb_true_iff in T as [Ta Tb]. apply str_eqb_eq in Ta, Tb. subst.
    cbn [concat]. rewrite IH1. now rewrite app_assoc.
  - cbn [concat] in *. now rewrite IH2.
Qed.

Lemma merge_adjacent_In : forall f s xs x,
    In x (merge_adjacent f s xs) -> In x xs \/ x = f ++ s.
Proof.
  intros f s. induction xs as [|a|a b l IH1 IH2] using list_ind2; intros x I.
  - contradiction.
  - now left.
  - rewrite merge_adjacent_cons2 in I.
    destruct (Str.eqb a f && Str.eqb b s)%bool.
    + destruct I as [<-|I]; [now right|].
      apply IH1 in I as [I| ->]; [left; right; now right|now right].
    + destruct I as [<-|I]; [left; now left|].
      apply IH2 in I as [I| ->]; [left; now right|now right].
Qed.

Lemma merge_adjacent_syms : forall A f s xs,
    Forall (sym_of A) xs -> Forall (sym_of A) (merge_adjacent f s xs).
Proof.
  intros A f s. induction xs as [|a|a b l IH1 IH2] using list_ind2; intros F.
  - constructor.
  - exact F.
  - inversion F as [|? ? Sa F']; subst. inversion F' as [|? ? Sb F'']; subst.
    rewrite merge_adjacent_cons2.
    destruct (Str.eqb a f && Str.eqb b s)%bool eqn:T.
    + apply andb_true_iff in T as [Ta Tb]. apply str_eqb_eq in Ta, Tb. subst.
      constructor; [|now apply IH1].
      destruct Sa as [Na Fa], Sb as [Nb Fb]. split.
      * destruct f; [congruence|discriminate].
      * now rewrite forallb_app, Fa, Fb.
    + constructor; [assumption|now apply IH2].
Qed.

Lemma join_snoc : forall (xs : list str) m,
    xs <> [] -> join [" "] (xs ++ [m]) = join [" "] xs ++ " " :: m.
Proof.
  induction xs as [|x xs IH]; intros m N; [congruence|].
  destruct xs as [|y xs].
  - reflexivity.
  - change ((x :: y :: xs) ++ [m]) with (x :: ((y :: xs) ++ [m])).
    rewrite join_cons by (destruct xs; discriminate).
    rewrite IH by discriminate. rewrite (join_cons x (y :: xs)) by discriminate.
    rewrite <- app_assoc. reflexivity.
Qed.

Lemma processedWord_word_text : forall w,
    w <> [] -> processedWord w = word_text (split_chars w).
Proof.
  intros w N. unfold processedWord, word_text. rewrite join_snoc; [reflexivity|].
  destruct w; [congruence|discriminate].
Qed.

(** ** Adding tokens *)

Lemma add_if_new_has_new : forall vri tok,
    JsMap.has (fst (fst (add_if_new vri tok))) tok = true.
Proof.
  intros [[v r] i] tok. unfold add_if_new.
  destruct (JsMap.has v tok) eqn:H; cbn [fst]; [assumption|].
  rewrite has_set, keqb_refl. reflexivity.
Qed.

Lemma add_if_new_has_mono : forall vri tok tok',
    JsMap.has (fst (fst vri)) tok' = true ->
    JsMap.has (fst (fst (add_if_new vri tok))) tok' = true.
Proof.
  intros [[v r] i] tok tok' H. unfold add_if_new. cbn [fst] in H.
  destruct (JsMap.has v tok); cbn [fst]; [assumption|].
  rewrite has_set, H. apply orb_true_r.
Qed.

Lemma fold_add_if_new_mono : forall l vri tok',
    JsMap.has (fst (fst vri)) tok' = true ->
    JsMap.has (fst (fst (fold_left add_if_new l vri))) tok' = true.
Proof.
  induction l as [|x l IH]; intros vri tok' H; [assumption|].
  cbn [fold_left]. apply IH. now apply add_if_new_has_mono.
Qed.

Lemma fold_add_if_new_has : forall l vri x,
    In x l -> JsMap.has (fst (fst (fold_left add_if_new l vri))) x = true.
Proof.
  induction l as [|y l IH]; intros vri x I; [contradiction|].
  cbn [fold_left]. destruct I as [->|I]; [|now apply IH].
  apply fold_add_if_new_mono. apply add_if_new_has_new.
Qed.

Lemma train_loop_has_mono : forall cfg fuel st0 tok,
    JsMap.has (l_vocabulary st0) tok = true ->
    JsMap.has (l_vocabulary (train_loop fuel cfg st0)) tok = true.
Proof.
  intros cfg fuel st0 tok H. apply train_loop_ind; [|assumption].
  intros st st' P _ E.
  apply train_step_some in E
    as (pre & a & b & m & post & w & fq & _ & _ & _ & _ & _ & _ & _ & _ & _ & _ & _ & _ & Ea).
  pose proof (add_if_new_has_mono
                (l_vocabulary st, l_reverseVocabulary st, l_tokenId st) (a ++ b) tok P) as M.
  rewrite <- Ea in M. exact M.
Qed.

(** ** What the seed holds *)

Lemma collect_step_mono : forall cs acc ch,
    In ch acc ->
    In ch (fold_left
             (fun ac c =>
                if (negb (Str.eqb c marker) && nonempty c)%bool
                then JsSet.add ac c else ac) cs acc).
Proof.
  induction cs as [|c cs IH]; intros acc ch I; [assumption|].
  cbn [fold_left]. apply IH.
  destruct (negb (Str.eqb c marker) && nonempty c)%bool; [|assumption].
  apply add_In. now left.
Qed.

Lemma collect_step_adds : forall cs acc ch,
    In ch cs -> ch <> marker -> ch <> [] ->
    In ch (fold_left
             (fun ac c =>
                if (negb (Str.eqb c marker) && nonempty c)%bool
                then JsSet.add ac c else ac) cs acc).
Proof.
  induction cs as [|c cs IH]; intros acc ch I Nm Ne; [contradiction|].
  cbn [fold_left]. destruct I as [->|I]; [|now apply IH].
  apply collect_step_mono.
  apply str_eqb_neq in Nm. rewrite Nm. apply nonempty_true in Ne. rewrite Ne.
  apply add_In. now right.
Qed.

Lemma collect_chars_complete : forall words w ch,
    In w (JsMap.keys words) -> In ch (split_on " " w) ->
    ch <> marker -> ch <> [] -> In ch (collect_chars words).
Proof.
  intros words w ch Iw Ic Nm Ne. unfold collect_chars.
  generalize (@nil str) as acc. revert Iw. generalize (JsMap.keys words) as ks.
  induction ks as [|k ks IH]; intros Iw acc; [contradiction|].
  cbn [fold_left]. destruct Iw as [->|Iw]; [|now apply IH].
  assert (G : forall ks0 acc0, In ch acc0 ->
               In ch (fold_left
                        (fun allChars word =>
                           fold_left
                             (fun ac c =>
                                if (negb (Str.eqb c marker) && nonempty c)%bool
                                then JsSet.add ac c else ac)
                             (split_on " " word) allChars) ks0 acc0)).
  { induction ks0 as [|k0 ks0 IH0]; intros acc0 I0; [assumption|].
    cbn [fold_left]. apply IH0. now apply collect_step_mono. }
  apply G. now apply collect_step_adds.
Qed.

Lemma keys_set_In : forall {V} (m : JsMap.t str V) k v k',
    In k' (JsMap.keys (JsMap.set m k v)) <-> In k' (JsMap.keys m) \/ k' = k.
Proof. intros. rewrite keys_set_add. apply add_In. Qed.

Lemma count_words_keys : forall wl w,
    In w wl -> In (processedWord w) (JsMap.keys (count_words wl)).
Proof.
  intros wl w I. unfold count_words.
  induction wl as [|x wl IH] using rev_ind; [contradiction|].
  rewrite fold_left_app. cbn [fold_left]. apply keys_set_In.
  apply in_app_or in I as [I|[->|[]]]; [left; now apply IH|now right].
Qed.

(** ** Encoding then decoding a text of word-character words *)

Lemma Forall2_single_r : forall {X Y} (R : X -> Y -> Prop) l y,
    Forall2 R l [y] -> exists x, l = [x] /\ R x y.
Proof.
  intros X Y R l y F. inversion F as [|x y' l' l0 Rxy F' E1 E2].
  inversion F'. exists x. now split.
Qed.

Section RoundTrip.
Variable A : ascii -> bool.
Hypothesis A_word : forall c, A c = true -> is_word_char c = true.
Hypothesis A_lower : forall c, A c = true -> toLowerChar c = c.

Lemma sym_word_ok : forall w, sym_of A w -> word_ok w.
Proof.
  intros w [N F]. split; [assumption|]. apply forallb_forall. intros c I.
  rewrite forallb_forall in F. specialize (F c I).
  apply clean_char_spec. split; [|now apply A_lower].
  destruct (is_ws c) eqn:W; [|reflexivity].
  apply ws_not_word in W. rewrite (A_word c F) in W. discriminate.
Qed.

Lemma syms_words_ok : forall ws, Forall (sym_of A) ws -> Forall word_ok ws.
Proof.
  intros ws F. apply Forall_forall. intros w I. rewrite Forall_forall in F.
  apply sym_word_ok. now apply F.
Qed.

Lemma split_chars_syms : forall w, sym_of A w -> Forall (sym_of A) (split_chars w).
Proof.
  intros w [_ F]. unfold split_chars. apply Forall_forall. intros x I.
  apply in_map_iff in I as (c & <- & I). split; [discriminate|].
  cbn. rewrite forallb_forall in F. now rewrite (F c I).
Qed.

Lemma split_word_text : forall xs,
    Forall (sym_of A) xs -> split_on " " (word_text xs) = xs ++ [marker].
Proof.
  intros xs F. unfold word_text. apply split_on_join.
  - destruct xs; discriminate.
  - apply Forall_app. split.
    + apply Forall_forall. intros x I. rewrite Forall_forall in F.
      apply (sym_no_space A A_word). now apply F.
    + constructor; [apply marker_no_space|constructor].
Qed.

Lemma word_symbols : forall xs a b,
    Forall (sym_of A) xs ->
    In (a, b) (adjacent_pairs (split_on " " (word_text xs))) ->
    sym_or_marker A a /\ sym_or_marker A b.
Proof.
  intros xs a b F I. rewrite split_word_text in I by assumption.
  apply adjacent_pairs_In in I as [Ia Ib].
  assert (G : forall x, In x (xs ++ [marker]) -> sym_or_marker A x).
  { intros x Ix. apply in_app_or in Ix as [Ix|[<-|[]]]; [left|now right].
    rewrite Forall_forall in F. now apply F. }
  split; now apply G.
Qed.

Lemma step_inv : forall cfg st st',
    train_inv A st -> train_step cfg st = Some st' -> train_inv A st'.
Proof.
  intros cfg st st' [W M] E.
  apply train_step_some in E
    as (pre & a & b & m & post & w & fq & _ & _ & _ & Iw & Iab & _ & _ & _ & _ & Em
        & Ew & _ & Ea).
  destruct (W _ Iw) as (xs & Fxs & Exs). cbn [fst] in Exs. subst w.
  destruct (word_symbols xs a b Fxs Iab) as [Sa Sb].
  assert (Ev : l_vocabulary st'
               = fst (fst (add_if_new (l_vocabulary st, l_reverseVocabulary st,
                                       l_tokenId st) (a ++ b)))).
  { now rewrite <- Ea. }
  split.
  - intros e I. rewrite Ew in I. apply applyMerge_In in I as (w' & I & E').
    destruct (W _ I) as (xs' & Fxs' & Exs'). cbn [fst snd] in *. subst w'.
    exists (merge_adjacent a b xs'). split; [now apply merge_adjacent_syms|].
    rewrite E'. now apply (replace_merge_word_text A A_word).
  - intros f s I. rewrite Em in I. apply in_app_or in I as [I|[I|[]]].
    + destruct (M f s I) as (Sf & Ss & H). repeat split; try assumption.
      rewrite Ev. now apply add_if_new_has_mono.
    + injection I as <- <-. repeat split; try assumption.
      rewrite Ev. apply add_if_new_has_new.
Qed.

Section Text.
Variable cfg : TokenizerConfig.
Variable ws : list str.
Hypothesis ws_nonempty : ws <> [].
Hypothesis ws_syms : Forall (sym_of A) ws.
Hypothesis specials_apart : forall sp, In sp (specialTokens cfg) -> ~ sym_of A sp.

Let text := join [" "] ws.

Lemma text_wordList : wordList_of text = ws.
Proof. apply joined_wordList; [assumption|now apply syms_words_ok]. Qed.

Lemma init_inv : train_inv A (train_init cfg text).
Proof.
  split.
  - intros e I. rewrite train_init_words, text_wordList in I.
    apply count_words_In in I as [(w & Iw & E) _].
    rewrite Forall_forall in ws_syms. pose proof (ws_syms w Iw) as Sw.
    exists (split_chars w). split; [now apply split_chars_syms|].
    rewrite E. apply processedWord_word_text. apply Sw.
  - intros f s I. destruct (train_init_fields cfg text) as (Em & _). rewrite Em in I.
    contradiction.
Qed.

Lemma loop_inv : forall fuel, train_inv A (train_loop fuel cfg (train_init cfg text)).
Proof.
  intros fuel. apply train_loop_ind; [|apply init_inv].
  intros st st' I _ E. now apply (step_inv cfg st).
Qed.

Lemma seed_has_marker : JsMap.has (seed_vocabulary cfg text) marker = true.
Proof. unfold seed_vocabulary, seed. apply add_if_new_has_new. Qed.

Lemma seed_has_chars : forall w c,
    In w ws -> In c w -> JsMap.has (seed_vocabulary cfg text) [c] = true.
Proof.
  intros w c Iw Ic. unfold seed_vocabulary, seed.
  apply add_if_new_has_mono. apply fold_add_if_new_has. apply sort_In.
  rewrite text_wordList.
  rewrite Forall_forall in ws_syms. pose proof (ws_syms w Iw) as Sw.
  apply (collect_chars_complete _ (processedWord w)).
  - now apply count_words_keys.
  - rewrite processedWord_word_text by apply Sw.
    rewrite split_word_text by now apply split_chars_syms.
    apply in_or_app. left. unfold split_chars. apply in_map_iff. now exists c.
  - intros E. discriminate.
  - discriminate.
Qed.

Section Trained.
Variable t : BPETokenizer.
Hypothesis t_specials : forall sp,
    In sp (specialTokens (config t)) -> ~ sym_of A sp.
Hypothesis t_inverse : forall tok id,
    JsMap.get (vocabulary t) tok = Some id ->
    JsMap.get (reverseVocabulary t) id = Some tok.
Hypothesis t_merges : forall f s,
    In (f, s) (merges t) ->
    sym_or_marker A f /\ sym_or_marker A s
    /\ JsMap.has (vocabulary t) (f ++ s) = true.
Hypothesis t_chars : forall w c,
    In w ws -> In c w -> JsMap.has (vocabulary t) [c] = true.
Hypothesis t_marker : JsMap.has (vocabulary t) marker = true.

Let known (x : str) : Prop := JsMap.has (vocabulary t) x = true.

(** Applying the learned rules to a word of known symbols gives a word of
    known symbols with the same letters. *)
Lemma apply_merges_known : forall ms xs,
    (forall f s, In (f, s) ms -> In (f, s) (merges t)) ->
    Forall (sym_of A) xs -> Forall known xs ->
    exists xs',
      apply_merges ms (word_text xs) = word_text xs'
      /\ Forall (sym_of A) xs' /\ Forall known xs' /\ concat xs' = concat xs.
Proof.
  induction ms as [|[f s] ms IH]; intros xs Sub F K.
  - exists xs. repeat split; assumption.
  - destruct (t_merges f s (Sub f s (or_introl eq_refl))) as (Sf & Ss & Hfs).
    unfold apply_merges. cbn [fold_left fst snd].
    rewrite (replace_merge_word_text A A_word f s Sf Ss xs F).
    destruct (IH (merge_adjacent f s xs)) as (xs' & E & F' & K' & C').
    + intros f' s' I. apply Sub. now right.
    + now apply merge_adjacent_syms.
    + apply Forall_forall. intros x I. apply merge_adjacent_In in I as [I| ->].
      * rewrite Forall_forall in K. now apply K.
      * exact Hfs.
    + exists xs'. repeat split; try assumption.
      rewrite C'. apply merge_adjacent_concat.
Qed.

Lemma lookup_known : forall parts,
    Forall known parts ->
    exists ids,
      flat_map
        (fun part =>
           match JsMap.get (vocabulary t) part with
           | Some tokenId => [tokenId]
           | None =>
               match JsMap.get (vocabulary t) (unknownToken (config t)) with
               | Some unkId => [unkId]
               | None => []
               end
           end) parts = ids
      /\ Forall2 (fun id x => JsMap.get (reverseVocabulary t) id = Some x) ids parts.
Proof.
  induction parts as [|x parts IH]; intros K.
  - exists []. split; [reflexivity|constructor].
  - inversion K as [|? ? Kx K']; subst. destruct (IH K') as (ids & E & F2).
    unfold known, JsMap.has in Kx.
    destruct (JsMap.get (vocabulary t) x) as [id|] eqn:G; [|discriminate].
    exists (id :: ids). cbn [flat_map]. rewrite G, E. split; [reflexivity|].
    constructor; [now apply t_inverse|assumption].
Qed.

Lemma sym_not_special : forall x,
    sym_of A x -> includes (specialTokens (config t)) x = false.
Proof.
  intros x S. destruct (includes _ x) eqn:I; [|reflexivity].
  apply includes_In in I. exfalso. now apply (t_specials x).
Qed.

(** The ids of one word decode to that word. *)
Lemma word_ids_decode : forall w words,
    In w ws ->
    fold_left (detokenize_step t) (word_ids t w) (words, []) = (words ++ [w], []).
Proof.
  intros w words Iw.
  rewrite Forall_forall in ws_syms. pose proof (ws_syms w Iw) as Sw.
  destruct (apply_merges_known (merges t) (split_chars w)) as (xs & E & F & K & C).
  - auto.
  - now apply split_chars_syms.
  - apply Forall_forall. intros x I. unfold split_chars in I.
    apply in_map_iff in I as (c & <- & Ic). now apply (t_chars w).
  - unfold word_ids. rewrite processedWord_word_text by apply Sw. rewrite E.
    rewrite split_word_text by assumption.
    assert (Fne : filter nonempty (xs ++ [marker]) = xs ++ [marker]).
    { rewrite filter_app. cbn [filter]. change (nonempty marker) with true.
      f_equal. apply filter_nonempty_words. now apply syms_words_ok. }
    rewrite Fne.
    destruct (lookup_known (xs ++ [marker])) as (ids & El & F2).
    { apply Forall_app. split; [assumption|]. constructor; [exact t_marker|constructor]. }
    rewrite El. apply Forall2_app_inv_r in F2 as (ids1 & ids2 & F21 & F22 & ->).
    apply Forall2_single_r in F22 as (mid & -> & Gm).
    rewrite fold_left_app.
    assert (F2' : Forall2
                    (fun id tok =>
                       JsMap.get (reverseVocabulary t) id = Some tok
                       /\ tok <> marker
                       /\ includes (specialTokens (config t)) tok = false) ids1 xs).
    { clear -F21 F A_word t_specials. induction F21 as [|id x ids xs G F21 IH].
      - constructor.
      - pose proof (Forall_inv F) as Sx. pose proof (Forall_inv_tail F) as F'.
        constructor; [|now apply IH].
        split; [assumption|]. split; [now apply (sym_not_marker A A_word)|].
        now apply sym_not_special. }
    pose proof (run_text t ids1 xs words [] F2') as R.
    match goal with
    | |- fold_left _ _ ?x = _ =>
        replace x with (words, concat xs) by (symmetry; exact R)
    end.
    cbn [fold_left]. unfold detokenize_step. rewrite Gm. cbn.
    assert (Cw : concat xs = w).
    { rewrite C. unfold split_chars. clear. induction w as [|c w IH]; [reflexivity|].
      cbn. now rewrite IH. }
    rewrite Cw. rewrite (proj2 (nonempty_true w) (proj1 Sw)). reflexivity.
Qed.

Lemma words_ids_decode : forall ws0 words,
    (forall w, In w ws0 -> In w ws) ->
    fold_left (detokenize_step t) (flat_map (word_ids t) ws0) (words, [])
    = (words ++ ws0, []).
Proof.
  induction ws0 as [|w ws0 IH]; intros words Sub.
  - cbn. now rewrite app_nil_r.
  - cbn [flat_map]. rewrite fold_left_app.
    rewrite word_ids_decode by (apply Sub; now left).
    rewrite IH by (intros x Ix; apply Sub; now right).
    rewrite <- app_assoc. reflexivity.
Qed.

Lemma roundtrip_trained :
  tokenize t text = Ok (flat_map (word_ids t) ws)
  /\ detokenize t (flat_map (word_ids t) ws) = text.
Proof.
  split.
  - unfold tokenize.
    assert (Hv : Nat.eqb (JsMap.size (vocabulary t)) 0 = false).
    { apply Nat.eqb_neq. intros Z0. unfold JsMap.size in Z0.
      destruct (vocabulary t); [|discriminate].
      pose proof t_marker as M. discriminate. }
    rewrite Hv.
    assert (Ht : nonempty text = true).
    { apply nonempty_true. intros Z0.
      pose proof (joined_not_blank ws ws_nonempty (syms_words_ok ws ws_syms)) as B.
      unfold text in Z0. rewrite Z0 in B. discriminate. }
    rewrite Ht. cbn [negb]. unfold text.
    rewrite joined_lower, joined_split by (assumption || now apply syms_words_ok).
    rewrite filter_nonempty_words by now apply syms_words_ok. reflexivity.
  - rewrite detokenize_run. rewrite (words_ids_decode ws []) by auto.
    reflexivity.
Qed.
End Trained.

(** Training on the text gives a tokenizer that satisfies what the
    round trip needs. *)
Lemma roundtrip_after_train : forall t0,
    config t0 = cfg ->
    snd (train t0 text) = Ok tt
    /\ tokenize (fst (train t0 text)) text
       = Ok (flat_map (word_ids (fst (train t0 text))) ws)
    /\ detokenize (fst (train t0 text))
         (flat_map (word_ids (fst (train t0 text))) ws) = text.
Proof.
  intros t0 Ec.
  assert (Eok : snd (train t0 text) = Ok tt).
  { apply train_blank_or_ok. apply joined_not_blank; [assumption|now apply syms_words_ok]. }
  split; [assumption|].
  destruct (train t0 text) as [t o] eqn:E. cbn [fst snd] in *. subst o.
  destruct (train_maps_wf _ _ _ E) as (_ & _ & Hinv).
  apply train_ok in E as (_ & st & Est & Ev & Er & Em & Ecfg).
  rewrite Ec in *.
  destruct (loop_inv (Z.to_nat (maxMerges_of cfg))) as [_ M]. rewrite <- Est in M.
  destruct (train_init_fields cfg text) as (_ & _ & Iv).
  apply roundtrip_trained.
  - rewrite Ecfg. exact specials_apart.
  - exact Hinv.
  - intros f s I. rewrite Em in I. rewrite Ev. now apply M.
  - intros w c Iw Ic. rewrite Ev, Est. apply train_loop_has_mono.
    rewrite Iv. now apply (seed_has_chars w).
  - rewrite Ev, Est. apply train_loop_has_mono. rewrite Iv. apply seed_has_marker.
Qed.
End Text.
End RoundTrip.

Lemma lower_letter_word : forall c, is_lower_letter c = true -> is_word_char c = true.
Proof. intros c; each_ascii c. Qed.

Lemma lower_letter_fixed : forall c, is_lower_letter c = true -> toLowerChar c = c.
Proof. intros c; each_ascii c. Qed.

(** C1, as the code has it.  For a text made of non-empty words of lowercase
    letters, one space apart, and a tokenizer none of whose special tokens is
    a non-empty word of lowercase letters (decoding skips every special
    token): training on the text succeeds, and decoding what the trained
    tokenizer encodes the text to gives the text back. *)
Theorem roundtrip_lowercase_text : forall (t0 : BPETokenizer) (ws : list str),
    ws <> [] ->
    Forall lowercase_word ws ->
    (forall sp, In sp (specialTokens (config t0)) -> ~ lowercase_word sp) ->
    let text := join [" "] ws in
    let t := fst (train t0 text) in
    snd (train t0 text) = Ok tt
    /\ exists ids, tokenize t text = Ok ids /\ detokenize t ids = text.
Proof.
  intros t0 ws N F S text t.
  destruct (roundtrip_after_train is_lower_letter lower_letter_word lower_letter_fixed
              (config t0) ws N F S t0 eq_refl) as (Ok1 & Tk & Dt).
  split; [exact Ok1|]. eexists. split; [exact Tk|exact Dt].
Qed.

Lemma roundtrip_lowercase_text_witness :
  let t := fst (train (constructor no_options) (lit "hello world")) in
  exists ids, tokenize t (lit "hello world") = Ok ids
              /\ detokenize t ids = lit "hello world".
Proof.
  intros t.
  assert (F : Forall lowercase_word [lit "hello"; lit "world"]).
  { repeat constructor; discriminate. }
  assert (S : forall sp, In sp (specialTokens (config (constructor no_options))) ->
                         ~ lowercase_word sp).
  { intros sp I [_ L]. cbn in I.
    destruct I as [<-|[<-|[<-|[<-|[]]]]]; discriminate. }
  exact (proj2 (roundtrip_lowercase_text (constructor no_options)
                  [lit "hello"; lit "world"] ltac:(discriminate) F S)).
Defined.

(** C1 as stated fails when a special token is a word of lowercase letters.
    With the special tokens [<pad>] and [a], "a b" is trained and encoded to
    the ids of [a], [</w>], [b], [</w>]; decoding skips the special token
    [a] and gives "b".  With the special tokens [pad] and [unk], training on
    "pad pad pad" merges [p], [a], [d] into the token [pad], which has the
    id 0 of the special token, and the text decodes to the empty string. *)
Lemma roundtrip_drops_special_token_words :
  let with_special := fun sp =>
    constructor {| p_vocabSize := None; p_specialTokens := Some sp;
                   p_unknownToken := None; p_padToken := None;
                   p_minFreq := None; p_maxMerges := None |} in
  let t1 := train (with_special [lit "<pad>"; lit "a"]) (lit "a b") in
  let t2 := train (with_special [lit "pad"; lit "unk"]) (lit "pad pad pad") in
  (snd t1 = Ok tt
   /\ tokenize (fst t1) (lit "a b") = Ok [1; 3; 2; 3]%N
   /\ detokenize (fst t1) [1; 3; 2; 3]%N = lit "b")
  /\ (snd t2 = Ok tt
      /\ tokenize (fst t2) (lit "pad pad pad") = Ok [0; 5; 0; 5; 0; 5]%N
      /\ detokenize (fst t2) [0; 5; 0; 5; 0; 5]%N = []).
Proof. vm_compute. repeat split. Qed.

(* ================================================================== *)
(** * Further properties *)
(* ================================================================== *)
(** * Further properties *)

(** ** The pattern on the symbols of any text *)

Lemma hd_rev_app : forall (u br : str),
    hd_error (rev u ++ br) = last_or u (hd_error br).
Proof.
  intros u. induction u as [|c u IH] using rev_ind; intros br; [reflexivity|].
  rewrite rev_app_distr, last_or_app. reflexivity.
Qed.

(** Where the pattern matches nowhere, the replacement changes nothing,
    whatever the template. *)
Lemma replace_go_nomatch : forall atoms tpl rest br,
    (forall u1 u2, rest = u1 ++ u2 ->
                   match_atoms atoms (hd_error (rev u1 ++ br)) u2 = None) ->
    replace_go atoms tpl br 0 rest = rest.
Proof.
  intros atoms tpl. induction rest as [|c rest IH]; intros br Hn.
  - cbn [replace_go]. pose proof (Hn [] [] eq_refl) as H0.
    cbn [rev app] in H0. now rewrite H0.
  - cbn [replace_go]. pose proof (Hn [] (c :: rest) eq_refl) as H0.
    cbn [rev app] in H0. rewrite H0. f_equal.
    apply IH. intros u1 u2 E.
    specialize (Hn (c :: u1) u2). cbn [rev] in Hn. rewrite <- app_assoc in Hn.
    apply Hn. now rewrite E.
Qed.

Lemma is_word_string_spec : forall x, is_word_string x = true <-> wsym x.
Proof.
  intros x. unfold is_word_string, wsym, sym_of.
  rewrite andb_true_iff, nonempty_true. tauto.
Qed.

Lemma word_char_is_word : forall c, is_word_char c = true -> is_word_char c = true.
Proof. auto. Qed.

Lemma psym_not_wsym : forall x, psym x -> ~ wsym x.
Proof.
  intros x (c & -> & Hc & _) [_ F]. cbn in F. rewrite Hc in F. discriminate.
Qed.

Lemma gsym_nonempty : forall x, gsym x -> x <> [].
Proof. intros x [[N _]|(c & -> & _)]; [assumption|discriminate]. Qed.

Lemma gsym_no_space : forall x, gsym x -> ~ In " " x.
Proof.
  intros x [W|(c & -> & _ & Nc)].
  - now apply (sym_no_space is_word_char word_char_is_word).
  - intros [E|[]]. congruence.
Qed.

Lemma gsym_not_marker : forall x, gsym x -> x <> marker.
Proof.
  intros x [W|(c & -> & _)].
  - now apply (sym_not_marker is_word_char word_char_is_word).
  - discriminate.
Qed.

Lemma gsym_or_marker_nonempty : forall x, gsym_or_marker x -> x <> [].
Proof. intros x [G| ->]; [now apply gsym_nonempty|discriminate]. Qed.

Lemma gsym_or_marker_no_space : forall x, gsym_or_marker x -> ~ In " " x.
Proof. intros x [G| ->]; [now apply gsym_no_space|apply marker_no_space]. Qed.

Lemma gsym_long_is_word : forall x c d y z,
    gsym x -> x = y ++ c :: d :: z -> wsym x.
Proof.
  intros x c d y z [W|(e & E & _)] Ex; [assumption|].
  exfalso. rewrite Ex in E. apply (f_equal (@length ascii)) in E.
  rewrite length_app in E. cbn in E. lia.
Qed.

Section GeneralRule.
Variables f s : str.
Hypothesis Hf : gsym_or_marker f.
Hypothesis Hs : gsym_or_marker s.

Let l := pair_key f s.

Lemma g_pair_nonempty : l <> [].
Proof. unfold l, pair_key. destruct f; discriminate. Qed.

Lemma g_no_match_at_space : forall prev v,
    literal_matches l prev (" " :: v) = false.
Proof.
  intros prev v. destruct (literal_matches l prev (" " :: v)) eqn:M; [|reflexivity].
  apply literal_matches_inv in M as (_ & r & E & _).
  unfold l, pair_key in E. exfalso.
  pose proof (gsym_or_marker_nonempty f Hf) as Nf.
  pose proof (gsym_or_marker_no_space f Hf) as Sf.
  destruct f as [|c f']; [congruence|].
  cbn in E. injection E as <- _. apply Sf. now left.
Qed.

Lemma g_last_of_rule : forall p, last_or l p = last_or s (Some " ").
Proof. intros p. unfold l, pair_key. rewrite last_or_app. reflexivity. Qed.

(** A match that starts where a symbol starts is a match of two whole
    symbols, both strings of word characters. *)
Lemma g_match_at_symbol : forall a xs prev,
    gsym a -> Forall gsym xs -> is_word_opt prev = false ->
    literal_matches l prev (a ++ " " :: word_text xs) = true ->
    a = f /\ (exists xs', xs = s :: xs') /\ wsym f /\ wsym s.
Proof.
  intros a xs prev Ga F P M.
  apply literal_matches_inv in M as (B0 & r & E & B).
  assert (Wa : wsym a).
  { destruct Ga as [W|(c & -> & Hc & _)]; [assumption|].
    cbn in B0. unfold word_boundary in B0. rewrite P in B0. cbn in B0.
    rewrite Hc in B0. discriminate. }
  unfold l in E. rewrite g_last_of_rule in B. unfold pair_key in E.
  rewrite <- app_assoc in E. cbn [app] in E.
  apply space_split in E as [<- E];
    [|now apply gsym_no_space|now apply gsym_or_marker_no_space].
  split; [reflexivity|].
  assert (Hw : forall x, wsym x -> forall p, is_word_opt (last_or x p) = true).
  { intros x W p. now apply (sym_last_word is_word_char word_char_is_word). }
  assert (Hh : forall x r0, wsym x -> is_word_opt (hd_error (x ++ r0)) = true).
  { intros x r0 W. now apply (sym_hd_word is_word_char word_char_is_word). }
  destruct xs as [|b xs].
  - exfalso. rewrite word_text_nil in E.
    destruct Hs as [[Ws|(c & Es & Hc & _)]|Es].
    + pose proof (Hh s r Ws) as W. rewrite <- E in W. discriminate.
    + rewrite Es in E, B. cbn in E. injection E as <- <-.
      discriminate.
    + rewrite Es in E, B.
      assert (r = []) as ->.
      { apply (f_equal (@length ascii)) in E. rewrite length_app in E.
        destruct r; [reflexivity|cbn in E; lia]. }
      discriminate.
  - inversion F as [|b0 xs0 Gb F' Eb0]. rewrite word_text_cons in E.
    apply app_eq_app in E as [t [[Eb Er]|[Es Er]]].
    + destruct t as [|c t].
      * rewrite app_nil_r in Eb. cbn [app] in Er.
        assert (Ws : wsym s).
        { rewrite <- Eb. destruct Gb as [W|(c & Ec & Hc & _)]; [assumption|].
          exfalso. rewrite Eb in Ec. rewrite Er, Ec in B. cbn in B.
          unfold word_boundary in B. cbn in B. rewrite Hc in B. discriminate. }
        split; [exists xs; now rewrite Eb|]. split; assumption.
      * exfalso. cbn [app] in Er.
        assert (Ns : s <> []) by now apply gsym_or_marker_nonempty.
        destruct s as [|s0 s'] eqn:Es; [congruence|].
        assert (Wb : wsym b) by (apply (gsym_long_is_word b s0 (hd c (s' ++ [c]))
                                          [] (tl (s' ++ c :: t)) Gb);
                                 rewrite Eb; destruct s'; reflexivity).
        assert (Wc : is_word_char c = true).
        { apply (sym_chars_word is_word_char word_char_is_word b c Wb).
          rewrite Eb. apply in_or_app. right. now left. }
        assert (Wl : is_word_opt (last_or (s0 :: s') (Some " ")) = true).
        { destruct (last_or_some (s0 :: s') (Some " ") ltac:(discriminate))
            as (e & -> & I).
          cbn. apply (sym_chars_word is_word_char word_char_is_word b e Wb).
          rewrite Eb. apply in_or_app. now left. }
        rewrite Er in B. cbn [hd_error] in B. unfold word_boundary in B.
        rewrite Wl in B. cbn in B. rewrite Wc in B. discriminate.
    + destruct t as [|c t].
      * rewrite app_nil_r in Es. cbn [app] in Er.
        assert (Ws : wsym s).
        { rewrite Es. destruct Gb as [W|(c & Ec & Hc & _)]; [assumption|].
          exfalso. rewrite Es, Ec in B. rewrite <- Er in B. cbn in B.
          unfold word_boundary in B. cbn in B. rewrite Hc in B. discriminate. }
        split; [exists xs; now rewrite Es|]. split; assumption.
      * exfalso. cbn [app] in Er. injection Er as <- _.
        apply (gsym_or_marker_no_space s Hs). rewrite Es.
        apply in_or_app. right. now left.
Qed.

(** Inside a symbol, and at the space after it, nothing matches. *)
Lemma g_positions_in_symbol : forall a v prev,
    gsym a -> is_word_opt prev = false ->
    literal_matches l prev (a ++ " " :: v) = false ->
    forall u1 u2, a ++ [" "] = u1 ++ u2 -> u2 <> [] ->
                  literal_matches l (last_or u1 prev) (u2 ++ v) = false.
Proof.
  intros a v prev Ga P M u1 u2 E N.
  destruct (exists_last N) as (u2' & x & ->).
  rewrite app_assoc in E. apply app_inj_tail in E as [Ea <-].
  destruct u2' as [|c u2'].
  - apply g_no_match_at_space.
  - destruct u1 as [|d u1].
    + cbn [app] in Ea. subst a. cbn [last_or fold_left].
      rewrite <- app_assoc. exact M.
    + assert (Wa : wsym a).
      { destruct (exists_last (l:=d :: u1) ltac:(discriminate)) as (y & e & Ey).
        apply (gsym_long_is_word a e c y u2' Ga). rewrite Ea, Ey.
        now rewrite <- app_assoc. }
      unfold literal_matches.
      assert (B : word_boundary (last_or (d :: u1) prev)
                    (hd_error (((c :: u2') ++ [" "]) ++ v)) = false).
      { cbn [app hd_error]. unfold word_boundary.
        destruct (last_or_some (d :: u1) prev ltac:(discriminate)) as (e & -> & I).
        cbn [is_word_opt].
        rewrite (sym_chars_word is_word_char word_char_is_word a e Wa),
                (sym_chars_word is_word_char word_char_is_word a c Wa);
          [reflexivity| |].
        - rewrite Ea. apply in_or_app. right. now left.
        - rewrite Ea. apply in_or_app. now left. }
      rewrite B. reflexivity.
Qed.

Lemma g_scan_marker : forall tpl prev, scan l tpl prev 0 marker = marker.
Proof.
  intros tpl prev. rewrite <- (app_nil_r marker) at 1.
  rewrite scan_copy; [now rewrite app_nil_r|].
  intros u1 u2 E _. apply no_space_no_match. rewrite app_nil_r.
  intros I. apply marker_no_space. rewrite E. now apply In_suffix.
Qed.

Lemma g_scan_past_symbol : forall tpl a v prev,
    gsym a -> is_word_opt prev = false ->
    literal_matches l prev (a ++ " " :: v) = false ->
    scan l tpl prev 0 (a ++ " " :: v) = a ++ " " :: scan l tpl (Some " ") 0 v.
Proof.
  intros tpl a v prev Ga P M.
  replace (a ++ " " :: v) with ((a ++ [" "]) ++ v) by (now rewrite <- app_assoc).
  rewrite scan_copy.
  - rewrite last_or_app. cbn. rewrite <- app_assoc. reflexivity.
  - now apply g_positions_in_symbol.
Qed.

(** A rule of two strings of word characters rewrites the adjacent pairs
    of whole symbols, also among punctuation. *)
Lemma g_scan_word_text : forall n xs prev,
    wsym f -> wsym s ->
    (length xs <= n)%nat -> Forall gsym xs -> is_word_opt prev = false ->
    scan l (f ++ s) prev 0 (word_text xs) = word_text (merge_adjacent f s xs).
Proof.
  intros n xs prev Wf Ws. revert xs prev.
  induction n as [|n IH]; intros xs prev Hn F P.
  - destruct xs; [|cbn in Hn; lia]. apply g_scan_marker.
  - destruct xs as [|a xs]; [apply g_scan_marker|].
    pose proof (Forall_inv F) as Ga. pose proof (Forall_inv_tail F) as F'.
    cbn [length] in Hn. rewrite word_text_cons.
    destruct xs as [|b xs].
    + cbn [merge_adjacent]. rewrite g_scan_past_symbol; try assumption.
      * rewrite word_text_nil, g_scan_marker. reflexivity.
      * destruct (literal_matches l prev _) eqn:M; [|reflexivity].
        apply g_match_at_symbol in M as (_ & (xs' & E) & _); try assumption.
        discriminate.
    + pose proof (Forall_inv_tail F') as F''. rewrite merge_adjacent_cons2.
      destruct (Str.eqb a f && Str.eqb b s)%bool eqn:T.
      * apply andb_true_iff in T as [Ta Tb].
        apply str_eqb_eq in Ta, Tb. rewrite Ta, Tb.
        rewrite !word_text_cons.
        pose proof (match_at_rule is_word_char word_char_is_word f s xs prev Wf Ws P) as M.
        replace (f ++ " " :: s ++ " " :: word_text xs)
          with (l ++ " " :: word_text xs) in *
          by (unfold l, pair_key; now rewrite <- app_assoc).
        rewrite scan_at_match; [|exact M|apply g_pair_nonempty].
        cbn [scan]. rewrite g_no_match_at_space.
        rewrite IH; try assumption; [|cbn [length] in Hn; lia|reflexivity].
        rewrite <- app_assoc. reflexivity.
      * rewrite g_scan_past_symbol; try assumption.
        -- rewrite IH; try assumption; [|lia|reflexivity].
           rewrite (word_text_cons a). reflexivity.
        -- destruct (literal_matches l prev _) eqn:M; [|reflexivity].
           apply g_match_at_symbol in M as (Ea & (xs' & E) & _); try assumption.
           injection E as Eb _. rewrite Ea, Eb, !str_eqb_refl in T. discriminate.
Qed.

(** A rule one of whose symbols is not a string of word characters matches
    nowhere. *)
Lemma g_nomatch : forall xs prev,
    ~ (wsym f /\ wsym s) ->
    Forall gsym xs -> is_word_opt prev = false ->
    forall u1 u2, word_text xs = u1 ++ u2 ->
                  literal_matches l (last_or u1 prev) u2 = false.
Proof.
  intros xs prev NW. revert prev.
  induction xs as [|a xs IH]; intros prev F P u1 u2 E.
  - apply no_space_no_match. intros I. apply marker_no_space.
    rewrite <- word_text_nil, E. now apply In_suffix.
  - pose proof (Forall_inv F) as Ga. pose proof (Forall_inv_tail F) as F'.
    rewrite word_text_cons in E.
    replace (a ++ " " :: word_text xs) with ((a ++ [" "]) ++ word_text xs) in E
      by (now rewrite <- app_assoc).
    apply app_eq_app in E as [t [[E1 E2]|[E1 E2]]].
    + destruct t as [|c t].
      * rewrite app_nil_r in E1. cbn [app] in E2. rewrite <- E1.
        rewrite last_or_app. cbn [last_or fold_left].
        apply (IH (Some " ") F' eq_refl [] u2). now rewrite E2.
      * rewrite E2.
        assert (M0 : literal_matches l prev (a ++ " " :: word_text xs) = false).
        { destruct (literal_matches l prev _) eqn:M; [|reflexivity].
          apply g_match_at_symbol in M as (_ & _ & Wf & Ws); try assumption.
          exfalso. now apply NW. }
        apply (g_positions_in_symbol a (word_text xs) prev Ga P M0 u1 (c :: t));
          [assumption|discriminate].
    + rewrite E1. rewrite last_or_app.
      replace (last_or (a ++ [" "]) prev) with (Some " ")
        by (now rewrite last_or_app).
      now apply (IH (Some " ") F' eq_refl t u2).
Qed.

(** The pattern replacement on a word of such symbols. *)
Lemma replace_merge_symbols : forall xs,
    Forall gsym xs ->
    replace_merge f s (word_text xs) = word_text (merge_by_pattern f s xs).
Proof.
  intros xs F. unfold merge_by_pattern.
  destruct (is_word_string f && is_word_string s)%bool eqn:T.
  - apply andb_true_iff in T as [Tf Ts].
    apply is_word_string_spec in Tf, Ts.
    rewrite replace_merge_scan.
    + now apply (g_scan_word_text (length xs)).
    + intros I. apply in_app_or in I as [I|I];
        [now apply (sym_no_dollar is_word_char word_char_is_word f)
        |now apply (sym_no_dollar is_word_char word_char_is_word s)].
  - unfold replace_merge. rewrite parse_merge_pattern. unfold replace_all.
    apply replace_go_nomatch. intros u1 u2 E.
    rewrite match_literal, hd_rev_app. cbn [hd_error].
    fold l. rewrite (g_nomatch xs None); try assumption; [reflexivity| |reflexivity].
    intros [Wf Ws]. apply is_word_string_spec in Wf, Ws.
    rewrite Wf, Ws in T. discriminate.
Qed.
End GeneralRule.

(** ** The words of a text *)

Lemma split_ws_nonnil : forall s b, split_ws b s <> [].
Proof.
  induction s as [|c s IH]; intros b; cbn; [discriminate|].
  destruct (is_ws c).
  - destruct b; [apply IH|discriminate].
  - destruct (split_ws false s); discriminate.
Qed.

Lemma split_ws_collapse : forall s b, split_ws b (collapse_ws b s) = split_ws b s.
Proof.
  induction s as [|c s IH]; intros b; [reflexivity|].
  cbn [collapse_ws split_ws]. destruct (is_ws c) eqn:W.
  - destruct b; [apply IH|].
    cbn [split_ws]. rewrite space_is_ws. now rewrite IH.
  - cbn [split_ws]. rewrite W, IH. reflexivity.
Qed.

Lemma filter_split_flag : forall s,
    filter nonempty (split_ws true s) = filter nonempty (split_ws false s).
Proof.
  intros [|c s]; [reflexivity|]. cbn [split_ws]. destruct (is_ws c); reflexivity.
Qed.

Lemma filter_split_any : forall s b,
    filter nonempty (split_ws b s) = filter nonempty (split_ws false s).
Proof. intros s [|]; [apply filter_split_flag|reflexivity]. Qed.

Lemma filter_split_leading : forall s b,
    filter nonempty (split_ws b (dropWhile is_ws s)) = filter nonempty (split_ws b s).
Proof.
  induction s as [|c s IH]; intros b; [reflexivity|].
  cbn [dropWhile]. destruct (is_ws c) eqn:W; [|reflexivity].
  rewrite IH. cbn [split_ws]. rewrite W.
  destruct b; [reflexivity|]. cbn [filter nonempty length Nat.eqb negb].
  symmetry. apply filter_split_flag.
Qed.

Lemma split_ws_trailing : forall tail,
    forallb is_ws tail = true ->
    forall s b, exists extra,
        split_ws b (s ++ tail) = split_ws b s ++ extra
        /\ Forall (fun p => p = []) extra.
Proof.
  intros tail T.
  assert (Tl : forall b, exists extra,
               split_ws b tail = [] :: extra /\ Forall (fun p : str => p = []) extra).
  { induction tail as [|c tail IH]; intros b; [exists []; split; [reflexivity|constructor]|].
    cbn in T. apply andb_true_iff in T as [Wc T].
    cbn [split_ws]. rewrite Wc. destruct (IH T true) as (extra & E & F).
    destruct b.
    - exists extra. now split.
    - exists ([] :: extra). split; [now rewrite E|]. now constructor. }
  induction s as [|c s IH]; intros b.
  - cbn [app]. destruct (Tl b) as (extra & E & F). exists extra. split; [|assumption].
    now rewrite E.
  - cbn [app split_ws]. destruct (is_ws c).
    + destruct b.
      * apply IH.
      * destruct (IH true) as (extra & E & F). exists extra. split; [|assumption].
        now rewrite E.
    + destruct (IH false) as (extra & E & F). exists extra. split; [|assumption].
      rewrite E. destruct (split_ws false s) as [|p ps] eqn:S; [|reflexivity].
      exfalso. now apply (split_ws_nonnil s false).
Qed.

Lemma filter_split_trailing : forall s tail b,
    forallb is_ws tail = true ->
    filter nonempty (split_ws b (s ++ tail)) = filter nonempty (split_ws b s).
Proof.
  intros s tail b T. destruct (split_ws_trailing tail T s b) as (extra & -> & F).
  rewrite filter_app.
  assert (filter nonempty extra = []) as ->; [|apply app_nil_r].
  induction F as [|p extra -> F IH]; [reflexivity|]. cbn. exact IH.
Qed.

Lemma dropWhile_decompose : forall p (s : str),
    exists lead, s = lead ++ dropWhile p s /\ forallb p lead = true.
Proof.
  intros p. induction s as [|c s (lead & E & F)]; [exists []; now split|].
  cbn [dropWhile]. destruct (p c) eqn:Pc.
  - exists (c :: lead). split; [cbn; now rewrite <- E|cbn; now rewrite Pc].
  - exists []. now split.
Qed.

Lemma filter_split_trim : forall s b,
    filter nonempty (split_ws b (trim s)) = filter nonempty (split_ws b s).
Proof.
  intros s b. rewrite <- (filter_split_leading s b).
  destruct (dropWhile_decompose is_ws (rev (dropWhile is_ws s))) as (lead & E & F).
  assert (E' : dropWhile is_ws s = trim s ++ rev lead).
  { unfold trim. rewrite <- rev_app_distr, <- E. now rewrite rev_involutive. }
  rewrite E'. symmetry. apply filter_split_trailing.
  rewrite forallb_forall in *. intros x I. apply F. now apply in_rev.
Qed.

(** [tokenize] sees the words [train] sees. *)
Lemma tokenize_words : forall text,
    filter nonempty (split_ws false (toLowerCase text)) = wordList_of text.
Proof.
  intros text. unfold wordList_of. now rewrite filter_split_trim, split_ws_collapse.
Qed.

Lemma wordList_words_ok : forall text, Forall word_ok (wordList_of text).
Proof.
  intros text. apply Forall_forall. intros w I. now apply wordList_clean in I.
Qed.

(** ** Training and encoding on any text *)

Lemma clean_char_gsym : forall c, clean_char c = true -> gsym [c].
Proof.
  intros c C. destruct (is_word_char c) eqn:W.
  - left. split; [discriminate|]. cbn. now rewrite W.
  - right. exists c. repeat split; [assumption|].
    intros ->. discriminate.
Qed.

Lemma split_chars_gsyms : forall w, word_ok w -> Forall gsym (split_chars w).
Proof.
  intros w W. unfold split_chars. apply Forall_forall. intros x I.
  apply in_map_iff in I as (c & <- & I). apply clean_char_gsym.
  now apply (word_ok_chars w).
Qed.

Lemma concat_split_chars : forall w, concat (split_chars w) = w.
Proof.
  induction w as [|c w IH]; [reflexivity|]. unfold split_chars in *. cbn. now rewrite IH.
Qed.

Lemma g_split_word_text : forall xs,
    Forall gsym xs -> split_on " " (word_text xs) = xs ++ [marker].
Proof.
  intros xs F. unfold word_text. apply split_on_join.
  - destruct xs; discriminate.
  - apply Forall_app. split.
    + apply Forall_forall. intros x I. rewrite Forall_forall in F.
      apply gsym_no_space. now apply F.
    + constructor; [apply marker_no_space|constructor].
Qed.

Lemma wsym_app : forall x y, wsym x -> wsym y -> wsym (x ++ y).
Proof. intros x y. apply sym_app. Qed.

Lemma merge_by_pattern_gsyms : forall f s xs,
    Forall gsym xs -> Forall gsym (merge_by_pattern f s xs).
Proof.
  intros f s xs F. unfold merge_by_pattern.
  destruct (is_word_string f && is_word_string s)%bool eqn:T; [|assumption].
  apply andb_true_iff in T as [Tf Ts]. apply is_word_string_spec in Tf, Ts.
  apply Forall_forall. intros x I. apply merge_adjacent_In in I as [I| ->].
  - rewrite Forall_forall in F. now apply F.
  - left. now apply wsym_app.
Qed.

Lemma merge_by_pattern_concat : forall f s xs,
    concat (merge_by_pattern f s xs) = concat xs.
Proof.
  intros f s xs. unfold merge_by_pattern.
  destruct (is_word_string f && is_word_string s)%bool; [|reflexivity].
  apply merge_adjacent_concat.
Qed.

Lemma merge_by_pattern_In : forall f s xs x,
    In x (merge_by_pattern f s xs) -> In x xs \/ x = f ++ s.
Proof.
  intros f s xs x. unfold merge_by_pattern.
  destruct (is_word_string f && is_word_string s)%bool; [|now left].
  apply merge_adjacent_In.
Qed.

Lemma g_word_symbols : forall xs a b,
    Forall gsym xs ->
    In (a, b) (adjacent_pairs (split_on " " (word_text xs))) ->
    In a (xs ++ [marker]) /\ In b (xs ++ [marker]).
Proof.
  intros xs a b F I. rewrite g_split_word_text in I by assumption.
  now apply adjacent_pairs_In in I.
Qed.

Lemma step_inv_g : forall cfg st st',
    train_inv_g st -> train_step cfg st = Some st' -> train_inv_g st'.
Proof.
  intros cfg st st' (W & M & Hm) E.
  apply train_step_some in E
    as (pre & a & b & m & post & w & fq & _ & _ & _ & Iw & Iab & _ & _ & _ & _ & Em
        & Ew & _ & Ea).
  destruct (W _ Iw) as (xs & Fxs & Kxs & Exs). cbn [fst] in Exs. subst w.
  destruct (g_word_symbols xs a b Fxs Iab) as [Ia Ib].
  assert (Sym : forall x, In x (xs ++ [marker]) ->
                          gsym_or_marker x /\ JsMap.has (l_vocabulary st) x = true).
  { intros x Ix. apply in_app_or in Ix as [Ix|[<-|[]]].
    - rewrite Forall_forall in Fxs, Kxs. split; [left; now apply Fxs|now apply Kxs].
    - split; [now right|assumption]. }
  destruct (Sym a Ia) as [Ga Ka]. destruct (Sym b Ib) as [Gb Kb].
  assert (Ev : l_vocabulary st'
               = fst (fst (add_if_new (l_vocabulary st, l_reverseVocabulary st,
                                       l_tokenId st) (a ++ b)))).
  { now rewrite <- Ea. }
  assert (Mono : forall x, JsMap.has (l_vocabulary st) x = true ->
                           JsMap.has (l_vocabulary st') x = true).
  { intros x Hx. rewrite Ev. now apply add_if_new_has_mono. }
  assert (New : JsMap.has (l_vocabulary st') (a ++ b) = true).
  { rewrite Ev. apply add_if_new_has_new. }
  split; [|split].
  - intros e I. rewrite Ew in I. apply applyMerge_In in I as (w' & I & E').
    destruct (W _ I) as (xs' & Fxs' & Kxs' & Exs'). cbn [fst snd] in *. subst w'.
    exists (merge_by_pattern a b xs'). split; [now apply merge_by_pattern_gsyms|].
    split; [|rewrite E'; now apply replace_merge_symbols].
    apply Forall_forall. intros x Ix. apply merge_by_pattern_In in Ix as [Ix| ->].
    + apply Mono. rewrite Forall_forall in Kxs'. now apply Kxs'.
    + exact New.
  - intros f s I. rewrite Em in I. apply in_app_or in I as [I|[I|[]]].
    + destruct (M f s I) as (Sf & Ss & Hf & Hs & H). repeat split; auto.
    + injection I as <- <-. repeat split; auto.
  - now apply Mono.
Qed.

Lemma g_seed_has_marker : forall cfg text,
    JsMap.has (seed_vocabulary cfg text) marker = true.
Proof. intros. unfold seed_vocabulary, seed. apply add_if_new_has_new. Qed.

(** Every character of a word of the text is a token of the seed. *)
Lemma g_seed_has_chars : forall cfg text w c,
    In w (wordList_of text) -> In c w ->
    JsMap.has (seed_vocabulary cfg text) [c] = true.
Proof.
  intros cfg text w c Iw Ic. unfold seed_vocabulary, seed.
  apply add_if_new_has_mono. apply fold_add_if_new_has. apply sort_In.
  pose proof (wordList_clean text w Iw) as Sw.
  apply (collect_chars_complete _ (processedWord w)).
  - now apply count_words_keys.
  - rewrite processedWord_word_text by apply Sw.
    rewrite g_split_word_text by now apply split_chars_gsyms.
    apply in_or_app. left. unfold split_chars. apply in_map_iff. now exists c.
  - discriminate.
  - discriminate.
Qed.

Lemma init_inv_g : forall cfg text, train_inv_g (train_init cfg text).
Proof.
  intros cfg text. destruct (train_init_fields cfg text) as (Em & _ & Ev).
  split; [|split].
  - intros e I. rewrite train_init_words in I.
    apply count_words_In in I as [(w & Iw & E) _].
    pose proof (wordList_clean text w Iw) as Sw.
    exists (split_chars w). split; [now apply split_chars_gsyms|].
    split; [|rewrite E; apply processedWord_word_text; apply Sw].
    apply Forall_forall. intros x Ix. unfold split_chars in Ix.
    apply in_map_iff in Ix as (c & <- & Ic). rewrite Ev.
    now apply (g_seed_has_chars cfg text w).
  - intros f s I. rewrite Em in I. contradiction.
  - rewrite Ev. apply g_seed_has_marker.
Qed.

Lemma loop_inv_g : forall cfg text fuel,
    train_inv_g (train_loop fuel cfg (train_init cfg text)).
Proof.
  intros cfg text fuel. apply train_loop_ind; [|apply init_inv_g].
  intros st st' I _ E. now apply (step_inv_g cfg st).
Qed.

(** With a vocabulary, [tokenize] encodes the words of the text one by one. *)
Lemma tokenize_flat_map : forall t text,
    vocabulary t <> [] ->
    tokenize t text = Ok (flat_map (word_ids t) (wordList_of text)).
Proof.
  intros t text V. unfold tokenize.
  assert (Hv : Nat.eqb (JsMap.size (vocabulary t)) 0 = false).
  { apply Nat.eqb_neq. intros Z0. unfold JsMap.size in Z0.
    destruct (vocabulary t); [now apply V|discriminate]. }
  rewrite Hv. destruct (nonempty text) eqn:Ne; cbn [negb].
  - now rewrite tokenize_words.
  - apply nonempty_false in Ne. subst. reflexivity.
Qed.

Lemma has_not_nil : forall (v : JsMap.t str N) k, JsMap.has v k = true -> v <> [].
Proof. intros v k H ->. discriminate. Qed.

(** What a tokenizer needs for the lemmas on encoding below; every
    tokenizer that [train] returns has it ([train_encoder_ok]). *)
Section Encoder.
Variable t : BPETokenizer.
Hypothesis t_specials : forall sp,
    In sp (specialTokens (config t)) -> ~ gsym sp.
Hypothesis t_inverse : forall tok id,
    JsMap.get (vocabulary t) tok = Some id ->
    JsMap.get (reverseVocabulary t) id = Some tok.
Hypothesis t_merges : forall f s,
    In (f, s) (merges t) ->
    gsym_or_marker f /\ gsym_or_marker s
    /\ JsMap.has (vocabulary t) f = true
    /\ JsMap.has (vocabulary t) s = true
    /\ JsMap.has (vocabulary t) (f ++ s) = true.
Hypothesis t_marker : JsMap.has (vocabulary t) marker = true.

Let known (x : str) : Prop := JsMap.has (vocabulary t) x = true.

Lemma g_apply_merges_known : forall ms xs,
    (forall f s, In (f, s) ms -> In (f, s) (merges t)) ->
    Forall gsym xs -> Forall known xs ->
    exists xs',
      apply_merges ms (word_text xs) = word_text xs'
      /\ Forall gsym xs' /\ Forall known xs' /\ concat xs' = concat xs.
Proof.
  induction ms as [|[f s] ms IH]; intros xs Sub F K.
  - exists xs. repeat split; assumption.
  - destruct (t_merges f s (Sub f s (or_introl eq_refl))) as (Sf & Ss & _ & _ & Hfs).
    unfold apply_merges. cbn [fold_left fst snd].
    rewrite (replace_merge_symbols f s Sf Ss xs F).
    destruct (IH (merge_by_pattern f s xs)) as (xs' & E & F' & K' & C').
    + intros f' s' I. apply Sub. now right.
    + now apply merge_by_pattern_gsyms.
    + apply Forall_forall. intros x I. apply merge_by_pattern_In in I as [I| ->].
      * rewrite Forall_forall in K. now apply K.
      * exact Hfs.
    + exists xs'. repeat split; try assumption.
      rewrite C'. apply merge_by_pattern_concat.
Qed.

Lemma g_lookup_known : forall parts,
    Forall known parts ->
    exists ids,
      flat_map
        (fun part =>
           match JsMap.get (vocabulary t) part with
           | Some tokenId => [tokenId]
           | None =>
               match JsMap.get (vocabulary t) (unknownToken (config t)) with
               | Some unkId => [unkId]
               | None => []
               end
           end) parts = ids
      /\ Forall2 (fun id x => JsMap.get (reverseVocabulary t) id = Some x) ids parts.
Proof.
  induction parts as [|x parts IH]; intros K.
  - exists []. split; [reflexivity|constructor].
  - pose proof (Forall_inv K) as Kx. pose proof (Forall_inv_tail K) as K'.
    destruct (IH K') as (ids & E & F2).
    unfold known, JsMap.has in Kx.
    destruct (JsMap.get (vocabulary t) x) as [id|] eqn:G; [|discriminate].
    exists (id :: ids). cbn [flat_map]. rewrite G, E. split; [reflexivity|].
    constructor; [now apply t_inverse|assumption].
Qed.

Lemma gsym_not_special : forall x,
    gsym x -> includes (specialTokens (config t)) x = false.
Proof.
  intros x S. destruct (includes _ x) eqn:I; [|reflexivity].
  apply includes_In in I. exfalso. now apply (t_specials x).
Qed.

(** The ids of a word whose characters are all tokens decode to the word. *)
Lemma g_word_ids_decode : forall w words,
    word_ok w ->
    (forall c, In c w -> JsMap.has (vocabulary t) [c] = true) ->
    fold_left (detokenize_step t) (word_ids t w) (words, []) = (words ++ [w], []).
Proof.
  intros w words Sw Kw.
  destruct (g_apply_merges_known (merges t) (split_chars w)) as (xs & E & F & K & C).
  - auto.
  - now apply split_chars_gsyms.
  - apply Forall_forall. intros x I. unfold split_chars in I.
    apply in_map_iff in I as (c & <- & Ic). now apply Kw.
  - unfold word_ids. rewrite processedWord_word_text by apply Sw. rewrite E.
    rewrite g_split_word_text by assumption.
    assert (Fne : filter nonempty (xs ++ [marker]) = xs ++ [marker]).
    { rewrite filter_app. cbn [filter]. change (nonempty marker) with true.
      f_equal. clear -F. induction xs as [|x xs IH]; [reflexivity|].
      pose proof (Forall_inv F) as Gx. cbn [filter].
      rewrite (proj2 (nonempty_true x) (gsym_nonempty x Gx)).
      f_equal. apply IH. now apply Forall_inv_tail in F. }
    rewrite Fne.
    destruct (g_lookup_known (xs ++ [marker])) as (ids & El & F2).
    { apply Forall_app. split; [assumption|]. constructor; [exact t_marker|constructor]. }
    rewrite El. apply Forall2_app_inv_r in F2 as (ids1 & ids2 & F21 & F22 & ->).
    apply Forall2_single_r in F22 as (mid & -> & Gm).
    rewrite fold_left_app.
    assert (F2' : Forall2
                    (fun id tok =>
                       JsMap.get (reverseVocabulary t) id = Some tok
                       /\ tok <> marker
                       /\ includes (specialTokens (config t)) tok = false) ids1 xs).
    { clear -F21 F t_specials. induction F21 as [|id x ids xs G F21 IH].
      - constructor.
      - pose proof (Forall_inv F) as Sx. pose proof (Forall_inv_tail F) as F'.
        constructor; [|now apply IH].
        split; [assumption|]. split; [now apply gsym_not_marker|].
        now apply gsym_not_special. }
    pose proof (run_text t ids1 xs words [] F2') as R.
    match goal with
    | |- fold_left _ _ ?x = _ =>
        replace x with (words, concat xs) by (symmetry; exact R)
    end.
    cbn [fold_left]. unfold detokenize_step. rewrite Gm. cbn.
    rewrite C, concat_split_chars.
    rewrite (proj2 (nonempty_true w) (proj1 Sw)). reflexivity.
Qed.

Lemma g_words_ids_decode : forall ws0 words,
    Forall word_ok ws0 ->
    (forall w c, In w ws0 -> In c w -> JsMap.has (vocabulary t) [c] = true) ->
    fold_left (detokenize_step t) (flat_map (word_ids t) ws0) (words, [])
    = (words ++ ws0, []).
Proof.
  induction ws0 as [|w ws0 IH]; intros words F K.
  - cbn. now rewrite app_nil_r.
  - cbn [flat_map]. rewrite fold_left_app.
    rewrite g_word_ids_decode;
      [|exact (Forall_inv F)|intros c Ic; apply (K w); [now left|assumption]].
    rewrite IH; [|exact (Forall_inv_tail F)|intros x c Ix Ic; apply (K x); [now right|assumption]].
    rewrite <- app_assoc. reflexivity.
Qed.

(** Encoding then decoding a text all of whose characters are tokens gives
    its normal form. *)
Lemma g_roundtrip : forall text,
    (forall w c, In w (wordList_of text) -> In c w ->
                 JsMap.has (vocabulary t) [c] = true) ->
    exists ids, tokenize t text = Ok ids /\ detokenize t ids = normalized text.
Proof.
  intros text K. eexists.
  split; [apply tokenize_flat_map; exact (has_not_nil _ _ t_marker)|].
  rewrite detokenize_run.
  rewrite (g_words_ids_decode (wordList_of text) []);
    [reflexivity|apply wordList_words_ok|exact K].
Qed.
End Encoder.

(** A tokenizer returned by [train] has what the lemmas above need. *)
Lemma train_encoder_ok : forall t0 text t,
    train t0 text = (t, Ok tt) ->
    (forall tok id, JsMap.get (vocabulary t) tok = Some id ->
                    JsMap.get (reverseVocabulary t) id = Some tok)
    /\ (forall f s, In (f, s) (merges t) ->
                    gsym_or_marker f /\ gsym_or_marker s
                    /\ JsMap.has (vocabulary t) f = true
                    /\ JsMap.has (vocabulary t) s = true
                    /\ JsMap.has (vocabulary t) (f ++ s) = true)
    /\ JsMap.has (vocabulary t) marker = true
    /\ (forall w c, In w (wordList_of text) -> In c w ->
                    JsMap.has (vocabulary t) [c] = true).
Proof.
  intros t0 text t E.
  destruct (train_maps_wf _ _ _ E) as (_ & _ & Hinv).
  apply train_ok in E as (_ & st & Est & Ev & Er & Em & Ecfg).
  destruct (loop_inv_g (config t0) text (Z.to_nat (maxMerges_of (config t0))))
    as (_ & M & Hm).
  rewrite <- Est in M, Hm.
  destruct (train_init_fields (config t0) text) as (_ & _ & Iv).
  split; [exact Hinv|]. split; [|split].
  - intros f s I. rewrite Em in I. rewrite Ev. now apply M.
  - now rewrite Ev.
  - intros w c Iw Ic. rewrite Ev, Est. apply train_loop_has_mono.
    rewrite Iv. now apply (g_seed_has_chars _ text w).
Qed.

Lemma is_symbol_spec : forall x, is_symbol x = true <-> gsym x.
Proof.
  intros x. unfold is_symbol. rewrite orb_true_iff. split.
  - intros [W|P].
    + left. now apply is_word_string_spec.
    + right. destruct x as [|c [|d x]]; try discriminate.
      apply andb_true_iff in P as [P1 P2].
      apply negb_true_iff in P1, P2. exists c. repeat split; [assumption|].
      intros ->. discriminate.
  - intros [W|(c & -> & P1 & P2)].
    + left. now apply is_word_string_spec.
    + right. rewrite P1. cbn. apply negb_true_iff. apply Ascii.eqb_neq. exact P2.
Qed.

Lemma no_symbol_special : forall specials,
    existsb is_symbol specials = false ->
    forall sp, In sp specials -> ~ gsym sp.
Proof.
  intros specials E sp I G. apply is_symbol_spec in G.
  assert (existsb is_symbol specials = true) by (apply existsb_exists; now exists sp).
  congruence.
Qed.

(** The pieces of a split hold every character that is not white space. *)
Lemma split_ws_covers : forall s b c,
    In c s -> is_ws c = false -> exists p, In p (split_ws b s) /\ In c p.
Proof.
  induction s as [|d s IH]; intros b c I W; [contradiction|].
  cbn [split_ws]. destruct I as [->|I].
  - rewrite W. destruct (split_ws false s) as [|p ps].
    + exists [c]. split; now left.
    + exists (c :: p). split; now left.
  - destruct (is_ws d).
    + destruct (IH true c I W) as (p & Ip & Ic).
      exists p. split; [|assumption]. destruct b; [assumption|now right].
    + destruct (IH false c I W) as (p & Ip & Ic).
      destruct (split_ws false s) as [|q qs]; [contradiction|].
      destruct Ip as [->|Ip].
      * exists (d :: p). split; [now left|now right].
      * exists p. split; [now right|assumption].
Qed.

Lemma wordList_chars : forall text w c,
    In w (wordList_of text) -> In c w ->
    In c (toLowerCase text) /\ is_ws c = false.
Proof.
  intros text w c Iw Ic. rewrite <- tokenize_words in Iw.
  apply filter_In in Iw as [Iw _]. split.
  - assert (F : Forall (fun c => In c (toLowerCase text)) (toLowerCase text))
      by (apply Forall_forall; auto).
    pose proof (split_ws_Forall _ _ _ _ F Iw) as Fw.
    rewrite Forall_forall in Fw. now apply Fw.
  - pose proof (split_ws_no_ws _ _ _ Iw) as Fw.
    rewrite Forall_forall in Fw. now apply Fw.
Qed.

Lemma wordList_covers : forall text c,
    In c (toLowerCase text) -> is_ws c = false ->
    exists w, In w (wordList_of text) /\ In c w.
Proof.
  intros text c I W. destruct (split_ws_covers _ false c I W) as (p & Ip & Ic).
  exists p. split; [|assumption]. rewrite <- tokenize_words.
  apply filter_In. split; [assumption|]. apply nonempty_true.
  intros ->. contradiction.
Qed.

Lemma covers_words : forall text text' w c,
    covers text text' = true ->
    In w (wordList_of text') -> In c w ->
    exists w0, In w0 (wordList_of text) /\ In c w0.
Proof.
  intros text text' w c Cov Iw Ic.
  destruct (wordList_chars text' w c Iw Ic) as [I W].
  unfold toLowerCase in I. apply in_map_iff in I as (c' & <- & I').
  unfold covers in Cov. rewrite forallb_forall in Cov.
  specialize (Cov c' I'). apply orb_true_iff in Cov as [Wc|E].
  - rewrite toLowerChar_ws in W. congruence.
  - apply existsb_exists in E as (d & Id & Ed). apply Ascii.eqb_eq in Ed. subst d.
    now apply wordList_covers.
Qed.

Lemma covers_refl : forall text, covers text text = true.
Proof.
  intros text. unfold covers. apply forallb_forall. intros c I.
  apply orb_true_iff. right. apply existsb_exists. exists (toLowerChar c).
  split; [|apply Ascii.eqb_refl]. unfold toLowerCase. now apply in_map.
Qed.

Lemma flat_map_known_ids : forall t ws0,
    (forall tok id, JsMap.get (vocabulary t) tok = Some id ->
                    JsMap.get (reverseVocabulary t) id = Some tok) ->
    forallb (fun id => JsMap.has (reverseVocabulary t) id)
            (flat_map (word_ids t) ws0) = true.
Proof.
  intros t ws0 Inv. apply forallb_forall. intros id I.
  apply in_flat_map in I as (w & _ & I). unfold word_ids in I.
  apply in_flat_map in I as (part & _ & I).
  assert (K : forall tok, JsMap.get (vocabulary t) tok = Some id ->
                          JsMap.has (reverseVocabulary t) id = true).
  { intros tok G. unfold JsMap.has. now rewrite (Inv _ _ G). }
  destruct (JsMap.get (vocabulary t) part) as [i|] eqn:G.
  - destruct I as [<-|[]]. now apply (K part).
  - destruct (JsMap.get (vocabulary t) (unknownToken (config t))) as [u|] eqn:U;
      [|contradiction].
    destruct I as [<-|[]]. now apply (K (unknownToken (config t))).
Qed.

Lemma roundtrip_normal_form_holds : forall (t0 : BPETokenizer) (text text' : str),
    blank text = false ->
    existsb is_symbol (specialTokens (config t0)) = false ->
    covers text text' = true ->
    let t := fst (train t0 text) in
    snd (train t0 text) = Ok tt
    /\ exists ids,
        tokenize t text' = Ok ids
        /\ detokenize t ids = normalized text'
        /\ forallb (fun id => JsMap.has (reverseVocabulary t) id) ids = true.
Proof.
  intros t0 text text' B Sp Cov t.
  pose proof (train_blank_or_ok t0 text B) as O. split; [exact O|].
  assert (E : train t0 text = (t, Ok tt)).
  { subst t. rewrite <- O. apply surjective_pairing. }
  destruct (train_encoder_ok _ _ _ E) as (Inv & M & Hm & Ch).
  apply train_ok in E as (_ & _ & _ & _ & _ & _ & Ecfg).
  assert (K : forall w c, In w (wordList_of text') -> In c w ->
                          JsMap.has (vocabulary t) [c] = true).
  { intros w c Iw Ic. destruct (covers_words _ _ _ _ Cov Iw Ic) as (w0 & Iw0 & Ic0).
    now apply (Ch w0). }
  assert (Sp' : forall sp, In sp (specialTokens (config t)) -> ~ gsym sp).
  { rewrite Ecfg. now apply no_symbol_special. }
  destruct (g_roundtrip t Sp' Inv M Hm text' K) as (ids & Et & Ed).
  exists ids. repeat split; try assumption.
  rewrite (tokenize_flat_map t text' (has_not_nil _ _ Hm)) in Et. injection Et as <-.
  now apply flat_map_known_ids.
Qed.

(** X12.  After train(text) on a text that is not blank, with special tokens
    none of which is a word-character string or a single non-space
    character: for every text' whose characters, lowercased, are white space
    or occur in the lowercased training text, tokenize(text') returns ids,
    every id is a key of reverseVocabulary, and detokenize of the ids is the
    normal form of text' (lowercased, words one space apart, no white space
    at the ends), whatever digits, punctuation, upper case or white space
    text' contains. *)
Theorem roundtrip_normal_form : forall (t0 : BPETokenizer) (text text' : str),
    blank text = false ->
    existsb is_symbol (specialTokens (config t0)) = false ->
    covers text text' = true ->
    let t := fst (train t0 text) in
    snd (train t0 text) = Ok tt
    /\ exists ids,
        tokenize t text' = Ok ids
        /\ detokenize t ids = normalized text'
        /\ forallb (fun id => JsMap.has (reverseVocabulary t) id) ids = true.
Proof. exact roundtrip_normal_form_holds. Qed.

Lemma roundtrip_normal_form_witness :
  let t0 := constructor no_options in
  let t := fst (train t0 (lit "Hello,  World!")) in
  exists ids,
    tokenize t (lit " world, HELLO") = Ok ids
    /\ detokenize t ids = lit "world, hello".
Proof.
  destruct (roundtrip_normal_form (constructor no_options)
              (lit "Hello,  World!") (lit " world, HELLO"))
    as (_ & ids & E1 & E2 & _); [reflexivity|reflexivity|reflexivity|].
  exists ids. split; [exact E1|]. rewrite E2. reflexivity.
Defined.

(** ** Texts and their normal forms *)

Lemma wordList_nil : wordList_of [] = [].
Proof. reflexivity. Qed.

Lemma wordList_normalized : forall text, wordList_of (normalized text) = wordList_of text.
Proof.
  intros text. unfold normalized.
  destruct (wordList_of text) as [|w ws] eqn:E; [reflexivity|].
  apply joined_wordList; [discriminate|]. rewrite <- E. apply wordList_words_ok.
Qed.

Lemma blank_wordList : forall text, blank text = true -> wordList_of text = [].
Proof.
  intros text B. destruct (wordList_of text) as [|w ws] eqn:E; [reflexivity|].
  exfalso. assert (Iw : In w (wordList_of text)) by (rewrite E; now left).
  destruct (wordList_clean _ _ Iw) as [Ne _].
  destruct w as [|c w]; [now apply Ne|].
  destruct (wordList_chars text (c :: w) c Iw (or_introl eq_refl)) as [I W].
  unfold toLowerCase in I. apply in_map_iff in I as (c' & <- & I').
  unfold blank in B. rewrite forallb_forall in B. specialize (B c' I').
  rewrite toLowerChar_ws in W. congruence.
Qed.

Lemma wordList_blank : forall text, wordList_of text = [] -> blank text = true.
Proof.
  intros text E. unfold blank. apply forallb_forall. intros c I.
  destruct (is_ws c) eqn:W; [reflexivity|]. exfalso.
  destruct (wordList_covers text (toLowerChar c)) as (w & Iw & _).
  - unfold toLowerCase. now apply in_map.
  - now rewrite toLowerChar_ws.
  - rewrite E in Iw. contradiction.
Qed.

Lemma normalized_not_blank : forall text,
    blank text = false -> blank (normalized text) = false.
Proof.
  intros text B. unfold normalized. apply joined_not_blank.
  - intros E. apply wordList_blank in E. congruence.
  - apply wordList_words_ok.
Qed.

Lemma split_ws_cons_word : forall a s b,
    is_ws a = false ->
    split_ws b (a :: s) = (a :: hd [] (split_ws false s)) :: tl (split_ws false s).
Proof.
  intros a s b W. cbn [split_ws]. rewrite W.
  destruct (split_ws false s) eqn:E; [|reflexivity].
  exfalso. now apply (split_ws_nonnil s false).
Qed.

Lemma split_ws_sep : forall v c,
    is_ws c = true ->
    forall u,
      filter nonempty (split_ws true (u ++ c :: v))
      = filter nonempty (split_ws true u) ++ filter nonempty (split_ws false v)
      /\ hd [] (split_ws false (u ++ c :: v)) = hd [] (split_ws false u)
      /\ filter nonempty (tl (split_ws false (u ++ c :: v)))
         = filter nonempty (tl (split_ws false u)) ++ filter nonempty (split_ws false v).
Proof.
  intros v c W. induction u as [|a u (Q & P1 & P2)].
  - cbn [app split_ws]. rewrite W. cbn [hd tl filter nonempty length Nat.eqb negb app].
    rewrite filter_split_flag. repeat split.
  - cbn [app]. destruct (is_ws a) eqn:Wa.
    + cbn [split_ws]. rewrite Wa. cbn [hd tl]. repeat split; assumption.
    + rewrite !(split_ws_cons_word a _ _ Wa). cbn [hd tl filter].
      rewrite P1, P2. change (nonempty (a :: hd [] (split_ws false u))) with true.
      repeat split.
Qed.

Lemma hd_tl_nonnil : forall (l : list str), l <> [] -> l = hd [] l :: tl l.
Proof. intros [|x l] H; [now elim H|reflexivity]. Qed.

(** The words of two texts put side by side with white space between. *)
Lemma wordList_sep : forall u c v,
    is_ws c = true ->
    wordList_of (u ++ c :: v) = wordList_of u ++ wordList_of v.
Proof.
  intros u c v W. rewrite <- !tokenize_words.
  unfold toLowerCase. rewrite map_app. cbn [map].
  assert (W' : is_ws (toLowerChar c) = true) by now rewrite toLowerChar_ws.
  destruct (split_ws_sep (map toLowerChar v) _ W' (map toLowerChar u)) as (_ & P1 & P2).
  pose proof (hd_tl_nonnil _ (split_ws_nonnil
                (map toLowerChar u ++ toLowerChar c :: map toLowerChar v) false)) as EX.
  pose proof (hd_tl_nonnil _ (split_ws_nonnil (map toLowerChar u) false)) as EU.
  set (X := split_ws false (map toLowerChar u ++ toLowerChar c :: map toLowerChar v)) in *.
  set (U := split_ws false (map toLowerChar u)) in *.
  rewrite EX, EU. cbn [filter]. rewrite P1, P2.
  destruct (nonempty (hd [] U)); reflexivity.
Qed.

(** X9.  For every tokenizer state and every text, tokenize gives the same
    outcome (the same ids, or the same error) on the text and on its normal
    form (lowercased, words one space apart, no white space at the ends):
    upper case and the amount and kind of white space never change the ids. *)
Theorem tokenize_normal_form : forall (t : BPETokenizer) (text : str),
    tokenize t (normalized text) = tokenize t text.
Proof.
  intros t text. destruct (vocabulary t) as [|e v] eqn:V.
  - unfold tokenize. now rewrite V.
  - rewrite !tokenize_flat_map by (rewrite V; discriminate).
    now rewrite wordList_normalized.
Qed.

(** X10.  With a non-empty vocabulary, the ids of two texts joined by one
    white-space character are the ids of the first text followed by the ids
    of the second: tokenize works word by word and no merge rule reaches
    across white space. *)
Theorem tokenize_concatenates : forall (t : BPETokenizer) (u v : str) (c : ascii),
    vocabulary t <> [] ->
    is_ws c = true ->
    exists a b,
      tokenize t u = Ok a /\ tokenize t v = Ok b
      /\ tokenize t (u ++ c :: v) = Ok (a ++ b).
Proof.
  intros t u v c V W. rewrite !tokenize_flat_map by assumption.
  eexists. eexists. split; [reflexivity|]. split; [reflexivity|].
  rewrite wordList_sep by assumption. now rewrite flat_map_app.
Qed.

Lemma tokenize_concatenates_witness :
  let t := fst (train (constructor no_options) (lit "low lower")) in
  exists a b,
    tokenize t (lit "low") = Ok a /\ tokenize t (lit "lower") = Ok b
    /\ tokenize t (lit "low" ++ " " :: lit "lower") = Ok (a ++ b).
Proof.
  apply (tokenize_concatenates
           (fst (train (constructor no_options) (lit "low lower")))
           (lit "low") (lit "lower") " ").
  - vm_compute. discriminate.
  - reflexivity.
Defined.

(** X8.  train sees its text only through the text's normal form
    (lowercased, words one space apart, no white space at the ends): for a
    text that is not blank, training on the normal form also succeeds and
    gives the same vocabulary, the same inverse vocabulary and the same
    merge list as training on the text itself. *)
Theorem train_normal_form : forall (t0 : BPETokenizer) (text : str),
    blank text = false ->
    let t := fst (train t0 text) in
    let t' := fst (train t0 (normalized text)) in
    snd (train t0 (normalized text)) = Ok tt
    /\ vocabulary t' = vocabulary t
    /\ reverseVocabulary t' = reverseVocabulary t
    /\ merges t' = merges t.
Proof.
  intros t0 text B t t'.
  pose proof (normalized_not_blank text B) as B'.
  pose proof (train_blank_or_ok t0 _ B') as O'.
  pose proof (train_blank_or_ok t0 _ B) as O.
  split; [exact O'|].
  assert (E : train t0 text = (t, Ok tt)).
  { subst t. rewrite <- O. apply surjective_pairing. }
  assert (E' : train t0 (normalized text) = (t', Ok tt)).
  { subst t'. rewrite <- O'. apply surjective_pairing. }
  apply train_ok in E as (_ & st & Est & Ev & Er & Em & _).
  apply train_ok in E' as (_ & st' & Est' & Ev' & Er' & Em' & _).
  assert (I : train_init (config t0) (normalized text) = train_init (config t0) text).
  { unfold train_init. now rewrite wordList_normalized. }
  rewrite I in Est'. rewrite <- Est in Est'. subst st'.
  rewrite Ev, Er, Em, Ev', Er', Em'. repeat split.
Qed.

Lemma train_normal_form_witness :
  let t0 := constructor no_options in
  vocabulary (fst (train t0 (lit "low lower")))
  = vocabulary (fst (train t0 (lit " LOW   Lower "))).
Proof.
  destruct (train_normal_form (constructor no_options) (lit " LOW   Lower "))
    as (_ & E & _); [reflexivity|].
  cbn zeta. rewrite <- E. reflexivity.
Defined.

(** ** Validation and benchmark *)

Lemma train_config : forall t text, config (fst (train t text)) = config t.
Proof.
  intros t text. unfold train.
  destruct (negb (nonempty text) || Nat.eqb (length (trim text)) 0)%bool; reflexivity.
Qed.

Lemma validateRoundTrip_trained : forall (t0 : BPETokenizer) (text text' : str),
    blank text = false ->
    existsb is_symbol (specialTokens (config t0)) = false ->
    covers text text' = true ->
    let r := validateRoundTrip (fst (train t0 text)) text' in
    reconstructedText r = normalized text'
    /\ isValid r = Str.eqb text' (normalized text')
    /\ tokensMatch r = true
    /\ (isValid r = true <-> normalized text' = text').
Proof.
  intros t0 text text' B Sp Cov r.
  destruct (roundtrip_normal_form_holds t0 text text' B Sp Cov)
    as (_ & ids & Et & Ed & Ek).
  subst r. unfold validateRoundTrip. rewrite Et. cbn. rewrite Ed, Ek.
  repeat split.
  - intros E. apply str_eqb_eq in E. now symmetry.
  - intros E. apply str_eqb_eq. now symmetry.
Qed.

(** X13.  After train(text) on a text that is not blank, with special tokens
    none of which is a word-character string or a single non-space
    character: for every text' over the characters of the training text,
    validateRoundTrip(text') has the normal form of text' as
    reconstructedText, tokensMatch true, and isValid true exactly when text'
    is already its own normal form. *)
Theorem validateRoundTrip_valid_iff_normal :
  forall (t0 : BPETokenizer) (text text' : str),
    blank text = false ->
    existsb is_symbol (specialTokens (config t0)) = false ->
    covers text text' = true ->
    let r := validateRoundTrip (fst (train t0 text)) text' in
    reconstructedText r = normalized text'
    /\ isValid r = Str.eqb text' (normalized text')
    /\ tokensMatch r = true
    /\ (isValid r = true <-> normalized text' = text').
Proof. exact validateRoundTrip_trained. Qed.

Lemma validateRoundTrip_valid_iff_normal_witness :
  let t := fst (train (constructor no_options) (lit "Hello,  World!")) in
  isValid (validateRoundTrip t (lit "world, hello")) = true
  /\ isValid (validateRoundTrip t (lit "World, hello")) = false.
Proof.
  split.
  - destruct (validateRoundTrip_valid_iff_normal (constructor no_options)
                (lit "Hello,  World!") (lit "world, hello"))
      as (_ & E & _); [reflexivity|reflexivity|reflexivity|].
    cbn zeta. rewrite E. reflexivity.
  - reflexivity.
Defined.

Lemma train_same_config : forall t1 t2 text,
    config t1 = config t2 -> blank text = false ->
    fst (train t1 text) = fst (train t2 text).
Proof.
  intros t1 t2 text C B. unfold train.
  destruct (negb (nonempty text) || Nat.eqb (length (trim text)) 0)%bool eqn:G.
  - exfalso. pose proof (proj2 (train_throws_iff t1 text)) as T. unfold train in T.
    rewrite G in T. specialize (T eq_refl). congruence.
  - cbn [fst]. now rewrite C.
Qed.

Lemma benchmark_step_spec : forall b text,
    existsb is_symbol (specialTokens (config (b_tokenizer b))) = false ->
    let b' := benchmark_step b text in
    b_errs b' = b_errs b ++ benchmark_messages text
    /\ b_successfulRoundTrips b'
       = (b_successfulRoundTrips b + (if normal text then 1 else 0))%nat
    /\ b_tokenizer b' = fst (train (b_tokenizer b) text).
Proof.
  intros b text Sp b'. subst b'. unfold benchmark_step, benchmark_messages, normal.
  destruct (blank text) eqn:B.
  - pose proof (proj1 (train_throws_iff (b_tokenizer b) text) B) as T.
    destruct (train (b_tokenizer b) text) as [t o]. cbn [snd] in T. subst o.
    cbn. repeat split. lia.
  - pose proof (train_blank_or_ok (b_tokenizer b) text B) as O.
    destruct (roundtrip_normal_form_holds _ text text B Sp (covers_refl text))
      as (_ & ids & Et & _).
    destruct (validateRoundTrip_trained _ text text B Sp (covers_refl text))
      as (_ & Ev & _).
    destruct (train (b_tokenizer b) text) as [t o]. cbn [fst snd] in *. subst o.
    rewrite Et, Ev. cbn [negb andb].
    destruct (Str.eqb text (normalized text)); cbn.
    + rewrite app_nil_r. repeat split. lia.
    + repeat split. lia.
Qed.

Lemma benchmark_fold : forall texts b,
    existsb is_symbol (specialTokens (config (b_tokenizer b))) = false ->
    let b' := fold_left benchmark_step texts b in
    b_errs b' = b_errs b ++ flat_map benchmark_messages texts
    /\ b_successfulRoundTrips b'
       = (b_successfulRoundTrips b + length (filter normal texts))%nat
    /\ config (b_tokenizer b') = config (b_tokenizer b).
Proof.
  induction texts as [|text texts IH]; intros b Sp.
  - cbn. rewrite app_nil_r. repeat split. lia.
  - cbn [fold_left flat_map filter].
    destruct (benchmark_step_spec b text Sp) as (E1 & E2 & E3).
    assert (C : config (b_tokenizer (benchmark_step b text)) = config (b_tokenizer b)).
    { rewrite E3. apply train_config. }
    destruct (IH (benchmark_step b text)) as (F1 & F2 & F3); [now rewrite C|].
    cbn zeta. rewrite F1, F2, F3, E1, E2, C. rewrite <- app_assoc.
    repeat split. destruct (normal text); cbn [length]; lia.
Qed.

(** X14.  With special tokens none of which is a word-character string or a
    single non-space character, benchmark(texts) reports, in the order of
    the texts, one 'Error processing text' message for every blank text and
    one 'Round-trip failed' message (with the first 50 characters) for every
    other text that is not its own normal form, and nothing for the rest;
    roundTripAccuracy is 100 times the number of non-blank texts in normal
    form divided by the number of texts; errors is empty exactly when every
    text is non-blank and in normal form. What a text is reported as does
    not depend on the texts before it. *)
Theorem benchmark_reports : forall (t : BPETokenizer) (texts : list str),
    existsb is_symbol (specialTokens (config t)) = false ->
    let r := snd (benchmark t texts) in
    b_errors r = flat_map benchmark_messages texts
    /\ roundTripAccuracy r
       = PrimFloat.mul
           (PrimFloat.div (float_of_nat (length (filter normal texts)))
                          (float_of_nat (length texts)))
           100%float
    /\ (b_errors r = [] <-> forall text, In text texts -> normal text = true).
Proof.
  intros t texts Sp r. subst r. unfold benchmark. cbn [snd b_errors roundTripAccuracy].
  destruct (benchmark_fold texts
              {| b_tokenizer := t; b_totalCompressionRatio := 0%float;
                 b_successfulRoundTrips := 0; b_errs := [] |} Sp) as (E1 & E2 & _).
  cbn [b_errs b_successfulRoundTrips app Nat.add] in E1, E2.
  rewrite E1, E2. split; [reflexivity|]. split; [reflexivity|].
  clear. induction texts as [|text texts IH]; cbn [flat_map].
  - split; [intros _ x I; destruct I|reflexivity].
  - split.
    + intros E. apply app_eq_nil in E as [E1 E2]. intros x [<-|I].
      * unfold benchmark_messages in E1. unfold normal.
        destruct (blank text); [discriminate|].
        destruct (Str.eqb text (normalized text)); [reflexivity|discriminate].
      * now apply IH.
    + intros H. rewrite (proj2 IH) by (intros x I; apply H; now right).
      rewrite app_nil_r. specialize (H text (or_introl eq_refl)).
      unfold normal in H. unfold benchmark_messages.
      apply andb_true_iff in H as [H1 H2]. apply negb_true_iff in H1.
      now rewrite H1, H2.
Qed.

Lemma benchmark_reports_witness :
  let r := snd (benchmark (constructor no_options) [lit "low lower"; lit "Low"; lit " "]) in
  length (b_errors r) = 2%nat.
Proof.
  destruct (benchmark_reports (constructor no_options)
              [lit "low lower"; lit "Low"; lit " "]) as (E & _); [reflexivity|].
  cbn zeta. rewrite E. reflexivity.
Defined.

Lemma benchmark_count : forall texts b,
    let b' := fold_left benchmark_step texts b in
    (b_successfulRoundTrips b' + length (b_errs b')
     = b_successfulRoundTrips b + length (b_errs b) + length texts)%nat.
Proof.
  induction texts as [|text texts IH]; intros b; cbn [fold_left length]; [lia|].
  cbn zeta in IH. rewrite IH. clear IH. unfold benchmark_step.
  destruct (train (b_tokenizer b) text) as [t [[]|e]].
  - destruct (tokenize t text) as [ids|e].
    + destruct (isValid (validateRoundTrip t text)); cbn; [lia|].
      rewrite length_app. cbn. lia.
    + cbn. rewrite length_app. cbn. lia.
  - cbn. rewrite length_app. cbn. lia.
Qed.

(** X15.  For every tokenizer and every list of texts, benchmark counts each
    text once: totalTexts is the number of texts, errors has at most that
    many entries (every text is either a successful round trip or exactly
    one error message), and roundTripAccuracy is 100 * (texts - errors) /
    texts. *)
Theorem benchmark_accounting : forall (t : BPETokenizer) (texts : list str),
    let r := snd (benchmark t texts) in
    totalTexts r = length texts
    /\ (length (b_errors r) <= length texts)%nat
    /\ roundTripAccuracy r
       = PrimFloat.mul
           (PrimFloat.div (float_of_nat (length texts - length (b_errors r)))
                          (float_of_nat (length texts)))
           100%float.
Proof.
  intros t texts r. subst r. unfold benchmark.
  cbn [snd b_errors roundTripAccuracy totalTexts].
  pose proof (benchmark_count texts
                {| b_tokenizer := t; b_totalCompressionRatio := 0%float;
                   b_successfulRoundTrips := 0; b_errs := [] |}) as C.
  cbn zeta in C. cbn [b_successfulRoundTrips b_errs length Nat.add] in C.
  split; [reflexivity|]. split; [lia|].
  do 3 f_equal. lia.
Qed.

Lemma benchmark_step_tokenizer : forall b text,
    b_tokenizer (benchmark_step b text) = fst (train (b_tokenizer b) text).
Proof.
  intros b text. unfold benchmark_step.
  destruct (train (b_tokenizer b) text) as [t [[]|e]]; [|reflexivity].
  destruct (tokenize t text) as [ids|e]; [|reflexivity].
  destruct (isValid (validateRoundTrip t text)); reflexivity.
Qed.

Lemma benchmark_fold_config : forall texts b,
    config (b_tokenizer (fold_left benchmark_step texts b)) = config (b_tokenizer b).
Proof.
  induction texts as [|text texts IH]; intros b; [reflexivity|].
  cbn [fold_left]. rewrite IH, benchmark_step_tokenizer. apply train_config.
Qed.

(** X16.  After benchmark on a list of texts whose last text is not blank,
    the tokenizer is in the state that train on that last text alone gives
    (timings apart): each train in the loop resets the state, and the
    configuration never changes. *)
Theorem benchmark_leaves_last_training :
  forall (t : BPETokenizer) (texts : list str) (text : str),
    blank text = false ->
    fst (benchmark t (texts ++ [text])) = fst (train t text).
Proof.
  intros t texts text B. unfold benchmark. cbn [fst].
  rewrite fold_left_app. cbn [fold_left]. rewrite benchmark_step_tokenizer.
  apply train_same_config; [|assumption].
  now rewrite benchmark_fold_config.
Qed.

Lemma benchmark_leaves_last_training_witness :
  fst (benchmark (constructor no_options) [lit "a b"; lit " "; lit "low lower"])
  = fst (train (constructor no_options) (lit "low lower")).
Proof.
  apply (benchmark_leaves_last_training (constructor no_options)
           [lit "a b"; lit " "] (lit "low lower")).
  reflexivity.
Defined.

(** ** The two maps after training *)

Section FreshKey.
Context {K V : Type} `{KeyEqLaws K}.

Lemma set_fresh : forall (m : JsMap.t K V) k v,
    JsMap.has m k = false -> JsMap.set m k v = m ++ [(k, v)].
Proof.
  induction m as [|[k' v'] m IH]; intros k v F; [reflexivity|].
  unfold JsMap.has in F. cbn [JsMap.get] in F. cbn [JsMap.set app].
  destruct (keqb k' k); [discriminate|].
  f_equal. apply IH. exact F.
Qed.
End FreshKey.

Lemma dense_fresh : forall (v : JsMap.t str N) r i,
    ids_dense (v, r, i) -> JsMap.has r i = false.
Proof.
  intros v r i D. apply has_false_keys. cbn in D. rewrite D.
  intros I. apply in_map_iff in I as (k & E & I). apply in_seq in I. lia.
Qed.

Lemma dense_add : forall v r i tok,
    ids_dense (v, r, i) ->
    ids_dense (JsMap.set v tok i, JsMap.set r i tok, (i + 1)%N).
Proof.
  intros v r i tok D. pose proof (dense_fresh v r i D) as F.
  cbn in *. rewrite keys_set, F, D.
  replace (N.to_nat (i + 1)) with (S (N.to_nat i)) by lia.
  rewrite seq_S, map_app. cbn. now rewrite N2Nat.id.
Qed.

Lemma dense_add_always : forall vri tok, ids_dense vri -> ids_dense (add_always vri tok).
Proof. intros [[v r] i] tok D. now apply dense_add. Qed.

Lemma dense_add_if_new : forall vri tok, ids_dense vri -> ids_dense (add_if_new vri tok).
Proof.
  intros [[v r] i] tok D. unfold add_if_new.
  destruct (JsMap.has v tok); [assumption|now apply dense_add].
Qed.

Lemma dense_seed : forall cfg words, ids_dense (seed cfg words).
Proof.
  intros cfg words. unfold seed. apply dense_add_if_new.
  apply fold_preserves; [intros; now apply dense_add_if_new|].
  apply fold_preserves; [intros; now apply dense_add_always|].
  reflexivity.
Qed.

Lemma lockstep_add_if_new : forall vri tok,
    ids_dense vri -> lockstep vri -> lockstep (add_if_new vri tok).
Proof.
  intros [[v r] i] tok D L. unfold add_if_new.
  destruct (JsMap.has v tok) eqn:Hv; [assumption|].
  pose proof (dense_fresh v r i D) as F. cbn in *.
  rewrite (set_fresh v tok i Hv), (set_fresh r i tok F), map_app, L. reflexivity.
Qed.

(** The special tokens, when no two are the same, are added as any other
    token. *)
Lemma fold_add_always_fresh : forall l vri,
    NoDup l ->
    (forall x, In x l -> JsMap.has (fst (fst vri)) x = false) ->
    fold_left add_always l vri = fold_left add_if_new l vri.
Proof.
  induction l as [|x l IH]; intros [[v r] i] ND F; [reflexivity|].
  cbn [fold_left]. cbn [fst] in F.
  assert (E : add_if_new (v, r, i) x = add_always (v, r, i) x).
  { unfold add_if_new. now rewrite (F x (or_introl eq_refl)). }
  rewrite E. apply IH; [now inversion ND|].
  intros y Iy. cbn [add_always fst]. rewrite has_set.
  rewrite (F y (or_intror Iy)), orb_false_r.
  apply keqb_neq. intros ->. now inversion ND.
Qed.

Lemma dense_lockstep_fold : forall l vri,
    ids_dense vri /\ lockstep vri ->
    ids_dense (fold_left add_if_new l vri) /\ lockstep (fold_left add_if_new l vri).
Proof.
  intros l vri.
  apply (fold_preserves (fun a => ids_dense a /\ lockstep a) add_if_new).
  intros a b [D L].
  split; [now apply dense_add_if_new|now apply lockstep_add_if_new].
Qed.

Lemma lockstep_seed : forall cfg words,
    NoDup (specialTokens cfg) -> lockstep (seed cfg words).
Proof.
  intros cfg words ND. unfold seed.
  rewrite fold_add_always_fresh by (assumption || reflexivity).
  assert (I : ids_dense (([] : JsMap.t str N), ([] : JsMap.t N str), 0%N)
              /\ lockstep (([] : JsMap.t str N), ([] : JsMap.t N str), 0%N))
    by (split; reflexivity).
  apply (dense_lockstep_fold (specialTokens cfg)) in I.
  apply (dense_lockstep_fold (Str.sort (collect_chars words))) in I.
  destruct I as [D L]. now apply lockstep_add_if_new.
Qed.

Lemma train_loop_dense : forall cfg text fuel,
    let st := train_loop fuel cfg (train_init cfg text) in
    ids_dense (l_vocabulary st, l_reverseVocabulary st, l_tokenId st).
Proof.
  intros cfg text fuel.
  apply (train_loop_ind cfg
           (fun st => ids_dense (l_vocabulary st, l_reverseVocabulary st, l_tokenId st))).
  - intros st st' D _ E.
    apply train_step_some in E as (pre & a & b & m & post & w & fq & E).
    do 12 destruct E as [_ E]. rewrite E. now apply dense_add_if_new.
  - unfold train_init. pose proof (dense_seed cfg (count_words (wordList_of text))) as D.
    destruct (seed cfg (count_words (wordList_of text))) as [[v r] i]. exact D.
Qed.

Lemma train_loop_lockstep : forall cfg text fuel,
    NoDup (specialTokens cfg) ->
    let st := train_loop fuel cfg (train_init cfg text) in
    lockstep (l_vocabulary st, l_reverseVocabulary st, l_tokenId st).
Proof.
  intros cfg text fuel ND.
  assert (G : let st := train_loop fuel cfg (train_init cfg text) in
              ids_dense (l_vocabulary st, l_reverseVocabulary st, l_tokenId st)
              /\ lockstep (l_vocabulary st, l_reverseVocabulary st, l_tokenId st));
    [|exact (proj2 G)].
  apply (train_loop_ind cfg
           (fun st => ids_dense (l_vocabulary st, l_reverseVocabulary st, l_tokenId st)
                      /\ lockstep (l_vocabulary st, l_reverseVocabulary st, l_tokenId st))).
  - intros st st' [D L] _ E.
    apply train_step_some in E as (pre & a & b & m & post & w & fq & E).
    do 12 destruct E as [_ E]. rewrite E.
    split; [now apply dense_add_if_new|now apply lockstep_add_if_new].
  - unfold train_init.
    pose proof (dense_seed cfg (count_words (wordList_of text))) as D.
    pose proof (lockstep_seed cfg (count_words (wordList_of text)) ND) as L.
    destruct (seed cfg (count_words (wordList_of text))) as [[v r] i]. now split.
Qed.

Lemma keys_swap : forall (v : JsMap.t str N),
    JsMap.keys (map swap_entry v) = map snd v.
Proof. intros v. unfold JsMap.keys. rewrite map_map. reflexivity. Qed.

Lemma get_swap : forall (v : JsMap.t str N) id tok,
    NoDup (JsMap.keys v) ->
    JsMap.get (map swap_entry v) id = Some tok -> JsMap.get v tok = Some id.
Proof.
  intros v id tok ND G. apply get_In in G. apply in_map_iff in G as ([k i] & E & I).
  injection E as <- <-. now apply In_get.
Qed.

Lemma train_maps_dense_hold : forall (t0 : BPETokenizer) (text : str) (t : BPETokenizer),
    train t0 text = (t, Ok tt) ->
    let n := JsMap.size (reverseVocabulary t) in
    JsMap.keys (reverseVocabulary t) = map N.of_nat (seq 0 n)
    /\ (forall tok id, JsMap.get (vocabulary t) tok = Some id ->
                       JsMap.get (reverseVocabulary t) id = Some tok /\ (id < N.of_nat n)%N)
    /\ (forall tok tok' id, JsMap.get (vocabulary t) tok = Some id ->
                            JsMap.get (vocabulary t) tok' = Some id -> tok = tok')
    /\ (NoDup (specialTokens (config t0)) ->
        reverseVocabulary t = map swap_entry (vocabulary t)
        /\ map snd (vocabulary t) = map N.of_nat (seq 0 n)
        /\ forall id tok, JsMap.get (reverseVocabulary t) id = Some tok ->
                          JsMap.get (vocabulary t) tok = Some id).
Proof.
  intros t0 text t E n.
  destruct (train_maps_wf _ _ _ E) as (NDv & NDr & Inv).
  apply train_ok in E as (_ & st & Est & Ev & Er & _ & _).
  pose proof (train_loop_dense (config t0) text (Z.to_nat (maxMerges_of (config t0)))) as D.
  cbn zeta in D. rewrite <- Est, <- Ev, <- Er in D. cbn in D.
  assert (En : N.to_nat (l_tokenId st) = n).
  { subst n. unfold JsMap.size. rewrite <- (length_map fst).
    change (map fst (reverseVocabulary t)) with (JsMap.keys (reverseVocabulary t)).
    now rewrite D, length_map, length_seq. }
  rewrite En in D. split; [exact D|]. split; [|split].
  - intros tok id G. split; [now apply Inv|].
    apply Inv in G. apply get_In in G.
    assert (I : In id (JsMap.keys (reverseVocabulary t))).
    { unfold JsMap.keys. apply in_map_iff. now exists (id, tok). }
    rewrite D in I. apply in_map_iff in I as (k & <- & I). apply in_seq in I. lia.
  - intros tok tok' id G G'. apply Inv in G, G'. congruence.
  - intros ND.
    pose proof (train_loop_lockstep (config t0) text
                  (Z.to_nat (maxMerges_of (config t0))) ND) as L.
    cbn zeta in L. rewrite <- Est, <- Ev, <- Er in L. cbn in L.
    split; [exact L|]. split.
    + rewrite <- keys_swap, <- L. exact D.
    + intros id tok G. rewrite L in G. now apply get_swap.
Qed.

(** X5.  After a successful train, the keys of reverseVocabulary are exactly
    0, 1, ..., n-1 in insertion order (n its size); every token of
    vocabulary has an id below n that reverseVocabulary maps back to the
    token, so no two tokens share an id; and when the configured special
    tokens are pairwise distinct, reverseVocabulary is vocabulary turned
    round entry for entry (the ids of vocabulary are 0..n-1 in insertion
    order and the two maps are inverse bijections). *)
Theorem train_maps_dense_inverse : forall (t0 : BPETokenizer) (text : str) (t : BPETokenizer),
    train t0 text = (t, Ok tt) ->
    let n := JsMap.size (reverseVocabulary t) in
    JsMap.keys (reverseVocabulary t) = map N.of_nat (seq 0 n)
    /\ (forall tok id, JsMap.get (vocabulary t) tok = Some id ->
                       JsMap.get (reverseVocabulary t) id = Some tok /\ (id < N.of_nat n)%N)
    /\ (forall tok tok' id, JsMap.get (vocabulary t) tok = Some id ->
                            JsMap.get (vocabulary t) tok' = Some id -> tok = tok')
    /\ (NoDup (specialTokens (config t0)) ->
        reverseVocabulary t = map swap_entry (vocabulary t)
        /\ map snd (vocabulary t) = map N.of_nat (seq 0 n)
        /\ forall id tok, JsMap.get (reverseVocabulary t) id = Some tok ->
                          JsMap.get (vocabulary t) tok = Some id).
Proof. exact train_maps_dense_hold. Qed.

Lemma train_maps_dense_inverse_witness :
  let t := fst (train (constructor no_options) (lit "low lower")) in
  reverseVocabulary t = map swap_entry (vocabulary t).
Proof.
  cbn zeta.
  destruct (train_maps_dense_inverse (constructor no_options) (lit "low lower")
              (fst (train (constructor no_options) (lit "low lower"))))
    as (_ & _ & _ & L); [reflexivity|].
  apply L. vm_compute. repeat constructor; intros I; cbn in I;
    repeat (destruct I as [I|I]; [discriminate|]); exact I.
Defined.

(** ** What the vocabulary holds *)

Lemma has_add_if_new : forall vri tok x,
    JsMap.has (fst (fst (add_if_new vri tok))) x = true
    <-> JsMap.has (fst (fst vri)) x = true \/ x = tok.
Proof.
  intros [[v r] i] tok x. unfold add_if_new. cbn [fst].
  destruct (JsMap.has v tok) eqn:Hv; cbn [fst].
  - split; [now left|]. intros [E| ->]; assumption.
  - rewrite has_set, orb_true_iff. split.
    + intros [E|E]; [right|now left]. apply str_eqb_eq in E. now symmetry.
    + intros [E| ->]; [now right|left; apply str_eqb_refl].
Qed.

Lemma has_add_always : forall vri tok x,
    JsMap.has (fst (fst (add_always vri tok))) x = true
    <-> JsMap.has (fst (fst vri)) x = true \/ x = tok.
Proof.
  intros [[v r] i] tok x. cbn [add_always fst].
  rewrite has_set, orb_true_iff. split.
  - intros [E|E]; [right|now left]. apply str_eqb_eq in E. now symmetry.
  - intros [E| ->]; [now right|left; apply str_eqb_refl].
Qed.

Lemma has_fold_add : forall (add : JsMap.t str N * JsMap.t N str * N -> str
                                   -> JsMap.t str N * JsMap.t N str * N),
    (forall vri tok x, JsMap.has (fst (fst (add vri tok))) x = true
                       <-> JsMap.has (fst (fst vri)) x = true \/ x = tok) ->
    forall l vri x,
      JsMap.has (fst (fst (fold_left add l vri))) x = true
      <-> JsMap.has (fst (fst vri)) x = true \/ In x l.
Proof.
  intros add Hadd. induction l as [|y l IH]; intros vri x; cbn [fold_left In].
  - tauto.
  - rewrite IH, Hadd. intuition congruence.
Qed.

Lemma has_seed : forall cfg words x,
    JsMap.has (fst (fst (seed cfg words))) x = true
    <-> In x (specialTokens cfg) \/ In x (collect_chars words) \/ x = marker.
Proof.
  intros cfg words x. unfold seed.
  rewrite has_add_if_new, (has_fold_add add_if_new has_add_if_new),
    (has_fold_add add_always has_add_always), sort_In.
  cbn [fst]. change (JsMap.has [] x) with false. intuition discriminate.
Qed.

Lemma collect_chars_text : forall text x,
    In x (collect_chars (count_words (wordList_of text))) ->
    (exists c, x = [c] /\ In c (toLowerCase text) /\ is_ws c = false) \/ x = marker.
Proof.
  intros text x I. apply collect_chars_In in I as (k & Ik & Ix).
  unfold JsMap.keys in Ik. apply in_map_iff in Ik as (e & <- & Ie).
  apply count_words_In in Ie as [(w & Iw & E) _]. rewrite E in Ix.
  pose proof (wordList_clean text w Iw) as Sw.
  rewrite processedWord_word_text in Ix by apply Sw.
  rewrite g_split_word_text in Ix by now apply split_chars_gsyms.
  apply in_app_or in Ix as [Ix|[<-|[]]]; [left|now right].
  unfold split_chars in Ix. apply in_map_iff in Ix as (c & <- & Ic).
  exists c. split; [reflexivity|]. now apply (wordList_chars text w).
Qed.

(** The vocabulary before the first merge. *)
Lemma seed_vocabulary_contents : forall cfg text x,
    JsMap.has (seed_vocabulary cfg text) x = true
    <-> In x (specialTokens cfg)
        \/ (exists c, x = [c] /\ In c (toLowerCase text) /\ is_ws c = false)
        \/ x = marker.
Proof.
  intros cfg text x. unfold seed_vocabulary. rewrite has_seed. split.
  - intros [I|[I|E]]; [now left| |now right; right].
    apply collect_chars_text in I as [I|E]; [right; now left|now right; right].
  - intros [I|[(c & -> & I & W)|E]]; [now left| |now right; right].
    destruct (wordList_covers text c I W) as (w & Iw & Ic).
    pose proof (g_seed_has_chars cfg text w c Iw Ic) as Hs.
    unfold seed_vocabulary in Hs. now apply has_seed in Hs.
Qed.

Lemma train_loop_contents : forall cfg text fuel,
    let st := train_loop fuel cfg (train_init cfg text) in
    forall x,
      JsMap.has (l_vocabulary st) x = true
      <-> JsMap.has (seed_vocabulary cfg text) x = true
          \/ exists f s, In (f, s) (l_merges st) /\ x = f ++ s.
Proof.
  intros cfg text fuel.
  apply (train_loop_ind cfg
           (fun st => forall x,
                JsMap.has (l_vocabulary st) x = true
                <-> JsMap.has (seed_vocabulary cfg text) x = true
                    \/ exists f s, In (f, s) (l_merges st) /\ x = f ++ s)).
  - intros st st' P _ E x.
    apply train_step_some in E
      as (pre & a & b & m & post & w & fq & _ & _ & _ & _ & _ & _ & _ & _ & _ & Em
          & _ & _ & Ea).
    assert (Ev : l_vocabulary st'
                 = fst (fst (add_if_new (l_vocabulary st, l_reverseVocabulary st,
                                         l_tokenId st) (a ++ b)))) by now rewrite <- Ea.
    rewrite Ev, has_add_if_new, Em. cbn [fst]. rewrite P. split.
    + intros [[S|(f & s & I & E)]| ->].
      * now left.
      * right. exists f, s. split; [apply in_or_app; now left|assumption].
      * right. exists a, b. split; [apply in_or_app; right; now left|reflexivity].
    + intros [S|(f & s & I & E)]; [left; now left|].
      apply in_app_or in I as [I|[I|[]]].
      * left. right. now exists f, s.
      * injection I as <- <-. now right.
  - intros x. destruct (train_init_fields cfg text) as (Em & _ & Ev).
    rewrite Em, Ev. split; [now left|]. intros [S|(f & s & [] & _)]. exact S.
Qed.

Lemma train_vocabulary_contents_hold :
  forall (t0 : BPETokenizer) (text : str) (t : BPETokenizer),
    train t0 text = (t, Ok tt) ->
    forall x,
      JsMap.has (vocabulary t) x = true
      <-> In x (specialTokens (config t0))
          \/ (exists c, x = [c] /\ In c (toLowerCase text) /\ is_ws c = false)
          \/ x = marker
          \/ exists f s, In (f, s) (merges t) /\ x = f ++ s.
Proof.
  intros t0 text t E x.
  apply train_ok in E as (_ & st & Est & Ev & _ & Em & _).
  rewrite Ev, Em, Est. rewrite train_loop_contents, seed_vocabulary_contents. tauto.
Qed.

(** X7.  After a successful train(text), a string is a token of the
    vocabulary exactly when it is a configured special token, or a single
    character of the lowercased text that is not white space, or '</w>', or
    the concatenation first+second of a learned merge rule. *)
Theorem train_vocabulary_contents :
  forall (t0 : BPETokenizer) (text : str) (t : BPETokenizer),
    train t0 text = (t, Ok tt) ->
    forall x,
      JsMap.has (vocabulary t) x = true
      <-> In x (specialTokens (config t0))
          \/ (exists c, x = [c] /\ In c (toLowerCase text) /\ is_ws c = false)
          \/ x = marker
          \/ exists f s, In (f, s) (merges t) /\ x = f ++ s.
Proof. exact train_vocabulary_contents_hold. Qed.

Lemma train_vocabulary_contents_witness :
  let t := fst (train (constructor no_options) (lit "low lower")) in
  JsMap.has (vocabulary t) (lit "lo") = true.
Proof.
  cbn zeta.
  apply (train_vocabulary_contents (constructor no_options) (lit "low lower")
           (fst (train (constructor no_options) (lit "low lower"))) eq_refl).
  right. right. right. exists (lit "l"), (lit "o"). split; [now left|reflexivity].
Defined.

(** ** The ids of the special tokens *)

Lemma get_app : forall {V} (a b : JsMap.t N V) k,
    JsMap.get (a ++ b) k
    = match JsMap.get a k with Some x => Some x | None => JsMap.get b k end.
Proof.
  intros V. induction a as [|[k' v'] a IH]; intros b k; [reflexivity|].
  cbn [app JsMap.get]. destruct (keqb k' k); [reflexivity|apply IH].
Qed.

Lemma add_r_prefix : forall v r i tok,
    ids_dense (v, r, i) -> JsMap.set r i tok = r ++ [(i, tok)].
Proof. intros v r i tok D. apply set_fresh. now apply (dense_fresh v). Qed.

Lemma fold_add_always_r : forall l v r i,
    ids_dense (v, r, i) ->
    snd (fst (fold_left add_always l (v, r, i)))
    = r ++ combine (map N.of_nat (seq (N.to_nat i) (length l))) l.
Proof.
  induction l as [|x l IH]; intros v r i D.
  - cbn. now rewrite app_nil_r.
  - cbn [fold_left add_always]. rewrite IH by now apply dense_add.
    rewrite (add_r_prefix v r i x D), <- app_assoc. cbn [length seq map combine app].
    rewrite N2Nat.id. replace (N.to_nat (i + 1)) with (S (N.to_nat i)) by lia.
    reflexivity.
Qed.

Lemma add_if_new_r_extends : forall vri tok,
    ids_dense vri -> exists ext, snd (fst (add_if_new vri tok)) = snd (fst vri) ++ ext.
Proof.
  intros [[v r] i] tok D. unfold add_if_new. destruct (JsMap.has v tok); cbn [fst snd].
  - exists []. now rewrite app_nil_r.
  - exists [(i, tok)]. now apply (add_r_prefix v).
Qed.

Lemma fold_add_if_new_r_extends : forall l vri,
    ids_dense vri ->
    exists ext, snd (fst (fold_left add_if_new l vri)) = snd (fst vri) ++ ext.
Proof.
  induction l as [|x l IH]; intros vri D.
  - exists []. cbn. now rewrite app_nil_r.
  - cbn [fold_left]. destruct (IH (add_if_new vri x)) as (ext & E);
      [now apply dense_add_if_new|].
    destruct (add_if_new_r_extends vri x D) as (ext0 & E0).
    exists (ext0 ++ ext). now rewrite E, E0, app_assoc.
Qed.

Lemma seed_r_specials : forall cfg words,
    exists ext,
      snd (fst (seed cfg words))
      = combine (map N.of_nat (seq 0 (length (specialTokens cfg)))) (specialTokens cfg)
        ++ ext.
Proof.
  intros cfg words. unfold seed.
  set (s1 := fold_left add_always (specialTokens cfg) ([], [], 0%N)).
  assert (D1 : ids_dense s1).
  { apply fold_preserves; [intros; now apply dense_add_always|reflexivity]. }
  assert (E1 : snd (fst s1)
               = combine (map N.of_nat (seq 0 (length (specialTokens cfg))))
                         (specialTokens cfg)).
  { exact (fold_add_always_r (specialTokens cfg) [] [] 0%N eq_refl). }
  destruct (fold_add_if_new_r_extends (Str.sort (collect_chars words)) s1 D1) as (e2 & E2).
  destruct (add_if_new_r_extends
              (fold_left add_if_new (Str.sort (collect_chars words)) s1) marker)
    as (e3 & E3).
  { apply fold_preserves; [intros; now apply dense_add_if_new|exact D1]. }
  exists (e2 ++ e3). now rewrite E3, E2, E1, app_assoc.
Qed.

Lemma train_loop_r_extends : forall cfg text fuel,
    let st := train_loop fuel cfg (train_init cfg text) in
    exists ext,
      l_reverseVocabulary st
      = combine (map N.of_nat (seq 0 (length (specialTokens cfg)))) (specialTokens cfg)
        ++ ext.
Proof.
  intros cfg text fuel.
  assert (G : let st := train_loop fuel cfg (train_init cfg text) in
              ids_dense (l_vocabulary st, l_reverseVocabulary st, l_tokenId st)
              /\ exists ext,
                  l_reverseVocabulary st
                  = combine (map N.of_nat (seq 0 (length (specialTokens cfg))))
                            (specialTokens cfg) ++ ext); [|exact (proj2 G)].
  apply (train_loop_ind cfg
           (fun st =>
              ids_dense (l_vocabulary st, l_reverseVocabulary st, l_tokenId st)
              /\ exists ext,
                  l_reverseVocabulary st
                  = combine (map N.of_nat (seq 0 (length (specialTokens cfg))))
                            (specialTokens cfg) ++ ext)).
  - intros st st' [D (ext & P)] _ E.
    apply train_step_some in E as (pre & a & b & m & post & w & fq & E).
    do 12 destruct E as [_ E].
    split; [rewrite E; now apply dense_add_if_new|].
    destruct (add_if_new_r_extends _ (a ++ b) D) as (e & Ee).
    rewrite <- E in Ee. cbn [fst snd] in Ee. rewrite Ee, P.
    exists (ext ++ e). now rewrite app_assoc.
  - unfold train_init.
    pose proof (dense_seed cfg (count_words (wordList_of text))) as D.
    pose proof (seed_r_specials cfg (count_words (wordList_of text))) as R.
    destruct (seed cfg (count_words (wordList_of text))) as [[v r] i]. now split.
Qed.

Lemma get_combine_ids : forall (l : list str) k sp i,
    nth_error l k = Some sp ->
    JsMap.get (combine (map N.of_nat (seq i (length l))) l) (N.of_nat (i + k)) = Some sp.
Proof.
  induction l as [|x l IH]; intros k sp i E; [destruct k; discriminate|].
  cbn [length seq map combine JsMap.get]. destruct k as [|k].
  - injection E as <-. rewrite Nat.add_0_r.
    change (keqb (N.of_nat i) (N.of_nat i)) with (N.eqb (N.of_nat i) (N.of_nat i)).
    now rewrite N.eqb_refl.
  - change (keqb (N.of_nat i) (N.of_nat (i + S k)))
      with (N.eqb (N.of_nat i) (N.of_nat (i + S k))).
    replace (N.eqb (N.of_nat i) (N.of_nat (i + S k))) with false
      by (symmetry; apply N.eqb_neq; lia).
    replace (i + S k)%nat with (S i + k)%nat by lia. now apply IH.
Qed.

(** X6.  After a successful train, the k-th configured special token
    (counting from 0) is what reverseVocabulary holds for id k; when the
    special tokens are pairwise distinct, vocabulary gives that token the id
    k. Nothing added later (characters, '</w>', merged tokens) takes or
    changes these ids. *)
Theorem train_special_token_ids :
  forall (t0 : BPETokenizer) (text : str) (t : BPETokenizer) (k : nat) (sp : str),
    train t0 text = (t, Ok tt) ->
    nth_error (specialTokens (config t0)) k = Some sp ->
    JsMap.get (reverseVocabulary t) (N.of_nat k) = Some sp
    /\ (NoDup (specialTokens (config t0)) ->
        JsMap.get (vocabulary t) sp = Some (N.of_nat k)).
Proof.
  intros t0 text t k sp E Hk.
  destruct (train_maps_wf _ _ _ E) as (NDv & _ & _).
  apply train_ok in E as (_ & st & Est & Ev & Er & _ & _).
  destruct (train_loop_r_extends (config t0) text (Z.to_nat (maxMerges_of (config t0))))
    as (ext & R).
  rewrite <- Est, <- Er in R.
  assert (G : JsMap.get (reverseVocabulary t) (N.of_nat k) = Some sp).
  { pose proof (get_combine_ids (specialTokens (config t0)) k sp 0 Hk) as C.
    cbn [Nat.add] in C. rewrite R, get_app. now rewrite C. }
  split; [exact G|]. intros ND.
  pose proof (train_loop_lockstep (config t0) text
                (Z.to_nat (maxMerges_of (config t0))) ND) as L.
  cbn zeta in L. rewrite <- Est, <- Ev, <- Er in L. cbn in L.
  rewrite L in G. now apply get_swap.
Qed.

Lemma train_special_token_ids_witness :
  let t := fst (train (constructor no_options) (lit "low lower")) in
  JsMap.get (reverseVocabulary t) 1%N = Some (lit "<unk>").
Proof.
  cbn zeta.
  apply (train_special_token_ids (constructor no_options) (lit "low lower")
           (fst (train (constructor no_options) (lit "low lower"))) 1 (lit "<unk>"));
    reflexivity.
Defined.

(** ** The merge pattern on a table of words *)

Lemma applyMerge_fold : forall f s (tbl : list (list str * Z)) acc,
    Forall (fun e => Forall gsym (fst e)) tbl ->
    gsym_or_marker f -> gsym_or_marker s ->
    fold_left
      (fun newWords wf =>
         JsMap.set newWords (replace_merge f s (fst wf)) (snd wf))
      (map (fun e => (word_text (fst e), snd e)) tbl) acc
    = fold_left (fun m e => JsMap.set m (fst e) (snd e))
        (map (fun e => (word_text (merge_by_pattern f s (fst e)), snd e)) tbl) acc.
Proof.
  intros f s. induction tbl as [|[xs fq] tbl IH]; intros acc F Hf Hs; [reflexivity|].
  cbn [map fold_left fst snd].
  rewrite (replace_merge_symbols f s Hf Hs xs) by exact (Forall_inv F).
  apply IH; [exact (Forall_inv_tail F)|assumption|assumption].
Qed.

(** X2.  On a table of words whose symbols are non-empty strings of word
    characters [A-Za-z0-9_] or single other characters (each word followed
    by '</w>'), applyMerge with the rule (f, s) merges, left to right and
    without overlap, every adjacent pair of whole symbols (f, s) into f+s
    when f and s both consist of word characters, and leaves every word as
    it is when f or s contains any other character (as '</w>' or a
    punctuation sign does), because of the `\b` at both ends of the pattern;
    the new table is made by Map.set from the rewritten words in order. *)
Theorem applyMerge_on_symbols :
  forall (f s : str) (tbl : list (list str * Z)),
    gsym_or_marker f -> gsym_or_marker s ->
    Forall (fun e => Forall gsym (fst e)) tbl ->
    applyMerge (map (fun e => (word_text (fst e), snd e)) tbl) (f, s)
    = map_of_entries
        (map (fun e => (word_text (merge_by_pattern f s (fst e)), snd e)) tbl).
Proof.
  intros f s tbl Hf Hs F. unfold applyMerge, map_of_entries. cbn [fst snd].
  now apply applyMerge_fold.
Qed.

Lemma applyMerge_on_symbols_witness :
  let tbl := [([lit "l"; lit "o"; lit "w"], 2%Z); ([lit "l"; lit "o"; lit ","], 1%Z)] in
  let words := map (fun e : list str * Z => (word_text (fst e), snd e)) tbl in
  words = [(lit "l o w </w>", 2%Z); (lit "l o , </w>", 1%Z)]
  /\ applyMerge words (lit "l", lit "o")
     = [(lit "lo w </w>", 2%Z); (lit "lo , </w>", 1%Z)]
  /\ applyMerge words (lit "o", lit ",") = words.
Proof.
  intros tbl words.
  assert (F : Forall (fun e : list str * Z => Forall gsym (fst e)) tbl).
  { repeat (apply Forall_cons || apply Forall_nil); apply is_symbol_spec; reflexivity. }
  split; [reflexivity|]. split.
  - subst words.
    rewrite (applyMerge_on_symbols (lit "l") (lit "o") tbl);
      [reflexivity| | |exact F]; left; apply is_symbol_spec; reflexivity.
  - subst words.
    rewrite (applyMerge_on_symbols (lit "o") (lit ",") tbl);
      [reflexivity| | |exact F]; left; apply is_symbol_spec; reflexivity.
Defined.

(** ** Characters the vocabulary does not hold *)

Section Unknown.
Variable t : BPETokenizer.
Variables u m : N.
Hypothesis t_inverse : forall tok id,
    JsMap.get (vocabulary t) tok = Some id ->
    JsMap.get (reverseVocabulary t) id = Some tok.
Hypothesis t_merges : forall f s,
    In (f, s) (merges t) ->
    gsym_or_marker f /\ gsym_or_marker s
    /\ JsMap.has (vocabulary t) f = true
    /\ JsMap.has (vocabulary t) s = true
    /\ JsMap.has (vocabulary t) (f ++ s) = true.
Hypothesis t_unknown : JsMap.get (vocabulary t) (unknownToken (config t)) = Some u.
Hypothesis t_unknown_special :
  In (unknownToken (config t)) (specialTokens (config t)).
Hypothesis t_marker : JsMap.get (vocabulary t) marker = Some m.

Lemma unknown_apply_merges : forall ms xs,
    (forall f s, In (f, s) ms -> In (f, s) (merges t)) ->
    Forall gsym xs ->
    Forall (fun x => JsMap.has (vocabulary t) x = false) xs ->
    apply_merges ms (word_text xs) = word_text xs.
Proof.
  induction ms as [|[f s] ms IH]; intros xs Sub F U; [reflexivity|].
  destruct (t_merges f s (Sub f s (or_introl eq_refl))) as (Sf & Ss & _ & Ks & _).
  unfold apply_merges. cbn [fold_left fst snd].
  rewrite (replace_merge_symbols f s Sf Ss xs F).
  assert (E : merge_by_pattern f s xs = xs).
  { unfold merge_by_pattern.
    destruct (is_word_string f && is_word_string s)%bool; [|reflexivity].
    apply merge_adjacent_absent. intros I. rewrite Forall_forall in U.
    specialize (U s I). congruence. }
  rewrite E. apply IH; [|assumption|assumption].
  intros f' s' I. apply Sub. now right.
Qed.

Lemma unknown_word_ids : forall w,
    word_ok w ->
    (forall c, In c w -> JsMap.has (vocabulary t) [c] = false) ->
    word_ids t w = map (fun _ => u) w ++ [m].
Proof.
  intros w Sw U. unfold word_ids. rewrite processedWord_word_text by apply Sw.
  rewrite unknown_apply_merges;
    [|auto|now apply split_chars_gsyms|].
  - rewrite g_split_word_text by now apply split_chars_gsyms.
    rewrite filter_app, flat_map_app. cbn [filter]. change (nonempty marker) with true.
    cbn [flat_map]. rewrite t_marker. cbn [app]. f_equal.
    clear Sw. unfold split_chars. rewrite t_unknown.
    induction w as [|c w IH]; [reflexivity|].
    cbn [map filter]. change (nonempty [c]) with true. cbn [flat_map].
    pose proof (U c (or_introl eq_refl)) as Uc. unfold JsMap.has in Uc.
    destruct (JsMap.get (vocabulary t) [c]); [discriminate|].
    cbn [app]. f_equal. apply IH. intros d I. apply U. now right.
  - apply Forall_forall. intros x I. unfold split_chars in I.
    apply in_map_iff in I as (c & <- & Ic). now apply U.
Qed.

Lemma unknown_ids_decode : forall ids words,
    Forall (fun id => id = u \/ id = m) ids ->
    fold_left (detokenize_step t) ids (words, ([] : str)) = (words, ([] : str)).
Proof.
  intros ids words F.
  assert (Su : detokenize_step t (words, ([] : str)) u = (words, ([] : str))).
  { unfold detokenize_step. rewrite (t_inverse _ _ t_unknown).
    destruct (negb (nonempty (unknownToken (config t)))); [reflexivity|].
    destruct (Str.eqb (unknownToken (config t)) marker); [reflexivity|].
    assert (I : includes (specialTokens (config t)) (unknownToken (config t)) = true).
    { unfold includes. apply existsb_exists. exists (unknownToken (config t)).
      split; [exact t_unknown_special|apply str_eqb_refl]. }
    now rewrite I. }
  assert (Sm : detokenize_step t (words, ([] : str)) m = (words, ([] : str))).
  { unfold detokenize_step. rewrite (t_inverse _ _ t_marker). reflexivity. }
  induction F as [|id ids [->| ->] F IH]; [reflexivity| |]; cbn [fold_left].
  - rewrite Su. exact IH.
  - rewrite Sm. exact IH.
Qed.

Lemma unknown_ids_shape : forall ws0 : list str,
    Forall (fun id => id = u \/ id = m)
           (flat_map (fun w : str => map (fun _ => u) w ++ [m]) ws0).
Proof.
  intros ws0. apply Forall_forall. intros id I.
  apply in_flat_map in I as (w & _ & I). apply in_app_or in I as [I|[<-|[]]].
  - apply in_map_iff in I as (c & <- & _). now left.
  - now right.
Qed.
End Unknown.

Lemma flat_map_ext_In : forall {A B} (f g : A -> list B) l,
    (forall x, In x l -> f x = g x) -> flat_map f l = flat_map g l.
Proof.
  intros A B f g. induction l as [|x l IH]; intros E; [reflexivity|].
  cbn [flat_map]. rewrite (E x (or_introl eq_refl)), IH; [reflexivity|].
  intros y I. apply E. now right.
Qed.

(** X11.  After a successful train, with the unknown token in the vocabulary
    (id u) and among the special tokens: a text none of whose
    non-white-space characters (lowercased) is a token is encoded, word by
    word, as one u per character followed by the id of '</w>' (no merge rule
    applies to it), and detokenize of these ids is the empty string. *)
Theorem tokenize_unknown_text :
  forall (t0 : BPETokenizer) (text : str) (t : BPETokenizer) (text' : str) (u : N),
    train t0 text = (t, Ok tt) ->
    JsMap.get (vocabulary t) (unknownToken (config t0)) = Some u ->
    In (unknownToken (config t0)) (specialTokens (config t0)) ->
    (forall c, In c (toLowerCase text') -> is_ws c = false ->
               JsMap.has (vocabulary t) [c] = false) ->
    exists m,
      JsMap.get (vocabulary t) marker = Some m
      /\ tokenize t text'
         = Ok (flat_map (fun w : str => map (fun _ => u) w ++ [m]) (wordList_of text'))
      /\ detokenize t (flat_map (fun w : str => map (fun _ => u) w ++ [m])
                                (wordList_of text')) = [].
Proof.
  intros t0 text t text' u E Gu Iu U.
  destruct (train_encoder_ok _ _ _ E) as (Inv & M & Hm & _).
  apply train_ok in E as (_ & _ & _ & _ & _ & _ & Ecfg).
  rewrite <- Ecfg in Gu, Iu.
  unfold JsMap.has in Hm.
  destruct (JsMap.get (vocabulary t) marker) as [m|] eqn:Gm; [|discriminate].
  exists m. split; [reflexivity|]. split.
  - rewrite tokenize_flat_map
      by (intros V; rewrite V in Gm; discriminate).
    f_equal. apply flat_map_ext_In. intros w Iw.
    apply (unknown_word_ids t u m M Gu Gm).
    + now apply (wordList_clean text').
    + intros c Ic. destruct (wordList_chars text' w c Iw Ic) as [I W]. now apply U.
  - rewrite detokenize_run.
    pose proof (unknown_ids_decode t u m Inv Gu Iu Gm _ []
                  (unknown_ids_shape u m (wordList_of text'))) as R.
    match goal with
    | |- finish ?x = _ => replace x with (([] : list str), ([] : str))
                            by (symmetry; exact R)
    end.
    reflexivity.
Qed.

Lemma tokenize_unknown_text_witness :
  let t := fst (train (constructor no_options) (lit "low lower")) in
  tokenize t (lit "mA n") = Ok [1; 1; 9; 1; 9]%N
  /\ detokenize t [1; 1; 9; 1; 9]%N = [].
Proof.
  cbn zeta.
  destruct (tokenize_unknown_text (constructor no_options) (lit "low lower")
              (fst (train (constructor no_options) (lit "low lower")))
              (lit "mA n") 1%N) as (m & Gm & Et & Ed).
  - reflexivity.
  - reflexivity.
  - right. now left.
  - intros c I W. cbn in I.
    repeat (destruct I as [<-|I]; [try discriminate W; reflexivity|]). contradiction.
  - assert (m = 9%N) as -> by (vm_compute in Gm; congruence).
    split; [exact Et|exact Ed].
Defined.

(** ** Export and import *)

Lemma word_ids_ext : forall t t' w,
    (forall k, JsMap.get (vocabulary t') k = JsMap.get (vocabulary t) k) ->
    merges t' = merges t -> config t' = config t ->
    word_ids t' w = word_ids t w.
Proof.
  intros t t' w G M C. unfold word_ids. rewrite M, C.
  apply flat_map_ext. intros part. now rewrite !G.
Qed.

Lemma tokenize_ext : forall t t' text,
    (forall k, JsMap.get (vocabulary t') k = JsMap.get (vocabulary t) k) ->
    JsMap.size (vocabulary t') = JsMap.size (vocabulary t) ->
    merges t' = merges t -> config t' = config t ->
    tokenize t' text = tokenize t text.
Proof.
  intros t t' text G S M C. unfold tokenize. rewrite S.
  destruct (Nat.eqb (JsMap.size (vocabulary t)) 0); [reflexivity|].
  destruct (negb (nonempty text)); [reflexivity|].
  f_equal. apply flat_map_ext. intros w. now apply word_ids_ext.
Qed.

Lemma detokenize_ext : forall t t' ids,
    (forall k, JsMap.get (reverseVocabulary t') k = JsMap.get (reverseVocabulary t) k) ->
    config t' = config t ->
    detokenize t' ids = detokenize t ids.
Proof.
  intros t t' ids G C. unfold detokenize.
  assert (E : forall st, fold_left (detokenize_step t') ids st
                         = fold_left (detokenize_step t) ids st).
  { induction ids as [|id ids IH]; intros st; [reflexivity|].
    cbn [fold_left]. rewrite IH. f_equal.
    unfold detokenize_step. now rewrite G, C. }
  now rewrite E.
Qed.

(** X17.  For a tokenizer that train has returned, importing its own
    exportVocabulary() gives a tokenizer that behaves the same: tokenize
    gives the same result on every text, detokenize the same text on every
    id list, and validateRoundTrip the same result on every text. *)
Theorem import_export_same_behaviour :
  forall (t0 : BPETokenizer) (text : str) (t : BPETokenizer),
    train t0 text = (t, Ok tt) ->
    let t' := importVocabulary t (exportVocabulary t) in
    (forall text', tokenize t' text' = tokenize t text')
    /\ (forall ids, detokenize t' ids = detokenize t ids)
    /\ (forall text', validateRoundTrip t' text' = validateRoundTrip t text').
Proof.
  intros t0 text t E t'.
  destruct (train_maps_wf _ _ _ E) as (NDv & NDr & _).
  destruct (export_import_maps t NDv NDr) as (Pv & Pr & M & C).
  fold t' in Pv, Pr, M, C.
  assert (Gv : forall k, JsMap.get (vocabulary t') k = JsMap.get (vocabulary t) k).
  { intros k. apply get_Permutation; [|assumption].
    now apply (keys_Permutation_NoDup _ (vocabulary t)). }
  assert (Gr : forall k, JsMap.get (reverseVocabulary t') k
                         = JsMap.get (reverseVocabulary t) k).
  { intros k. apply get_Permutation; [|assumption].
    now apply (keys_Permutation_NoDup _ (reverseVocabulary t)). }
  assert (Sv : JsMap.size (vocabulary t') = JsMap.size (vocabulary t)).
  { unfold JsMap.size. now apply Permutation_length. }
  assert (T : forall text', tokenize t' text' = tokenize t text')
    by (intros; now apply tokenize_ext).
  assert (D : forall ids, detokenize t' ids = detokenize t ids)
    by (intros; now apply detokenize_ext).
  split; [exact T|]. split; [exact D|].
  intros text'. unfold validateRoundTrip. rewrite T.
  destruct (tokenize t text') as [ids|e]; [|reflexivity].
  rewrite D. f_equal.
  induction ids as [|id ids IH]; [reflexivity|].
  cbn [forallb]. rewrite IH. unfold JsMap.has. now rewrite Gr.
Qed.

Lemma import_export_same_behaviour_witness :
  let t := fst (train (constructor no_options) (lit "low lower")) in
  tokenize (importVocabulary t (exportVocabulary t)) (lit "lower low")
  = tokenize t (lit "lower low").
Proof.
  cbn zeta.
  destruct (import_export_same_behaviour (constructor no_options) (lit "low lower")
              (fst (train (constructor no_options) (lit "low lower"))) eq_refl)
    as (T & _).
  apply T.
Defined.

(** ** How the merge loop moves on, or fails to *)

(** The rule a pass picks depends on the table of words only. *)
Lemma train_step_merged : forall cfg s s',
    train_step cfg s = Some s' ->
    exists bp,
      s' = merged_state s bp
      /\ forall s2, l_currentWords s2 = l_currentWords s ->
                    train_step cfg s2 = Some (merged_state s2 bp).
Proof.
  intros cfg s s' E. unfold train_step in E.
  destruct (Nat.eqb (JsMap.size (countPairs (l_currentWords s))) 0) eqn:Z0;
    [discriminate|].
  destruct (select_best (or_number (minFreq cfg) 2%Q) (countPairs (l_currentWords s)))
    as [maxCount [bp|]] eqn:B; [|discriminate].
  destruct (Num.ltb (Num.of_Z maxCount) (or_number (minFreq cfg) 2%Q)) eqn:L;
    [discriminate|].
  exists bp. split.
  - unfold merged_state.
    destruct (add_if_new (l_vocabulary s, l_reverseVocabulary s, l_tokenId s)
                         (fst bp ++ snd bp)) as [[v r] i].
    now injection E as <-.
  - intros s2 W. unfold train_step. rewrite W, Z0, B, L. unfold merged_state.
    destruct (add_if_new (l_vocabulary s2, l_reverseVocabulary s2, l_tokenId s2)
                         (fst bp ++ snd bp)) as [[v r] i].
    now rewrite W.
Qed.

Lemma merged_state_fields : forall s bp,
    l_merges (merged_state s bp) = l_merges s ++ [bp]
    /\ l_currentWords (merged_state s bp) = applyMerge (l_currentWords s) bp
    /\ l_mergeCount (merged_state s bp) = (l_mergeCount s + 1)%Z
    /\ (l_vocabulary (merged_state s bp), l_reverseVocabulary (merged_state s bp),
        l_tokenId (merged_state s bp))
       = add_if_new (l_vocabulary s, l_reverseVocabulary s, l_tokenId s)
                    (fst bp ++ snd bp).
Proof.
  intros s bp. unfold merged_state.
  destruct (add_if_new (l_vocabulary s, l_reverseVocabulary s, l_tokenId s)
                       (fst bp ++ snd bp)) as [[v r] i].
  repeat split.
Qed.

Lemma fold_set_NoDup : forall {X} (key : X -> str) (val : X -> Z) (l : list X) acc,
    NoDup (JsMap.keys acc) ->
    NoDup (JsMap.keys (fold_left (fun m x => JsMap.set m (key x) (val x)) l acc)).
Proof.
  intros X key val. induction l as [|x l IH]; intros acc ND; [exact ND|].
  cbn [fold_left]. apply IH. now apply NoDup_keys_set.
Qed.

Lemma applyMerge_NoDup : forall words m, NoDup (JsMap.keys (applyMerge words m)).
Proof.
  intros words m. unfold applyMerge.
  apply (fold_set_NoDup (fun wf => replace_merge (fst m) (snd m) (fst wf)) snd).
  constructor.
Qed.

Lemma count_words_NoDup : forall wl, NoDup (JsMap.keys (count_words wl)).
Proof.
  intros wl. unfold count_words.
  assert (G : forall l acc, NoDup (JsMap.keys acc) ->
                NoDup (JsMap.keys
                         (fold_left
                            (fun words w =>
                               JsMap.set words (processedWord w)
                                         (get0 words (processedWord w) + 1)%Z) l acc))).
  { induction l as [|x l IH]; intros acc ND; [exact ND|].
    cbn [fold_left]. apply IH. now apply NoDup_keys_set. }
  apply G. constructor.
Qed.

Lemma train_loop_words_NoDup : forall cfg text fuel,
    NoDup (JsMap.keys (l_currentWords (train_loop fuel cfg (train_init cfg text)))).
Proof.
  intros cfg text fuel.
  apply (train_loop_ind cfg (fun st => NoDup (JsMap.keys (l_currentWords st)))).
  - intros st st' _ _ E. apply train_step_merged in E as (bp & -> & _).
    destruct (merged_state_fields st bp) as (_ & -> & _). apply applyMerge_NoDup.
  - rewrite train_init_words. apply count_words_NoDup.
Qed.

(** A rule whose pattern matches in no word leaves the table as it is. *)
Lemma applyMerge_fixed : forall words m,
    NoDup (JsMap.keys words) ->
    (forall e, In e words -> replace_merge (fst m) (snd m) (fst e) = fst e) ->
    applyMerge words m = words.
Proof.
  intros words m ND F. unfold applyMerge.
  assert (G : forall (es : list (str * Z)) (acc : JsMap.t str Z),
             (forall e, In e es -> replace_merge (fst m) (snd m) (fst e) = fst e) ->
             fold_left (fun newWords wf =>
                          JsMap.set newWords (replace_merge (fst m) (snd m) (fst wf))
                                    (snd wf)) es acc
             = fold_left (fun mm e => JsMap.set mm (fst e) (snd e)) es acc).
  { induction es as [|e es IH]; intros acc Fe; [reflexivity|].
    cbn [fold_left]. rewrite (Fe e (or_introl eq_refl)). apply IH.
    intros x I. apply Fe. now right. }
  rewrite G by assumption. now rewrite fold_set_fresh.
Qed.

Lemma add_if_new_present : forall v r i tok,
    JsMap.has v tok = true -> add_if_new (v, r, i) tok = (v, r, i).
Proof. intros v r i tok Hh. unfold add_if_new. now rewrite Hh. Qed.

Section Stall.
Variable cfg : TokenizerConfig.
Variable W : JsMap.t str Z.
Variables a b : str.
Hypothesis W_fixed : applyMerge W (a, b) = W.
Hypothesis W_step : forall s, l_currentWords s = W ->
                              train_step cfg s = Some (merged_state s (a, b)).

Lemma stall_loop : forall more s,
    l_currentWords s = W ->
    JsMap.has (l_vocabulary s) (a ++ b) = true ->
    exists k,
      (k <= more)%nat
      /\ l_merges (train_loop more cfg s) = l_merges s ++ repeat (a, b) k
      /\ l_currentWords (train_loop more cfg s) = W
      /\ l_vocabulary (train_loop more cfg s) = l_vocabulary s
      /\ l_reverseVocabulary (train_loop more cfg s) = l_reverseVocabulary s
      /\ (k = more \/ loop_cond cfg (train_loop more cfg s) = false).
Proof.
  induction more as [|more IH]; intros s Ws Hs.
  - exists 0%nat. cbn. rewrite app_nil_r. repeat split; auto.
  - cbn [train_loop]. destruct (loop_cond cfg s) eqn:C.
    + rewrite (W_step s Ws).
      destruct (merged_state_fields s (a, b)) as (Em & Ew & _ & Ea).
      cbn [fst snd] in Ea. rewrite add_if_new_present in Ea by assumption.
      injection Ea as Ev Er _.
      destruct (IH (merged_state s (a, b))) as (k & Lk & Fm & Fw & Fv & Fr & Fc).
      * now rewrite Ew, Ws.
      * now rewrite Ev.
      * exists (S k). split; [lia|]. rewrite Fm, Fw, Fv, Fr, Em, Ev, Er.
        rewrite <- app_assoc. cbn [repeat app]. repeat split.
        destruct Fc as [->|Fc]; [now left|now right].
    + exists 0%nat. cbn [repeat]. rewrite app_nil_r.
      repeat split; auto. lia.
Qed.
End Stall.

(** X4.  In the merge loop of train, when the pair (a, b) chosen in a pass
    has a symbol that is not made of word characters only (every pair with
    '</w>' or a punctuation sign), the pass leaves the table of words
    unchanged, and from then on every pass records the same rule (a, b)
    again while the vocabulary and its inverse stay the same: after any
    number of further passes the merge list is the old one followed by
    copies of (a, b), one per pass, until the loop condition (vocabSize or
    maxMerges) ends the loop. *)
Theorem train_stalls_on_unmergeable_pair :
  forall (cfg : TokenizerConfig) (text : str) (fuel : nat) (st' : TrainLoop)
         (a b : str) (more : nat),
    let st := train_loop fuel cfg (train_init cfg text) in
    train_step cfg st = Some st' ->
    l_merges st' = l_merges st ++ [(a, b)] ->
    (is_word_string a && is_word_string b)%bool = false ->
    let fin := train_loop more cfg st' in
    l_currentWords st' = l_currentWords st
    /\ exists k,
        (k <= more)%nat
        /\ l_merges fin = l_merges st' ++ repeat (a, b) k
        /\ l_currentWords fin = l_currentWords st
        /\ l_vocabulary fin = l_vocabulary st'
        /\ l_reverseVocabulary fin = l_reverseVocabulary st'
        /\ (k = more \/ loop_cond cfg fin = false).
Proof.
  intros cfg text fuel st' a b more st E Em Nw fin.
  pose proof (loop_inv_g cfg text fuel) as I. fold st in I.
  pose proof (train_loop_words_NoDup cfg text fuel) as ND. fold st in ND.
  pose proof (step_inv_g cfg st st' I E) as (_ & M' & _).
  destruct (train_step_merged cfg st st' E) as (bp & Es & Det).
  destruct (merged_state_fields st bp) as (Fm & Fw & _ & Fa).
  rewrite <- Es in Fm, Fw, Fa. rewrite Fm in Em.
  apply app_inj_tail in Em as [_ ->]. cbn [fst snd] in Fa.
  destruct (M' a b) as (Ga & Gb & _).
  { rewrite Fm. apply in_or_app. right. now left. }
  assert (Fix : applyMerge (l_currentWords st) (a, b) = l_currentWords st).
  { apply applyMerge_fixed; [exact ND|]. intros e Ie. cbn [fst snd].
    destruct I as (Wd & _ & _). destruct (Wd e Ie) as (xs & Fxs & _ & ->).
    rewrite (replace_merge_symbols a b Ga Gb xs Fxs).
    unfold merge_by_pattern. now rewrite Nw. }
  assert (Ew : l_currentWords st' = l_currentWords st) by now rewrite Fw.
  split; [exact Ew|].
  apply (stall_loop cfg (l_currentWords st) a b Fix).
  - intros s Ws. apply Det. exact Ws.
  - exact Ew.
  - assert (Ev : l_vocabulary st'
                 = fst (fst (add_if_new (l_vocabulary st, l_reverseVocabulary st,
                                         l_tokenId st) (a ++ b)))) by now rewrite <- Fa.
    rewrite Ev. apply add_if_new_has_new.
Qed.

Lemma train_stalls_on_unmergeable_pair_witness :
  let cfg := config (constructor no_options) in
  let st := train_init cfg (lit "b b b") in
  let st' := merged_state st (lit "b", lit "</w>") in
  exists k,
    (k <= 7)%nat
    /\ l_merges (train_loop 7 cfg st') = (lit "b", lit "</w>") :: repeat (lit "b", lit "</w>") k
    /\ (k = 7%nat \/ loop_cond cfg (train_loop 7 cfg st') = false).
Proof.
  intros cfg st st'.
  destruct (train_stalls_on_unmergeable_pair cfg (lit "b b b") 0 st'
              (lit "b") (lit "</w>") 7) as (_ & k & Lk & Em & _ & _ & _ & Ec).
  - vm_compute. reflexivity.
  - reflexivity.
  - reflexivity.
  - exists k. split; [exact Lk|]. split; [exact Em|exact Ec].
Defined.

(** ** A merged pair is used up *)

Lemma adjacent_pairs_cons : forall x (l : list str),
    l <> [] -> adjacent_pairs (x :: l) = (x, hd [] l) :: adjacent_pairs l.
Proof. intros x [|y l] Hl; [now elim Hl|reflexivity]. Qed.

Lemma merge_adjacent_hd : forall f s y rest,
    exists h tl, merge_adjacent f s (y :: rest) = h :: tl /\ (h = y \/ h = f ++ s).
Proof.
  intros f s y [|z rest].
  - exists y, []. split; [reflexivity|now left].
  - rewrite merge_adjacent_cons2. destruct (Str.eqb y f && Str.eqb z s)%bool.
    + eexists. eexists. split; [reflexivity|now right].
    + eexists. eexists. split; [reflexivity|now left].
Qed.

Lemma merge_adjacent_consumes : forall f s z,
    f <> [] -> s <> [] -> z <> s ->
    forall xs, ~ In (f, s) (adjacent_pairs (merge_adjacent f s xs ++ [z])).
Proof.
  intros f s z Nf Ns Nz.
  assert (Lf : f ++ s <> f).
  { intros E. apply (f_equal (@length ascii)) in E. rewrite length_app in E.
    destruct s; [now apply Ns|cbn in E; lia]. }
  assert (Ls : f ++ s <> s).
  { intros E. apply (f_equal (@length ascii)) in E. rewrite length_app in E.
    destruct f; [now apply Nf|cbn in E; lia]. }
  apply (list_ind2 (fun xs => ~ In (f, s) (adjacent_pairs (merge_adjacent f s xs ++ [z])))).
  - cbn. tauto.
  - intros x. cbn. intros [E|[]]. injection E as _ E. now apply Nz.
  - intros x y rest IH1 IH2. rewrite merge_adjacent_cons2.
    destruct (Str.eqb x f && Str.eqb y s)%bool eqn:T.
    + cbn [app]. rewrite adjacent_pairs_cons by (destruct (merge_adjacent f s rest); discriminate).
      intros [E|I]; [|now apply IH1]. injection E as E _. now apply Lf.
    + cbn [app]. rewrite adjacent_pairs_cons
        by (destruct (merge_adjacent f s (y :: rest)); discriminate).
      intros [E|I]; [|now apply IH2].
      pose proof (f_equal fst E) as E1. pose proof (f_equal snd E) as E2.
      cbn [fst snd] in E1, E2. clear E. subst x.
      destruct (merge_adjacent_hd f s y rest) as (h & tl & Eh & [->| ->]);
        rewrite Eh in E2; cbn [app hd] in E2.
      * subst y. rewrite !str_eqb_refl in T. discriminate.
      * now apply Ls.
Qed.

Lemma pair_occurrences_absent : forall a b word,
    ~ In (a, b) (adjacent_pairs word) -> pair_occurrences a b word = 0%Z.
Proof.
  intros a b word N. unfold pair_occurrences.
  assert (E : filter (fun p : str * str => (Str.eqb (fst p) a && Str.eqb (snd p) b)%bool)
                     (adjacent_pairs word) = []).
  { induction (adjacent_pairs word) as [|[x y] l IH]; [reflexivity|].
    cbn [filter fst snd]. destruct (Str.eqb x a && Str.eqb y b)%bool eqn:T.
    - apply andb_true_iff in T as [T1 T2]. apply str_eqb_eq in T1, T2. subst.
      exfalso. apply N. now left.
    - apply IH. intros I. apply N. now right. }
  now rewrite E.
Qed.

Lemma weighted_count_absent : forall (words : JsMap.t str Z) a b,
    (forall e, In e words -> ~ In (a, b) (adjacent_pairs (split_on " " (fst e)))) ->
    weighted_count words a b = 0%Z.
Proof.
  intros words a b P. unfold weighted_count.
  induction words as [|e l IH]; [reflexivity|].
  cbn [fold_right]. rewrite IH by (intros x Ix; apply P; now right).
  rewrite pair_occurrences_absent by (apply P; now left). lia.
Qed.

(** X3.  In the merge loop of train, when the pair (a, b) chosen in a pass
    consists of two symbols made of word characters, then after the pass no
    word of the table has a adjacent to b any more: the pair's weighted
    count is 0 and countPairs of the new table has no entry for it, so the
    next pass cannot choose it again. *)
Theorem train_step_consumes_pair :
  forall (cfg : TokenizerConfig) (text : str) (fuel : nat) (st' : TrainLoop) (a b : str),
    let st := train_loop fuel cfg (train_init cfg text) in
    train_step cfg st = Some st' ->
    l_merges st' = l_merges st ++ [(a, b)] ->
    (is_word_string a && is_word_string b)%bool = true ->
    (forall e, In e (l_currentWords st') ->
               ~ In (a, b) (adjacent_pairs (split_on " " (fst e))))
    /\ weighted_count (l_currentWords st') a b = 0%Z
    /\ JsMap.has (countPairs (l_currentWords st')) (pair_key a b) = false.
Proof.
  intros cfg text fuel st' a b st E Em Tw.
  pose proof (loop_inv_g cfg text fuel) as I. fold st in I.
  pose proof (step_inv_g cfg st st' I E) as (W' & _ & _).
  destruct (train_step_merged cfg st st' E) as (bp & Es & _).
  destruct (merged_state_fields st bp) as (Fm & Fw & _ & _).
  rewrite <- Es in Fm, Fw. rewrite Fm in Em.
  apply app_inj_tail in Em as [_ ->].
  apply andb_true_iff in Tw as [Ta Tb].
  pose proof (proj1 (is_word_string_spec a) Ta) as Wa.
  pose proof (proj1 (is_word_string_spec b) Tb) as Wb.
  assert (Ga : gsym_or_marker a) by (left; now left).
  assert (Gb : gsym_or_marker b) by (left; now left).
  assert (P : forall e, In e (l_currentWords st') ->
                        ~ In (a, b) (adjacent_pairs (split_on " " (fst e)))).
  { intros e Ie. rewrite Fw in Ie. apply applyMerge_In in Ie as (w & Iw & Ee).
    destruct I as (Wd & _ & _). destruct (Wd _ Iw) as (xs & Fxs & _ & Ew).
    cbn [fst snd] in Ee, Ew. subst w.
    rewrite (replace_merge_symbols a b Ga Gb xs Fxs) in Ee. rewrite Ee.
    unfold merge_by_pattern. rewrite Ta, Tb. cbn [andb].
    rewrite g_split_word_text.
    - apply merge_adjacent_consumes.
      + apply Wa.
      + apply Wb.
      + intros Eb. apply (gsym_not_marker b); [now left|now symmetry].
    - pose proof (merge_by_pattern_gsyms a b xs Fxs) as G.
      unfold merge_by_pattern in G. now rewrite Ta, Tb in G. }
  split; [exact P|]. split.
  - now apply weighted_count_absent.
  - apply has_false_keys. rewrite countPairs_keys, first_occurrences_In.
    intros Ik. unfold pair_keys_of_table in Ik.
    apply in_flat_map in Ik as (e & Ie & Ik).
    apply pair_keys_In in Ik as (a' & b' & Iab & Ek).
    destruct (W' e Ie) as (xs & Fxs & _ & Ew).
    pose proof Iab as Iab'. rewrite Ew in Iab'.
    apply (g_word_symbols xs a' b' Fxs) in Iab' as [Ia' _].
    assert (Na' : ~ In " " a').
    { apply gsym_or_marker_no_space. apply in_app_or in Ia' as [Ia'|[<-|[]]].
      - left. rewrite Forall_forall in Fxs. now apply Fxs.
      - now right. }
    apply pair_key_inj in Ek as [-> ->];
      [|now apply gsym_or_marker_no_space|assumption].
    now apply (P e Ie).
Qed.

Lemma train_step_consumes_pair_witness :
  let cfg := config (constructor no_options) in
  let st := train_init cfg (lit "low lower") in
  let st' := merged_state st (lit "l", lit "o") in
  weighted_count (l_currentWords st) (lit "l") (lit "o") = 2%Z
  /\ weighted_count (l_currentWords st') (lit "l") (lit "o") = 0%Z.
Proof.
  intros cfg st st'. split; [reflexivity|].
  destruct (train_step_consumes_pair cfg (lit "low lower") 0 st' (lit "l") (lit "o"))
    as (_ & E & _).
  - vm_compute. reflexivity.
  - reflexivity.
  - reflexivity.
  - exact E.
Defined.

(** ** The token count *)

Section EncoderCount.
Variable t : BPETokenizer.
Hypothesis t_merges : forall f s,
    In (f, s) (merges t) ->
    gsym_or_marker f /\ gsym_or_marker s
    /\ JsMap.has (vocabulary t) f = true
    /\ JsMap.has (vocabulary t) s = true
    /\ JsMap.has (vocabulary t) (f ++ s) = true.
Hypothesis t_marker : JsMap.has (vocabulary t) marker = true.

Lemma apply_merges_symbols : forall ms xs,
    (forall f s, In (f, s) ms -> In (f, s) (merges t)) ->
    Forall gsym xs ->
    exists xs',
      apply_merges ms (word_text xs) = word_text xs'
      /\ Forall gsym xs' /\ concat xs' = concat xs
      /\ (forall x, In x xs' -> In x xs \/ JsMap.has (vocabulary t) x = true).
Proof.
  induction ms as [|[f s] ms IH]; intros xs Sub F.
  - exists xs. repeat split; auto.
  - destruct (t_merges f s (Sub f s (or_introl eq_refl))) as (Sf & Ss & _ & _ & Hfs).
    unfold apply_merges. cbn [fold_left fst snd].
    rewrite (replace_merge_symbols f s Sf Ss xs F).
    destruct (IH (merge_by_pattern f s xs)) as (xs' & E & F' & C' & K').
    + intros f' s' I. apply Sub. now right.
    + now apply merge_by_pattern_gsyms.
    + exists xs'. split; [exact E|]. split; [exact F'|]. split.
      * rewrite C'. apply merge_by_pattern_concat.
      * intros x I. destruct (K' x I) as [I'|Kx]; [|now right].
        apply merge_by_pattern_In in I' as [I'| ->]; [now left|now right].
Qed.

Lemma gsyms_length : forall xs, Forall gsym xs -> (length xs <= length (concat xs))%nat.
Proof.
  induction 1 as [|x xs Gx F IH]; [reflexivity|].
  cbn [concat length]. rewrite length_app.
  apply gsym_nonempty in Gx. destruct x; [now elim Gx|cbn; lia].
Qed.

Lemma filter_nonempty_gsyms : forall xs,
    Forall gsym xs -> filter nonempty (xs ++ [marker]) = xs ++ [marker].
Proof.
  intros xs F. rewrite filter_app. cbn [filter]. change (nonempty marker) with true.
  f_equal. induction F as [|x xs Gx F IH]; [reflexivity|].
  cbn [filter]. rewrite (proj2 (nonempty_true x) (gsym_nonempty x Gx)). now f_equal.
Qed.

(** With the unknown token in the vocabulary every symbol of a word gives
    one id, so a word gives between two ids and one more than it has
    characters. *)
Lemma word_ids_length : forall w,
    word_ok w ->
    JsMap.has (vocabulary t) (unknownToken (config t)) = true
    \/ (forall c, In c w -> JsMap.has (vocabulary t) [c] = true) ->
    (2 <= length (word_ids t w) <= length w + 1)%nat.
Proof.
  intros w Sw U.
  destruct (apply_merges_symbols (merges t) (split_chars w)) as (xs & E & F & C & K);
    [auto|now apply split_chars_gsyms|].
  rewrite concat_split_chars in C.
  assert (L : length (word_ids t w) = S (length xs)).
  { unfold word_ids. rewrite processedWord_word_text by apply Sw. rewrite E.
    rewrite g_split_word_text by assumption. rewrite filter_nonempty_gsyms by assumption.
    rewrite flat_map_app, length_app. cbn [flat_map].
    unfold JsMap.has in t_marker.
    destruct (JsMap.get (vocabulary t) marker); [|discriminate]. cbn [length app].
    assert (Lx : forall ys, (forall x, In x ys -> In x xs) ->
                 length (flat_map
                   (fun part =>
                      match JsMap.get (vocabulary t) part with
                      | Some tokenId => [tokenId]
                      | None =>
                          match JsMap.get (vocabulary t) (unknownToken (config t)) with
                          | Some unkId => [unkId]
                          | None => []
                          end
                      end) ys) = length ys).
    { induction ys as [|y ys IH]; intros Sub; [reflexivity|].
      cbn [flat_map]. rewrite length_app, IH by (intros x I; apply Sub; now right).
      cbn [length]. f_equal.
      destruct (JsMap.get (vocabulary t) y) eqn:G; [reflexivity|].
      destruct U as [U|U].
      - unfold JsMap.has in U.
        destruct (JsMap.get (vocabulary t) (unknownToken (config t)));
          [reflexivity|discriminate].
      - exfalso. destruct (K y (Sub y (or_introl eq_refl))) as [I|Ky].
        + unfold split_chars in I. apply in_map_iff in I as (c & <- & Ic).
          specialize (U c Ic). unfold JsMap.has in U. now rewrite G in U.
        + unfold JsMap.has in Ky. now rewrite G in Ky. }
    rewrite Lx by auto. lia. }
  pose proof (gsyms_length xs F) as Lx. rewrite C in Lx.
  assert (1 <= length xs)%nat.
  { destruct xs; [|cbn; lia]. cbn in C. destruct Sw as [Ne _]. now elim Ne. }
  lia.
Qed.
End EncoderCount.

Lemma flat_map_length_bounds : forall {A B} (f : A -> list B) (g : A -> nat) l lo,
    (forall x, In x l -> (lo <= length (f x) <= g x)%nat) ->
    (lo * length l <= length (flat_map f l) <= fold_right (fun x n => g x + n) 0 l)%nat.
Proof.
  intros A B f g l lo Hb. induction l as [|x l IH]; [cbn; lia|].
  cbn [flat_map fold_right length]. rewrite length_app.
  pose proof (Hb x (or_introl eq_refl)).
  assert (lo * length l <= length (flat_map f l)
          <= fold_right (fun x n => g x + n) 0 l)%nat
    by (apply IH; intros y I; apply Hb; now right).
  lia.
Qed.

Lemma fold_right_lengths : forall ws0 : list str,
    fold_right (fun (x : str) n => length x + 1 + n) 0 ws0
    = (length (concat ws0) + length ws0)%nat.
Proof.
  induction ws0 as [|w ws0 IH]; [reflexivity|].
  cbn [fold_right concat length]. rewrite length_app, IH. lia.
Qed.

(** X19.  After train(text) on a text that is not blank,
    getTokenizerResult(text') on a text' over the characters of the training
    text does not throw; its tokens are those of tokenize(text'), its
    vocabulary, reverseVocabulary and merges are the tokenizer's; the number
    of tokens is at least twice the number of words of text' and at most the
    number of characters of its words plus the number of words; so for a
    text' that is not blank the token list is not empty and compressionRatio
    is not a division by zero. *)
Theorem getTokenizerResult_after_train :
  forall (t0 : BPETokenizer) (text text' : str),
    blank text = false ->
    covers text text' = true ->
    let t := fst (train t0 text) in
    exists r,
      getTokenizerResult t text' = Ok r
      /\ tokenize t text' = Ok (r_tokens r)
      /\ r_vocabulary r = vocabulary t
      /\ r_reverseVocabulary r = reverseVocabulary t
      /\ r_merges r = merges t
      /\ (2 * length (wordList_of text') <= length (r_tokens r)
          <= length (concat (wordList_of text')) + length (wordList_of text'))%nat
      /\ (blank text' = false -> r_tokens r <> []).
Proof.
  intros t0 text text' B Cov t.
  pose proof (train_blank_or_ok t0 text B) as O.
  assert (E : train t0 text = (t, Ok tt)).
  { subst t. rewrite <- O. apply surjective_pairing. }
  destruct (train_encoder_ok _ _ _ E) as (_ & M & Hm & Ch).
  pose proof (tokenize_flat_map t text' (has_not_nil _ _ Hm)) as T.
  unfold getTokenizerResult. rewrite T. eexists. split; [reflexivity|].
  cbn [r_tokens r_vocabulary r_reverseVocabulary r_merges].
  repeat split.
  - apply (flat_map_length_bounds (word_ids t) (fun w => length w + 1) _ 2)%nat.
    intros w Iw. apply (word_ids_length t M Hm).
    + now apply (wordList_clean text').
    + right. intros c Ic.
      destruct (covers_words _ _ _ _ Cov Iw Ic) as (w0 & Iw0 & Ic0). now apply (Ch w0).
  - rewrite <- fold_right_lengths.
    apply (flat_map_length_bounds (word_ids t) (fun w => length w + 1) _ 2)%nat.
    intros w Iw. apply (word_ids_length t M Hm).
    + now apply (wordList_clean text').
    + right. intros c Ic.
      destruct (covers_words _ _ _ _ Cov Iw Ic) as (w0 & Iw0 & Ic0). now apply (Ch w0).
  - intros B' En.
    assert (L : (2 * length (wordList_of text')
                 <= length (flat_map (word_ids t) (wordList_of text')))%nat).
    { apply (flat_map_length_bounds (word_ids t) (fun w => length w + 1) _ 2)%nat.
      intros w Iw. apply (word_ids_length t M Hm).
      + now apply (wordList_clean text').
      + right. intros c Ic.
        destruct (covers_words _ _ _ _ Cov Iw Ic) as (w0 & Iw0 & Ic0). now apply (Ch w0). }
    rewrite En in L. cbn [length] in L.
    destruct (wordList_of text') eqn:W; [|cbn in L; lia].
    apply wordList_blank in W. congruence.
Qed.

Lemma getTokenizerResult_after_train_witness :
  let t := fst (train (constructor no_options) (lit "low lower")) in
  exists r, getTokenizerResult t (lit "Lower  low") = Ok r
            /\ (4 <= length (r_tokens r) <= 10)%nat.
Proof.
  cbn zeta.
  destruct (getTokenizerResult_after_train (constructor no_options)
              (lit "low lower") (lit "Lower  low"))
    as (r & E & _ & _ & _ & _ & L & _); [reflexivity|reflexivity|].
  exists r. split; [exact E|]. exact L.
Defined.

(** ** The vocabulary analysis *)

Lemma analysis_fold : forall cfg (entries : list (str * N)) st,
    NoDup (JsMap.keys (al_tokenDistribution st)) ->
    let toks := filter (fun tok => negb (includes (specialTokens cfg) tok))
                       (map fst entries) in
    let st' := fold_left (analysis_step cfg) entries st in
    al_characterTokens st'
    = (al_characterTokens st
       + length (filter (fun tok : str => Nat.eqb (length tok) 1) toks))%nat
    /\ al_subwordTokens st'
       = (al_subwordTokens st
          + length (filter (fun tok : str => negb (Nat.eqb (length tok) 1)) toks))%nat
    /\ al_totalLength st' = (al_totalLength st + length (concat toks))%nat
    /\ NoDup (JsMap.keys (al_tokenDistribution st'))
    /\ forall n,
        or_default (JsMap.get (al_tokenDistribution st') n) 0%nat
        = (or_default (JsMap.get (al_tokenDistribution st) n) 0
           + length (filter (fun tok : str => N.eqb (N.of_nat (length tok)) n) toks))%nat.
Proof.
  intros cfg. induction entries as [|[tok id] entries IH]; intros st ND.
  - cbn. repeat split; auto.
  - cbn [fold_left map filter fst].
    destruct (includes (specialTokens cfg) tok) eqn:Sp; cbn [negb].
    + assert (Es : analysis_step cfg st (tok, id) = st)
        by (unfold analysis_step; cbn [fst]; now rewrite Sp).
      rewrite Es. now apply IH.
    + set (st1 := analysis_step cfg st (tok, id)).
      assert (Es : st1
                   = {| al_totalLength := al_totalLength st + length tok;
                        al_characterTokens :=
                          if Nat.eqb (length tok) 1 then S (al_characterTokens st)
                          else al_characterTokens st;
                        al_subwordTokens :=
                          if Nat.eqb (length tok) 1 then al_subwordTokens st
                          else S (al_subwordTokens st);
                        al_tokenDistribution :=
                          JsMap.set (al_tokenDistribution st) (N.of_nat (length tok))
                            (or_default (JsMap.get (al_tokenDistribution st)
                                                   (N.of_nat (length tok))) 0 + 1) |})
        by (subst st1; unfold analysis_step; cbn [fst]; now rewrite Sp).
      destruct (IH st1) as (E1 & E2 & E3 & E4 & E5).
      { rewrite Es. cbn [al_tokenDistribution]. now apply NoDup_keys_set. }
      cbn zeta in *. rewrite E1, E2, E3.
      split; [|split; [|split; [|split; [exact E4|]]]].
      * rewrite Es. cbn [al_characterTokens filter].
        destruct (Nat.eqb (length tok) 1); cbn [length]; lia.
      * rewrite Es. cbn [al_subwordTokens filter].
        destruct (Nat.eqb (length tok) 1); cbn [negb length]; lia.
      * rewrite Es. cbn [al_totalLength concat]. rewrite length_app. lia.
      * intros n. rewrite E5, Es. cbn [al_tokenDistribution filter]. rewrite get_set.
        change (keqb (N.of_nat (length tok)) n) with (N.eqb (N.of_nat (length tok)) n).
        destruct (N.eqb (N.of_nat (length tok)) n) eqn:En; cbn [or_default length]; [|lia].
        apply N.eqb_eq in En. subst n. lia.
Qed.

Lemma getVocabularyAnalysis_counts_hold : forall t : BPETokenizer,
    let a := getVocabularyAnalysis t in
    let toks := counted_tokens t in
    characterTokens a = length (filter (fun tok : str => Nat.eqb (length tok) 1) toks)
    /\ (characterTokens a + subwordTokens a = length toks)%nat
    /\ NoDup (JsMap.keys (tokenDistribution a))
    /\ (forall n, or_default (JsMap.get (tokenDistribution a) n) 0%nat
                  = length (filter (fun tok : str => N.eqb (N.of_nat (length tok)) n) toks))
    /\ averageTokenLength a
       = PrimFloat.div (float_of_nat (length (concat toks)))
                       (float_of_Z (Z.of_nat (totalTokens a) - Z.of_nat (a_specialTokens a))).
Proof.
  intros t a toks. subst a toks. unfold getVocabularyAnalysis, counted_tokens.
  cbn [characterTokens subwordTokens tokenDistribution averageTokenLength totalTokens
       a_specialTokens].
  destruct (analysis_fold (config t) (vocabulary t)
              {| al_totalLength := 0; al_characterTokens := 0;
                 al_subwordTokens := 0; al_tokenDistribution := [] |})
    as (E1 & E2 & E3 & E4 & E5); [constructor|].
  cbn zeta in *. cbn [al_characterTokens al_subwordTokens al_totalLength
                      al_tokenDistribution] in *.
  unfold JsMap.keys. rewrite E1, E2, E3. cbn [Nat.add].
  split; [reflexivity|]. split.
  - generalize (filter (fun tok : str => negb (includes (specialTokens (config t)) tok))
                       (map fst (vocabulary t))).
    induction l as [|x l IH]; [reflexivity|].
    cbn [filter]. destruct (Nat.eqb (length x) 1); cbn [negb length]; lia.
  - split; [exact E4|]. split; [|reflexivity].
    intros n. rewrite E5. reflexivity.
Qed.

(** X20.  For every tokenizer state, getVocabularyAnalysis counts the tokens
    of the vocabulary that are not special tokens: characterTokens is the
    number of those of length 1, characterTokens + subwordTokens is the
    number of all of them, tokenDistribution holds each length at most once
    and gives for every length the number of them with that length (none
    where it has no entry), and averageTokenLength is their total length
    divided by (totalTokens - specialTokens). *)
Theorem getVocabularyAnalysis_counts : forall t : BPETokenizer,
    let a := getVocabularyAnalysis t in
    let toks := counted_tokens t in
    characterTokens a = length (filter (fun tok : str => Nat.eqb (length tok) 1) toks)
    /\ (characterTokens a + subwordTokens a = length toks)%nat
    /\ NoDup (JsMap.keys (tokenDistribution a))
    /\ (forall n, or_default (JsMap.get (tokenDistribution a) n) 0%nat
                  = length (filter (fun tok : str => N.eqb (N.of_nat (length tok)) n) toks))
    /\ averageTokenLength a
       = PrimFloat.div (float_of_nat (length (concat toks)))
                       (float_of_Z (Z.of_nat (totalTokens a) - Z.of_nat (a_specialTokens a))).
Proof. exact getVocabularyAnalysis_counts_hold. Qed.

Lemma NoDup_filter_str : forall (p : str -> bool) l, NoDup l -> NoDup (filter p l).
Proof.
  intros p. induction 1 as [|x l N ND IH]; [constructor|].
  cbn [filter]. destruct (p x); [|exact IH].
  constructor; [|exact IH]. intros I. apply filter_In in I. now apply N.
Qed.

Lemma add_NoDup : forall s x, NoDup s -> NoDup (JsSet.add s x).
Proof.
  intros s x ND. unfold JsSet.add. destruct (existsb (Str.eqb x) s) eqn:E; [exact ND|].
  apply NoDup_app; [exact ND|repeat constructor; intros []| ].
  intros y Iy [Exy|[]]. subst y.
  assert (existsb (Str.eqb x) s = true)
    by (apply existsb_exists; exists x; split; [assumption|apply str_eqb_refl]).
  congruence.
Qed.

Lemma text_chars_NoDup : forall text, NoDup (text_chars text).
Proof.
  intros text. unfold text_chars, collect_chars.
  apply fold_preserves; [|constructor].
  intros acc w ND. apply fold_preserves; [|exact ND].
  intros acc' ch ND'. destruct (negb (Str.eqb ch marker) && nonempty ch)%bool;
    [now apply add_NoDup|exact ND'].
Qed.

Lemma text_chars_spec : forall text x,
    In x (text_chars text)
    <-> exists c, x = [c] /\ In c (toLowerCase text) /\ is_ws c = false.
Proof.
  intros text x. split.
  - intros I. pose proof I as I0. apply collect_chars_text in I as [I|E]; [exact I|].
    exfalso. subst x. unfold text_chars in I0.
    revert I0. unfold collect_chars.
    generalize (JsMap.keys (count_words (wordList_of text))).
    intros ks.
    assert (G : forall l acc, ~ In marker acc ->
                 ~ In marker
                   (fold_left
                      (fun allChars word =>
                         fold_left
                           (fun ac ch =>
                              if (negb (Str.eqb ch marker) && nonempty ch)%bool
                              then JsSet.add ac ch else ac)
                           (split_on " " word) allChars) l acc)).
    { intros l acc N0.
      apply (fold_preserves (fun a : list str => ~ In marker a)); [|exact N0].
      intros a w Na.
      apply (fold_preserves (fun a : list str => ~ In marker a)); [|exact Na].
      intros a' ch N. destruct (Str.eqb ch marker) eqn:Em; cbn [negb andb]; [exact N|].
      destruct (nonempty ch); [|exact N].
      unfold JsSet.add. destruct (existsb (Str.eqb ch) a'); [exact N|].
      intros I. apply in_app_or in I as [I|[Ech|[]]]; [now apply N|].
      rewrite Ech, str_eqb_refl in Em. discriminate. }
    apply G. intros [].
  - intros (c & -> & I & W).
    destruct (wordList_covers text c I W) as (w & Iw & Ic).
    pose proof (wordList_clean text w Iw) as Sw.
    apply (collect_chars_complete _ (processedWord w)).
    + now apply count_words_keys.
    + rewrite processedWord_word_text by apply Sw.
      rewrite g_split_word_text by now apply split_chars_gsyms.
      apply in_or_app. left. unfold split_chars. apply in_map_iff. now exists c.
    + discriminate.
    + discriminate.
Qed.

Lemma NoDup_same_length : forall (l l' : list str),
    NoDup l -> NoDup l' -> (forall x, In x l <-> In x l') -> length l = length l'.
Proof.
  intros l l' N N' S. apply Permutation_length. now apply NoDup_Permutation.
Qed.

Lemma includes_spec : forall l x, includes l x = true <-> In x l.
Proof.
  intros l x. unfold includes. rewrite existsb_exists. split.
  - intros (y & I & E). apply str_eqb_eq in E. now subst.
  - intros I. exists x. split; [assumption|apply str_eqb_refl].
Qed.

(** X21.  After a successful train(text), getVocabularyAnalysis gives as
    characterTokens the number of distinct non-white-space characters of the
    lowercased text that are not special tokens, as mergeOperations the
    number of merge rules, and, when the special tokens are pairwise
    distinct, characterTokens + subwordTokens + specialTokens = totalTokens,
    so the divisor of averageTokenLength is the number of tokens counted. *)
Theorem getVocabularyAnalysis_after_train :
  forall (t0 : BPETokenizer) (text : str) (t : BPETokenizer),
    train t0 text = (t, Ok tt) ->
    let a := getVocabularyAnalysis t in
    characterTokens a
    = length (filter (fun x => negb (includes (specialTokens (config t0)) x))
                     (text_chars text))
    /\ a_mergeOperations a = length (merges t)
    /\ (NoDup (specialTokens (config t0)) ->
        (characterTokens a + subwordTokens a + a_specialTokens a = totalTokens a)%nat).
Proof.
  intros t0 text t E a.
  destruct (getVocabularyAnalysis_counts_hold t) as (E1 & E2 & _).
  fold a in E1, E2.
  destruct (train_maps_wf _ _ _ E) as (NDv & _ & _).
  pose proof (train_encoder_ok _ _ _ E) as (_ & M & _ & _).
  pose proof (train_vocabulary_contents_hold _ _ _ E) as C.
  apply train_ok in E as (_ & _ & _ & _ & _ & _ & Ecfg).
  split; [|split; [reflexivity|]].
  - rewrite E1. apply NoDup_same_length.
    + apply NoDup_filter_str. unfold counted_tokens. now apply NoDup_filter_str.
    + apply NoDup_filter_str. apply text_chars_NoDup.
    + intros x. unfold counted_tokens. rewrite !filter_In, Ecfg.
      rewrite <- has_true_keys, C, text_chars_spec, negb_true_iff.
      split.
      * intros [[[Sp|[Ch|[Em|(f & s & I & Ex)]]] Ns] L1].
        -- apply includes_spec in Sp. congruence.
        -- now split.
        -- subst x. discriminate.
        -- exfalso. destruct (M f s I) as (Gf & Gs & _).
           apply gsym_or_marker_nonempty in Gf, Gs. subst x.
           rewrite length_app in L1. apply Nat.eqb_eq in L1.
           destruct f; [now apply Gf|]. destruct s; [now apply Gs|]. cbn in L1. lia.
      * intros [(c & -> & I & W) Ns]. split; [split; [|exact Ns]|reflexivity].
        right. left. now exists c.
  - intros ND. rewrite E2.
    assert (Hs : length (filter (fun tok => includes (specialTokens (config t0)) tok)
                                (JsMap.keys (vocabulary t)))
                 = length (specialTokens (config t0))).
    { apply NoDup_same_length; [now apply NoDup_filter_str|exact ND|].
      intros x. rewrite filter_In, <- has_true_keys, C, includes_spec. tauto. }
    assert (Hp : forall l : list str,
               (length (filter (fun tok => negb (includes (specialTokens (config t0)) tok)) l)
                + length (filter (fun tok => includes (specialTokens (config t0)) tok) l)
                = length l)%nat).
    { induction l as [|x l IH]; [reflexivity|].
      cbn [filter]. destruct (includes (specialTokens (config t0)) x);
        cbn [negb length]; lia. }
    assert (Ht : totalTokens a = length (JsMap.keys (vocabulary t))).
    { unfold a, getVocabularyAnalysis. cbn [totalTokens].
      unfold JsMap.size, JsMap.keys. now rewrite length_map. }
    assert (Ha : a_specialTokens a = length (specialTokens (config t0))).
    { unfold a, getVocabularyAnalysis. cbn [a_specialTokens]. now rewrite Ecfg. }
    unfold counted_tokens. rewrite Ecfg, Ht, Ha, <- Hs. apply Hp.
Qed.

Lemma getVocabularyAnalysis_after_train_witness :
  let a := getVocabularyAnalysis (fst (train (constructor no_options) (lit "low lower"))) in
  characterTokens a = 5%nat
  /\ (characterTokens a + subwordTokens a + a_specialTokens a = totalTokens a)%nat.
Proof.
  cbn zeta.
  destruct (getVocabularyAnalysis_after_train (constructor no_options) (lit "low lower")
              (fst (train (constructor no_options) (lit "low lower"))) eq_refl)
    as (E & _ & S).
  split.
  - rewrite E. reflexivity.
  - apply S. vm_compute.
    repeat constructor; intros I; cbn in I;
      repeat (destruct I as [I|I]; [discriminate|]); exact I.
Defined.

(** ** The order of strings *)

Lemma code_inj : forall x y, code x = code y -> x = y.
Proof.
  intros x y E. unfold code in E.
  rewrite <- (ascii_N_embedding x), <- (ascii_N_embedding y). now rewrite E.
Qed.

Lemma ltb_irrefl : forall a, Str.ltb a a = false.
Proof.
  induction a as [|x a IH]; [reflexivity|].
  cbn [Str.ltb]. rewrite N.ltb_irrefl. exact IH.
Qed.

Lemma ltb_trans : forall a b c,
    Str.ltb a b = true -> Str.ltb b c = true -> Str.ltb a c = true.
Proof.
  induction a as [|x a IH]; intros [|y b] [|z c] H1 H2; cbn [Str.ltb] in *;
    try discriminate; try reflexivity.
  destruct (N.ltb (code x) (code y)) eqn:Lxy;
    destruct (N.ltb (code y) (code z)) eqn:Lyz;
    destruct (N.ltb (code y) (code x)) eqn:Lyx;
    destruct (N.ltb (code z) (code y)) eqn:Lzy;
    try discriminate;
    rewrite ?N.ltb_lt, ?N.ltb_ge in *; try lia.
  - replace (N.ltb (code x) (code z)) with true by (symmetry; apply N.ltb_lt; lia).
    reflexivity.
  - replace (N.ltb (code x) (code z)) with true by (symmetry; apply N.ltb_lt; lia).
    reflexivity.
  - replace (N.ltb (code x) (code z)) with true by (symmetry; apply N.ltb_lt; lia).
    reflexivity.
  - replace (N.ltb (code x) (code z)) with false by (symmetry; apply N.ltb_ge; lia).
    replace (N.ltb (code z) (code x)) with false by (symmetry; apply N.ltb_ge; lia).
    now apply (IH b c).
Qed.

Lemma ltb_total : forall a b,
    Str.ltb a b = false -> Str.ltb b a = false -> a = b.
Proof.
  induction a as [|x a IH]; intros [|y b] H1 H2; cbn [Str.ltb] in *;
    try discriminate; try reflexivity.
  destruct (N.ltb (code x) (code y)) eqn:Lxy; [discriminate|].
  destruct (N.ltb (code y) (code x)) eqn:Lyx; [discriminate|].
  rewrite N.ltb_ge in Lxy, Lyx.
  assert (code x = code y) by lia.
  f_equal; [now apply code_inj|now apply IH].
Qed.

Lemma ltb_asym : forall a b, Str.ltb a b = true -> Str.ltb b a = false.
Proof.
  intros a b H. destruct (Str.ltb b a) eqn:E; [|reflexivity].
  pose proof (ltb_trans _ _ _ H E) as T. now rewrite ltb_irrefl in T.
Qed.

Lemma leb_trans : forall a b c,
    Str.ltb b a = false -> Str.ltb c b = false -> Str.ltb c a = false.
Proof.
  intros a b c H1 H2. destruct (Str.ltb c a) eqn:E; [|reflexivity].
  destruct (Str.ltb a b) eqn:Eab.
  - pose proof (ltb_trans _ _ _ E Eab). congruence.
  - pose proof (ltb_total _ _ Eab H1). subst. congruence.
Qed.

(** ** Sorting *)

Lemma insert_sorted_perm : forall x l, Permutation (insert_sorted x l) (x :: l).
Proof.
  intros x. induction l as [|y l IH]; [reflexivity|].
  cbn [insert_sorted]. destruct (Str.ltb x y); [reflexivity|].
  rewrite IH. apply perm_swap.
Qed.

Lemma sort_perm : forall l, Permutation (Str.sort l) l.
Proof.
  induction l as [|x l IH]; [reflexivity|].
  unfold Str.sort in *. cbn [fold_right]. rewrite insert_sorted_perm. now constructor.
Qed.

Lemma insert_sorted_sorted : forall x l,
    StronglySorted (fun a b => Str.ltb b a = false) l ->
    StronglySorted (fun a b => Str.ltb b a = false) (insert_sorted x l).
Proof.
  intros x. induction l as [|y l IH]; intros S.
  - repeat constructor.
  - cbn [insert_sorted]. inversion S as [|? ? S' F]; subst.
    destruct (Str.ltb x y) eqn:E.
    + constructor; [exact S|]. constructor; [now apply ltb_asym|].
      apply Forall_forall. intros z Iz. rewrite Forall_forall in F.
      apply (leb_trans x y z); [now apply ltb_asym|now apply F].
    + constructor; [now apply IH|].
      apply Forall_forall. intros z Iz.
      apply (Permutation_in _ (insert_sorted_perm x l)) in Iz as [<-|Iz]; [exact E|].
      rewrite Forall_forall in F. now apply F.
Qed.

Lemma sort_sorted : forall l, StronglySorted (fun a b => Str.ltb b a = false) (Str.sort l).
Proof.
  induction l as [|x l IH]; [constructor|].
  unfold Str.sort in *. cbn [fold_right]. now apply insert_sorted_sorted.
Qed.

Lemma fold_add_NoDup : forall l acc, NoDup acc -> NoDup (fold_left JsSet.add l acc).
Proof.
  intros l acc. apply fold_preserves. intros a b. apply add_NoDup.
Qed.

Lemma unique_sorted_NoDup : forall toks, NoDup (unique_sorted toks).
Proof.
  intros toks. unfold unique_sorted.
  apply (Permutation_NoDup (l := fold_left JsSet.add toks [])).
  - symmetry. apply sort_perm.
  - apply fold_add_NoDup. constructor.
Qed.

Lemma unique_sorted_In : forall toks x, In x (unique_sorted toks) <-> In x toks.
Proof.
  intros toks x. unfold unique_sorted. rewrite sort_In, fold_add_In. cbn. tauto.
Qed.

Lemma sorted_nth_lt : forall (l : list str) i j x y,
    StronglySorted (fun a b => Str.ltb b a = false) l -> NoDup l ->
    nth_error l i = Some x -> nth_error l j = Some y ->
    (i < j)%nat -> Str.ltb x y = true.
Proof.
  induction l as [|z l IH]; intros i j x y S ND Hi Hj L.
  - destruct i; discriminate.
  - inversion S as [|? ? S' F]; subst. inversion ND as [|? ? Nz ND']; subst.
    destruct j as [|j]; [lia|]. cbn [nth_error] in Hj.
    destruct i as [|i].
    + cbn in Hi. injection Hi as ->.
      apply nth_error_In in Hj. rewrite Forall_forall in F.
      pose proof (F y Hj) as Le.
      destruct (Str.ltb x y) eqn:E; [reflexivity|].
      pose proof (ltb_total _ _ E Le). subst. contradiction.
    + cbn [nth_error] in Hi. apply (IH i j); auto. lia.
Qed.

(** ** Numbering the distinct tokens *)

Lemma fold_add_always_v : forall l v r i,
    NoDup l ->
    (forall x, In x l -> JsMap.has v x = false) ->
    fst (fst (fold_left add_always l (v, r, i)))
    = v ++ combine l (map N.of_nat (seq (N.to_nat i) (length l))).
Proof.
  induction l as [|x l IH]; intros v r i ND F.
  - cbn. now rewrite app_nil_r.
  - cbn [fold_left add_always]. inversion ND as [|? ? Nx ND']; subst.
    rewrite IH; [|exact ND'|].
    + rewrite (set_fresh v x i (F x (or_introl eq_refl))), <- app_assoc.
      cbn [length seq map combine app]. rewrite N2Nat.id.
      replace (N.to_nat (i + 1)) with (S (N.to_nat i)) by lia. reflexivity.
    + intros y Iy. rewrite has_set, (F y (or_intror Iy)), orb_false_r.
      apply keqb_neq. intros ->. contradiction.
Qed.

Lemma index_tokens_maps : forall l,
    NoDup l ->
    index_tokens l
    = (combine l (map N.of_nat (seq 0 (length l))),
       combine (map N.of_nat (seq 0 (length l))) l).
Proof.
  intros l ND. unfold index_tokens.
  pose proof (fold_add_always_v l [] [] 0%N ND (fun _ _ => eq_refl)) as Ev.
  pose proof (fold_add_always_r l [] [] 0%N eq_refl) as Er.
  cbn [app] in Ev, Er. change (N.to_nat 0) with 0%nat in Ev, Er.
  rewrite (surjective_pairing (fst (fold_left add_always l ([], [], 0%N)))).
  f_equal; [exact Ev|exact Er].
Qed.

Lemma get_combine_keys : forall (l : list str) k x i,
    NoDup l -> nth_error l k = Some x ->
    JsMap.get (combine l (map N.of_nat (seq i (length l)))) x = Some (N.of_nat (i + k)).
Proof.
  induction l as [|y l IH]; intros k x i ND E; [destruct k; discriminate|].
  inversion ND as [|? ? Ny ND']; subst.
  cbn [length seq map combine JsMap.get]. destruct k as [|k].
  - injection E as ->. change (keqb x x) with (Str.eqb x x).
    rewrite str_eqb_refl. now rewrite Nat.add_0_r.
  - cbn [nth_error] in E. change (keqb y x) with (Str.eqb y x).
    replace (Str.eqb y x) with false.
    + replace (i + S k)%nat with (S i + k)%nat by lia. now apply IH.
    + symmetry. apply str_eqb_neq. intros ->. apply Ny. now apply nth_error_In in E.
Qed.

Lemma get_combine_absent : forall (l : list str) (ids : list N) x,
    ~ In x l -> JsMap.get (combine l ids) x = None.
Proof.
  induction l as [|y l IH]; intros ids x N; [reflexivity|].
  destruct ids as [|i ids]; [reflexivity|]. cbn [combine JsMap.get].
  change (keqb y x) with (Str.eqb y x).
  replace (Str.eqb y x) with false.
  - apply IH. intros I. apply N. now right.
  - symmetry. apply str_eqb_neq. intros ->. apply N. now left.
Qed.

Lemma get_combine_ids_inv : forall (l : list str) i id x,
    JsMap.get (combine (map N.of_nat (seq i (length l))) l) id = Some x ->
    exists k, id = N.of_nat (i + k) /\ nth_error l k = Some x.
Proof.
  induction l as [|y l IH]; intros i id x G; [discriminate|].
  cbn [length seq map combine JsMap.get] in G.
  change (keqb (N.of_nat i) id) with (N.eqb (N.of_nat i) id) in G.
  destruct (N.eqb (N.of_nat i) id) eqn:E.
  - apply N.eqb_eq in E. injection G as ->. exists 0%nat.
    now rewrite Nat.add_0_r.
  - apply IH in G as (k & -> & Hk). exists (S k). split; [f_equal; lia|exact Hk].
Qed.

Lemma get_combine_keys_inv : forall (l : list str) i x id,
    JsMap.get (combine l (map N.of_nat (seq i (length l)))) x = Some id ->
    exists k, id = N.of_nat (i + k) /\ nth_error l k = Some x.
Proof.
  induction l as [|y l IH]; intros i x id G; [discriminate|].
  cbn [length seq map combine JsMap.get] in G.
  change (keqb y x) with (Str.eqb y x) in G.
  destruct (Str.eqb y x) eqn:E.
  - apply str_eqb_eq in E. injection G as <-. subst y. exists 0%nat.
    now rewrite Nat.add_0_r.
  - apply IH in G as (k & -> & Hk). exists (S k). split; [f_equal; lia|exact Hk].
Qed.

(** What numbering the distinct tokens of a list gives. *)
Lemma index_unique_sorted : forall toks,
    let l := unique_sorted toks in
    let v := fst (index_tokens l) in
    let r := snd (index_tokens l) in
    (forall x k, JsMap.get v x = Some (N.of_nat k) <-> nth_error l k = Some x)
    /\ (forall x id, JsMap.get v x = Some id -> exists k, id = N.of_nat k)
    /\ (forall x k, JsMap.get r (N.of_nat k) = Some x <-> nth_error l k = Some x)
    /\ (forall x id, JsMap.get r id = Some x -> exists k, id = N.of_nat k)
    /\ (forall x, JsMap.get v x = None <-> ~ In x toks).
Proof.
  intros toks l v r. subst v r.
  pose proof (unique_sorted_NoDup toks) as ND. fold l in ND.
  rewrite (index_tokens_maps l ND). cbn [fst snd].
  split; [|split; [|split; [|split]]].
  - intros x k. split.
    + intros G. apply get_combine_keys_inv in G as (k' & E & Hk).
      cbn [Nat.add] in E. apply Nat2N.inj in E. now subst.
    + intros Hk. exact (get_combine_keys l k x 0 ND Hk).
  - intros x id G. apply get_combine_keys_inv in G as (k' & E & _). now exists k'.
  - intros x k. split.
    + intros G. apply get_combine_ids_inv in G as (k' & E & Hk).
      cbn [Nat.add] in E. apply Nat2N.inj in E. now subst.
    + intros Hk. exact (get_combine_ids l k x 0 Hk).
  - intros x id G. apply get_combine_ids_inv in G as (k' & E & _). now exists k'.
  - intros x. split.
    + intros G I. apply (proj2 (unique_sorted_In toks x)) in I. fold l in I.
      apply In_nth_error in I as (k & Hk).
      pose proof (get_combine_keys l k x 0 ND Hk). congruence.
    + intros N. apply get_combine_absent. intros I. apply N.
      now apply unique_sorted_In.
Qed.

Lemma index_order : forall toks x y i j,
    let v := fst (index_tokens (unique_sorted toks)) in
    JsMap.get v x = Some i -> JsMap.get v y = Some j ->
    (Str.ltb x y = true <-> (i < j)%N).
Proof.
  intros toks x y i j v Gx Gy. subst v.
  destruct (index_unique_sorted toks) as (Hv & Hid & _).
  destruct (Hid _ _ Gx) as (k & ->). destruct (Hid _ _ Gy) as (k' & ->).
  apply Hv in Gx, Gy.
  pose proof (sort_sorted (fold_left JsSet.add toks [])) as S.
  pose proof (unique_sorted_NoDup toks) as ND.
  fold (unique_sorted toks) in S. split.
  - intros L. destruct (Nat.lt_trichotomy k k') as [Lt|[->|Gt]]; [lia| |].
    + rewrite Gx in Gy. injection Gy as ->. rewrite ltb_irrefl in L. discriminate.
    + pose proof (sorted_nth_lt _ _ _ _ _ S ND Gy Gx Gt) as L'.
      apply ltb_asym in L'. congruence.
  - intros L. apply (sorted_nth_lt _ k k' _ _ S ND Gx Gy). lia.
Qed.

Lemma index_inverse : forall toks x id,
    let v := fst (index_tokens (unique_sorted toks)) in
    let r := snd (index_tokens (unique_sorted toks)) in
    JsMap.get v x = Some id <-> JsMap.get r id = Some x.
Proof.
  intros toks x id v r. subst v r.
  destruct (index_unique_sorted toks) as (Hv & Hid & Hr & Hrid & _). split.
  - intros G. destruct (Hid _ _ G) as (k & ->). apply Hr. now apply Hv.
  - intros G. destruct (Hrid _ _ G) as (k & ->). apply Hv. now apply Hr.
Qed.

Lemma index_known : forall toks x,
    In x toks -> exists id, JsMap.get (fst (index_tokens (unique_sorted toks))) x = Some id.
Proof.
  intros toks x I. destruct (index_unique_sorted toks) as (_ & _ & _ & _ & Hn).
  destruct (JsMap.get (fst (index_tokens (unique_sorted toks))) x) as [id|] eqn:G.
  - now exists id.
  - apply Hn in G. contradiction.
Qed.

Lemma index_fallback : forall toks,
    or_default (JsMap.get (snd (index_tokens (unique_sorted toks))) 0%N) []
    = hd [] (unique_sorted toks).
Proof.
  intros toks. destruct (index_unique_sorted toks) as (_ & _ & Hr & _ & _).
  destruct (unique_sorted toks) as [|x l] eqn:E.
  - destruct (JsMap.get (snd (index_tokens [])) 0%N) as [y|] eqn:G; [|reflexivity].
    apply (Hr y 0%nat) in G. discriminate.
  - assert (G : JsMap.get (snd (index_tokens (x :: l))) (N.of_nat 0) = Some x)
      by now apply Hr.
    cbn [N.of_nat] in G. now rewrite G.
Qed.

(** ** The character tokenizer *)

Lemma character_train_maps : forall this text,
    CharacterTokenizer.vocabulary (CharacterTokenizer.train this text)
    = fst (index_tokens (unique_sorted (split_chars text)))
    /\ CharacterTokenizer.reverseVocabulary (CharacterTokenizer.train this text)
       = snd (index_tokens (unique_sorted (split_chars text))).
Proof.
  intros this text. unfold CharacterTokenizer.train.
  destruct (index_tokens (unique_sorted (split_chars text))) as [v r]. now split.
Qed.

Lemma existsb_char_In : forall c (text : str),
    existsb (Ascii.eqb c) text = true <-> In c text.
Proof.
  intros c text. rewrite existsb_exists. split.
  - intros (d & I & E). apply Ascii.eqb_eq in E. now subst.
  - intros I. exists c. split; [assumption|apply Ascii.eqb_refl].
Qed.

Lemma split_chars_In : forall c (text : str), In [c] (split_chars text) <-> In c text.
Proof.
  intros c text. unfold split_chars. rewrite in_map_iff. split.
  - intros (d & E & I). injection E as ->. exact I.
  - intros I. now exists c.
Qed.

Lemma character_decode_one : forall this text c,
    let t := CharacterTokenizer.train this text in
    or_default
      (JsMap.get (CharacterTokenizer.reverseVocabulary t)
                 (or_default (JsMap.get (CharacterTokenizer.vocabulary t) [c]) 0%N)) []
    = decoded_char text c.
Proof.
  intros this text c t. subst t.
  destruct (character_train_maps this text) as [-> ->].
  unfold decoded_char. destruct (existsb (Ascii.eqb c) text) eqn:E.
  - apply existsb_char_In, split_chars_In in E.
    destruct (index_known _ _ E) as (id & G). rewrite G. cbn [or_default].
    apply index_inverse in G. now rewrite G.
  - assert (N : ~ In [c] (split_chars text)).
    { intros I. apply split_chars_In, existsb_char_In in I. congruence. }
    destruct (index_unique_sorted (split_chars text)) as (_ & _ & _ & _ & Hn).
    apply Hn in N. rewrite N. cbn [or_default]. apply index_fallback.
Qed.

(** X22.  For the character tokenizer after train(text): tokenize gives one
    id per character; detokenize(tokenize(text')) is text' with every
    character that does not occur in the training text replaced by what id 0
    stands for, the first character of the training text in code unit order
    (nothing when the training text is empty); so the round trip is exact
    when every character of text' occurs in the training text. *)
Theorem character_roundtrip :
  forall (this : CharacterTokenizer.t) (text text' : str),
    let t := CharacterTokenizer.train this text in
    CharacterTokenizer.detokenize t (CharacterTokenizer.tokenize t text')
    = flat_map (decoded_char text) text'
    /\ ((forall c, In c text' -> In c text) ->
        CharacterTokenizer.detokenize t (CharacterTokenizer.tokenize t text') = text')
    /\ length (CharacterTokenizer.tokenize t text') = length text'.
Proof.
  intros this text text' t.
  assert (F : CharacterTokenizer.detokenize t (CharacterTokenizer.tokenize t text')
              = flat_map (decoded_char text) text').
  { unfold CharacterTokenizer.detokenize, CharacterTokenizer.tokenize, split_chars.
    rewrite !map_map, flat_map_concat_map. f_equal. apply map_ext.
    intros c. apply character_decode_one. }
  split; [exact F|]. split.
  - intros Cov. rewrite F. clear F. induction text' as [|c text' IH]; [reflexivity|].
    cbn [flat_map]. rewrite IH by (intros d I; apply Cov; now right).
    unfold decoded_char.
    rewrite (proj2 (existsb_char_In c text) (Cov c (or_introl eq_refl))). reflexivity.
  - unfold CharacterTokenizer.tokenize, split_chars. now rewrite !length_map.
Qed.

Lemma character_roundtrip_witness :
  let t := CharacterTokenizer.train CharacterTokenizer.empty (lit "hello world") in
  CharacterTokenizer.detokenize t (CharacterTokenizer.tokenize t (lit "low roll"))
  = lit "low roll"
  /\ CharacterTokenizer.detokenize t (CharacterTokenizer.tokenize t (lit "yellow"))
     = lit " ellow".
Proof.
  cbn zeta. split.
  - apply (character_roundtrip CharacterTokenizer.empty (lit "hello world") (lit "low roll")).
    intros c I. cbn in I.
    repeat (destruct I as [<-|I]; [cbn; tauto|]). contradiction.
  - reflexivity.
Defined.

Lemma ltb_single : forall c d, Str.ltb [c] [d] = N.ltb (code c) (code d).
Proof.
  intros c d. cbn [Str.ltb]. destruct (N.ltb (code c) (code d)); [reflexivity|].
  destruct (N.ltb (code d) (code c)); reflexivity.
Qed.

(** X23.  For the character tokenizer after train(text): every character of
    the text has an id, reverseVocabulary maps the id back to the character,
    different characters have different ids, and the ids follow the code
    unit order: a character with a smaller code has a smaller id. *)
Theorem character_train_ids :
  forall (this : CharacterTokenizer.t) (text : str) (c d : ascii),
    In c text -> In d text ->
    let t := CharacterTokenizer.train this text in
    exists i j,
      JsMap.get (CharacterTokenizer.vocabulary t) [c] = Some i
      /\ JsMap.get (CharacterTokenizer.vocabulary t) [d] = Some j
      /\ JsMap.get (CharacterTokenizer.reverseVocabulary t) i = Some [c]
      /\ ((code c < code d)%N <-> (i < j)%N)
      /\ (c = d <-> i = j).
Proof.
  intros this text c d Ic Id t. subst t.
  destruct (character_train_maps this text) as [-> ->].
  apply split_chars_In in Ic, Id.
  destruct (index_known _ _ Ic) as (i & Gi). destruct (index_known _ _ Id) as (j & Gj).
  exists i, j. split; [exact Gi|]. split; [exact Gj|]. split; [now apply index_inverse|].
  split.
  - rewrite <- (index_order _ _ _ _ _ Gi Gj), ltb_single. apply iff_sym, N.ltb_lt.
  - split.
    + intros ->. congruence.
    + intros ->. apply index_inverse in Gi, Gj. congruence.
Qed.

Lemma character_train_ids_witness :
  let t := CharacterTokenizer.train CharacterTokenizer.empty (lit "hello world") in
  exists i j,
    JsMap.get (CharacterTokenizer.vocabulary t) (lit "e") = Some i
    /\ JsMap.get (CharacterTokenizer.vocabulary t) (lit "w") = Some j
    /\ (i < j)%N.
Proof.
  cbn zeta.
  destruct (character_train_ids CharacterTokenizer.empty (lit "hello world") "e" "w")
    as (i & j & Gi & Gj & _ & L & _).
  - cbn. tauto.
  - cbn. tauto.
  - exists i, j. split; [exact Gi|]. split; [exact Gj|]. apply L. reflexivity.
Defined.

(** ** The word tokenizer *)

Lemma word_char_not_ws : forall c, is_word_char c = true -> is_ws c = false.
Proof.
  intros c W. destruct (is_ws c) eqn:E; [|reflexivity].
  apply ws_not_word in E. congruence.
Qed.

Lemma flush_word_token : forall cur,
    forallb is_word_char cur = true -> Forall (fun c => toLowerChar c = c) cur ->
    Forall word_token (SimpleTokenizer.flush cur) /\ concat (SimpleTokenizer.flush cur) = cur.
Proof.
  intros cur W L. unfold SimpleTokenizer.flush. destruct cur as [|c cur]; [now split|].
  change (nonempty (c :: cur)) with true. split; [|cbn; now rewrite app_nil_r].
  constructor; [|constructor]. split; [|exact L]. left.
  unfold is_word_string. now rewrite W.
Qed.

Lemma match_tokens_spec : forall s cur,
    forallb is_word_char cur = true ->
    Forall (fun c => toLowerChar c = c) cur ->
    Forall (fun c => toLowerChar c = c) s ->
    Forall word_token (SimpleTokenizer.match_tokens cur s)
    /\ concat (SimpleTokenizer.match_tokens cur s)
       = cur ++ filter (fun c => negb (is_ws c)) s.
Proof.
  induction s as [|c s IH]; intros cur W Lc Ls.
  - cbn [SimpleTokenizer.match_tokens filter]. rewrite app_nil_r.
    now apply flush_word_token.
  - cbn [SimpleTokenizer.match_tokens filter].
    pose proof (Forall_inv Ls) as Lh. pose proof (Forall_inv_tail Ls) as Lt.
    destruct (is_word_char c) eqn:Wc.
    + rewrite (word_char_not_ws c Wc). cbn [negb].
      destruct (IH (cur ++ [c])) as [F C].
      * rewrite forallb_app, W. cbn. now rewrite Wc.
      * apply Forall_app. split; [exact Lc|now constructor].
      * exact Lt.
      * split; [exact F|]. rewrite C, <- app_assoc. reflexivity.
    + destruct (flush_word_token cur W Lc) as [Ff Cf].
      destruct (IH [] eq_refl (Forall_nil _) Lt) as [F C].
      rewrite !concat_app, Cf, C. cbn [app].
      destruct (is_ws c) eqn:Wsc; cbn [negb concat app].
      * split; [|reflexivity]. apply Forall_app. split; [exact Ff|exact F].
      * split; [|reflexivity]. apply Forall_app. split; [exact Ff|].
        constructor; [|exact F]. split; [|now constructor].
        right. exists c. now repeat split.
Qed.

Lemma toLowerCase_fixed : forall s, Forall (fun c => toLowerChar c = c) (toLowerCase s).
Proof.
  intros s. unfold toLowerCase. apply Forall_forall. intros c I.
  apply in_map_iff in I as (d & <- & _). apply toLowerChar_idem.
Qed.

Lemma tokens_of_spec : forall text,
    Forall word_token (SimpleTokenizer.tokens_of text)
    /\ concat (SimpleTokenizer.tokens_of text)
       = filter (fun c => negb (is_ws c)) (toLowerCase text).
Proof.
  intros text. unfold SimpleTokenizer.tokens_of.
  apply (match_tokens_spec (toLowerCase text) [] eq_refl (Forall_nil _)).
  apply toLowerCase_fixed.
Qed.

(** X24.  The tokens the word tokenizer reads from a text
    (text.toLowerCase().match(/\w+|[^\w\s]/g) || []) are non-empty strings
    of word characters or single characters that are neither word characters
    nor white space, none with an upper-case letter; put together in order
    they are the lowercased text without its white space: only white space
    is dropped. *)
Theorem word_tokens_shape : forall text : str,
    Forall word_token (SimpleTokenizer.tokens_of text)
    /\ concat (SimpleTokenizer.tokens_of text)
       = filter (fun c => negb (is_ws c)) (toLowerCase text).
Proof. exact tokens_of_spec. Qed.

Section Decoded.
Let despace := SimpleTokenizer.remove_space_before_punctuation.

Lemma word_token_no_ws : forall x, word_token x -> Forall (fun c => is_ws c = false) x.
Proof.
  intros x [[W|(c & -> & _ & Ws)] _].
  - apply is_word_string_spec in W as [_ W]. apply Forall_forall. intros c I.
    rewrite forallb_forall in W. apply word_char_not_ws. now apply W.
  - now repeat constructor.
Qed.

Lemma despace_token : forall tok X,
    Forall (fun c => is_ws c = false) tok ->
    despace [] (tok ++ X) = tok ++ despace [] X.
Proof.
  induction tok as [|c tok IH]; intros X F; [reflexivity|].
  pose proof (Forall_inv F) as Wc. pose proof (Forall_inv_tail F) as Ft.
  cbn [app]. unfold despace. cbn [SimpleTokenizer.remove_space_before_punctuation].
  rewrite Wc. fold despace. rewrite (IH X Ft).
  destruct (is_word_char c); reflexivity.
Qed.

Lemma despace_after_space : forall tok X,
    word_token tok ->
    despace [" "] (tok ++ X)
    = (if is_word_string tok then " " :: tok else tok) ++ despace [] X.
Proof.
  intros tok X Wt. pose proof (word_token_no_ws tok Wt) as F.
  destruct Wt as [[W|(c & -> & Wc & Ws)] _].
  - rewrite W. apply is_word_string_spec in W as [Ne W].
    destruct tok as [|c tok]; [now elim Ne|].
    cbn [forallb] in W. apply andb_true_iff in W as [Wc _].
    cbn [app]. unfold despace. cbn [SimpleTokenizer.remove_space_before_punctuation].
    rewrite (Forall_inv F), Wc. fold despace.
    rewrite (despace_token tok X (Forall_inv_tail F)). reflexivity.
  - assert (is_word_string [c] = false) as -> by (unfold is_word_string; cbn; now rewrite Wc).
    cbn [app]. unfold despace. cbn [SimpleTokenizer.remove_space_before_punctuation].
    now rewrite Ws, Wc.
Qed.

Lemma despace_spaced : forall toks,
    toks <> [] -> Forall word_token toks ->
    despace [" "] (join [" "] toks) = spaced toks.
Proof.
  induction toks as [|x toks IH]; intros Ne F; [now elim Ne|].
  pose proof (Forall_inv F) as Fx. pose proof (Forall_inv_tail F) as Ft.
  destruct toks as [|y toks].
  - cbn [join spaced]. rewrite <- (app_nil_r x) at 1.
    rewrite (despace_after_space x [] Fx). reflexivity.
  - rewrite join_cons by discriminate. cbn [spaced].
    rewrite (despace_after_space x _ Fx). f_equal.
    unfold despace. cbn [SimpleTokenizer.remove_space_before_punctuation].
    rewrite space_is_ws. cbn [app]. fold despace. apply IH; [discriminate|exact Ft].
Qed.

Lemma despace_join : forall x toks,
    Forall word_token (x :: toks) ->
    despace [] (join [" "] (x :: toks)) = x ++ spaced toks.
Proof.
  intros x toks F.
  pose proof (word_token_no_ws x (Forall_inv F)) as Fx.
  destruct toks as [|y toks].
  - cbn [join spaced]. rewrite <- (app_nil_r x) at 1.
    now rewrite (despace_token x [] Fx).
  - rewrite join_cons by discriminate. rewrite (despace_token x _ Fx). f_equal.
    unfold despace. cbn [SimpleTokenizer.remove_space_before_punctuation].
    rewrite space_is_ws. cbn [app]. fold despace.
    apply despace_spaced; [discriminate|exact (Forall_inv_tail F)].
Qed.

Lemma match_tokens_word : forall w cur X,
    forallb is_word_char w = true ->
    SimpleTokenizer.match_tokens cur (w ++ X) = SimpleTokenizer.match_tokens (cur ++ w) X.
Proof.
  induction w as [|c w IH]; intros cur X W.
  - now rewrite app_nil_r.
  - cbn [forallb] in W. apply andb_true_iff in W as [Wc W].
    cbn [app SimpleTokenizer.match_tokens]. rewrite Wc, (IH _ _ W), <- app_assoc.
    reflexivity.
Qed.

Lemma match_tokens_spaced : forall toks cur,
    Forall word_token toks ->
    SimpleTokenizer.match_tokens cur (spaced toks) = SimpleTokenizer.flush cur ++ toks.
Proof.
  induction toks as [|x toks IH]; intros cur F.
  - cbn. now rewrite app_nil_r.
  - pose proof (Forall_inv F) as Fx. pose proof (Forall_inv_tail F) as Ft.
    cbn [spaced]. destruct Fx as [[W|(c & -> & Wc & Ws)] _].
    + rewrite W. cbn [app SimpleTokenizer.match_tokens].
      change (is_word_char " ") with false. change (is_ws " ") with true. cbn [app].
      pose proof (proj1 (is_word_string_spec x) W) as [Ne Wx].
      rewrite (match_tokens_word x [] _ Wx). cbn [app]. rewrite (IH x Ft).
      unfold SimpleTokenizer.flush at 2.
      rewrite (proj2 (nonempty_true x) Ne). reflexivity.
    + assert (is_word_string [c] = false) as -> by (unfold is_word_string; cbn; now rewrite Wc).
      cbn [app SimpleTokenizer.match_tokens]. rewrite Wc, Ws, (IH [] Ft). reflexivity.
Qed.

Lemma spaced_fixed : forall toks,
    Forall word_token toks -> Forall (fun c => toLowerChar c = c) (spaced toks).
Proof.
  induction 1 as [|x toks [_ Lx] F IH]; [constructor|].
  cbn [spaced]. apply Forall_app. split; [|exact IH].
  destruct (is_word_string x); [constructor; [reflexivity|exact Lx]|exact Lx].
Qed.

Lemma lower_fixed : forall s, Forall (fun c => toLowerChar c = c) s -> toLowerCase s = s.
Proof.
  induction 1 as [|c s E F IH]; [reflexivity|].
  unfold toLowerCase in *. cbn [map]. now rewrite E, IH.
Qed.

(** Tokens decoded to a text and read again are the same tokens. *)
Lemma tokens_of_decoded : forall toks,
    Forall word_token toks ->
    SimpleTokenizer.tokens_of (despace [] (join [" "] toks)) = toks.
Proof.
  intros toks F. unfold SimpleTokenizer.tokens_of. destruct toks as [|x toks]; [reflexivity|].
  rewrite (despace_join x toks F).
  pose proof (Forall_inv F) as Fx. pose proof (Forall_inv_tail F) as Ft.
  rewrite lower_fixed
    by (apply Forall_app; split; [apply Fx|now apply spaced_fixed]).
  destruct Fx as [[W|(c & -> & Wc & Ws)] _].
  - pose proof (proj1 (is_word_string_spec x) W) as [Ne Wx].
    rewrite (match_tokens_word x [] _ Wx). cbn [app]. rewrite (match_tokens_spaced toks x Ft).
    unfold SimpleTokenizer.flush. rewrite (proj2 (nonempty_true x) Ne). reflexivity.
  - cbn [app SimpleTokenizer.match_tokens]. rewrite Wc, Ws.
    rewrite (match_tokens_spaced toks [] Ft). reflexivity.
Qed.
End Decoded.

Lemma word_train_maps : forall this text,
    SimpleTokenizer.vocabulary (SimpleTokenizer.train this text)
    = fst (index_tokens (unique_sorted (SimpleTokenizer.tokens_of text)))
    /\ SimpleTokenizer.reverseVocabulary (SimpleTokenizer.train this text)
       = snd (index_tokens (unique_sorted (SimpleTokenizer.tokens_of text))).
Proof.
  intros this text. unfold SimpleTokenizer.train.
  destruct (index_tokens (unique_sorted (SimpleTokenizer.tokens_of text))) as [v r].
  now split.
Qed.

(** What an id of [tokenize] decodes to: a token of the training text with
    that id. *)
Lemma word_decode_one : forall this text tok,
    SimpleTokenizer.tokens_of text <> [] ->
    let t := SimpleTokenizer.train this text in
    let id := or_default (JsMap.get (SimpleTokenizer.vocabulary t) tok) 0%N in
    exists d,
      JsMap.get (SimpleTokenizer.reverseVocabulary t) id = Some d
      /\ JsMap.get (SimpleTokenizer.vocabulary t) d = Some id
      /\ In d (SimpleTokenizer.tokens_of text)
      /\ (In tok (SimpleTokenizer.tokens_of text) -> d = tok).
Proof.
  intros this text tok Ne t id. subst t id.
  destruct (word_train_maps this text) as [-> ->].
  set (toks := SimpleTokenizer.tokens_of text) in *.
  destruct (index_unique_sorted toks) as (Hv & Hid & Hr & _ & Hn).
  destruct (JsMap.get (fst (index_tokens (unique_sorted toks))) tok) as [id|] eqn:G;
    cbn [or_default].
  - exists tok. split; [now apply index_inverse|]. split; [exact G|]. split; [|reflexivity].
    destruct (Hid _ _ G) as (k & ->). apply Hv in G. apply nth_error_In in G.
    now apply (proj1 (unique_sorted_In _ _)) in G.
  - destruct (unique_sorted toks) as [|x l] eqn:E.
    { exfalso. destruct toks as [|y toks'] eqn:Et; [now apply Ne|].
      assert (I : In y (unique_sorted (y :: toks'))) by (apply unique_sorted_In; now left).
      rewrite E in I. contradiction. }
    assert (Gr : JsMap.get (snd (index_tokens (x :: l))) (N.of_nat 0) = Some x)
      by now apply Hr.
    exists x. split; [exact Gr|]. split; [now apply (Hv x 0%nat)|]. split.
    + apply unique_sorted_In. rewrite E. now left.
    + intros I. apply Hn in G. contradiction.
Qed.

Lemma word_decoded_tokens : forall this text (toks : list str),
    SimpleTokenizer.tokens_of text <> [] ->
    let t := SimpleTokenizer.train this text in
    let ids := map (fun tok => or_default (JsMap.get (SimpleTokenizer.vocabulary t) tok) 0%N)
                   toks in
    let decoded := map (fun id => or_default
                                    (JsMap.get (SimpleTokenizer.reverseVocabulary t) id) [])
                       ids in
    Forall word_token decoded
    /\ map (fun tok => or_default (JsMap.get (SimpleTokenizer.vocabulary t) tok) 0%N) decoded
       = ids
    /\ ((forall tok, In tok toks -> In tok (SimpleTokenizer.tokens_of text)) ->
        decoded = toks).
Proof.
  intros this text toks Ne t ids decoded. subst ids decoded.
  induction toks as [|tok toks (F & M & K)]; [repeat split; constructor|].
  cbn [map]. destruct (word_decode_one this text tok Ne) as (d & Gr & Gv & Id & Ek).
  fold t in Gr, Gv. rewrite Gr. cbn [or_default]. split; [|split].
  - constructor; [|exact F].
    destruct (tokens_of_spec text) as [Ft _]. rewrite Forall_forall in Ft. now apply Ft.
  - rewrite Gv. cbn [or_default]. now rewrite M.
  - intros Kn. rewrite K by (intros x I; apply Kn; now right).
    now rewrite (Ek (Kn tok (or_introl eq_refl))).
Qed.

(** X25.  For the word tokenizer after train(text) on a text with at least
    one token: for every text', tokenize(detokenize(tokenize(text'))) =
    tokenize(text'); and when every token of text' occurs in the training
    text, the decoded text has exactly the tokens of text' (decoding joins
    the tokens with spaces and removes the space before punctuation, which
    loses nothing that tokenize reads). *)
Theorem word_reencode_stable :
  forall (this : SimpleTokenizer.t) (text text' : str),
    SimpleTokenizer.tokens_of text <> [] ->
    let t := SimpleTokenizer.train this text in
    SimpleTokenizer.tokenize t (SimpleTokenizer.detokenize t (SimpleTokenizer.tokenize t text'))
    = SimpleTokenizer.tokenize t text'
    /\ ((forall tok, In tok (SimpleTokenizer.tokens_of text') ->
                     In tok (SimpleTokenizer.tokens_of text)) ->
        SimpleTokenizer.tokens_of
          (SimpleTokenizer.detokenize t (SimpleTokenizer.tokenize t text'))
        = SimpleTokenizer.tokens_of text').
Proof.
  intros this text text' Ne t.
  destruct (word_decoded_tokens this text (SimpleTokenizer.tokens_of text') Ne)
    as (F & M & K).
  fold t in F, M, K.
  unfold SimpleTokenizer.detokenize.
  change (map (fun tok => or_default (JsMap.get (SimpleTokenizer.vocabulary t) tok) 0%N)
              (SimpleTokenizer.tokens_of text'))
    with (SimpleTokenizer.tokenize t text') in *.
  split.
  - unfold SimpleTokenizer.tokenize at 1. rewrite (tokens_of_decoded _ F). exact M.
  - intros Kn. rewrite (tokens_of_decoded _ F). now apply K.
Qed.

Lemma word_reencode_stable_witness :
  let t := SimpleTokenizer.train SimpleTokenizer.empty (lit "Hello, world!") in
  SimpleTokenizer.tokens_of
    (SimpleTokenizer.detokenize t (SimpleTokenizer.tokenize t (lit "world ,HELLO !")))
  = [lit "world"; lit ","; lit "hello"; lit "!"].
Proof.
  cbn zeta.
  destruct (word_reencode_stable SimpleTokenizer.empty (lit "Hello, world!")
              (lit "world ,HELLO !")) as (_ & K).
  - vm_compute. discriminate.
  - rewrite K; [reflexivity|].
    intros tok I. vm_compute in I. vm_compute.
    repeat (destruct I as [<-|I]; [tauto|]). contradiction.
Defined.

(** X26.  For the word tokenizer after train(text): every token of the text
    has an id, reverseVocabulary maps the id back to the token, different
    tokens have different ids, and the ids follow the order of the default
    sort (code units, left to right, a proper prefix first): a token that
    sorts before another has the smaller id. *)
Theorem word_train_ids :
  forall (this : SimpleTokenizer.t) (text : str) (x y : str),
    In x (SimpleTokenizer.tokens_of text) -> In y (SimpleTokenizer.tokens_of text) ->
    let t := SimpleTokenizer.train this text in
    exists i j,
      JsMap.get (SimpleTokenizer.vocabulary t) x = Some i
      /\ JsMap.get (SimpleTokenizer.vocabulary t) y = Some j
      /\ JsMap.get (SimpleTokenizer.reverseVocabulary t) i = Some x
      /\ (Str.ltb x y = true <-> (i < j)%N)
      /\ (x = y <-> i = j).
Proof.
  intros this text x y Ix Iy t. subst t.
  destruct (word_train_maps this text) as [-> ->].
  destruct (index_known _ _ Ix) as (i & Gi). destruct (index_known _ _ Iy) as (j & Gj).
  exists i, j. split; [exact Gi|]. split; [exact Gj|]. split; [now apply index_inverse|].
  split.
  - exact (index_order _ _ _ _ _ Gi Gj).
  - split.
    + intros ->. congruence.
    + intros ->. apply index_inverse in Gi, Gj. congruence.
Qed.

Lemma word_train_ids_witness :
  let t := SimpleTokenizer.train SimpleTokenizer.empty (lit "Hello, world!") in
  exists i j,
    JsMap.get (SimpleTokenizer.vocabulary t) (lit "hello") = Some i
    /\ JsMap.get (SimpleTokenizer.vocabulary t) (lit "world") = Some j
    /\ (i < j)%N.
Proof.
  cbn zeta.
  destruct (word_train_ids SimpleTokenizer.empty (lit "Hello, world!")
              (lit "hello") (lit "world")) as (i & j & Gi & Gj & _ & L & _).
  - vm_compute. tauto.
  - vm_compute. tauto.
  - exists i, j. split; [exact Gi|]. split; [exact Gj|]. apply L. reflexivity.
Defined.

(** ** Export and import, entry for entry *)

Section ObjectOrder.
Context {V : Type}.

Lemma define_append : forall (o : JsObject.t V) k v,
    JsMap.has o k = false -> JsObject.is_array_index k = false ->
    JsObject.define o k v = o ++ [(k, v)].
Proof. intros o k v F A. unfold JsObject.define. now rewrite F, A. Qed.

(** Keys that are no array indices stay in the order of their creation. *)
Lemma fold_define_plain : forall (es : list (str * V)) o,
    NoDup (JsMap.keys (o ++ es)) ->
    (forall e, In e es -> JsObject.is_array_index (fst e) = false) ->
    fold_left (fun o e => JsObject.define o (fst e) (snd e)) es o = o ++ es.
Proof.
  induction es as [|[k v] es IH]; intros o ND A; cbn [fold_left].
  - now rewrite app_nil_r.
  - cbn [fst snd].
    assert (N : ~ In k (JsMap.keys o)).
    { unfold JsMap.keys in *. rewrite map_app in ND. cbn [map fst] in ND.
      apply NoDup_remove_2 in ND. intros I. apply ND. apply in_or_app. now left. }
    rewrite define_append;
      [|now apply has_false_keys|exact (A (k, v) (or_introl eq_refl))].
    rewrite IH.
    + now rewrite <- app_assoc.
    + now rewrite <- app_assoc.
    + intros e I. apply A. now right.
Qed.

Lemma insert_index_last : forall (o : JsObject.t V) k v,
    (forall e, In e o -> JsObject.is_array_index (fst e) = true
                         /\ (to_number (fst e) < to_number k)%N) ->
    JsObject.insert_index k v o = o ++ [(k, v)].
Proof.
  induction o as [|[k' v'] o IH]; intros k v A; [reflexivity|].
  cbn [JsObject.insert_index app].
  destruct (A (k', v') (or_introl eq_refl)) as [A1 A2]. cbn [fst] in A1, A2.
  rewrite A1. apply N.ltb_lt in A2. rewrite A2. cbn [andb].
  f_equal. apply IH. intros e I. apply A. now right.
Qed.
End ObjectOrder.

Lemma of_number_index : forall id,
    (id < 4294967295)%N -> JsObject.is_array_index (of_number id) = true.
Proof.
  intros id L. unfold JsObject.is_array_index.
  rewrite to_number_of_number, str_eqb_refl. cbn [andb]. now apply N.ltb_lt.
Qed.

Lemma sorted_app_lt : forall (xs ys : list N) y,
    StronglySorted N.lt (xs ++ y :: ys) -> forall x, In x xs -> (x < y)%N.
Proof.
  induction xs as [|a xs IH]; intros ys y S x I; [contradiction|].
  cbn [app] in S. inversion S as [|? ? S' F]; subst.
  destruct I as [<-|I].
  - rewrite Forall_forall in F. apply F. apply in_or_app. right. now left.
  - now apply (IH ys y).
Qed.

Lemma sorted_app_tail : forall (xs ys : list N),
    StronglySorted N.lt (xs ++ ys) -> StronglySorted N.lt ys.
Proof.
  induction xs as [|a xs IH]; intros ys S; [exact S|].
  cbn [app] in S. inversion S; subst. now apply IH.
Qed.

(** Numeric keys created in ascending order stay in that order. *)
Lemma fold_define_ascending : forall (l acc : list (N * str)),
    (forall e, In e (acc ++ l) -> (fst e < 4294967295)%N) ->
    StronglySorted N.lt (map fst (acc ++ l)) ->
    fold_left (fun o e => JsObject.define o (fst e) (snd e))
              (map (fun e : N * str => (of_number (fst e), snd e)) l)
              (map (fun e : N * str => (of_number (fst e), snd e)) acc)
    = map (fun e : N * str => (of_number (fst e), snd e)) (acc ++ l).
Proof.
  induction l as [|[id x] l IH]; intros acc B S.
  - cbn. now rewrite app_nil_r.
  - cbn [map fold_left fst snd].
    assert (Lt : forall e, In e acc -> (fst e < id)%N).
    { intros e I. rewrite map_app in S. cbn [map fst] in S.
      apply (sorted_app_lt _ _ _ S). now apply in_map. }
    assert (Fresh : JsMap.has (map (fun e : N * str => (of_number (fst e), snd e)) acc)
                              (of_number id) = false).
    { apply has_false_keys. unfold JsMap.keys. rewrite map_map. cbn [fst].
      intros I. apply in_map_iff in I as (e & E & I). apply of_number_inj in E.
      specialize (Lt e I). lia. }
    assert (Bid : (id < 4294967295)%N).
    { apply (B (id, x)). apply in_or_app. right. now left. }
    unfold JsObject.define at 2. rewrite Fresh, (of_number_index id Bid).
    rewrite insert_index_last.
    + replace (map (fun e : N * str => (of_number (fst e), snd e)) acc ++ [(of_number id, x)])
        with (map (fun e : N * str => (of_number (fst e), snd e)) (acc ++ [(id, x)]))
        by (rewrite map_app; reflexivity).
      rewrite IH.
      * now rewrite <- app_assoc.
      * intros e I. apply B. rewrite <- app_assoc in I. exact I.
      * rewrite <- app_assoc. exact S.
    + intros e I. apply in_map_iff in I as (e0 & <- & I0). cbn [fst]. split.
      * apply of_number_index. apply B. apply in_or_app. now left.
      * rewrite !to_number_of_number. now apply Lt.
Qed.

Lemma seq_sorted : forall n i, StronglySorted N.lt (map N.of_nat (seq i n)).
Proof.
  induction n as [|n IH]; intros i; [constructor|].
  cbn [seq map]. constructor; [apply IH|].
  apply Forall_forall. intros x I. apply in_map_iff in I as (k & <- & I).
  apply in_seq in I. lia.
Qed.

(** X18.  For a tokenizer that train has returned, export followed by import
    restores reverseVocabulary entry for entry and in the same order when it
    has at most 2^32-1 entries (its keys 0..n-1 are array indices created in
    ascending order), and restores vocabulary entry for entry and in the
    same order when no token is the canonical numeral of an array index
    (such a token, as '1', would be moved to the front by the object in
    between). *)
Theorem export_import_exact :
  forall (t0 : BPETokenizer) (text : str) (t : BPETokenizer),
    train t0 text = (t, Ok tt) ->
    let t' := importVocabulary t (exportVocabulary t) in
    ((N.of_nat (JsMap.size (reverseVocabulary t)) <= 4294967295)%N ->
     reverseVocabulary t' = reverseVocabulary t)
    /\ ((forall tok, JsMap.has (vocabulary t) tok = true ->
                     JsObject.is_array_index tok = false) ->
        vocabulary t' = vocabulary t).
Proof.
  intros t0 text t E t'.
  destruct (train_maps_wf _ _ _ E) as (NDv & NDr & _).
  destruct (train_maps_dense_hold _ _ _ E) as (D & _).
  subst t'. unfold importVocabulary, exportVocabulary.
  cbn [vocabulary reverseVocabulary x_vocabulary x_reverseVocabulary JsObject.entries].
  split.
  - intros Sz. unfold JsObject.fromEntries.
    pose proof (fold_define_ascending (reverseVocabulary t) []) as F.
    cbn [app map] in F. rewrite F.
    + rewrite map_map. cbn [fst snd].
      assert (Back : map (fun x : N * str => (to_number (of_number (fst x)), snd x))
                         (reverseVocabulary t) = reverseVocabulary t).
      { rewrite <- (map_id (reverseVocabulary t)) at 2.
        apply map_ext. intros [n x]. cbn. now rewrite to_number_of_number. }
      rewrite Back. now apply map_of_entries_NoDup.
    + intros e I.
      assert (Ik : In (fst e) (JsMap.keys (reverseVocabulary t)))
        by (unfold JsMap.keys; now apply in_map).
      rewrite D in Ik. apply in_map_iff in Ik as (k & <- & Ik). apply in_seq in Ik. lia.
    + change (map fst (reverseVocabulary t)) with (JsMap.keys (reverseVocabulary t)).
      rewrite D. apply seq_sorted.
  - intros A. unfold JsObject.fromEntries.
    rewrite (fold_define_plain (vocabulary t) []).
    + cbn [app]. now apply map_of_entries_NoDup.
    + exact NDv.
    + intros e I. apply A. apply has_true_keys. unfold JsMap.keys. now apply in_map.
Qed.

Lemma export_import_exact_witness :
  let t := fst (train (constructor no_options) (lit "low lower")) in
  let t' := importVocabulary t (exportVocabulary t) in
  reverseVocabulary t' = reverseVocabulary t /\ vocabulary t' = vocabulary t.
Proof.
  cbn zeta.
  destruct (export_import_exact (constructor no_options) (lit "low lower")
              (fst (train (constructor no_options) (lit "low lower"))) eq_refl)
    as (R & W).
  split.
  - apply R. vm_compute. discriminate.
  - apply W. intros tok Hh. apply has_true_keys in Hh. vm_compute in Hh.
    repeat (destruct Hh as [<-|Hh]; [reflexivity|]). contradiction.
Defined.

(** X1.  For any two symbols, whatever characters they contain, the pattern
    source that applyMerge and tokenize build, `\b` + escapeRegex(first) + a
    space + escapeRegex(second) + `\b`, reads as a regular expression made
    of a word boundary, the literal characters of first, a space, the
    literal characters of second, and a word boundary: after escapeRegex no
    character of a symbol acts as regular-expression syntax, and the pattern
    always compiles. *)
Theorem escapeRegex_makes_literal : forall first second : str,
    parse_pattern (merge_pattern_source first second)
    = Some (ABoundary :: map AChar (first ++ " " :: second) ++ [ABoundary]).
Proof. exact parse_merge_pattern. Qed.

(** ** The pairs of one word *)

(** X27.  For every sequence of symbols, getPairs has one entry per distinct
    key 'a b' of adjacent symbols, in the order of first occurrence, and the
    value of a key is the number of adjacent positions that give it; when no
    symbol contains a space, the value for 'a b' is the number of places
    where a is directly followed by b (overlapping places included, so a a a
    counts 'a a' twice); a sequence of fewer than two symbols gives the
    empty map. *)
Theorem getPairs_counts : forall word : list str,
    JsMap.keys (getPairs word) = first_occurrences (pair_keys word)
    /\ NoDup (JsMap.keys (getPairs word))
    /\ (forall k, get0 (getPairs word) k = count_key k (pair_keys word))
    /\ (forall a b, ~ In " " a -> Forall (fun x => ~ In " " x) word ->
                    get0 (getPairs word) (pair_key a b) = pair_occurrences a b word)
    /\ ((length word <= 1)%nat -> getPairs word = []).
Proof.
  intros word. split; [|split; [|split; [|split]]].
  - unfold getPairs. now rewrite getPairs_from_keys.
  - unfold getPairs. apply getPairs_from_NoDup. constructor.
  - apply getPairs_get0.
  - intros a b Na F. rewrite getPairs_get0. now apply count_key_pair_occurrences.
  - intros L. destruct word as [|x [|y word]]; [reflexivity|reflexivity|cbn in L; lia].
Qed.

Lemma getPairs_counts_witness :
  get0 (getPairs [lit "a"; lit "a"; lit "a"; lit "b"]) (lit "a a") = 2%Z
  /\ getPairs [lit "a"] = [].
Proof.
  destruct (getPairs_counts [lit "a"; lit "a"; lit "a"; lit "b"]) as (_ & _ & _ & P & _).
  destruct (getPairs_counts [lit "a"]) as (_ & _ & _ & _ & E).
  split.
  - change (lit "a a") with (pair_key (lit "a") (lit "a")). rewrite P.
    + reflexivity.
    + intros I. cbn in I. destruct I as [I|I]; [discriminate|exact I].
    + repeat constructor; intros I; cbn in I; destruct I as [I|I];
        try discriminate; exact I.
  - apply E. cbn. lia.
Defined.

(** ** What an earlier training leaves behind *)

(** X28.  train never changes the configuration; on a text that is not
    blank, the state it leaves (vocabulary, inverse vocabulary, merges,
    statistics without timings) depends on the configuration and the text
    only, so two tokenizers with the same configuration end in the same
    state whatever they were trained on before, and training twice on the
    same text gives the state of training once; on a blank text, where it
    throws after the reset, trainingStats still holds what it held before. *)
Theorem train_forgets_previous_state : forall (t1 t2 : BPETokenizer) (text : str),
    config (fst (train t1 text)) = config t1
    /\ (blank text = false -> config t1 = config t2 ->
        fst (train t1 text) = fst (train t2 text))
    /\ (blank text = false ->
        fst (train (fst (train t1 text)) text) = fst (train t1 text))
    /\ (blank text = true ->
        trainingStats (fst (train t1 text)) = trainingStats t1).
Proof.
  intros t1 t2 text. split; [apply train_config|]. split; [|split].
  - intros B C. now apply train_same_config.
  - intros B. apply train_same_config; [apply train_config|exact B].
  - intros B. apply (proj1 (train_throws_iff t1 text)) in B. unfold train in *.
    destruct (negb (nonempty text) || Nat.eqb (length (trim text)) 0)%bool;
      [reflexivity|discriminate].
Qed.

Lemma train_forgets_previous_state_witness :
  let t1 := fst (train (constructor no_options) (lit "low lower")) in
  fst (train t1 (lit "a b")) = fst (train (constructor no_options) (lit "a b"))
  /\ trainingStats (fst (train t1 (lit " "))) = trainingStats t1.
Proof.
  cbn zeta.
  destruct (train_forgets_previous_state
              (fst (train (constructor no_options) (lit "low lower")))
              (constructor no_options) (lit "a b")) as (_ & E & _).
  destruct (train_forgets_previous_state
              (fst (train (constructor no_options) (lit "low lower")))
              (constructor no_options) (lit " ")) as (_ & _ & _ & S).
  split; [apply E; reflexivity|apply S; reflexivity].
Defined.

(** ** Encoding replays the training *)

Lemma apply_merges_snoc : forall ms a b x,
    apply_merges (ms ++ [(a, b)]) x = replace_merge a b (apply_merges ms x).
Proof. intros. unfold apply_merges. now rewrite fold_left_app. Qed.

Lemma fold_set_keys_mono : forall {X} (f : X -> str) (g : X -> Z) es (acc : JsMap.t str Z) k,
    In k (JsMap.keys acc) ->
    In k (JsMap.keys (fold_left (fun m x => JsMap.set m (f x) (g x)) es acc)).
Proof.
  intros X f g. induction es as [|x es IH]; intros acc k I; [exact I|].
  cbn [fold_left]. apply IH. apply keys_set_In. now left.
Qed.

Lemma fold_set_keys_new : forall {X} (f : X -> str) (g : X -> Z) es (acc : JsMap.t str Z) x,
    In x es ->
    In (f x) (JsMap.keys (fold_left (fun m x => JsMap.set m (f x) (g x)) es acc)).
Proof.
  intros X f g. induction es as [|y es IH]; intros acc x I; [contradiction|].
  cbn [fold_left]. destruct I as [->|I].
  - apply fold_set_keys_mono. apply keys_set_In. now right.
  - now apply IH.
Qed.

Lemma applyMerge_keys : forall words m k,
    In k (JsMap.keys words) ->
    In (replace_merge (fst m) (snd m) k) (JsMap.keys (applyMerge words m)).
Proof.
  intros words m k I. unfold JsMap.keys in I. apply in_map_iff in I as (e & <- & I).
  unfold applyMerge.
  exact (fold_set_keys_new (fun wf : str * Z => replace_merge (fst m) (snd m) (fst wf))
                           snd words [] e I).
Qed.

Lemma train_loop_replayed : forall (cfg : TokenizerConfig) (text : str) (fuel : nat),
    let st := train_loop fuel cfg (train_init cfg text) in
    (forall e, In e (l_currentWords st) ->
               exists w, In w (wordList_of text)
                         /\ fst e = apply_merges (l_merges st) (processedWord w))
    /\ (forall w, In w (wordList_of text) ->
                  In (apply_merges (l_merges st) (processedWord w))
                     (JsMap.keys (l_currentWords st))).
Proof.
  intros cfg text fuel.
  apply (train_loop_ind cfg
           (fun st =>
              (forall e, In e (l_currentWords st) ->
                         exists w, In w (wordList_of text)
                                   /\ fst e = apply_merges (l_merges st) (processedWord w))
              /\ (forall w, In w (wordList_of text) ->
                            In (apply_merges (l_merges st) (processedWord w))
                               (JsMap.keys (l_currentWords st))))).
  - intros st st' [P Q] _ E. apply train_step_merged in E as ([a b] & -> & _).
    destruct (merged_state_fields st (a, b)) as (-> & -> & _). split.
    + intros e I. apply applyMerge_In in I as (w0 & I & Ee). cbn [fst snd] in Ee.
      destruct (P _ I) as (w & Iw & Ew). cbn [fst] in Ew.
      exists w. split; [exact Iw|]. now rewrite apply_merges_snoc, <- Ew.
    + intros w Iw. rewrite apply_merges_snoc.
      exact (applyMerge_keys (l_currentWords st) (a, b) _ (Q w Iw)).
  - destruct (train_init_fields cfg text) as (Em & _ & _).
    rewrite Em, train_init_words. split.
    + intros e I. apply count_words_In in I as [(w & Iw & E) _]. now exists w.
    + intros w Iw. now apply count_words_keys.
Qed.

(** X29.  After a successful train(text), the table of words the merge loop
    ended with is what tokenize computes for the words of the text: every
    entry of the table is, for some word w of the text, the string
    w.split('').join(' ') + ' </w>' rewritten by all learned merge rules in
    order, and for every word of the text that string is a key of the table. *)
Theorem train_words_are_replayed :
  forall (t0 : BPETokenizer) (text : str) (t : BPETokenizer),
    train t0 text = (t, Ok tt) ->
    exists st,
      st = train_loop (Z.to_nat (maxMerges_of (config t0))) (config t0)
                      (train_init (config t0) text)
      /\ merges t = l_merges st
      /\ (forall e, In e (l_currentWords st) ->
                    exists w, In w (wordList_of text)
                              /\ fst e = apply_merges (merges t) (processedWord w))
      /\ (forall w, In w (wordList_of text) ->
                    In (apply_merges (merges t) (processedWord w))
                       (JsMap.keys (l_currentWords st))).
Proof.
  intros t0 text t E.
  apply train_ok in E as (_ & st & Est & _ & _ & Em & _).
  exists st. split; [exact Est|]. split; [exact Em|].
  rewrite Em, Est. apply train_loop_replayed.
Qed.

Lemma train_words_are_replayed_witness :
  let t := fst (train (constructor no_options) (lit "low lower low")) in
  exists st,
    merges t = l_merges st
    /\ In (apply_merges (merges t) (processedWord (lit "lower")))
          (JsMap.keys (l_currentWords st)).
Proof.
  cbn zeta.
  destruct (train_words_are_replayed (constructor no_options) (lit "low lower low")
              (fst (train (constructor no_options) (lit "low lower low"))) eq_refl)
    as (st & _ & Em & _ & Q).
  exists st. split; [exact Em|]. apply Q. vm_compute. tauto.
Defined.

(** ** Encoding and decoding any text *)

Section AnyText.
Variable t : BPETokenizer.
Variable u : N.
Hypothesis t_specials : forall sp,
    In sp (specialTokens (config t)) -> ~ gsym sp.
Hypothesis t_inverse : forall tok id,
    JsMap.get (vocabulary t) tok = Some id ->
    JsMap.get (reverseVocabulary t) id = Some tok.
Hypothesis t_merges : forall f s,
    In (f, s) (merges t) ->
    gsym_or_marker f /\ gsym_or_marker s
    /\ JsMap.has (vocabulary t) f = true
    /\ JsMap.has (vocabulary t) s = true
    /\ JsMap.has (vocabulary t) (f ++ s) = true.
Hypothesis t_marker : JsMap.has (vocabulary t) marker = true.
Hypothesis t_unknown : JsMap.get (vocabulary t) (unknownToken (config t)) = Some u.
Hypothesis t_unknown_special :
  In (unknownToken (config t)) (specialTokens (config t)).
Hypothesis t_unknown_marker : unknownToken (config t) <> marker.
Hypothesis t_chars : forall x,
    JsMap.has (vocabulary t) x = true -> gsym x ->
    forall c, In c x -> JsMap.has (vocabulary t) [c] = true.

Let known (x : str) : bool := JsMap.has (vocabulary t) x.
Let known_char (c : ascii) : bool := JsMap.has (vocabulary t) [c].
Let lookup (part : str) : list N :=
  match JsMap.get (vocabulary t) part with
  | Some tokenId => [tokenId]
  | None =>
      match JsMap.get (vocabulary t) (unknownToken (config t)) with
      | Some unkId => [unkId]
      | None => []
      end
  end.

Lemma step_unknown : forall st, detokenize_step t st u = st.
Proof.
  intros [words cur]. unfold detokenize_step. rewrite (t_inverse _ _ t_unknown).
  destruct (negb (nonempty (unknownToken (config t)))); [reflexivity|].
  replace (Str.eqb (unknownToken (config t)) marker) with false
    by (symmetry; now apply str_eqb_neq).
  assert (I : includes (specialTokens (config t)) (unknownToken (config t)) = true)
    by now apply includes_spec.
  now rewrite I.
Qed.

Lemma step_known : forall st id x,
    JsMap.get (reverseVocabulary t) id = Some x -> gsym x ->
    detokenize_step t st id = (fst st, snd st ++ x).
Proof.
  intros [words cur] id x G Gx. unfold detokenize_step. rewrite G.
  rewrite (proj2 (nonempty_true x) (gsym_nonempty x Gx)). cbn [negb].
  replace (Str.eqb x marker) with false
    by (symmetry; apply str_eqb_neq; now apply gsym_not_marker).
  assert (Ns : includes (specialTokens (config t)) x = false).
  { destruct (includes (specialTokens (config t)) x) eqn:I; [|reflexivity].
    apply includes_spec in I. exfalso. now apply (t_specials x). }
  now rewrite Ns.
Qed.

(** Decoding the ids of a sequence of symbols: the known ones are put
    together, the others leave nothing. *)
Lemma decode_parts : forall xs st,
    Forall gsym xs ->
    fold_left (detokenize_step t) (flat_map lookup xs) st
    = (fst st, snd st ++ concat (filter known xs)).
Proof.
  induction xs as [|x xs IH]; intros st F.
  - cbn. rewrite app_nil_r. now destruct st.
  - pose proof (Forall_inv F) as Gx. pose proof (Forall_inv_tail F) as Ft.
    cbn [flat_map filter]. rewrite fold_left_app.
    destruct (JsMap.get (vocabulary t) x) as [id|] eqn:G.
    + assert (lookup x = [id]) as -> by (unfold lookup; now rewrite G).
      assert (known x = true) as -> by (unfold known, JsMap.has; now rewrite G).
      cbn [fold_left]. rewrite (step_known st id x (t_inverse _ _ G) Gx).
      rewrite (IH _ Ft). cbn [fst snd concat]. now rewrite app_assoc.
    + assert (lookup x = [u]) as -> by (unfold lookup; now rewrite G, t_unknown).
      assert (known x = false) as -> by (unfold known, JsMap.has; now rewrite G).
      cbn [fold_left]. rewrite step_unknown. now apply IH.
Qed.

Lemma known_parts_chars : forall xs,
    Forall gsym xs ->
    (forall x, In x xs -> known x = true \/ exists c, x = [c] /\ known_char c = false) ->
    concat (filter known xs) = filter known_char (concat xs).
Proof.
  induction xs as [|x xs IH]; intros F K; [reflexivity|].
  pose proof (Forall_inv F) as Gx. pose proof (Forall_inv_tail F) as Ft.
  cbn [filter concat]. rewrite filter_app.
  rewrite <- (IH Ft) by (intros y I; apply K; now right).
  destruct (K x (or_introl eq_refl)) as [Kx|(c & -> & Kc)].
  - rewrite Kx. cbn [concat]. f_equal. symmetry.
    apply forallb_filter_id. apply forallb_forall. intros c Ic.
    unfold known_char. now apply (t_chars x).
  - assert (known [c] = false) as -> by exact Kc.
    cbn [filter]. now rewrite Kc.
Qed.

Lemma word_ids_any : forall w words,
    word_ok w ->
    fold_left (detokenize_step t) (word_ids t w) (words, ([] : str))
    = (if nonempty (filter known_char w) then words ++ [filter known_char w] else words,
       ([] : str)).
Proof.
  intros w words Sw.
  destruct (apply_merges_symbols t t_merges (merges t) (split_chars w))
    as (xs & E & F & C & K); [auto|now apply split_chars_gsyms|].
  rewrite concat_split_chars in C.
  unfold word_ids. rewrite processedWord_word_text by apply Sw. rewrite E.
  rewrite g_split_word_text by assumption. rewrite filter_nonempty_gsyms by assumption.
  change (flat_map
            (fun part =>
               match JsMap.get (vocabulary t) part with
               | Some tokenId => [tokenId]
               | None =>
                   match JsMap.get (vocabulary t) (unknownToken (config t)) with
                   | Some unkId => [unkId]
                   | None => []
                   end
               end) (xs ++ [marker]))
    with (flat_map lookup (xs ++ [marker])).
  rewrite flat_map_app, fold_left_app. rewrite (decode_parts xs _ F).
  cbn [fst snd app flat_map]. unfold lookup. pose proof t_marker as Hm.
  unfold JsMap.has in Hm.
  destruct (JsMap.get (vocabulary t) marker) as [m|] eqn:Gm; [|discriminate].
  cbn [app fold_left]. unfold detokenize_step. rewrite (t_inverse _ _ Gm).
  change (negb (nonempty marker)) with false. rewrite str_eqb_refl. cbv iota.
  rewrite (known_parts_chars xs F), C.
  - destruct (filter known_char w); reflexivity.
  - intros x I. destruct (K x I) as [I'|Kx]; [|now left].
    unfold split_chars in I'. apply in_map_iff in I' as (c & <- & _).
    destruct (known [c]) eqn:Kc; [now left|right]. now exists c.
Qed.

Lemma words_ids_any : forall ws0 words,
    Forall word_ok ws0 ->
    fold_left (detokenize_step t) (flat_map (word_ids t) ws0) (words, ([] : str))
    = (words ++ filter nonempty (map (filter known_char) ws0), ([] : str)).
Proof.
  induction ws0 as [|w ws0 IH]; intros words F.
  - cbn. now rewrite app_nil_r.
  - cbn [flat_map map filter]. rewrite fold_left_app.
    rewrite (word_ids_any w words (Forall_inv F)).
    rewrite (IH _ (Forall_inv_tail F)).
    destruct (nonempty (filter known_char w)); [|reflexivity].
    now rewrite <- app_assoc.
Qed.

Lemma roundtrip_any : forall text,
    exists ids,
      tokenize t text = Ok ids
      /\ detokenize t ids
         = join [" "] (filter nonempty (map (filter known_char) (wordList_of text))).
Proof.
  intros text. eexists.
  split; [apply tokenize_flat_map; exact (has_not_nil _ _ t_marker)|].
  rewrite detokenize_run.
  pose proof (words_ids_any (wordList_of text) [] (wordList_words_ok text)) as R.
  cbn [app] in R.
  match goal with
  | |- finish ?x = _ =>
      replace x
        with (filter nonempty (map (filter known_char) (wordList_of text)), ([] : str))
        by (symmetry; exact R)
  end.
  reflexivity.
Qed.
End AnyText.

Lemma gsym_app_parts : forall a b,
    gsym_or_marker a -> gsym_or_marker b -> gsym (a ++ b) -> gsym a /\ gsym b.
Proof.
  intros a b Ga Gb G.
  pose proof (gsym_or_marker_nonempty a Ga) as Na.
  pose proof (gsym_or_marker_nonempty b Gb) as Nb.
  destruct a as [|c a]; [now elim Na|]. destruct b as [|d b]; [now elim Nb|].
  assert (W : wsym ((c :: a) ++ d :: b)).
  { destruct a as [|c' a].
    - apply (gsym_long_is_word _ c d [] b G). reflexivity.
    - apply (gsym_long_is_word _ c c' [] (a ++ d :: b) G). reflexivity. }
  destruct W as [_ W]. rewrite forallb_app in W. apply andb_true_iff in W as [Wa Wb].
  split; left; (split; [discriminate|assumption]).
Qed.

Lemma train_loop_known_step : forall st bp,
    (forall x, JsMap.has (l_vocabulary st) x = true -> gsym x ->
               forall c, In c x -> JsMap.has (l_vocabulary st) [c] = true) ->
    forall x, gsym x ->
              JsMap.has (l_vocabulary (merged_state st bp)) x = true ->
              JsMap.has (l_vocabulary st) x = true ->
              forall c, In c x -> JsMap.has (l_vocabulary (merged_state st bp)) [c] = true.
Proof.
  intros st bp P x Gx _ Hx c Ic.
  destruct (merged_state_fields st bp) as (_ & _ & _ & Ea).
  assert (Ev : l_vocabulary (merged_state st bp)
               = fst (fst (add_if_new (l_vocabulary st, l_reverseVocabulary st,
                                       l_tokenId st) (fst bp ++ snd bp))))
    by now rewrite <- Ea.
  rewrite Ev. apply add_if_new_has_mono. now apply (P x).
Qed.

(** Every symbol of the vocabulary is made of characters of the vocabulary. *)
Lemma train_loop_known_chars : forall cfg text fuel,
    existsb is_symbol (specialTokens cfg) = false ->
    let st := train_loop fuel cfg (train_init cfg text) in
    forall x, JsMap.has (l_vocabulary st) x = true -> gsym x ->
              forall c, In c x -> JsMap.has (l_vocabulary st) [c] = true.
Proof.
  intros cfg text fuel Sp.
  assert (G : let st := train_loop fuel cfg (train_init cfg text) in
              train_inv_g st
              /\ forall x, JsMap.has (l_vocabulary st) x = true -> gsym x ->
                           forall c, In c x -> JsMap.has (l_vocabulary st) [c] = true);
    [|exact (proj2 G)].
  apply (train_loop_ind cfg
           (fun st =>
              train_inv_g st
              /\ forall x, JsMap.has (l_vocabulary st) x = true -> gsym x ->
                           forall c, In c x -> JsMap.has (l_vocabulary st) [c] = true)).
  - intros st st' [I P] _ E. split; [now apply (step_inv_g cfg st)|].
    pose proof (step_inv_g cfg st st' I E) as (_ & M' & _).
    apply train_step_merged in E as ([a b] & -> & _).
    destruct (merged_state_fields st (a, b)) as (Em & _ & _ & Ea). cbn [fst snd] in Ea.
    assert (Ev : l_vocabulary (merged_state st (a, b))
                 = fst (fst (add_if_new (l_vocabulary st, l_reverseVocabulary st,
                                         l_tokenId st) (a ++ b)))) by now rewrite <- Ea.
    destruct (M' a b) as (Ga & Gb & Ka & Kb & _).
    { rewrite Em. apply in_or_app. right. now left. }
    intros x Hx Gx c Ic. rewrite Ev in Hx. apply has_add_if_new in Hx as [Hx| ->].
    + rewrite Ev. apply add_if_new_has_mono. now apply (P x).
    + destruct (gsym_app_parts a b Ga Gb Gx) as [Sa Sb].
      pose proof (gsym_nonempty a Sa) as Na. pose proof (gsym_nonempty b Sb) as Nb.
      assert (Ka0 : JsMap.has (l_vocabulary st) a = true).
      { rewrite Ev in Ka. apply has_add_if_new in Ka as [Ka|Ka]; [exact Ka|].
        exfalso. apply (f_equal (@length ascii)) in Ka. rewrite length_app in Ka.
        destruct b; [now apply Nb|cbn in Ka; lia]. }
      assert (Kb0 : JsMap.has (l_vocabulary st) b = true).
      { rewrite Ev in Kb. apply has_add_if_new in Kb as [Kb|Kb]; [exact Kb|].
        exfalso. apply (f_equal (@length ascii)) in Kb. rewrite length_app in Kb.
        destruct a; [now apply Na|cbn in Kb; lia]. }
      apply in_app_or in Ic as [Ic|Ic].
      * apply (train_loop_known_step st (a, b) P a Sa Ka Ka0 c Ic).
      * apply (train_loop_known_step st (a, b) P b Sb Kb Kb0 c Ic).
  - split; [apply init_inv_g|].
    destruct (train_init_fields cfg text) as (_ & _ & Ev). rewrite Ev.
    intros x Hx Gx c Ic. apply seed_vocabulary_contents in Hx as [Is|[(d & -> & Id & W)|Em]].
    + exfalso. now apply (no_symbol_special _ Sp x).
    + destruct Ic as [Ec|[]]. subst c.
      apply seed_vocabulary_contents. right. left. now exists d.
    + exfalso. subst x. now apply (gsym_not_marker marker).
Qed.

Lemma trained_known_char : forall t0 text t c,
    train t0 text = (t, Ok tt) ->
    existsb is_symbol (specialTokens (config t0)) = false ->
    clean_char c = true ->
    JsMap.has (vocabulary t) [c] = existsb (Ascii.eqb c) (toLowerCase text).
Proof.
  intros t0 text t c E Sp Cc.
  pose proof (train_encoder_ok _ _ _ E) as (_ & M & _ & _).
  apply clean_char_spec in Cc as [Ws Lc].
  destruct (existsb (Ascii.eqb c) (toLowerCase text)) eqn:X.
  - apply (train_vocabulary_contents_hold _ _ _ E [c]).
    right. left. exists c. split; [reflexivity|]. split; [|exact Ws].
    now apply existsb_char_In.
  - destruct (JsMap.has (vocabulary t) [c]) eqn:Hh; [|reflexivity]. exfalso.
    apply (proj1 (train_vocabulary_contents_hold _ _ _ E [c])) in Hh
      as [Is|[(d & Ed & Id & _)|[Em|(f & s & I & Ef)]]].
    + apply (no_symbol_special _ Sp [c] Is). apply clean_char_gsym.
      apply clean_char_spec. now split.
    + injection Ed as <-. apply existsb_char_In in Id. congruence.
    + discriminate.
    + destruct (M f s I) as (Gf & Gs & _).
      apply gsym_or_marker_nonempty in Gf, Gs.
      apply (f_equal (@length ascii)) in Ef. rewrite length_app in Ef.
      destruct f; [now apply Gf|]. destruct s; [now apply Gs|]. cbn in Ef. lia.
Qed.

(** X30.  After train(text) on a text that is not blank, with special tokens
    none of which is a word-character string or a single non-space
    character, and the unknown token among the special tokens and different
    from '</w>': for every text', tokenize(text') returns ids, and
    detokenize of them is text' lowercased and split into words, with every
    character that does not occur in the lowercased training text removed,
    the words left empty dropped and the others joined by single spaces;
    when every character of text' is white space or occurs in the training
    text, this is the normal form of text'. *)
Theorem roundtrip_any_text : forall (t0 : BPETokenizer) (text text' : str),
    blank text = false ->
    existsb is_symbol (specialTokens (config t0)) = false ->
    In (unknownToken (config t0)) (specialTokens (config t0)) ->
    unknownToken (config t0) <> marker ->
    let t := fst (train t0 text) in
    exists ids,
      tokenize t text' = Ok ids
      /\ detokenize t ids = decoded_text text text'
      /\ (covers text text' = true -> decoded_text text text' = normalized text').
Proof.
  intros t0 text text' B Sp Iu Nu t.
  pose proof (train_blank_or_ok t0 text B) as O.
  assert (E : train t0 text = (t, Ok tt)).
  { subst t. rewrite <- O. apply surjective_pairing. }
  destruct (train_encoder_ok _ _ _ E) as (Inv & M & Hm & _).
  pose proof (train_vocabulary_contents_hold _ _ _ E) as C.
  pose proof (trained_known_char t0 text t) as Kc.
  pose proof E as E0.
  apply train_ok in E0 as (_ & st & Est & Ev & _ & _ & Ecfg).
  assert (Sp' : forall sp, In sp (specialTokens (config t)) -> ~ gsym sp).
  { rewrite Ecfg. now apply no_symbol_special. }
  assert (Hu : JsMap.has (vocabulary t) (unknownToken (config t)) = true).
  { apply C. left. now rewrite Ecfg. }
  unfold JsMap.has in Hu.
  destruct (JsMap.get (vocabulary t) (unknownToken (config t))) as [u|] eqn:Gu;
    [|discriminate].
  assert (Ch : forall x, JsMap.has (vocabulary t) x = true -> gsym x ->
                         forall c, In c x -> JsMap.has (vocabulary t) [c] = true).
  { rewrite Ev, Est. now apply train_loop_known_chars. }
  assert (Is' : In (unknownToken (config t)) (specialTokens (config t)))
    by now rewrite Ecfg.
  assert (Nu' : unknownToken (config t) <> marker) by now rewrite Ecfg.
  destruct (roundtrip_any t u Sp' Inv M Hm Gu Is' Nu' Ch text') as (ids & Et & Ed).
  exists ids. split; [exact Et|].
  assert (Ek : map (filter (fun c => JsMap.has (vocabulary t) [c])) (wordList_of text')
               = map (known_part text) (wordList_of text')).
  { apply map_ext_in. intros w Iw. unfold known_part. apply filter_ext_in.
    intros c Ic. apply (Kc c E Sp).
    destruct (wordList_clean text' w Iw) as [_ F]. rewrite forallb_forall in F.
    now apply F. }
  split.
  - rewrite Ed. unfold decoded_text. now rewrite Ek.
  - intros Cov. unfold decoded_text, normalized. f_equal.
    assert (Id : map (known_part text) (wordList_of text') = wordList_of text').
    { rewrite <- (map_id (wordList_of text')) at 2. apply map_ext_in.
      intros w Iw. unfold known_part. apply forallb_filter_id.
      apply forallb_forall. intros c Ic.
      destruct (covers_words _ _ _ _ Cov Iw Ic) as (w0 & Iw0 & Ic0).
      apply existsb_char_In. now apply (wordList_chars text w0). }
    rewrite Id. clear. pose proof (wordList_words_ok text') as F.
    induction F as [|w ws0 [Ne _] F IH]; [reflexivity|].
    cbn [filter]. rewrite (proj2 (nonempty_true w) Ne). now f_equal.
Qed.

Lemma roundtrip_any_text_witness :
  let t := fst (train (constructor no_options) (lit "Hello,  World!")) in
  exists ids,
    tokenize t (lit "yellow  WORD? zzz") = Ok ids
    /\ detokenize t ids = lit "ellow word".
Proof.
  cbn zeta.
  destruct (roundtrip_any_text (constructor no_options)
              (lit "Hello,  World!") (lit "yellow  WORD? zzz"))
    as (ids & Et & Ed & _).
  - reflexivity.
  - reflexivity.
  - right. now left.
  - discriminate.
  - exists ids. split; [exact Et|]. rewrite Ed. reflexivity.
Defined.
